(* ===== verification/_CoqProject ===== *)
-Q . S2P
Prelude.v
Bytes.v
CodecProps.v
PageTypes.v
Slotted.v
SlottedHeader.v
SlottedDir.v
SlottedCells.v
SlottedProps.v
IndexPage.v
IndexFacts.v
IndexProps.v
IndexCorrupt.v
RwLock.v
Latch.v
LatchFacts.v
LatchProgress.v
LatchSpec.v
LatchProps.v
LatchBackoff.v
LatchBench.v
LatchWeak.v
LatchWeakFacts.v
LatchWeakProps.v
PageTable.v
PageTableProps.v
PageFrame.v
PageFrameProps.v
FrameThreads.v
FrameThreadsProps.v
PageCache.v
Tree.v
UnitTests.v
