(* ===== verification/Prelude.v ===== *)
(** * InkDB: a verification of the page layer and of the buffer layer

    InkDB is an embedded database in the making.  What exists of it is a page
    format with its accessors and the lower half of a buffer manager.

    ** The program

    - [src/src/page/mod.rs]: page and slot identifiers, the byte codecs, page
      kinds, the packed page-type byte, the flag byte, index levels.
    - [src/src/page/slotted_page.rs]: the slotted page.  A page is 4096 bytes: a
      24-byte header, a slot array that grows upward, free space, cells that
      grow downward, and a special area at the end.  [SlottedPageMut] and
      [SlottedPageRef] are the exclusive and the shared view.
    - [src/src/page/internal_page.rs]: the index page, which interprets a slotted
      page: cells carry a child pointer and a key, the special area the right
      sibling (B-link tree), the page-type byte the level.
    - [src/src/buffer/page_table_latch.rs]: the latch under which one thread loads
      a page while the others wait, with double-checked locking.
    - [src/src/buffer/page_table.rs]: the table from page identifiers to shared
      latches; [src/src/buffer/page_frame.rs]: a page behind a readers-writer
      lock, whose guards hand out slotted views.
    - [src/src/buffer/page_cache.rs], [src/src/tree/btree_base.rs],
      [src/src/transaction/tx_memory.rs], [src/src/meta/meta.rs]: interfaces and
      records without behaviour so far.

    A table entry is a latch created from a page identifier; threads look the
    entry up, load it, and reach a frame; a frame lends its page as a slotted
    page; an index page is a view of that.

    ** The model

    - Prelude (this file): the build target, outcomes, the state monad, machine
      integers, byte ranges, little-endian encoding, tactics and hints.
    - Bytes: pages as lists of bytes, safe and raw-pointer access, codecs.
      CodecProps: the equivalence of the safe and the unsafe codecs.
    - PageTypes: identifiers, kinds, types, flags, levels, with their theorems.
    - Slotted: all methods of both slotted views and of the slot directory.
      SlottedHeader: the decoded header and the setters.  SlottedDir: the slot
      array as a list of entries.  SlottedCells: the representation predicate
      [slotted p lim cells] (page [p] holds the list [cells] below offset
      [lim]), the list specification and the refinement lemmas.
      SlottedProps: the theorems.
    - IndexPage: owned and borrowed cells and both index views.  IndexFacts: the
      abstract index state and one refinement lemma per operation.
      IndexProps: the theorems.  IndexCorrupt: index pages whose cells or
      special area are too short.
    - RwLock: the standard library's lock, with poisoning.
    - Latch: [load] and [peek] as sequences of atomic actions of any number of
      threads over the shared latch.  LatchFacts: the invariant.
      LatchProgress: fair rounds.  LatchSpec: the abstract once cell (empty,
      being filled, full) and the forward simulation.  LatchProps: the
      theorems.  LatchBackoff: the counter of the back-off policy.
    - LatchWeak: the same program in a view-based release/acquire memory: the
      state word has a history of messages, a load may return a stale one,
      and every thread keeps the set of data accesses that happen before its
      next action.  LatchWeakFacts: the invariant.  LatchWeakProps: the
      theorems.
    - PageTable: the trait [PageTable] as a class, its laws as a class, the naive
      table, and the system of threads that create, insert, look up and load
      entries.  PageTableProps: the laws of the naive table, the
      invariant, proved against the laws, and the theorems.
    - PageFrame: frames, guards and views.  PageFrameProps: the theorems.
      FrameThreads: any number of threads on one shared frame, whose calls
      begin, write partially and end in separate events.  FrameThreadsProps:
      the invariants and the theorems.
    - PageCache, Tree: the interfaces and records.
    - UnitTests: the bodies of the unit tests of the source, run in the model
      with the assertions as results.  LatchBench: the benchmark of the latch,
      which loads it again and again with growing numbers of threads.

    Definitions keep the names of the source inside a Module per type (a type
    and its methods are [T] and [TImpl] where Rocq needs two names).  A [&self]
    method is a function from the bytes to an outcome, a [&mut self] method a
    computation in the monad [M]; an outcome is [Ok], [Err], a panic, an access
    outside an allocation through a raw pointer ([UB]) or divergence.  Integers
    are [Z] with explicit wrap-around at their width: [+], [-], [*] panic on
    overflow in the debug profile and wrap in the release profile, and
    [debug_assert!] exists in the debug profile only, so every operation takes
    the target (profile and byte order of the host) and the theorems hold for
    all targets unless they say otherwise.

    ** The theorems

    - Slotted page: sequences of insertions refine a list of cells, on every
      branch and without panic or out-of-bounds access; lookup is list lookup;
      iteration over the slots terminates and is complete; space is accounted
      for exactly; setters change their field only and read back, and what they
      do with arguments out of range.  On pages that are not well formed:
      insertions keep a sound header sound whatever the slots contain; lookup stays safe as long as the stored free
      start is within the page, and reads out of bounds otherwise; the
      entry accessor rejects in debug builds a cell the id accessor returns.
    - Index page: sequences of operations refine the abstract index state; the
      search is the specified one and, on sorted keys, the descent rule of the
      tree; every reachable page can be searched safely; cells, siblings and
      levels read back.  On cells and pages that are not well formed: a stored
      key length past the cell panics in debug builds and is read out of bounds
      in release builds; with a short special area the checked accessors panic
      and [get_right_sibling] reads past the page.
    - Codecs: on hosts of either byte order the safe and the unsafe 16-bit
      codecs agree inside the buffer; outside it the safe ones panic and the
      unsafe ones are undefined.
    - Latch: agreement of all loads, mutual exclusion and a single call of the
      loader, race freedom of [load], monotone states, completion within nine
      fair rounds; a failing loader blocks the latch for ever, the back-off
      counter is the number of waits modulo 256 and its overflow panics in debug
      builds, [peek] races with a load in progress.  The latch
      refines a once cell.  Under release/acquire memory, with the orderings
      the source gives its atomics, no load races and all loads agree; the acquire
      of the test and the release of the publication are both needed, the
      orderings of the compare-exchange are not.
    - Page table and frames: the table never holds a dangling handle, a
      page is loaded from its own disk offset and once per entry, and all loads
      through a handle agree; what is written through a frame
      is what is read from it; a panic under the write guard poisons the frame.
      With several threads a writer excludes everybody else, and although
      calls overlap and are not atomic, the replies are those of one caller on
      the list of cells.
    - Packed bytes: the page type is a pair of nibbles, the flags are a set.

    ** Bounds and fuel

    The loop of [find_child_ptr] runs on fuel, one more than the slot count,
    and the search theorem shows that this is always enough ([Diverge] is not
    among the results).  [collect], the loop over the slot iterator, takes its
    fuel as an argument; any number above the slot count suffices.  Progress of
    the latch is stated for schedules of nine rounds: two until a thread wins
    the exchange, four for the owner to publish, three for the others to read.
    Slices have a length below [2^64 - 4], which the address space guarantees.

    ** Not modelled

    [SlottedPageMut::memory_used] has an empty body.  The weak-memory model
    covers the latch only; it has no load buffering (a read never takes its
    value from a write that follows it in program order).  The progress
    theorems are about the interleaving model.  The latch benchmark takes
    the times it measures as an argument.  The buffer manager, the pager,
    leaf pages and the tree are empty files.  Allocation failure, printing
    and the passage of time are left out. *)

From stdpp Require Export prelude list gmap.
From Stdlib Require Export ZArith Lia.
#[global] Open Scope Z_scope.

(** ** Build target

    Rust arithmetic and [debug_assert!] behave differently in the two standard
    profiles, and [read_unaligned(..).to_le()] looks at the byte order of the
    host.  Every modelled operation takes the target as its first argument. *)

Inductive profile := Debug | Release.
Inductive endian := LittleHost | BigHost.

Record target := Target { prof : profile; host : endian }.

#[global] Instance profile_eq_dec : EqDecision profile.
Proof. solve_decision. Defined.
#[global] Instance endian_eq_dec : EqDecision endian.
Proof. solve_decision. Defined.

(** ** Outcomes

    [Ok]/[Err] are the two cases of a Rust [Result]; [Panic] is an unwinding
    panic (a failed assertion, a slice index out of range, a checked overflow);
    [UB] is an access through a raw pointer outside the allocation it was
    derived from; [Diverge] is returned by a loop whose fuel ran out. *)

Inductive res (E A : Type) : Type :=
| Ok (a : A)
| Err (e : E)
| Panic
| UB
| Diverge.
Arguments Ok {E A} a.
Arguments Err {E A} e.
Arguments Panic {E A}.
Arguments UB {E A}.
Arguments Diverge {E A}.

#[global] Instance res_eq_dec `{EqDecision E, EqDecision A} : EqDecision (res E A).
Proof. solve_decision. Defined.

#[global] Instance Ok_inj E A : Inj (=) (=) (@Ok E A).
Proof. by intros ?? [= ->]. Qed.

#[global] Instance res_ret E : MRet (res E) := λ A a, Ok a.
#[global] Instance res_bind E : MBind (res E) := λ A B f r,
  match r with
  | Ok a => f a
  | Err e => Err e
  | Panic => Panic
  | UB => UB
  | Diverge => Diverge
  end.

(** The conversion the [?] operator inserts ([From] on the error type). *)
Definition map_err {E E' A} (f : E → E') (r : res E A) : res E' A :=
  match r with
  | Ok a => Ok a
  | Err e => Err (f e)
  | Panic => Panic
  | UB => UB
  | Diverge => Diverge
  end.

(** An outcome of safe, non-diverging, non-panicking code. *)
Definition defined {E A} (r : res E A) : Prop :=
  match r with Ok _ | Err _ => True | _ => False end.

(** ** State monad

    A [&self] method is a function from the bytes to an outcome; a [&mut self]
    method also returns the bytes it leaves behind, whatever the outcome: an
    [Err] or a panic does not undo the writes made before it. *)

Definition M (S E A : Type) : Type := S → res E A * S.

#[global] Instance M_ret S E : MRet (M S E) := λ A a s, (Ok a, s).
#[global] Instance M_bind S E : MBind (M S E) := λ A B f m s,
  match m s with
  | (Ok a, s') => f a s'
  | (Err e, s') => (Err e, s')
  | (Panic, s') => (Panic, s')
  | (UB, s') => (UB, s')
  | (Diverge, s') => (Diverge, s')
  end.

Definition rd {S E A} (f : S → res E A) : M S E A := λ s, (f s, s).
Definition lift {S E A} (r : res E A) : M S E A := λ s, (r, s).
Definition err {S E A} (e : E) : M S E A := λ s, (Err e, s).
Definition wr {S E} (f : S → S) : M S E unit := λ s, (Ok tt, f s).
Definition M_map_err {S E E' A} (f : E → E') (m : M S E A) : M S E' A := λ s,
  let '(r, s') := m s in (map_err f r, s').

Section MonadFacts.
Context {S E : Type}.

Lemma bind_ok {A B} (m : M S E A) (f : A → M S E B) s a s' :
  m s = (Ok a, s') → (m ≫= f) s = f a s'.
Proof. intros H. unfold mbind, M_bind. by rewrite H. Qed.

Lemma bind_err {A B} (m : M S E A) (f : A → M S E B) s e s' :
  m s = (Err e, s') → (m ≫= f) s = (Err e, s').
Proof. intros H. unfold mbind, M_bind. by rewrite H. Qed.

Lemma bind_panic {A B} (m : M S E A) (f : A → M S E B) s s' :
  m s = (Panic, s') → (m ≫= f) s = (Panic, s').
Proof. intros H. unfold mbind, M_bind. by rewrite H. Qed.

Lemma rd_ok {A} (f : S → res E A) (s : S) a : f s = Ok a → rd f s = (Ok a, s).
Proof. unfold rd. by intros ->. Qed.

Lemma lift_ok {A} (r : res E A) (s : S) a : r = Ok a → lift r s = (Ok a, s).
Proof. unfold lift. by intros ->. Qed.

Lemma M_map_err_ok {E' A} (g : E → E') (m : M S E A) s a s' :
  m s = (Ok a, s') → M_map_err g m s = (Ok a, s').
Proof. unfold M_map_err. by intros ->. Qed.

Lemma M_map_err_err {E' A} (g : E → E') (m : M S E A) s e s' :
  m s = (Err e, s') → M_map_err g m s = (Err (g e), s').
Proof. unfold M_map_err. by intros ->. Qed.
End MonadFacts.

(** ** Machine integers

    [u8], [u16], [u64] and [usize] values are [Z] in the range of their width;
    [usize] has 64 bits.  [add_w m], [sub_w m], [mul_w m] are [+], [-], [*] on
    the type with modulus [m]: overflow panics in [Debug] and wraps around in
    [Release].  [as_w m] is the truncating [as] cast. *)

Definition u8_mod : Z := 256.
Definition u16_mod : Z := 65536.
Definition u64_mod : Z := 18446744073709551616.
Definition usize_mod : Z := u64_mod.
Definition u16_MAX : Z := u16_mod - 1.

Definition in_w (m z : Z) : Prop := 0 ≤ z < m.

Definition arith_w {E} (t : target) (m r : Z) : res E Z :=
  if (0 <=? r) && (r <? m) then Ok r
  else match prof t with
       | Debug => Panic
       | Release => Ok (r mod m)
       end.
Definition add_w {E} (t : target) (m a b : Z) : res E Z := arith_w t m (a + b).
Definition sub_w {E} (t : target) (m a b : Z) : res E Z := arith_w t m (a - b).
Definition mul_w {E} (t : target) (m a b : Z) : res E Z := arith_w t m (a * b).
Definition as_w (m z : Z) : Z := z mod m.

Definition assert {E} (b : bool) : res E unit := if b then Ok tt else Panic.
Definition debug_assert {E} (t : target) (b : bool) : res E unit :=
  match prof t with
  | Debug => assert b
  | Release => Ok tt
  end.

Lemma arith_w_ok {E} t m r : 0 ≤ r < m → @arith_w E t m r = Ok r.
Proof.
  intros H. unfold arith_w.
  by rewrite (proj2 (Z.leb_le 0 r)), (proj2 (Z.ltb_lt r m)) by lia.
Qed.

Lemma add_w_ok {E} t m a b : 0 ≤ a + b < m → @add_w E t m a b = Ok (a + b).
Proof. apply arith_w_ok. Qed.
Lemma sub_w_ok {E} t m a b : 0 ≤ a - b < m → @sub_w E t m a b = Ok (a - b).
Proof. apply arith_w_ok. Qed.
Lemma mul_w_ok {E} t m a b : 0 ≤ a * b < m → @mul_w E t m a b = Ok (a * b).
Proof. apply arith_w_ok. Qed.
Lemma as_w_id m z : 0 ≤ z < m → as_w m z = z.
Proof. apply Z.mod_small. Qed.
Lemma assert_ok {E} (b : bool) : b = true → @assert E b = Ok tt.
Proof. by intros ->. Qed.
Lemma debug_assert_ok {E} t (b : bool) : b = true → @debug_assert E t b = Ok tt.
Proof. intros ->. unfold debug_assert. by destruct (prof t). Qed.

(** ** Byte ranges

    Offsets and lengths are [Z]; [slice] reads a range of a byte list and
    [splice] overwrites one.  Both are only used in range: the accesses that
    call them check their bounds first. *)

Definition zlen {A} (l : list A) : Z := Z.of_nat (length l).
Definition slice (p : list Z) (off len : Z) : list Z :=
  take (Z.to_nat len) (drop (Z.to_nat off) p).
Definition splice (p : list Z) (off : Z) (bs : list Z) : list Z :=
  take (Z.to_nat off) p ++ bs ++ drop (Z.to_nat off + length bs) p.

Arguments zlen : simpl never.
Arguments slice : simpl never.
Arguments splice : simpl never.

Definition is_byte (b : Z) : Prop := 0 ≤ b < u8_mod.
Abbreviation bytes_ok := (Forall is_byte).

#[global] Instance is_byte_dec b : Decision (is_byte b).
Proof. unfold is_byte. apply _. Defined.

Create HintDb consts.
Create HintDb bytes.
Create HintDb page.
#[export] Hint Unfold zlen u8_mod u16_mod u64_mod usize_mod u16_MAX in_w is_byte : consts.

(** Arithmetic with the layout constants and list lengths unfolded. *)
Ltac zlia := autounfold with consts in *; lia.

(** Decide the test of the first [if] of the goal from the context. *)
Ltac if_true :=
  match goal with
  | |- context [if ?b then _ else _] =>
      let H := fresh in assert (b = true) as H by zlia; rewrite H; clear H
  end.
Ltac if_false :=
  match goal with
  | |- context [if ?b then _ else _] =>
      let H := fresh in assert (b = false) as H by zlia; rewrite H; clear H
  end.

Section Ranges.
Implicit Types (p bs : list Z) (off len : Z).

Lemma zlen_nonneg {A} (l : list A) : 0 ≤ zlen l.
Proof. zlia. Qed.

Lemma zlen_app {A} (l k : list A) : zlen (l ++ k) = zlen l + zlen k.
Proof. unfold zlen. rewrite length_app. lia. Qed.

Lemma lookup_slice p off len (i : nat) :
  slice p off len !! i =
    if decide (Z.of_nat i < len) then p !! (Z.to_nat off + i)%nat else None.
Proof.
  unfold slice. case_decide.
  - rewrite lookup_take_lt by lia. by rewrite lookup_drop.
  - by rewrite lookup_take_ge by lia.
Qed.

Lemma length_slice p off len :
  0 ≤ off → 0 ≤ len → off + len ≤ zlen p → length (slice p off len) = Z.to_nat len.
Proof. unfold slice, zlen. intros. rewrite length_take, length_drop. lia. Qed.

Lemma zlen_slice p off len :
  0 ≤ off → 0 ≤ len → off + len ≤ zlen p → zlen (slice p off len) = len.
Proof. intros. unfold zlen at 1. rewrite length_slice by done. lia. Qed.

Lemma length_splice p off bs :
  0 ≤ off → off + zlen bs ≤ zlen p → length (splice p off bs) = length p.
Proof.
  unfold splice, zlen. intros. rewrite !length_app, length_take, length_drop. lia.
Qed.

Lemma zlen_splice p off bs :
  0 ≤ off → off + zlen bs ≤ zlen p → zlen (splice p off bs) = zlen p.
Proof. intros. unfold zlen. by rewrite length_splice. Qed.

Lemma lookup_splice p off bs (i : nat) :
  0 ≤ off → off + zlen bs ≤ zlen p →
  splice p off bs !! i =
    if decide (off ≤ Z.of_nat i < off + zlen bs)
    then bs !! (i - Z.to_nat off)%nat else p !! i.
Proof.
  unfold splice, zlen. intros Ho Hb.
  destruct (decide (i < Z.to_nat off)%nat).
  - rewrite lookup_app_l by (rewrite length_take; lia).
    rewrite lookup_take_lt by lia. by rewrite decide_False by lia.
  - rewrite lookup_app_r by (rewrite length_take; lia).
    rewrite length_take, Nat.min_l by lia. case_decide.
    + by rewrite lookup_app_l by lia.
    + rewrite lookup_app_r by lia. rewrite lookup_drop. f_equal. lia.
Qed.
End Ranges.

(** Extensionality of byte lists through the two lookup lemmas above. *)
Ltac range_ext :=
  apply list_eq; intros ?;
  repeat first
    [ rewrite lookup_slice
    | rewrite lookup_splice by (try rewrite zlen_splice by zlia; zlia) ];
  repeat case_decide;
  try (f_equal; zlia); try (exfalso; zlia); try done.

Section MoreRanges.
Implicit Types (p bs : list Z) (off len : Z).

Lemma slice_splice_same p off bs :
  0 ≤ off → off + zlen bs ≤ zlen p → slice (splice p off bs) off (zlen bs) = bs.
Proof.
  intros. range_ext. symmetry. apply lookup_ge_None. zlia.
Qed.

Lemma slice_splice_disj p off bs off' len :
  0 ≤ off → off + zlen bs ≤ zlen p → 0 ≤ off' →
  off' + len ≤ off ∨ off + zlen bs ≤ off' →
  slice (splice p off bs) off' len = slice p off' len.
Proof. intros. range_ext. Qed.

(** A read inside the range just written. *)
Lemma slice_splice_inside p off bs off' len :
  0 ≤ off → off + zlen bs ≤ zlen p → off ≤ off' → 0 ≤ len → off' + len ≤ off + zlen bs →
  slice (splice p off bs) off' len = slice bs (off' - off) len.
Proof. intros. range_ext. Qed.

Lemma slice_slice p off len off' len' :
  0 ≤ off → 0 ≤ off' → off' + len' ≤ len →
  slice (slice p off len) off' len' = slice p (off + off') len'.
Proof. intros. range_ext. Qed.

Lemma slice_app_l bs k off len :
  0 ≤ off → 0 ≤ len → off + len ≤ zlen bs → slice (bs ++ k) off len = slice bs off len.
Proof.
  intros. range_ext. rewrite lookup_app_l by zlia. done.
Qed.

Lemma slice_app_r bs k off len :
  zlen bs ≤ off → slice (bs ++ k) off len = slice k (off - zlen bs) len.
Proof.
  intros. range_ext. rewrite lookup_app_r by zlia. f_equal. zlia.
Qed.

Lemma slice_full p : slice p 0 (zlen p) = p.
Proof. unfold slice, zlen. rewrite drop_0, Nat2Z.id. apply take_ge. lia. Qed.

Lemma bytes_ok_slice p off len : bytes_ok p → bytes_ok (slice p off len).
Proof. intros. by apply Forall_take, Forall_drop. Qed.

Lemma bytes_ok_splice p off bs : bytes_ok p → bytes_ok bs → bytes_ok (splice p off bs).
Proof.
  intros. apply Forall_app; split; [by apply Forall_take|].
  apply Forall_app; split; [done|by apply Forall_drop].
Qed.
End MoreRanges.

(** ** Little-endian integers *)

Fixpoint to_le_bytes (n : nat) (v : Z) : list Z :=
  match n with
  | O => []
  | S n => v mod u8_mod :: to_le_bytes n (v / u8_mod)
  end.

Fixpoint from_le_bytes (bs : list Z) : Z :=
  match bs with
  | [] => 0
  | b :: bs => b + u8_mod * from_le_bytes bs
  end.

Section LittleEndian.

Lemma length_to_le_bytes n v : length (to_le_bytes n v) = n.
Proof. revert v. induction n; simpl; auto. Qed.

Lemma to_le_bytes_ok n v : bytes_ok (to_le_bytes n v).
Proof.
  revert v. induction n; simpl; constructor; auto.
  apply Z.mod_pos_bound. done.
Qed.

Lemma from_to_le_bytes n v :
  0 ≤ v < u8_mod ^ Z.of_nat n → from_le_bytes (to_le_bytes n v) = v.
Proof.
  revert v. induction n as [|n IH]; intros v Hv.
  - simpl in *. change (256 ^ Z.of_nat 0) with 1 in Hv. zlia.
  - rewrite Nat2Z.inj_succ, Z.pow_succ_r in Hv by lia.
    cbn [to_le_bytes from_le_bytes]. rewrite IH.
    + pose proof (Z.div_mod v u8_mod ltac:(done)). lia.
    + split; [apply Z.div_pos; zlia|]. apply Z.div_lt_upper_bound; zlia.
Qed.

Lemma from_le_bytes_range bs :
  bytes_ok bs → 0 ≤ from_le_bytes bs < u8_mod ^ zlen bs.
Proof.
  unfold zlen. induction 1 as [|b bs Hb _ IH]; [done|].
  cbn [from_le_bytes length]. rewrite Nat2Z.inj_succ, Z.pow_succ_r by lia.
  unfold is_byte in Hb. nia.
Qed.

Lemma to_from_le_bytes bs :
  bytes_ok bs → to_le_bytes (length bs) (from_le_bytes bs) = bs.
Proof.
  induction 1 as [|b bs Hb _ IH]; [done|].
  cbn [from_le_bytes length to_le_bytes]. unfold is_byte in Hb. f_equal.
  - rewrite Z.mul_comm, Z.mod_add by zlia. apply Z.mod_small. lia.
  - rewrite Z.mul_comm, Z.div_add by zlia.
    rewrite (Z.div_small b), Z.add_0_l by lia. done.
Qed.

Lemma from_le_bytes_inj bs bs' :
  bytes_ok bs → bytes_ok bs' → length bs = length bs' →
  from_le_bytes bs = from_le_bytes bs' → bs = bs'.
Proof.
  intros H H' Hl Heq. rewrite <-(to_from_le_bytes bs), <-(to_from_le_bytes bs') by done.
  by rewrite Hl, Heq.
Qed.
End LittleEndian.
