(* ===== verification/Bytes.v ===== *)
(** * Byte access (src/src/page/mod.rs, lines 9-68)

    The raw page, the Rust primitives that reach into it (checked indexing,
    checked slicing, raw-pointer reads and copies), and the four little-endian
    codecs.  A raw pointer into a byte array is its offset from the start of
    the array; an access that leaves the array is [UB]. *)

From S2P Require Import Prelude.

(** [type RawPage = [u8; 4096]]: a byte list; [page_ok] is the type invariant. *)
Definition PAGE_SIZE : Z := 4096.
Definition RawPage : Type := list Z.

Definition page_ok (p : list Z) : Prop := zlen p = PAGE_SIZE ∧ bytes_ok p.

#[export] Hint Unfold PAGE_SIZE : consts.

#[global] Instance page_ok_dec p : Decision (page_ok p).
Proof. unfold page_ok. apply _. Defined.

(** ** Language primitives *)

Section Primitives.
Context {E : Type}.

(** [p[i]] *)
Definition index (p : list Z) (i : Z) : res E Z :=
  if 0 <=? i then match p !! Z.to_nat i with Some b => Ok b | None => Panic end
  else Panic.

(** [&p[a..b]] *)
Definition index_range (p : list Z) (a b : Z) : res E (list Z) :=
  if (0 <=? a) && (a <=? b) && (b <=? zlen p) then Ok (slice p a (b - a)) else Panic.

(** [p[i] = v] *)
Definition set_index (i v : Z) : M (list Z) E unit := λ p,
  if (0 <=? i) && (i <? zlen p) then (Ok tt, splice p i [v]) else (Panic, p).

(** [p[a..b].copy_from_slice(src)] *)
Definition copy_from_slice (a b : Z) (src : list Z) : M (list Z) E unit := λ p,
  if (0 <=? a) && (a <=? b) && (b <=? zlen p) && (zlen src =? b - a)
  then (Ok tt, splice p a src) else (Panic, p).

(** A raw read of [n] bytes at offset [off] of the array. *)
Definition ptr_read (p : list Z) (off n : Z) : res E (list Z) :=
  if (0 <=? off) && (0 <=? n) && (off + n <=? zlen p) then Ok (slice p off n) else UB.

(** [ptr::copy_nonoverlapping(src, dst.add(off), n)] from another buffer. *)
Definition copy_nonoverlapping (src : list Z) (off n : Z) : M (list Z) E unit := λ p,
  if (0 <=? off) && (0 <=? n) && (n <=? zlen src) && (off + n <=? zlen p)
  then (Ok tt, splice p off (slice src 0 n)) else (UB, p).

(** [ptr::copy(base.add(src), base.add(dst), n)] inside the array (a memmove). *)
Definition ptr_copy (src dst n : Z) : M (list Z) E unit := λ p,
  if (0 <=? src) && (0 <=? dst) && (0 <=? n) && (src + n <=? zlen p) && (dst + n <=? zlen p)
  then (Ok tt, splice p dst (slice p src n)) else (UB, p).
End Primitives.

(** [ptr::read_unaligned(p as *const uN)]: the bytes in the host's order. *)
Definition read_unaligned {E} (t : target) (n : nat) (p : list Z) (off : Z) : res E Z :=
  bs ← ptr_read p off (Z.of_nat n);
  Ok (match host t with
      | LittleHost => from_le_bytes bs
      | BigHost => from_le_bytes (reverse bs)
      end).

(** [uN::to_le]: the identity on a little-endian host, a byte swap otherwise. *)
Definition to_le (t : target) (n : nat) (v : Z) : Z :=
  match host t with
  | LittleHost => v
  | BigHost => from_le_bytes (reverse (to_le_bytes n v))
  end.

(** ** The codecs *)

Definition read_u16_le {E} (bytes : list Z) : res E Z :=
  buf ← index_range bytes 0 2;
  Ok (from_le_bytes buf).

Definition write_u16_le {E} (value : Z) : M (list Z) E unit :=
  copy_from_slice 0 2 (to_le_bytes 2 value).

Definition read_u16_le_unsafe {E} (t : target) (p : list Z) (ptr : Z) : res E Z :=
  v ← read_unaligned t 2 p ptr;
  Ok (to_le t 2 v).

Definition write_u16_le_unsafe {E} (b_ptr value : Z) : M (list Z) E unit :=
  let bytes := to_le_bytes 2 value in
  copy_nonoverlapping bytes b_ptr 2.

Definition read_u64_le_unsafe {E} (t : target) (p : list Z) (ptr : Z) : res E Z :=
  v ← read_unaligned t 8 p ptr;
  Ok (to_le t 8 v).

Definition write_u64_le_unsafe {E} (b_ptr value : Z) : M (list Z) E unit :=
  let bytes := to_le_bytes 8 value in
  copy_nonoverlapping bytes b_ptr 8.

(** ** Reference reads: the little-endian integer stored at an offset *)

Definition u8_at (p : list Z) (off : Z) : Z := from_le_bytes (slice p off 1).
Definition u16_at (p : list Z) (off : Z) : Z := from_le_bytes (slice p off 2).
Definition u64_at (p : list Z) (off : Z) : Z := from_le_bytes (slice p off 8).

(** ** Facts *)

Section PrimitiveFacts.
Context {E : Type}.
Implicit Types (p src : list Z).

Lemma index_range_ok p a b :
  0 ≤ a ≤ b → b ≤ zlen p → @index_range E p a b = Ok (slice p a (b - a)).
Proof.
  intros. unfold index_range. by if_true.
Qed.

Lemma index_ok p i :
  0 ≤ i < zlen p → bytes_ok p → @index E p i = Ok (u8_at p i).
Proof.
  intros Hi Hp. unfold index, u8_at. if_true.
  destruct (lookup_lt_is_Some_2 p (Z.to_nat i)) as [b Hb]; [zlia|].
  rewrite Hb. f_equal. unfold slice. rewrite (drop_S _ _ _ Hb).
  change (Z.to_nat 1) with 1%nat. rewrite firstn_cons. rewrite take_0. cbn [from_le_bytes]. lia.
Qed.

Lemma set_index_ok p i v :
  0 ≤ i < zlen p → @set_index E i v p = (Ok tt, splice p i [v]).
Proof.
  intros. unfold set_index. by if_true.
Qed.

Lemma copy_from_slice_ok p a b src :
  0 ≤ a ≤ b → b ≤ zlen p → zlen src = b - a →
  @copy_from_slice E a b src p = (Ok tt, splice p a src).
Proof.
  intros. unfold copy_from_slice. by if_true.
Qed.

Lemma ptr_read_ok p off n :
  0 ≤ off → 0 ≤ n → off + n ≤ zlen p → @ptr_read E p off n = Ok (slice p off n).
Proof. intros. unfold ptr_read. by if_true. Qed.

Lemma ptr_read_ub p off n :
  0 ≤ off → 0 ≤ n → zlen p < off + n → @ptr_read E p off n = UB.
Proof.
  intros. unfold ptr_read. by if_false.
Qed.

Lemma copy_nonoverlapping_ok p src off n :
  0 ≤ off → n = zlen src → off + n ≤ zlen p →
  @copy_nonoverlapping E src off n p = (Ok tt, splice p off src).
Proof.
  intros ? -> ?. pose proof (zlen_nonneg src). unfold copy_nonoverlapping.
  if_true. by rewrite slice_full.
Qed.

Lemma ptr_copy_ok p (src dst n : Z) :
  0 ≤ src → 0 ≤ dst → 0 ≤ n → src + n ≤ zlen p → dst + n ≤ zlen p →
  @ptr_copy E src dst n p = (Ok tt, splice p dst (slice p src n)).
Proof. intros. unfold ptr_copy. by if_true. Qed.

(** The host's byte order does not show in the result of a read. *)
Lemma to_le_read_unaligned t n p off :
  bytes_ok p → 0 ≤ off → off + Z.of_nat n ≤ zlen p →
  (v ← @read_unaligned E t n p off; Ok (to_le t n v))
  = Ok (from_le_bytes (slice p off (Z.of_nat n))).
Proof.
  intros Hp Ho Hb. unfold read_unaligned. rewrite ptr_read_ok by lia. cbn.
  unfold to_le. destruct (host t); [done|]. do 2 f_equal.
  assert (Hl : length (slice p off (Z.of_nat n)) = n) by (rewrite length_slice by lia; lia).
  rewrite <-Hl at 1. rewrite <-length_reverse, to_from_le_bytes.
  - by rewrite reverse_involutive.
  - by apply Forall_reverse, bytes_ok_slice.
Qed.

Lemma read_u16_le_unsafe_ok t p off :
  bytes_ok p → 0 ≤ off → off + 2 ≤ zlen p →
  @read_u16_le_unsafe E t p off = Ok (u16_at p off).
Proof. intros. by apply (to_le_read_unaligned t 2). Qed.

Lemma read_u64_le_unsafe_ok t p off :
  bytes_ok p → 0 ≤ off → off + 8 ≤ zlen p →
  @read_u64_le_unsafe E t p off = Ok (u64_at p off).
Proof. intros. by apply (to_le_read_unaligned t 8). Qed.

Lemma read_u16_le_unsafe_ub t p off :
  0 ≤ off → zlen p < off + 2 → @read_u16_le_unsafe E t p off = UB.
Proof.
  intros. unfold read_u16_le_unsafe, read_unaligned. by rewrite ptr_read_ub by lia.
Qed.

Lemma write_u16_le_unsafe_ok p off v :
  0 ≤ off → off + 2 ≤ zlen p →
  @write_u16_le_unsafe E off v p = (Ok tt, splice p off (to_le_bytes 2 v)).
Proof. intros. by apply copy_nonoverlapping_ok. Qed.

Lemma write_u64_le_unsafe_ok p off v :
  0 ≤ off → off + 8 ≤ zlen p →
  @write_u64_le_unsafe E off v p = (Ok tt, splice p off (to_le_bytes 8 v)).
Proof. intros. by apply copy_nonoverlapping_ok. Qed.
End PrimitiveFacts.

Section FieldFacts.
Implicit Types (p bs : list Z).

Lemma zlen_le16 v : zlen (to_le_bytes 2 v) = 2.
Proof. done. Qed.
Lemma zlen_le64 v : zlen (to_le_bytes 8 v) = 8.
Proof. done. Qed.
Lemma zlen_byte (v : Z) : zlen [v] = 1.
Proof. done. Qed.

Lemma u8_at_range p off : bytes_ok p → 0 ≤ off → off + 1 ≤ zlen p → 0 ≤ u8_at p off < u8_mod.
Proof.
  intros. pose proof (from_le_bytes_range _ (bytes_ok_slice p off 1 ltac:(done))) as H'.
  rewrite zlen_slice in H' by lia. exact H'.
Qed.

Lemma u16_at_range p off : bytes_ok p → 0 ≤ off → off + 2 ≤ zlen p → 0 ≤ u16_at p off < u16_mod.
Proof.
  intros. pose proof (from_le_bytes_range _ (bytes_ok_slice p off 2 ltac:(done))) as H'.
  rewrite zlen_slice in H' by lia. exact H'.
Qed.

Lemma page_ok_splice p off bs :
  page_ok p → bytes_ok bs → 0 ≤ off → off + zlen bs ≤ PAGE_SIZE → page_ok (splice p off bs).
Proof.
  intros [Hl Hb] Hbs ? ?. split; [|by apply bytes_ok_splice].
  by rewrite zlen_splice by lia.
Qed.
End FieldFacts.

#[export] Hint Resolve to_le_bytes_ok bytes_ok_slice : bytes.
