(* ===== verification/CodecProps.v ===== *)
(** * Equivalence of the byte codecs

    The slice-based and the pointer-based codecs of src/src/page/mod.rs compute
    the same function on both byte orders; they differ only outside the buffer. *)

From S2P Require Import Prelude Bytes.

(** Reading through [&p[off..]], as a caller of the safe codec does. *)
Definition read_u16_le_at {E} (p : list Z) (off : Z) : res E Z :=
  bs ← index_range p off (zlen p); read_u16_le bs.

(** C37: The two 16-bit decoders agree wherever both are defined, on hosts of
    either byte order, and return the little-endian value; past the end of the
    buffer the safe one panics and the unsafe one is undefined.  The two
    encoders leave the same buffer, and both decoders give back the value; on a
    buffer that is too short they panic and are undefined as well. *)
Theorem u16_codecs_agree {E} (t : target) (p : list Z) (off v : Z)
    (Hp : bytes_ok p) (Ho : 0 ≤ off ≤ zlen p) (Hv : 0 ≤ v < u16_mod) :
  (off + 2 ≤ zlen p →
     read_u16_le_unsafe (E:=E) t p off = Ok (u16_at p off) ∧
     read_u16_le_at (E:=E) p off = Ok (u16_at p off)) ∧
  (zlen p < off + 2 →
     read_u16_le_unsafe (E:=E) t p off = UB ∧ read_u16_le_at (E:=E) p off = Panic) ∧
  (zlen p < 2 →
     write_u16_le (E:=E) v p = (Panic, p) ∧ write_u16_le_unsafe (E:=E) 0 v p = (UB, p)) ∧
  (2 ≤ zlen p →
     write_u16_le (E:=E) v p = write_u16_le_unsafe 0 v p ∧
     (let p' := (write_u16_le (E:=E) v p).2 in
      zlen p' = zlen p ∧ slice p' 2 (zlen p - 2) = slice p 2 (zlen p - 2) ∧
      read_u16_le (E:=E) p' = Ok v ∧ read_u16_le_unsafe (E:=E) t p' 0 = Ok v)).
Proof.
  split_and!.
  - intros Hin. split; [apply read_u16_le_unsafe_ok; [done|lia..]|].
    unfold read_u16_le_at, read_u16_le. rewrite index_range_ok by lia. cbn [mbind res_bind].
    rewrite index_range_ok by (rewrite ?zlen_slice; lia). cbn. f_equal. unfold u16_at.
    rewrite slice_slice by lia. f_equal. f_equal. lia.
  - intros Hout. split; [apply read_u16_le_unsafe_ub; lia|].
    unfold read_u16_le_at, read_u16_le. rewrite index_range_ok by lia. cbn [mbind res_bind].
    unfold index_range. rewrite zlen_slice by lia. if_false. done.
  - intros Hs. split.
    + unfold write_u16_le, copy_from_slice. rewrite zlen_le16. if_false. done.
    + unfold write_u16_le_unsafe, copy_nonoverlapping. rewrite zlen_le16. if_false. done.
  - intros H2. unfold write_u16_le. rewrite copy_from_slice_ok by (rewrite ?zlen_le16; lia).
    split; [by rewrite write_u16_le_unsafe_ok by lia|]. cbv zeta. cbn [snd].
    set (p' := splice p 0 (to_le_bytes 2 v)).
    assert (Hl : zlen p' = zlen p) by (apply zlen_splice; rewrite ?zlen_le16; lia).
    assert (Hval : u16_at p' 0 = v).
    { transitivity (from_le_bytes (slice p' 0 (zlen (to_le_bytes 2 v)))); [done|]. unfold p'.
      rewrite slice_splice_same by (rewrite ?zlen_le16; lia). by apply from_to_le_bytes. }
    split_and!; [done| | |].
    + apply slice_splice_disj; rewrite ?zlen_le16; lia.
    + unfold read_u16_le. rewrite index_range_ok by lia. cbn. by rewrite <- Hval.
    + rewrite read_u16_le_unsafe_ok; [by rewrite Hval| |lia..].
      apply bytes_ok_splice; [done|apply to_le_bytes_ok].
Qed.

Lemma u16_codecs_agree_witness :
  read_u16_le_unsafe (E:=Empty_set) (Target Debug BigHost) [1; 2; 3] 1 = Ok (u16_at [1; 2; 3] 1) ∧
  read_u16_le_at (E:=Empty_set) [1; 2; 3] 1 = Ok 770.
Proof.
  refine (proj1 (u16_codecs_agree (Target Debug BigHost) [1; 2; 3] 1 5 _ _ _) _).
  - apply (bool_decide_unpack _). vm_compute. exact I.
  - vm_compute. split; congruence.
  - vm_compute. split; congruence.
  - vm_compute. congruence.
Defined.
