(* ===== verification/PageTypes.v ===== *)
(** * Page identifiers, kinds, types and flags (src/src/page/mod.rs, lines 11-310)

    [PageID] and [SlotID], the packed page-type byte (kind in the low nibble,
    subtype or index level in the high one), the flag byte and the index
    level.  A [u8] is a [Z]; [!x] on [u8] is [not_u8]; a left shift on [u8]
    drops the bits above bit 7. *)

From S2P Require Import Prelude Bytes.

(** ** Identifiers *)

Record PageID := MkPageID { PageID_0 : Z }.
Record SlotID := MkSlotID { SlotID_0 : Z }.

#[global] Instance PageID_eq_dec : EqDecision PageID.
Proof. solve_decision. Defined.
#[global] Instance PageID_countable : Countable PageID.
Proof. apply (inj_countable' PageID_0 MkPageID). by intros []. Defined.

Module PageIDImpl.
Definition into (self : PageID) : Z := PageID_0 self.
Definition to_offset {E} (t : target) (self : PageID) : res E Z :=
  mul_w t u64_mod (PageID_0 self) PAGE_SIZE.
Definition from (value : Z) : PageID := MkPageID value.
End PageIDImpl.

(** ** Bytes as bit fields *)

Definition not_u8 (x : Z) : Z := Z.lxor x 255.
Definition shl_u8 (x n : Z) : Z := as_w u8_mod (Z.shiftl x n).

Definition PAGE_TYPE_MASK : Z := 15.
Definition SUBTYPE_MASK : Z := 240.

Definition PT_UNDEFINED : Z := 0.
Definition PT_HEAP : Z := 1.
Definition PT_INDEX_INTERNAL : Z := 2.
Definition PT_INDEX_MINI_LEAF : Z := 3.
Definition PT_INDEX_LEAF : Z := 4.
Definition PT_META : Z := 5.
Definition PT_FREE : Z := 6.

(** ** PageKind *)

Inductive PageKind :=
| Heap
| IndexInternal
| IndexMiniLeaf
| IndexLeaf
| Meta
| Free
| Undefined.

#[global] Instance PageKind_eq_dec : EqDecision PageKind.
Proof. solve_decision. Defined.

Module PageKindImpl.
(** [kind as u8]: the discriminant. *)
Definition as_u8 (k : PageKind) : Z :=
  match k with
  | Heap => 1
  | IndexInternal => 2
  | IndexMiniLeaf => 3
  | IndexLeaf => 4
  | Meta => 5
  | Free => 6
  | Undefined => 255
  end.

(** [impl From<PageKind> for u8] *)
Definition into_u8 (pt : PageKind) : Z :=
  match pt with
  | Undefined => PT_UNDEFINED
  | Heap => PT_HEAP
  | IndexInternal => PT_INDEX_INTERNAL
  | IndexMiniLeaf => PT_INDEX_MINI_LEAF
  | IndexLeaf => PT_INDEX_LEAF
  | Meta => PT_META
  | Free => PT_FREE
  end.

Definition from_u8 (pt : Z) : option PageKind :=
  if pt =? PT_UNDEFINED then Some Undefined
  else if pt =? PT_HEAP then Some Heap
  else if pt =? PT_INDEX_INTERNAL then Some IndexInternal
  else if pt =? PT_INDEX_MINI_LEAF then Some IndexMiniLeaf
  else if pt =? PT_INDEX_LEAF then Some IndexLeaf
  else if pt =? PT_META then Some Meta
  else if pt =? PT_FREE then Some Free
  else None.

Definition uses_slotted_page_layout (k : PageKind) : bool :=
  match k with
  | Heap => false
  | IndexInternal => true
  | IndexMiniLeaf => true
  | IndexLeaf => true
  | Meta => false
  | Free => false
  | Undefined => false
  end.
End PageKindImpl.

(** ** PageType *)

Record PageType := MkPageType { PageType_0 : Z }.

Module PageTypeImpl.
Definition new (pt pst : Z) : PageType :=
  let page_type := Z.land pt PAGE_TYPE_MASK in
  let sub_type := shl_u8 (Z.land pst PAGE_TYPE_MASK) 4 in
  MkPageType (Z.lor page_type sub_type).

Definition raw (self : PageType) : Z := PageType_0 self.
Definition page_type (self : PageType) : Z := Z.land (PageType_0 self) PAGE_TYPE_MASK.
Definition page_kind (self : PageType) : PageKind :=
  match PageKindImpl.from_u8 (page_type self) with
  | Some k => k
  | None => Undefined
  end.
Definition page_sub_type (self : PageType) : Z :=
  Z.shiftr (Z.land (PageType_0 self) SUBTYPE_MASK) 4.
Definition set_page_type (pt : Z) (self : PageType) : PageType :=
  MkPageType (Z.lor (Z.land (PageType_0 self) (not_u8 PAGE_TYPE_MASK)) (Z.land pt PAGE_TYPE_MASK)).
Definition set_subtype_page_bits (pst : Z) (self : PageType) : PageType :=
  MkPageType (Z.lor (Z.land (PageType_0 self) (not_u8 SUBTYPE_MASK))
                    (shl_u8 (Z.land pst PAGE_TYPE_MASK) 4)).
Definition into_u8 (pt : PageType) : Z := PageType_0 pt.
Definition from_u8 (raw : Z) : PageType := MkPageType raw.
End PageTypeImpl.

(** ** PageStates and PageFlags *)

Definition NO_STATE : Z := 0.
Definition FAST_PARENT : Z := 1.
Definition DELETED : Z := 2.
Definition HALF_DELETED : Z := 4.
Definition INCOMPLETE_SPLIT : Z := 8.
Definition HAS_OVERFLOW : Z := 16.

Inductive PageStates :=
| NoState
| FastParent
| Deleted
| HalfDeleted
| IncompleteSplit
| HasOverflow.

#[global] Instance PageStates_eq_dec : EqDecision PageStates.
Proof. solve_decision. Defined.

Module PageStatesImpl.
Definition from_u8 (pf : Z) : option PageStates :=
  if pf =? FAST_PARENT then Some FastParent
  else if pf =? DELETED then Some Deleted
  else if pf =? HALF_DELETED then Some HalfDeleted
  else if pf =? INCOMPLETE_SPLIT then Some IncompleteSplit
  else if pf =? HAS_OVERFLOW then Some HasOverflow
  else None.

Definition bit (self : PageStates) : Z :=
  match self with
  | FastParent => FAST_PARENT
  | Deleted => DELETED
  | HalfDeleted => HALF_DELETED
  | IncompleteSplit => INCOMPLETE_SPLIT
  | HasOverflow => HAS_OVERFLOW
  | NoState => NO_STATE
  end.
End PageStatesImpl.

Record PageFlags := MkPageFlags { PageFlags_0 : Z }.

Module PageFlagsImpl.
Definition new (pf : PageStates) : PageFlags := MkPageFlags (PageStatesImpl.bit pf).
Definition set_flag (pf : PageStates) (self : PageFlags) : PageFlags :=
  MkPageFlags (Z.lor (PageFlags_0 self) (PageStatesImpl.bit pf)).
Definition clear_flag (pf : PageStates) (self : PageFlags) : PageFlags :=
  MkPageFlags (Z.land (PageFlags_0 self) (not_u8 (PageStatesImpl.bit pf))).
Definition has_flag (self : PageFlags) (pf : PageStates) : bool :=
  negb (Z.land (PageFlags_0 self) (PageStatesImpl.bit pf) =? 0).
Definition extract_all_flags (self : PageFlags) : list PageStates :=
  let flags := [] in
  let flags := if has_flag self FastParent then flags ++ [FastParent] else flags in
  let flags := if has_flag self Deleted then flags ++ [Deleted] else flags in
  let flags := if has_flag self HalfDeleted then flags ++ [Deleted] else flags in
  let flags := if has_flag self IncompleteSplit then flags ++ [IncompleteSplit] else flags in
  let flags := if has_flag self HasOverflow then flags ++ [HasOverflow] else flags in
  flags.
End PageFlagsImpl.

(** ** IndexLevel *)

Record IndexLevel := MkIndexLevel { IndexLevel_0 : Z }.

Module IndexLevelImpl.
Definition MAX : Z := 15.
Definition new {E} (level : Z) : res E IndexLevel :=
  _ ← assert (level <=? MAX);
  Ok (MkIndexLevel level).
Definition into (self : IndexLevel) : Z := IndexLevel_0 self.
Definition from {E} (value : Z) : res E IndexLevel := new value.
End IndexLevelImpl.

(** ** Nibble arithmetic *)

Section Nibbles.

Lemma land_nibble_range x : 0 ≤ Z.land x 15 < 16.
Proof. change 15 with (Z.ones 4). rewrite Z.land_ones by lia. apply Z.mod_pos_bound. lia. Qed.

Lemma shl_u8_nibble x : shl_u8 (Z.land x 15) 4 = Z.land (Z.shiftl x 4) 240.
Proof.
  unfold shl_u8. rewrite as_w_id.
  - by rewrite Z.shiftl_land.
  - pose proof (land_nibble_range x). rewrite Z.shiftl_mul_pow2 by lia. zlia.
Qed.

Lemma land_masked a m n : Z.land (Z.land a m) n = Z.land a (Z.land m n).
Proof. by rewrite Z.land_assoc. Qed.

Lemma shiftr_high_nibble x : Z.shiftr (Z.land (Z.shiftl x 4) 240) 4 = Z.land x 15.
Proof.
  rewrite Z.shiftr_land, Z.shiftr_shiftl_l by lia. change (Z.shiftr 240 4) with 15.
  by rewrite Z.sub_diag, Z.shiftl_0_r.
Qed.

Lemma lor_lt_256 a b : 0 ≤ a < 256 → 0 ≤ b < 256 → 0 ≤ Z.lor a b < 256.
Proof.
  intros Ha Hb. rewrite <-(Z.mod_small a 256), <-(Z.mod_small b 256) by lia.
  change 256 with (2 ^ 8). rewrite <-!Z.land_ones by lia.
  rewrite <-Z.land_lor_distr_l, Z.land_ones by lia. apply Z.mod_pos_bound. lia.
Qed.

Lemma land_byte_range x m : 0 ≤ m < 256 → 0 ≤ Z.land x m < 256.
Proof.
  intros Hm. rewrite <-(Z.mod_small m 256) by lia. change 256 with (2 ^ 8).
  rewrite <-Z.land_ones, Z.land_assoc, Z.land_ones by lia. apply Z.mod_pos_bound. lia.
Qed.
End Nibbles.

(** Reduce a nibble of a packed byte to the field it was packed from. *)
Ltac nibbles :=
  unfold PageTypeImpl.new, PageTypeImpl.page_type, PageTypeImpl.page_sub_type,
    PageTypeImpl.set_page_type, PageTypeImpl.set_subtype_page_bits,
    PAGE_TYPE_MASK, SUBTYPE_MASK in *; cbn [PageType_0];
  change (not_u8 15) with 240; change (not_u8 240) with 15;
  rewrite ?shl_u8_nibble, ?Z.land_lor_distr_l, ?land_masked;
  change (Z.land 240 15) with 0; change (Z.land 15 240) with 0;
  change (Z.land 240 240) with 240; change (Z.land 15 15) with 15;
  rewrite ?Z.land_0_r, ?Z.lor_0_r, ?Z.lor_0_l, ?shiftr_high_nibble; try done.

(** ** PageType *)

Module PageTypeFacts.
Import PageTypeImpl.

Lemma page_type_new pt pst : page_type (new pt pst) = Z.land pt 15.
Proof. nibbles. Qed.
Lemma page_sub_type_new pt pst : page_sub_type (new pt pst) = Z.land pst 15.
Proof. nibbles. Qed.
Lemma page_type_set_page_type x pt : page_type (set_page_type x pt) = Z.land x 15.
Proof. nibbles. Qed.
Lemma page_sub_type_set_page_type x pt :
  page_sub_type (set_page_type x pt) = page_sub_type pt.
Proof. nibbles. Qed.
Lemma page_type_set_subtype x pt :
  page_type (set_subtype_page_bits x pt) = page_type pt.
Proof. nibbles. Qed.
Lemma page_sub_type_set_subtype x pt :
  page_sub_type (set_subtype_page_bits x pt) = Z.land x 15.
Proof. nibbles. Qed.

Lemma raw_new_range pt pst : 0 ≤ raw (new pt pst) < 256.
Proof. unfold raw. nibbles. apply lor_lt_256; by apply land_byte_range. Qed.
Lemma raw_set_page_type_range x pt : 0 ≤ raw (set_page_type x pt) < 256.
Proof. unfold raw. nibbles. apply lor_lt_256; by apply land_byte_range. Qed.
Lemma raw_set_subtype_range x pt : 0 ≤ raw (set_subtype_page_bits x pt) < 256.
Proof. unfold raw. nibbles. apply lor_lt_256; by apply land_byte_range. Qed.

Lemma page_sub_type_range pt : 0 ≤ page_sub_type pt ≤ 15.
Proof.
  unfold page_sub_type, SUBTYPE_MASK. rewrite Z.shiftr_land.
  change (Z.shiftr 240 4) with 15. pose proof (land_nibble_range (Z.shiftr (PageType_0 pt) 4)). lia.
Qed.

(** The byte as a number: the kind plus sixteen times the level. *)
Lemma set_subtype_value x pt :
  PageType_0 (set_subtype_page_bits x pt) = PageType_0 pt mod 16 + 16 * (x mod 16).
Proof.
  unfold set_subtype_page_bits, PAGE_TYPE_MASK, SUBTYPE_MASK. cbn [PageType_0].
  change (not_u8 240) with (Z.ones 4). change 15 with (Z.ones 4). rewrite !Z.land_ones by lia.
  change (2 ^ 4) with 16. pose proof (Z.mod_pos_bound x 16 ltac:(lia)).
  unfold shl_u8. rewrite Z.shiftl_mul_pow2, as_w_id by (unfold u8_mod; lia).
  rewrite <- Z.shiftl_mul_pow2, <- Z.add_nocarry_lor by first [lia | apply Z.bits_inj'; intros n Hn;
    rewrite Z.land_spec, Z.bits_0; destruct (Z.ltb_spec n 4);
    [by rewrite Z.shiftl_spec_low, andb_false_r
    |change 16 with (2 ^ 4); by rewrite Z.mod_pow2_bits_high by lia]].
  rewrite Z.shiftl_mul_pow2 by lia. lia.
Qed.

Lemma page_kind_eq pt pt' : page_type pt = page_type pt' → page_kind pt = page_kind pt'.
Proof. unfold page_kind. by intros ->. Qed.

(** C29: The packed page-type byte is a pair of independent nibbles: [new]
    stores the low four bits of each argument, each setter replaces its own
    nibble and leaves the other, and every byte produced fits in a [u8]. *)
Theorem page_type_nibbles pt pst x (self : PageType) :
  page_type (new pt pst) = Z.land pt 15 ∧
  page_sub_type (new pt pst) = Z.land pst 15 ∧
  page_type (set_page_type x self) = Z.land x 15 ∧
  page_sub_type (set_page_type x self) = page_sub_type self ∧
  page_type (set_subtype_page_bits x self) = page_type self ∧
  page_sub_type (set_subtype_page_bits x self) = Z.land x 15 ∧
  0 ≤ raw (new pt pst) < 256 ∧
  0 ≤ raw (set_page_type x self) < 256 ∧
  0 ≤ raw (set_subtype_page_bits x self) < 256.
Proof.
  eauto 15 using page_type_new, page_sub_type_new, page_type_set_page_type,
    page_sub_type_set_page_type, page_type_set_subtype, page_sub_type_set_subtype,
    raw_new_range, raw_set_page_type_range, raw_set_subtype_range.
Qed.
End PageTypeFacts.

(** ** PageKind *)

Module PageKindFacts.
Import PageKindImpl.

Lemma from_into_u8 k : from_u8 (into_u8 k) = Some k.
Proof. by destruct k. Qed.

Lemma from_u8_Some b k : from_u8 b = Some k → into_u8 k = b.
Proof.
  unfold from_u8.
  repeat match goal with
         | |- context [?a =? ?c] => destruct (Z.eqb_spec a c); [intros; by simplify_eq|]
         end.
  done.
Qed.

(** The conversions between a page kind and its code are inverse to each
    other, and a kind survives being packed into a page-type byte with any
    subtype; the discriminant cast [as u8] is the same code for every kind but
    [Undefined], whose discriminant 0xFF is no valid code and decodes to
    [Undefined] only through the fallback of [page_kind]. *)
Theorem page_kind_codes k b pst :
  (from_u8 b = Some k ↔ into_u8 k = b) ∧
  PageTypeImpl.page_kind (PageTypeImpl.new (into_u8 k) pst) = k ∧
  PageTypeImpl.page_kind (PageTypeImpl.new (as_u8 k) pst) = k ∧
  (as_u8 k = into_u8 k ↔ k ≠ Undefined) ∧
  from_u8 (as_u8 Undefined) = None.
Proof.
  assert (Hk : ∀ c, PageTypeImpl.page_kind (PageTypeImpl.new c pst) =
                    default Undefined (from_u8 (Z.land c 15))).
  { intros c. unfold PageTypeImpl.page_kind. by rewrite PageTypeFacts.page_type_new. }
  rewrite !Hk. split_and!; try (by destruct k).
  split; [apply from_u8_Some|]. intros <-. apply from_into_u8.
Qed.
End PageKindFacts.

(** ** PageFlags: the byte is a set of states *)

Module PageFlagsFacts.
Import PageFlagsImpl.

Lemma bit_testbit s :
  s ≠ NoState → ∃ i, 0 ≤ i < 5 ∧ PageStatesImpl.bit s = 2 ^ i.
Proof.
  destruct s; intros; [done|exists 0|exists 1|exists 2|exists 3|exists 4]; done.
Qed.

Lemma has_flag_testbit f s i :
  0 ≤ i → PageStatesImpl.bit s = 2 ^ i → has_flag f s = Z.testbit (PageFlags_0 f) i.
Proof.
  intros Hi Hs. unfold has_flag. rewrite Hs.
  destruct (Z.testbit (PageFlags_0 f) i) eqn:Ht.
  - apply negb_true_iff, Z.eqb_neq. intros H0.
    assert (Z.testbit (Z.land (PageFlags_0 f) (2 ^ i)) i = true) as H1.
    { by rewrite Z.land_spec, Ht, Z.pow2_bits_true. }
    by rewrite H0, Z.bits_0 in H1.
  - apply negb_false_iff, Z.eqb_eq, Z.bits_inj_iff. intros j.
    rewrite Z.land_spec, Z.bits_0. destruct (decide (i = j)) as [<-|].
    + by rewrite Ht.
    + rewrite Z.pow2_bits_false by done. apply andb_false_r.
Qed.

Lemma bit_index s s' i j :
  PageStatesImpl.bit s = 2 ^ i → PageStatesImpl.bit s' = 2 ^ j → 0 ≤ i → 0 ≤ j →
  i = j ↔ s = s'.
Proof.
  intros Hs Hs' Hi Hj. split.
  - intros <-. rewrite <-Hs in Hs'. by destruct s, s'.
  - intros <-. rewrite Hs in Hs'. apply (Z.pow_inj_r 2); lia.
Qed.

(** C30: The flag byte behaves as a set of page states: setting a state adds
    it and changes no other, clearing removes it and changes no other (for any
    prior contents of the byte), and [NoState] is in no set. *)
Theorem flags_are_a_set (f : PageFlags) s s' :
  has_flag (set_flag s f) s' =
    (has_flag f s' || bool_decide (s = s' ∧ s ≠ NoState)) ∧
  has_flag (clear_flag s f) s' =
    (has_flag f s' && negb (bool_decide (s = s' ∧ s ≠ NoState))) ∧
  has_flag f NoState = false.
Proof.
  split_and!; [| |unfold has_flag; cbn; by rewrite Z.land_0_r].
  all: destruct (decide (s' = NoState)) as [->|Hn'];
    [unfold has_flag; cbn; rewrite !Z.land_0_r; cbn;
     rewrite ?bool_decide_eq_false_2 by naive_solver; done|].
  all: destruct (bit_testbit s' Hn') as (j & Hj & Hbj);
    rewrite !(has_flag_testbit _ s' j) by (done || lia).
  all: unfold set_flag, clear_flag; cbn [PageFlags_0].
  all: destruct (decide (s = NoState)) as [->|Hn].
  - cbn. rewrite Z.lor_0_r, bool_decide_eq_false_2 by naive_solver. by rewrite orb_false_r.
  - destruct (bit_testbit s Hn) as (i & Hi & Hbi).
    rewrite Z.lor_spec, Hbi, Z.pow2_bits_eqb by lia. f_equal.
    apply eq_bool_prop_intro. rewrite bool_decide_spec, Is_true_true, Z.eqb_eq.
    rewrite (bit_index s s') by (done || lia). naive_solver.
  - cbn. change (not_u8 NO_STATE) with 255. rewrite Z.land_spec.
    rewrite bool_decide_eq_false_2 by naive_solver. f_equal. cbn.
    change 255 with (Z.ones 8). apply Z.ones_spec_low. lia.
  - destruct (bit_testbit s Hn) as (i & Hi & Hbi).
    rewrite Z.land_spec. f_equal. unfold not_u8. rewrite Z.lxor_spec, Hbi, Z.pow2_bits_eqb by lia.
    change 255 with (Z.ones 8). rewrite Z.ones_spec_low, xorb_true_r by lia. f_equal.
    apply eq_bool_prop_intro. rewrite bool_decide_spec, Is_true_true, Z.eqb_eq.
    rewrite (bit_index s s') by (done || lia). naive_solver.
Qed.

(** C31: The states [extract_all_flags] lists: every flag that is set is
    listed, except [HalfDeleted], which is never listed; a page that is only
    half deleted is listed as [Deleted]. *)
Theorem extract_all_flags_spec (f : PageFlags) s :
  s ∈ extract_all_flags f ↔
    (has_flag f s = true ∧ s ≠ NoState ∧ s ≠ HalfDeleted) ∨
    (s = Deleted ∧ has_flag f HalfDeleted = true).
Proof.
  assert (H0 : has_flag f NoState = false)
    by (unfold has_flag; cbn; by rewrite Z.land_0_r).
  unfold extract_all_flags.
  destruct (has_flag f FastParent) eqn:?, (has_flag f Deleted) eqn:?,
    (has_flag f HalfDeleted) eqn:?, (has_flag f IncompleteSplit) eqn:?,
    (has_flag f HasOverflow) eqn:?; cbn;
  rewrite ?list_elem_of_cons; rewrite list_elem_of_In; cbn; destruct s; naive_solver congruence.
Qed.
End PageFlagsFacts.

(** ** IndexLevel *)

Module IndexLevelFacts.
Import IndexLevelImpl.

Lemma from_ok {E} v : v ≤ MAX → @from E v = Ok (MkIndexLevel v).
Proof. intros. unfold from, new, assert. unfold MAX in *. by if_true. Qed.

Lemma from_sub_type {E} pt :
  @from E (PageTypeImpl.page_sub_type pt) = Ok (MkIndexLevel (PageTypeImpl.page_sub_type pt)).
Proof. apply from_ok. pose proof (PageTypeFacts.page_sub_type_range pt). unfold MAX. lia. Qed.
End IndexLevelFacts.
