(* ===== verification/Slotted.v ===== *)
(** * The slotted page (src/src/page/slotted_page.rs)

    [| header | slot array growing upward | free space | cells growing downward |]

    [Module SlottedPageMut] holds the methods of the exclusive view,
    [Module SlottedPageRef] those of the shared view.  A [&self] method is a
    function of the page bytes, a [&mut self] method is a computation of the
    monad [M RawPage PageError].  A borrowed sub-slice is returned as its
    contents by the shared methods and as a region (offset and length) by
    [get_special_mut], whose caller writes through it. *)

From S2P Require Import Prelude Bytes PageTypes.

(** ** Layout constants *)

Definition PAGE_SIZE_U16 : Z := as_w u16_mod PAGE_SIZE.
Definition ENTRY_SIZE : Z := 4.
Definition ENTRY_SIZE_U16 : Z := as_w u16_mod ENTRY_SIZE.

Definition LSN_OFFSET : Z := 0.
Definition LSN_SIZE : Z := 8.
Definition CHECKSUM_OFFSET : Z := LSN_OFFSET + LSN_SIZE.
Definition CHECKSUM_SIZE : Z := 2.
Definition PAGE_TYPE_OFFSET : Z := CHECKSUM_OFFSET + CHECKSUM_SIZE.
Definition PAGE_TYPE_SIZE : Z := 1.
Definition FLAGS_OFFSET : Z := PAGE_TYPE_OFFSET + PAGE_TYPE_SIZE.
Definition FLAGS_SIZE : Z := 1.
Definition FREE_START_OFFSET : Z := FLAGS_OFFSET + FLAGS_SIZE.
Definition FREE_START_SIZE : Z := 2.
Definition FREE_END_OFFSET : Z := FREE_START_OFFSET + FREE_START_SIZE.
Definition FREE_END_SIZE : Z := 2.
Definition SPECIAL_OFFSET : Z := FREE_END_OFFSET + FREE_END_SIZE.
Definition SPECIAL_SIZE : Z := 2.
Definition SIZE_VERSION_OFFSET : Z := SPECIAL_OFFSET + SPECIAL_SIZE.
Definition SIZE_VERSION_SIZE : Z := 2.
Definition TXID_OFFSET : Z := SIZE_VERSION_OFFSET + SIZE_VERSION_SIZE.
Definition TXID_SIZE : Z := 4.

Definition HEADER_SIZE : Z := TXID_OFFSET + TXID_SIZE.
Definition HEADER_SIZE_U16 : Z := as_w u16_mod HEADER_SIZE.

#[export] Hint Unfold PAGE_SIZE_U16 ENTRY_SIZE ENTRY_SIZE_U16 LSN_OFFSET LSN_SIZE
  CHECKSUM_OFFSET CHECKSUM_SIZE PAGE_TYPE_OFFSET PAGE_TYPE_SIZE FLAGS_OFFSET FLAGS_SIZE
  FREE_START_OFFSET FREE_START_SIZE FREE_END_OFFSET FREE_END_SIZE SPECIAL_OFFSET SPECIAL_SIZE
  SIZE_VERSION_OFFSET SIZE_VERSION_SIZE TXID_OFFSET TXID_SIZE HEADER_SIZE HEADER_SIZE_U16
  : consts.

Inductive PageError :=
| EmptySlotDir
| SlotIDOutOfBounds
| CorruptCell
| SpecialOffsetIsZero
| SlotIndexNotInRange
| NoContigiousSpace
| NotEnoughFreeSpace
| InvalidFreeEnd
| InvalidFreeStart.

#[global] Instance PageError_eq_dec : EqDecision PageError.
Proof. solve_decision. Defined.

(** Methods of a page view. *)
Abbreviation R A := (RawPage → res PageError A).
Abbreviation W A := (M RawPage PageError A).

(** ** Slot directory *)

Module SlotEntry.
Record t := new { offset : Z; length : Z }.
End SlotEntry.
Abbreviation SlotEntry := SlotEntry.t.

#[global] Instance SlotEntry_eq_dec : EqDecision SlotEntry.
Proof. solve_decision. Defined.

Module SlotDirIter.
Record t := mk { ptr : Z; size : Z; pos : Z }.

Definition new (ptr size : Z) : t := {| ptr := ptr; size := size; pos := 0 |}.

Definition slot_count (self : t) : Z := size self / ENTRY_SIZE.

Definition next_entry (tg : target) (self : t) (p : RawPage) : res PageError (option SlotEntry * t) :=
  if slot_count self <=? pos self then Ok (None, self)
  else
    step ← mul_w tg usize_mod (pos self) ENTRY_SIZE;
    let start := ptr self + step in
    offset ← read_u16_le_unsafe tg p start;
    length ← read_u16_le_unsafe tg p (start + 2);
    pos' ← add_w tg usize_mod (pos self) 1;
    Ok (Some (SlotEntry.new offset length), mk (ptr self) (size self) pos').

(** [impl Iterator for SlotDirIter] *)
Definition next (tg : target) (self : t) (p : RawPage) : res PageError (option SlotEntry * t) :=
  next_entry tg self p.
End SlotDirIter.

Module SlotRef.
Record t := mk { ptr : Z; size : Z }.

Definition new (start size : Z) : t := mk start size.

Definition slot_count (self : t) : Z :=
  if size self =? 0 then 0 else size self / ENTRY_SIZE.

Definition iter (self : t) : SlotDirIter.t := SlotDirIter.new (ptr self) (size self).
End SlotRef.

(** ** The exclusive view *)

Module SlottedPageMut.
Section Methods.
Context (t : target).

Definition from_bytes (bytes : RawPage) : RawPage := bytes.

Definition wipe_page : W unit := λ p, (Ok tt, replicate (length p) 0).

Definition set_page_type (page_type : Z) : W unit :=
  set_index PAGE_TYPE_OFFSET page_type.

Definition get_page_type : R Z := λ p, index p PAGE_TYPE_OFFSET.

Definition init_new (page_type : Z) : W unit :=
  _ ← set_index PAGE_TYPE_OFFSET (PageKindImpl.as_u8 Undefined);
  _ ← copy_from_slice FREE_START_OFFSET (FREE_START_OFFSET + FREE_START_SIZE)
        (to_le_bytes 2 HEADER_SIZE_U16);
  _ ← copy_from_slice FREE_END_OFFSET (FREE_END_OFFSET + FREE_END_SIZE)
        (to_le_bytes 2 (as_w u16_mod PAGE_SIZE));
  set_page_type page_type.

Definition free_start : R Z := λ p, read_u16_le_unsafe t p FREE_START_OFFSET.

Definition free_end : R Z := λ p, read_u16_le_unsafe t p FREE_END_OFFSET.

Definition free_contiguous_space : R Z := λ p,
  fe ← free_end p;
  fs ← free_start p;
  sub_w t usize_mod fe fs.

Definition free_fragmented_space : R Z := λ _, Ok 0.

Definition set_free_start (offset : Z) : W unit :=
  _ ← lift (debug_assert t (HEADER_SIZE <=? offset));
  _ ← lift (debug_assert t (offset <=? PAGE_SIZE));
  write_u16_le_unsafe FREE_START_OFFSET (as_w u16_mod offset).

Definition increment_free_start (bytes : Z) : W Z :=
  cur_fs ← rd free_start;
  new_fs ← lift (add_w t usize_mod cur_fs bytes);
  fe ← rd free_end;
  _ ← lift (debug_assert t (new_fs <=? fe));
  _ ← lift (debug_assert t (HEADER_SIZE <=? new_fs));
  if new_fs <? HEADER_SIZE then err InvalidFreeStart
  else
    _ ← write_u16_le_unsafe FREE_START_OFFSET (as_w u16_mod new_fs);
    mret new_fs.

Definition set_free_end (offset : Z) : W unit :=
  _ ← lift (debug_assert t (HEADER_SIZE <=? offset));
  fs ← rd free_start;
  if (offset <? fs) || (offset <? HEADER_SIZE) then err InvalidFreeEnd
  else write_u16_le_unsafe FREE_END_OFFSET (as_w u16_mod offset).

Definition get_special_offset : R Z := λ p, read_u16_le_unsafe t p SPECIAL_OFFSET.

Definition set_special_offset (special : Z) : W unit :=
  _ ← lift (assert (special <? PAGE_SIZE_U16));
  offset ← lift (sub_w t u16_mod PAGE_SIZE_U16 special);
  write_u16_le_unsafe SPECIAL_OFFSET offset.

Definition set_flags (flags : Z) : W unit := set_index FLAGS_OFFSET flags.

Definition set_lsn (lsn : Z) : W unit := write_u64_le_unsafe LSN_OFFSET lsn.

Definition slot_dir_ref : R SlotRef.t := λ p,
  fs ← free_start p;
  _ ← assert (HEADER_SIZE <=? fs);
  size ← sub_w t usize_mod fs HEADER_SIZE;
  Ok (SlotRef.new HEADER_SIZE size).

Definition append_slot_entry (size offset : Z) : W unit :=
  fs ← rd free_start;
  end_ ← rd free_end;
  room ← lift (sub_w t usize_mod end_ fs);
  if room <? ENTRY_SIZE then err NotEnoughFreeSpace
  else
    let offset_bytes := to_le_bytes 2 offset in
    let length_bytes := to_le_bytes 2 size in
    _ ← copy_nonoverlapping offset_bytes fs 2;
    _ ← copy_nonoverlapping length_bytes (fs + 2) 2;
    _ ← increment_free_start ENTRY_SIZE;
    mret tt.

Definition insert_slot_entry_at_index (idx : Z) (entry : SlotEntry) : W unit :=
  old_fs ← rd free_start;
  end_ ← rd free_end;
  room ← lift (sub_w t usize_mod end_ old_fs);
  if room <? ENTRY_SIZE then err NotEnoughFreeSpace
  else
    dir ← lift (sub_w t usize_mod old_fs HEADER_SIZE);
    let slot_count := dir / ENTRY_SIZE in
    if slot_count <? idx then err SlotIndexNotInRange
    else if idx =? slot_count
    then append_slot_entry (SlotEntry.length entry) (SlotEntry.offset entry)
    else
      skip ← lift (mul_w t usize_mod idx ENTRY_SIZE);
      index_offset ← lift (add_w t usize_mod HEADER_SIZE skip);
      dst ← lift (add_w t usize_mod index_offset ENTRY_SIZE);
      left ← lift (sub_w t usize_mod slot_count idx);
      count ← lift (mul_w t usize_mod left ENTRY_SIZE);
      _ ← ptr_copy index_offset dst count;
      let offset := to_le_bytes 2 (SlotEntry.offset entry) in
      let length := to_le_bytes 2 (SlotEntry.length entry) in
      _ ← copy_nonoverlapping offset index_offset 2;
      _ ← copy_nonoverlapping length (index_offset + 2) 2;
      _ ← increment_free_start ENTRY_SIZE;
      mret tt.

Definition get_special_ref : R (list Z) := λ p,
  s_offset ← get_special_offset p;
  if s_offset =? 0 then Err SpecialOffsetIsZero
  else
    size ← sub_w t usize_mod PAGE_SIZE s_offset;
    _ ← assert (size <=? PAGE_SIZE);
    hi ← add_w t usize_mod s_offset size;
    index_range p s_offset hi.

(** The mutable borrow: where the special area starts and how long it is. *)
Definition get_special_mut : W (Z * Z) :=
  s_offset ← rd get_special_offset;
  if s_offset =? 0 then err SpecialOffsetIsZero
  else
    size ← lift (sub_w t usize_mod PAGE_SIZE s_offset);
    _ ← lift (assert (size <=? PAGE_SIZE));
    hi ← lift (add_w t usize_mod s_offset size);
    _ ← rd (λ p, index_range p s_offset hi);
    mret (s_offset, size).

Definition add_cell_append_slot_entry (cell : list Z) : W unit :=
  free_start ← rd free_start;
  free_end ← rd free_end;
  need ← lift (add_w t usize_mod (zlen cell) ENTRY_SIZE);
  room ← lift (sub_w t usize_mod free_end free_start);
  if room <? need then err NoContigiousSpace
  else
    cell_start_offset ← lift (sub_w t usize_mod free_end (zlen cell));
    _ ← lift (assert (zlen cell <=? u16_MAX));
    _ ← lift (assert (cell_start_offset <=? u16_MAX));
    _ ← append_slot_entry (as_w u16_mod (zlen cell)) (as_w u16_mod cell_start_offset);
    _ ← copy_nonoverlapping cell cell_start_offset (zlen cell);
    set_free_end cell_start_offset.

Definition add_cell_at_slot_entry_index (index : Z) (cell : list Z) : W unit :=
  free_start ← rd free_start;
  free_end ← rd free_end;
  need ← lift (add_w t usize_mod (zlen cell) ENTRY_SIZE);
  room ← lift (sub_w t usize_mod free_end free_start);
  if room <? need then err NoContigiousSpace
  else
    cell_start_offset ← lift (sub_w t usize_mod free_end (zlen cell));
    _ ← lift (assert (zlen cell <=? u16_MAX));
    _ ← lift (assert (cell_start_offset <=? u16_MAX));
    _ ← insert_slot_entry_at_index index
          (SlotEntry.new (as_w u16_mod cell_start_offset) (as_w u16_mod (zlen cell)));
    _ ← copy_nonoverlapping cell cell_start_offset (zlen cell);
    set_free_end cell_start_offset.

Definition cell_slice_from_id (slot_id : SlotID) : R (list Z) := λ p,
  slot_dir ← slot_dir_ref p;
  let slot_count := SlotRef.slot_count slot_dir in
  if slot_count =? 0 then Err EmptySlotDir
  else
    let idx := SlotID_0 slot_id in
    if slot_count <=? idx then Err SlotIDOutOfBounds
    else
      index_offset ← mul_w t usize_mod idx ENTRY_SIZE;
      let base := SlotRef.ptr slot_dir + index_offset in
      offset ← read_u16_le_unsafe t p base;
      length ← read_u16_le_unsafe t p (base + 2);
      end_ ← add_w t usize_mod offset length;
      if PAGE_SIZE <? end_ then Err CorruptCell
      else index_range p offset end_.

Definition cell_slice_from_entry (se : SlotEntry) : R (list Z) := λ p,
  let offset := SlotEntry.offset se in
  let length := SlotEntry.length se in
  end_ ← add_w t usize_mod offset length;
  _ ← debug_assert t (end_ <? PAGE_SIZE);
  index_range p offset end_.
End Methods.
End SlottedPageMut.

(** ** The shared view *)

Module SlottedPageRef.
Section Methods.
Context (t : target).

Definition from_bytes (bytes : RawPage) : RawPage := bytes.

Definition get_page_type : R Z := λ p, index p PAGE_TYPE_OFFSET.

Definition free_start : R Z := λ p, read_u16_le_unsafe t p FREE_START_OFFSET.

Definition free_end : R Z := λ p, read_u16_le_unsafe t p FREE_END_OFFSET.

Definition free_contiguous_space : R Z := λ p,
  fe ← free_end p;
  fs ← free_start p;
  sub_w t usize_mod fe fs.

Definition free_fragmented_space : R Z := λ _, Ok 0.

Definition get_special_offset : R Z := λ p, read_u16_le_unsafe t p SPECIAL_OFFSET.

Definition get_flags : R Z := λ p, index p FLAGS_OFFSET.

Definition get_lsn : R Z := λ p, read_u64_le_unsafe t p LSN_OFFSET.

Definition slot_dir_ref : R SlotRef.t := λ p,
  fs ← free_start p;
  _ ← assert (HEADER_SIZE <=? fs);
  size ← sub_w t usize_mod fs HEADER_SIZE;
  Ok (SlotRef.new HEADER_SIZE size).

Definition cell_slice_from_id (slot_id : SlotID) : R (list Z) := λ p,
  slot_dir ← slot_dir_ref p;
  let slot_count := SlotRef.slot_count slot_dir in
  if slot_count =? 0 then Err EmptySlotDir
  else
    let idx := SlotID_0 slot_id in
    if slot_count <=? idx then Err SlotIDOutOfBounds
    else
      index_offset ← mul_w t usize_mod idx ENTRY_SIZE;
      let base := SlotRef.ptr slot_dir + index_offset in
      offset ← read_u16_le_unsafe t p base;
      length ← read_u16_le_unsafe t p (base + 2);
      end_ ← add_w t usize_mod offset length;
      if PAGE_SIZE <? end_ then Err CorruptCell
      else index_range p offset end_.

Definition cell_slice_from_entry (se : SlotEntry) : R (list Z) := λ p,
  let offset := SlotEntry.offset se in
  let length := SlotEntry.length se in
  end_ ← add_w t usize_mod offset length;
  _ ← debug_assert t (end_ <? PAGE_SIZE);
  index_range p offset end_.

Definition special_size : R Z := λ p,
  offset ← get_special_offset p;
  if offset =? 0 then Ok 0
  else
    _ ← debug_assert t (offset <=? PAGE_SIZE);
    sub_w t usize_mod PAGE_SIZE offset.

Definition get_special_ref : R (list Z) := λ p,
  s_offset ← get_special_offset p;
  if s_offset =? 0 then Err SpecialOffsetIsZero
  else
    size ← sub_w t usize_mod PAGE_SIZE s_offset;
    _ ← assert (size <=? PAGE_SIZE);
    hi ← add_w t usize_mod s_offset size;
    index_range p s_offset hi.
End Methods.
End SlottedPageRef.
