(* ===== verification/SlottedHeader.v ===== *)
(** * The page header: decoded view, getters and setters

    [decode_header] reads the nine header fields as the layout comment of
    slotted_page.rs (lines 20-30) lists them.  Every setter of the exclusive
    view is an update of one field of the decoded header and leaves the body
    of the page alone; every getter returns its field. *)

From S2P Require Import Prelude Bytes PageTypes Slotted.

Record Header := {
  h_lsn : Z;
  h_checksum : Z;
  h_page_type : Z;
  h_flags : Z;
  h_free_start : Z;
  h_free_end : Z;
  h_special : Z;
  h_size_version : Z;
  h_txid : Z }.

Definition decode_header (p : RawPage) : Header := {|
  h_lsn := from_le_bytes (slice p LSN_OFFSET LSN_SIZE);
  h_checksum := from_le_bytes (slice p CHECKSUM_OFFSET CHECKSUM_SIZE);
  h_page_type := from_le_bytes (slice p PAGE_TYPE_OFFSET PAGE_TYPE_SIZE);
  h_flags := from_le_bytes (slice p FLAGS_OFFSET FLAGS_SIZE);
  h_free_start := from_le_bytes (slice p FREE_START_OFFSET FREE_START_SIZE);
  h_free_end := from_le_bytes (slice p FREE_END_OFFSET FREE_END_SIZE);
  h_special := from_le_bytes (slice p SPECIAL_OFFSET SPECIAL_SIZE);
  h_size_version := from_le_bytes (slice p SIZE_VERSION_OFFSET SIZE_VERSION_SIZE);
  h_txid := from_le_bytes (slice p TXID_OFFSET TXID_SIZE) |}.

Arguments decode_header : simpl never.

Definition body (p : RawPage) : list Z := slice p HEADER_SIZE (PAGE_SIZE - HEADER_SIZE).

Definition with_lsn v h := {| h_lsn := v; h_checksum := h_checksum h;
  h_page_type := h_page_type h; h_flags := h_flags h; h_free_start := h_free_start h;
  h_free_end := h_free_end h; h_special := h_special h; h_size_version := h_size_version h;
  h_txid := h_txid h |}.
Definition with_page_type v h := {| h_lsn := h_lsn h; h_checksum := h_checksum h;
  h_page_type := v; h_flags := h_flags h; h_free_start := h_free_start h;
  h_free_end := h_free_end h; h_special := h_special h; h_size_version := h_size_version h;
  h_txid := h_txid h |}.
Definition with_flags v h := {| h_lsn := h_lsn h; h_checksum := h_checksum h;
  h_page_type := h_page_type h; h_flags := v; h_free_start := h_free_start h;
  h_free_end := h_free_end h; h_special := h_special h; h_size_version := h_size_version h;
  h_txid := h_txid h |}.
Definition with_free_start v h := {| h_lsn := h_lsn h; h_checksum := h_checksum h;
  h_page_type := h_page_type h; h_flags := h_flags h; h_free_start := v;
  h_free_end := h_free_end h; h_special := h_special h; h_size_version := h_size_version h;
  h_txid := h_txid h |}.
Definition with_free_end v h := {| h_lsn := h_lsn h; h_checksum := h_checksum h;
  h_page_type := h_page_type h; h_flags := h_flags h; h_free_start := h_free_start h;
  h_free_end := v; h_special := h_special h; h_size_version := h_size_version h;
  h_txid := h_txid h |}.
Definition with_special v h := {| h_lsn := h_lsn h; h_checksum := h_checksum h;
  h_page_type := h_page_type h; h_flags := h_flags h; h_free_start := h_free_start h;
  h_free_end := h_free_end h; h_special := v; h_size_version := h_size_version h;
  h_txid := h_txid h |}.

(** Shorthands for the two fields every operation looks at. *)
Abbreviation fs p := (h_free_start (decode_header p)).
Abbreviation fe p := (h_free_end (decode_header p)).

(** [m] succeeds on [p], keeps the page well-typed, changes the header by [f]
    and leaves the body as it was. *)
Definition updates_header {A} (m : W A) (p : RawPage) (a : A) (f : Header → Header) : Prop :=
  ∃ p', m p = (Ok a, p') ∧ page_ok p' ∧ decode_header p' = f (decode_header p) ∧ body p' = body p.

(** ** Running a computation

    [mrun L] executes the first command of a computation with lemma [L]. *)

Ltac mrun_with tac :=
  erewrite bind_ok; [|first [eapply lift_ok | eapply rd_ok | idtac]; tac]; cbv beta.
Tactic Notation "mrun" uconstr(L) := mrun_with ltac:(eapply L; try done; try zlia).
(** Commands that only compute: arithmetic in range and assertions that hold. *)
Ltac mcalc1 :=
  idtac; lazymatch goal with
  | |- add_w _ _ _ _ = _ => apply add_w_ok; zlia
  | |- sub_w _ _ _ _ = _ => apply sub_w_ok; zlia
  | |- mul_w _ _ _ _ = _ => apply mul_w_ok; zlia
  | |- assert _ = _ => apply assert_ok; zlia
  | |- debug_assert _ _ = _ => apply debug_assert_ok; zlia
  end.
Ltac mcalc := repeat mrun_with mcalc1.

Section HeaderFacts.
Context (t : target).
Implicit Types p : RawPage.

Lemma page_ok_zlen p : page_ok p → zlen p = 4096.
Proof. by intros [? _]. Qed.
Lemma page_ok_bytes p : page_ok p → bytes_ok p.
Proof. by intros [_ ?]. Qed.

Lemma free_start_ok p : page_ok p → SlottedPageMut.free_start t p = Ok (fs p).
Proof. intros [Hl Hb]. apply read_u16_le_unsafe_ok; [done|zlia..]. Qed.
Lemma free_end_ok p : page_ok p → SlottedPageMut.free_end t p = Ok (fe p).
Proof. intros [Hl Hb]. apply read_u16_le_unsafe_ok; [done|zlia..]. Qed.
Lemma get_special_offset_ok p :
  page_ok p → SlottedPageMut.get_special_offset t p = Ok (h_special (decode_header p)).
Proof. intros [Hl Hb]. apply read_u16_le_unsafe_ok; [done|zlia..]. Qed.
Lemma get_page_type_ok p :
  page_ok p → SlottedPageMut.get_page_type p = Ok (h_page_type (decode_header p)).
Proof. intros [Hl Hb]. apply index_ok; [zlia|done]. Qed.
Lemma get_flags_ok p :
  page_ok p → SlottedPageRef.get_flags p = Ok (h_flags (decode_header p)).
Proof. intros [Hl Hb]. apply index_ok; [zlia|done]. Qed.
Lemma get_lsn_ok p :
  page_ok p → SlottedPageRef.get_lsn t p = Ok (h_lsn (decode_header p)).
Proof. intros [Hl Hb]. apply read_u64_le_unsafe_ok; [done|zlia..]. Qed.

Lemma fs_range p : page_ok p → 0 ≤ fs p < 65536.
Proof. intros [Hl Hb]. apply (u16_at_range p); [done|zlia..]. Qed.
Lemma fe_range p : page_ok p → 0 ≤ fe p < 65536.
Proof. intros [Hl Hb]. apply (u16_at_range p); [done|zlia..]. Qed.
Lemma special_range p : page_ok p → 0 ≤ h_special (decode_header p) < 65536.
Proof. intros [Hl Hb]. apply (u16_at_range p); [done|zlia..]. Qed.

(** The special area of a page whose stored offset is set and within the page. *)
Definition special_area (p : RawPage) : list Z :=
  let s := h_special (decode_header p) in slice p s (PAGE_SIZE - s).

Lemma get_special_ref_ok p :
  page_ok p → 0 < h_special (decode_header p) ≤ PAGE_SIZE →
  SlottedPageRef.get_special_ref t p = Ok (special_area p).
Proof.
  intros Hp Hs. pose proof (page_ok_zlen p Hp). unfold SlottedPageRef.get_special_ref.
  rewrite (get_special_offset_ok p Hp : SlottedPageRef.get_special_offset t p = _).
  cbn [mbind res_bind]. if_false. rewrite sub_w_ok by zlia. cbn [mbind res_bind].
  rewrite assert_ok by zlia. cbn [mbind res_bind]. rewrite add_w_ok by zlia. cbn [mbind res_bind].
  rewrite index_range_ok by zlia. unfold special_area. do 2 f_equal. lia.
Qed.

Lemma get_special_mut_ok p :
  page_ok p → 0 < h_special (decode_header p) ≤ PAGE_SIZE →
  SlottedPageMut.get_special_mut t p =
    (Ok (h_special (decode_header p), PAGE_SIZE - h_special (decode_header p)), p).
Proof.
  intros Hp Hs. pose proof (page_ok_zlen p Hp). unfold SlottedPageMut.get_special_mut.
  mrun get_special_offset_ok. if_false. mcalc.
  erewrite bind_ok; [|apply rd_ok, index_range_ok; zlia]. done.
Qed.

(** A write inside a page: the page stays well-typed, the range holds the
    written bytes and every disjoint range is as before. *)
Lemma write_ok p off bs :
  page_ok p → bytes_ok bs → 0 ≤ off → off + zlen bs ≤ 4096 →
  page_ok (splice p off bs) ∧
  slice (splice p off bs) off (zlen bs) = bs ∧
  ∀ off' len', 0 ≤ off' → off' + len' ≤ off ∨ off + zlen bs ≤ off' →
    slice (splice p off bs) off' len' = slice p off' len'.
Proof.
  intros Hp Hbs ??. pose proof (page_ok_zlen p Hp). split_and!.
  - by apply page_ok_splice.
  - apply slice_splice_same; lia.
  - intros. apply slice_splice_disj; lia.
Qed.

(** Ranges of the page disjoint from the header: none of its fields changes. *)
Lemma decode_header_ext p p' :
  slice p' 0 24 = slice p 0 24 → decode_header p' = decode_header p.
Proof.
  intros H.
  assert (Hs : ∀ off len, 0 ≤ off → off + len ≤ 24 → slice p' off len = slice p off len).
  { intros off len ??.
    rewrite <-(Z.add_0_l off), <-(slice_slice p' 0 24), <-(slice_slice p 0 24) by lia.
    by rewrite H. }
  unfold decode_header. f_equal; f_equal; apply Hs; zlia.
Qed.
End HeaderFacts.

(** Solve [updates_header] for a computation that comes down to one write of a
    header field: run it, then compare the fields one by one. *)
Ltac header_fields Hsame Hframe :=
  unfold decode_header, with_lsn, with_page_type, with_flags, with_free_start,
    with_free_end, with_special, body;
  cbn [h_lsn h_checksum h_page_type h_flags h_free_start h_free_end h_special
       h_size_version h_txid];
  autounfold with consts in *;
  split; [f_equal; first [rewrite Hframe by lia; reflexivity | rewrite Hsame] | by rewrite Hframe by lia].

Ltac header_write Hp :=
  match goal with
  | |- ∃ p', (Ok _, splice ?p ?off ?bs) = _ ∧ _ =>
      let W1 := fresh "W" in let W2 := fresh "W" in let W3 := fresh "W" in
      destruct (write_ok p off bs Hp) as (W1 & W2 & W3);
      [auto using to_le_bytes_ok | zlia | rewrite ?zlen_le16, ?zlen_le64, ?zlen_byte; zlia |];
      exists (splice p off bs); split; [reflexivity|]; split; [exact W1|];
      rewrite ?zlen_le16, ?zlen_le64, ?zlen_byte in W2, W3; header_fields W2 W3
  end.

Section Setters.
Context (t : target) (p : RawPage) (Hp : page_ok p).

Lemma byte_write_ok v : 0 ≤ v < 256 → bytes_ok [v].
Proof. intros. constructor; [zlia|done]. Qed.

Lemma set_page_type_ok v :
  0 ≤ v < 256 → updates_header (SlottedPageMut.set_page_type v) p tt (with_page_type v).
Proof.
  intros Hv. unfold updates_header, SlottedPageMut.set_page_type.
  pose proof (page_ok_zlen p Hp). pose proof (byte_write_ok v Hv).
  rewrite set_index_ok by zlia. header_write Hp. cbn. lia.
Qed.

Lemma set_flags_ok v :
  0 ≤ v < 256 → updates_header (SlottedPageMut.set_flags v) p tt (with_flags v).
Proof.
  intros Hv. unfold updates_header, SlottedPageMut.set_flags.
  pose proof (page_ok_zlen p Hp). pose proof (byte_write_ok v Hv).
  rewrite set_index_ok by zlia. header_write Hp. cbn. lia.
Qed.

Lemma set_lsn_ok v :
  0 ≤ v < u64_mod → updates_header (SlottedPageMut.set_lsn v) p tt (with_lsn v).
Proof.
  intros Hv. unfold updates_header, SlottedPageMut.set_lsn.
  pose proof (page_ok_zlen p Hp).
  rewrite write_u64_le_unsafe_ok by zlia. header_write Hp. by apply (from_to_le_bytes 8).
Qed.

Lemma set_free_start_ok v :
  24 ≤ v ≤ 4096 → updates_header (SlottedPageMut.set_free_start t v) p tt (with_free_start v).
Proof.
  intros Hv. unfold updates_header, SlottedPageMut.set_free_start.
  pose proof (page_ok_zlen p Hp). mcalc. rewrite as_w_id by zlia.
  rewrite write_u16_le_unsafe_ok by zlia. header_write Hp. apply (from_to_le_bytes 2). zlia.
Qed.

Lemma set_free_start_out v :
  0 ≤ v < HEADER_SIZE ∨ PAGE_SIZE < v < usize_mod →
  if decide (prof t = Debug) then SlottedPageMut.set_free_start t v p = (Panic, p)
  else updates_header (SlottedPageMut.set_free_start t v) p tt (with_free_start (v mod u16_mod)).
Proof.
  intros Hv. unfold SlottedPageMut.set_free_start, debug_assert, assert. pose proof (page_ok_zlen p Hp).
  case_decide as Hd; [rewrite Hd|destruct (prof t) eqn:Er; [done|]].
  - destruct Hv as [Hv|Hv].
    + if_false. done.
    + mrun_with ltac:(if_true; reflexivity). if_false. done.
  - unfold updates_header. do 2 mrun_with ltac:(reflexivity). unfold as_w.
    pose proof (Z.mod_pos_bound v u16_mod ltac:(done)) as Hm. set (w := v mod u16_mod) in *.
    rewrite write_u16_le_unsafe_ok by zlia. header_write Hp. apply (from_to_le_bytes 2). zlia.
Qed.

Lemma set_free_end_any v :
  Z.max HEADER_SIZE (fs p) ≤ v < usize_mod →
  updates_header (SlottedPageMut.set_free_end t v) p tt (with_free_end (v mod u16_mod)).
Proof.
  intros Hv. unfold updates_header, SlottedPageMut.set_free_end.
  pose proof (page_ok_zlen p Hp). mcalc. mrun free_start_ok. if_false. unfold as_w.
  pose proof (Z.mod_pos_bound v u16_mod ltac:(done)) as Hm. set (w := v mod u16_mod) in *.
  rewrite write_u16_le_unsafe_ok by zlia. header_write Hp. apply (from_to_le_bytes 2). zlia.
Qed.

Lemma set_free_end_low v :
  0 ≤ v < Z.max HEADER_SIZE (fs p) → SlottedPageMut.set_free_end t v p =
    (if decide (prof t = Debug ∧ v < HEADER_SIZE) then Panic else Err InvalidFreeEnd, p).
Proof.
  intros Hv. unfold SlottedPageMut.set_free_end.
  assert (Herr : (f ← rd (SlottedPageMut.free_start t);
    if (v <? f) || (v <? HEADER_SIZE) then err InvalidFreeEnd
    else write_u16_le_unsafe FREE_END_OFFSET (as_w u16_mod v)) p = (Err InvalidFreeEnd, p)).
  { mrun free_start_ok. if_true. done. }
  unfold debug_assert. case_decide as Hd.
  - destruct Hd as [-> Hd]. unfold assert. if_false. done.
  - destruct (prof t) eqn:Er; (erewrite bind_ok; [exact Herr|]); [|done].
    apply lift_ok, assert_ok. apply Z.leb_le. destruct (Z.ltb_spec v HEADER_SIZE); [tauto|lia].
Qed.

Lemma set_special_offset_out v :
  PAGE_SIZE ≤ v < u16_mod → SlottedPageMut.set_special_offset t v p = (Panic, p).
Proof.
  intros Hv. unfold SlottedPageMut.set_special_offset, assert. change PAGE_SIZE_U16 with 4096.
  if_false. done.
Qed.

Lemma set_free_end_ok v :
  24 ≤ v < 65536 → fs p ≤ v →
  updates_header (SlottedPageMut.set_free_end t v) p tt (with_free_end v).
Proof.
  intros Hv Hf. unfold updates_header, SlottedPageMut.set_free_end.
  pose proof (page_ok_zlen p Hp). mcalc. mrun free_start_ok. if_false.
  rewrite as_w_id, write_u16_le_unsafe_ok by zlia. header_write Hp. apply (from_to_le_bytes 2). zlia.
Qed.

Lemma set_special_offset_ok v :
  0 ≤ v < 4096 →
  updates_header (SlottedPageMut.set_special_offset t v) p tt (with_special (4096 - v)).
Proof.
  intros Hv. unfold updates_header, SlottedPageMut.set_special_offset.
  change PAGE_SIZE_U16 with 4096.
  pose proof (page_ok_zlen p Hp). mcalc.
  rewrite write_u16_le_unsafe_ok by zlia. header_write Hp. apply (from_to_le_bytes 2). zlia.
Qed.

Lemma increment_free_start_ok n :
  24 ≤ fs p + n ≤ fe p → 0 ≤ n →
  updates_header (SlottedPageMut.increment_free_start t n) p (fs p + n)
    (with_free_start (fs p + n)).
Proof.
  intros Hn Hn0. unfold updates_header, SlottedPageMut.increment_free_start.
  pose proof (page_ok_zlen p Hp). pose proof (fe_range p Hp). pose proof (fs_range p Hp).
  mrun free_start_ok. mcalc. mrun free_end_ok. mcalc. if_false.
  rewrite as_w_id by zlia.
  erewrite bind_ok; [|apply write_u16_le_unsafe_ok; zlia].
  unfold mret, M_ret; cbv beta. remember (fs p + n) as v eqn:Ev. header_write Hp. apply (from_to_le_bytes 2). zlia.
Qed.
End Setters.

(** ** Properties *)

(** C24: What each header setter does with every argument of its type.  In range
    it updates exactly its own field of the decoded header and leaves every
    other field and the whole body of the page unchanged, in both profiles:
    page type, flags, LSN, free start, free end and special offset (which is
    stored as [PAGE_SIZE - special]).  Out of range: [set_special_offset]
    panics; [set_free_end] returns [InvalidFreeEnd] below the free start, and
    below the header a debug build panics; [set_free_start] panics in debug
    builds; in these cases the page is untouched.  In release builds
    [set_free_start] checks nothing, and [set_free_end] has no upper bound in
    either profile: both then store the argument truncated to 16 bits. *)
Theorem header_setters_frame t p (Hp : page_ok p) :
  (∀ v, 0 ≤ v < u8_mod →
     updates_header (SlottedPageMut.set_page_type v) p tt (with_page_type v)) ∧
  (∀ v, 0 ≤ v < u8_mod →
     updates_header (SlottedPageMut.set_flags v) p tt (with_flags v)) ∧
  (∀ v, 0 ≤ v < u64_mod →
     updates_header (SlottedPageMut.set_lsn v) p tt (with_lsn v)) ∧
  (∀ v, HEADER_SIZE ≤ v ≤ PAGE_SIZE →
     updates_header (SlottedPageMut.set_free_start t v) p tt (with_free_start v)) ∧
  (∀ v, 0 ≤ v < HEADER_SIZE ∨ PAGE_SIZE < v < usize_mod →
     if decide (prof t = Debug) then SlottedPageMut.set_free_start t v p = (Panic, p)
     else updates_header (SlottedPageMut.set_free_start t v) p tt (with_free_start (v mod u16_mod))) ∧
  (∀ v, Z.max HEADER_SIZE (fs p) ≤ v ≤ PAGE_SIZE →
     updates_header (SlottedPageMut.set_free_end t v) p tt (with_free_end v)) ∧
  (∀ v, Z.max HEADER_SIZE (fs p) ≤ v < usize_mod →
     updates_header (SlottedPageMut.set_free_end t v) p tt (with_free_end (v mod u16_mod))) ∧
  (∀ v, 0 ≤ v < Z.max HEADER_SIZE (fs p) → SlottedPageMut.set_free_end t v p =
     (if decide (prof t = Debug ∧ v < HEADER_SIZE) then Panic else Err InvalidFreeEnd, p)) ∧
  (∀ v, 0 ≤ v < PAGE_SIZE →
     updates_header (SlottedPageMut.set_special_offset t v) p tt (with_special (PAGE_SIZE - v))) ∧
  (∀ v, PAGE_SIZE ≤ v < u16_mod → SlottedPageMut.set_special_offset t v p = (Panic, p)).
Proof.
  split_and!; intros v Hv.
  - by apply set_page_type_ok.
  - by apply set_flags_ok.
  - by apply set_lsn_ok.
  - apply set_free_start_ok; [done|zlia].
  - by apply set_free_start_out.
  - rewrite <- (Z.mod_small v u16_mod) at 2 by zlia. apply set_free_end_any; [done|zlia].
  - by apply set_free_end_any.
  - by apply set_free_end_low.
  - by apply set_special_offset_ok.
  - by apply set_special_offset_out.
Qed.

Definition dbg : target := Target Debug LittleHost.
Definition zero_page : RawPage := replicate 4096 0.

Lemma zero_page_ok : page_ok zero_page.
Proof. split; [reflexivity|]. apply Forall_replicate. unfold is_byte. done. Qed.

Lemma header_setters_frame_witness :
  updates_header (SlottedPageMut.set_special_offset dbg 16) zero_page tt (with_special 4080).
Proof.
  refine (proj1 (proj2 (proj2 (proj2 (proj2 (proj2 (proj2 (proj2 (proj2
    (header_setters_frame dbg zero_page zero_page_ok))))))))) 16 _).
  vm_compute. split; congruence.
Defined.

(** Writing any header field and reading it back returns the value written:
    the getters of both views invert the setters on every well-typed page. *)
Theorem header_get_set t p (Hp : page_ok p) v (Hv : HEADER_SIZE ≤ v ≤ PAGE_SIZE) :
  (SlottedPageMut.set_free_start t v ≫= λ _, rd (SlottedPageRef.free_start t)) p
    = (Ok v, snd (SlottedPageMut.set_free_start t v p)) ∧
  (fs p ≤ v →
   (SlottedPageMut.set_free_end t v ≫= λ _, rd (SlottedPageRef.free_end t)) p
    = (Ok v, snd (SlottedPageMut.set_free_end t v p))) ∧
  (∀ lsn, 0 ≤ lsn < u64_mod →
   (SlottedPageMut.set_lsn lsn ≫= λ _, rd (SlottedPageRef.get_lsn t)) p
    = (Ok lsn, snd (SlottedPageMut.set_lsn lsn p))) ∧
  (∀ b, 0 ≤ b < u8_mod →
   (SlottedPageMut.set_page_type b ≫= λ _, rd SlottedPageRef.get_page_type) p
    = (Ok b, snd (SlottedPageMut.set_page_type b p)) ∧
   (SlottedPageMut.set_flags b ≫= λ _, rd SlottedPageRef.get_flags) p
    = (Ok b, snd (SlottedPageMut.set_flags b p))).
Proof.
  split_and!.
  - destruct (set_free_start_ok t p Hp v) as (p' & Hr & Hp' & Hh & _); [zlia|].
    rewrite (bind_ok _ _ _ _ _ Hr), Hr. unfold rd.
    rewrite (free_start_ok t p' Hp' : SlottedPageRef.free_start t p' = _). by rewrite Hh.
  - intros Hle. destruct (set_free_end_ok t p Hp v) as (p' & Hr & Hp' & Hh & _); [zlia|done|].
    rewrite (bind_ok _ _ _ _ _ Hr), Hr. unfold rd.
    rewrite (free_end_ok t p' Hp' : SlottedPageRef.free_end t p' = _). by rewrite Hh.
  - intros lsn Hl. destruct (set_lsn_ok p Hp lsn Hl) as (p' & Hr & Hp' & Hh & _).
    rewrite (bind_ok _ _ _ _ _ Hr), Hr. unfold rd. rewrite (get_lsn_ok t p' Hp'). by rewrite Hh.
  - intros b Hb. split.
    + destruct (set_page_type_ok p Hp b Hb) as (p' & Hr & Hp' & Hh & _).
      rewrite (bind_ok _ _ _ _ _ Hr), Hr. unfold rd.
      rewrite (get_page_type_ok p' Hp' : SlottedPageRef.get_page_type p' = _). by rewrite Hh.
    + destruct (set_flags_ok p Hp b Hb) as (p' & Hr & Hp' & Hh & _).
      rewrite (bind_ok _ _ _ _ _ Hr), Hr. unfold rd. rewrite (get_flags_ok p' Hp'). by rewrite Hh.
Qed.

Lemma header_get_set_witness :
  (SlottedPageMut.set_free_start dbg 25 ≫= λ _, rd (SlottedPageRef.free_start dbg)) zero_page
    = (Ok 25, snd (SlottedPageMut.set_free_start dbg 25 zero_page)).
Proof.
  refine (proj1 (header_get_set dbg zero_page zero_page_ok 25 _)).
  vm_compute. split; congruence.
Defined.
