(* ===== verification/SlottedDir.v ===== *)
(** * The slot directory

    [dir p es] says that the slot array of page [p] holds exactly the entries
    [es].  Appending and inserting an entry act on [es] as on a list, leave
    every byte beyond the new end of the array alone and change no header
    field but the free start; the iterator enumerates [es] and stops. *)

From S2P Require Import Prelude Bytes PageTypes Slotted SlottedHeader.

(** ** Lists with an element inserted at an index *)

Definition insert_at {A} (i : nat) (x : A) (l : list A) : list A := take i l ++ x :: drop i l.

Section InsertAt.
Context {A : Type}.
Implicit Types (l : list A) (x : A).

Lemma lookup_insert_at l i x j :
  (i ≤ length l)%nat →
  insert_at i x l !! j =
    if decide (j < i)%nat then l !! j
    else if decide (j = i) then Some x else l !! (j - 1)%nat.
Proof.
  intros Hi. unfold insert_at. repeat case_decide.
  - rewrite lookup_app_l by (rewrite length_take; lia). by rewrite lookup_take_lt.
  - subst. rewrite lookup_app_r by (rewrite length_take; lia).
    by rewrite length_take, Nat.min_l, Nat.sub_diag by lia.
  - rewrite lookup_app_r by (rewrite length_take; lia). rewrite length_take, Nat.min_l by lia.
    replace (j - i)%nat with (S (j - i - 1)) by lia.
    change (drop i l !! (j - i - 1)%nat = l !! (j - 1)%nat). rewrite lookup_drop. f_equal. lia.
Qed.

Lemma zlen_insert_at l i x : zlen (insert_at i x l) = zlen l + 1.
Proof. unfold insert_at, zlen. rewrite length_app, length_take. cbn. rewrite length_drop. lia. Qed.

Lemma insert_at_end l x : insert_at (length l) x l = l ++ [x].
Proof. unfold insert_at. by rewrite take_ge, drop_ge by lia. Qed.

Lemma fmap_insert_at {B} (f : A → B) l i x : f <$> insert_at i x l = insert_at i (f x) (f <$> l).
Proof. unfold insert_at. by rewrite fmap_app, fmap_cons, fmap_take, fmap_drop. Qed.

Lemma Forall_insert_at (P : A → Prop) l i x : P x → Forall P l → Forall P (insert_at i x l).
Proof.
  intros. unfold insert_at. apply Forall_app; split; [by apply Forall_take|].
  constructor; [done|by apply Forall_drop].
Qed.

End InsertAt.

(** ** The directory as a list *)

Definition entry_at (p : RawPage) (i : Z) : SlotEntry :=
  SlotEntry.new (u16_at p (24 + 4 * i)) (u16_at p (24 + 4 * i + 2)).

Definition entry_ok (e : SlotEntry) : Prop :=
  0 ≤ SlotEntry.offset e < 65536 ∧ 0 ≤ SlotEntry.length e < 65536.

Record dir (p : RawPage) (es : list SlotEntry) : Prop := {
  dir_page : page_ok p;
  dir_fs : fs p = 24 + 4 * zlen es;
  dir_fe : fs p ≤ fe p ≤ 4096;
  dir_lookup : ∀ i e, es !! i = Some e → entry_at p (Z.of_nat i) = e }.

(** The entries that the bytes of a page determine. *)
Definition slots_of (p : RawPage) : list SlotEntry :=
  (λ i, entry_at p (Z.of_nat i)) <$> seq 0 (Z.to_nat ((fs p - 24) / 4)).

Section DirFacts.
Context (t : target).
Implicit Types (p : RawPage) (es : list SlotEntry) (e : SlotEntry).

Lemma dir_slots p es : dir p es → es = slots_of p.
Proof.
  intros [Hp Hfs _ Hl]. unfold slots_of. rewrite Hfs.
  replace (Z.to_nat _) with (length es)
    by (rewrite (Z.add_comm 24), Z.add_simpl_r, (Z.mul_comm 4), Z.div_mul by lia; zlia).
  apply list_eq. intros i. rewrite list_lookup_fmap.
  destruct (es !! i) as [e|] eqn:He.
  - rewrite lookup_seq_lt by (by eapply lookup_lt_Some). cbn. f_equal. symmetry. by apply Hl.
  - rewrite lookup_seq_ge; [done|]. by apply lookup_ge_None.
Qed.

(** Any page whose header is in order has a slot directory. *)
Definition header_ok p : Prop :=
  page_ok p ∧ 24 ≤ fs p ≤ fe p ∧ fe p ≤ 4096 ∧ (fs p - 24) mod 4 = 0.

Lemma header_dir p : header_ok p ↔ dir p (slots_of p).
Proof.
  split.
  - intros (Hp & Hs & He & Hm). split; [done| |lia|].
    + unfold slots_of, zlen. rewrite length_fmap, length_seq.
      pose proof (Z.div_mod (fs p - 24) 4 ltac:(lia)). pose proof (Z.div_pos (fs p - 24) 4). lia.
    + intros i e Hi. unfold slots_of in Hi. rewrite list_lookup_fmap in Hi.
      apply fmap_Some in Hi as (j & Hj & ->). by apply lookup_seq in Hj as [-> _].
  - intros [Hp Hfs Hfe _]. pose proof (zlen_nonneg (slots_of p)). split_and!; [done|lia..|].
    replace (fs p - 24) with (zlen (slots_of p) * 4) by lia. by apply Z.mod_mul.
Qed.

Lemma dir_zlen p es : dir p es → 0 ≤ zlen es ≤ 1018.
Proof. intros [_ H1 H2 _]. pose proof (zlen_nonneg es). lia. Qed.

Lemma entry_at_ok p i : page_ok p → 0 ≤ i → 24 + 4 * i + 4 ≤ 4096 → entry_ok (entry_at p i).
Proof.
  intros [Hl Hb] ??. split; cbn; (apply (u16_at_range p); [done|zlia..]).
Qed.

Lemma dir_entry_ok p es i e : dir p es → es !! i = Some e → entry_ok e.
Proof.
  intros Hd He. rewrite <-(dir_lookup _ _ Hd _ _ He).
  pose proof (lookup_lt_Some _ _ _ He). pose proof (dir_fs _ _ Hd). pose proof (dir_fe _ _ Hd).
  apply entry_at_ok; [apply Hd|zlia..].
Qed.

Lemma dir_empty p : page_ok p → fs p = 24 → 24 ≤ fe p ≤ 4096 → dir p [].
Proof. intros. split; [done|done|lia|done]. Qed.

(** A directory only depends on the header and the bytes of the slot array. *)
Lemma dir_ext p p' es :
  dir p es → page_ok p' → fs p' = fs p → fs p' ≤ fe p' ≤ 4096 →
  (∀ off, 24 ≤ off → off + 2 ≤ fs p → slice p' off 2 = slice p off 2) →
  dir p' es.
Proof.
  intros [Hp Hfs Hfe Hl] Hp' Hs He Hb. split; [done|lia|done|].
  intros i e Hi. pose proof (lookup_lt_Some _ _ _ Hi).
  rewrite <-(Hl i e Hi). unfold entry_at, u16_at.
  by rewrite !Hb by zlia.
Qed.

Lemma body_slice p p' off len :
  body p' = body p → 24 ≤ off → off + len ≤ 4096 → slice p' off len = slice p off len.
Proof.
  unfold body. intros H ??.
  assert (Hs : ∀ q : RawPage, slice q off len = slice (slice q 24 4072) (off - 24) len).
  { intros q. rewrite slice_slice by lia. f_equal. lia. }
  rewrite (Hs p), (Hs p'). by change (slice p' 24 4072 = slice p 24 4072) in H; rewrite H.
Qed.

(** The two copies that store a slot entry at offset [x]. *)
Lemma write_entry_ok p x e :
  page_ok p → entry_ok e → 24 ≤ x → x + 4 ≤ 4096 →
  ∃ p', (∀ B (k : W B),
           (copy_nonoverlapping (to_le_bytes 2 (SlotEntry.offset e)) x 2 ≫= λ _,
            copy_nonoverlapping (to_le_bytes 2 (SlotEntry.length e)) (x + 2) 2 ≫= λ _, k) p
           = k p') ∧
    page_ok p' ∧ decode_header p' = decode_header p ∧
    u16_at p' x = SlotEntry.offset e ∧ u16_at p' (x + 2) = SlotEntry.length e ∧
    ∀ off len, 0 ≤ off → off + len ≤ x ∨ x + 4 ≤ off → slice p' off len = slice p off len.
Proof.
  intros Hp [Ho Hl] Hx Hx4. pose proof (page_ok_zlen p Hp) as Hz.
  set (b1 := to_le_bytes 2 (SlotEntry.offset e)). set (b2 := to_le_bytes 2 (SlotEntry.length e)).
  assert (Hb1 : zlen b1 = 2) by done. assert (Hb2 : zlen b2 = 2) by done.
  destruct (write_ok p x b1) as (P1 & S1 & F1); [done|apply to_le_bytes_ok|lia|lia|].
  set (p1 := splice p x b1) in *.
  destruct (write_ok p1 (x + 2) b2) as (P2 & S2 & F2); [done|apply to_le_bytes_ok|lia|lia|].
  set (p2 := splice p1 (x + 2) b2) in *. rewrite Hb1 in S1, F1. rewrite Hb2 in S2, F2.
  exists p2. split_and!.
  - intros B k. pose proof (page_ok_zlen p1 P1).
    erewrite bind_ok; [|apply copy_nonoverlapping_ok; lia]. fold p1.
    by erewrite bind_ok; [|apply copy_nonoverlapping_ok; lia].
  - done.
  - apply decode_header_ext. rewrite F2, F1 by lia. done.
  - unfold u16_at. rewrite F2, S1 by lia. by apply (from_to_le_bytes 2).
  - unfold u16_at. rewrite S2. by apply (from_to_le_bytes 2).
  - intros. by rewrite F2, F1 by lia.
Qed.

(** Storing an entry at the end of a prefix of the array that is already in
    place, then moving the free start: shared by the two insertions. *)
Lemma commit_entry p p1 es es' :
  dir p es → page_ok p1 → decode_header p1 = decode_header p →
  zlen es' = zlen es + 1 → fs p + 4 ≤ fe p →
  (∀ i e, es' !! i = Some e → entry_at p1 (Z.of_nat i) = e) →
  ∃ p', (SlottedPageMut.increment_free_start t ENTRY_SIZE ≫= λ _, mret tt) p1 = (Ok tt, p') ∧
    dir p' es' ∧ decode_header p' = with_free_start (fs p + 4) (decode_header p) ∧
    ∀ off len, 24 ≤ off → off + len ≤ 4096 → slice p' off len = slice p1 off len.
Proof.
  intros Hd Hp1 Hh Hl Hroom He. pose proof (dir_fs _ _ Hd). pose proof (dir_fe _ _ Hd).
  pose proof (dir_zlen _ _ Hd).
  destruct (increment_free_start_ok t p1 Hp1 4) as (p' & Hr & Hp' & Hh' & Hbody);
    [rewrite Hh; lia|lia|].
  rewrite Hh in Hr, Hh'.
  exists p'. split_and!; [by rewrite (bind_ok _ _ _ _ _ Hr)| |done|by intros; apply body_slice].
  split; [done|rewrite Hh'; cbn [with_free_start h_free_start h_free_end]; lia..|].
  intros i e Hi. rewrite <-(He i e Hi). pose proof (lookup_lt_Some _ _ _ Hi).
  unfold entry_at, u16_at. by rewrite !(body_slice p1 p') by (done || zlia).
Qed.

Lemma append_slot_entry_dir p es e :
  dir p es → entry_ok e → fs p + 4 ≤ fe p →
  ∃ p', SlottedPageMut.append_slot_entry t (SlotEntry.length e) (SlotEntry.offset e) p = (Ok tt, p') ∧
    dir p' (es ++ [e]) ∧ decode_header p' = with_free_start (fs p + 4) (decode_header p) ∧
    ∀ off len, fs p + 4 ≤ off → off + len ≤ 4096 → slice p' off len = slice p off len.
Proof.
  intros Hd He Hroom. pose proof (dir_page _ _ Hd) as Hp.
  pose proof (dir_fs _ _ Hd) as Hfs. pose proof (dir_fe _ _ Hd). pose proof (dir_zlen _ _ Hd).
  unfold SlottedPageMut.append_slot_entry.
  mrun free_start_ok. mrun free_end_ok. mcalc. if_false.
  destruct (write_entry_ok p (fs p) e) as (p1 & Hrun & Hp1 & Hh1 & Ho1 & Hl1 & F1);
    [done|done|lia|lia|]. rewrite Hrun.
  destruct (commit_entry p p1 es (es ++ [e])) as (p' & Hr & Hd' & Hh' & F');
    [done|done|done|rewrite zlen_app; done|done| |].
  - intros i e' Hi. destruct (decide (i < length es)%nat).
    + rewrite lookup_app_l in Hi by done. rewrite <-(dir_lookup _ _ Hd _ _ Hi).
      unfold entry_at. unfold u16_at. rewrite !F1 by zlia. done.
    + pose proof (lookup_lt_Some _ _ _ Hi) as Hlt. rewrite length_app in Hlt; cbn in Hlt.
      assert (i = length es) as -> by lia. rewrite lookup_app_r, Nat.sub_diag in Hi by lia.
      injection Hi as <-. unfold entry_at.
      replace (24 + 4 * Z.of_nat (length es)) with (fs p) by zlia.
      rewrite Ho1, Hl1. by destruct e.
  - exists p'. split_and!; [done..|]. intros. rewrite F', F1 by lia. done.
Qed.

Lemma append_slot_entry_full p es size offset :
  dir p es → fe p - fs p < 4 →
  SlottedPageMut.append_slot_entry t size offset p = (Err NotEnoughFreeSpace, p).
Proof.
  intros Hd Hroom. pose proof (dir_page _ _ Hd) as Hp. pose proof (dir_fe _ _ Hd).
  pose proof (dir_fs _ _ Hd). pose proof (zlen_nonneg es).
  unfold SlottedPageMut.append_slot_entry.
  mrun free_start_ok. mrun free_end_ok. mcalc. by if_true.
Qed.

Lemma dir_count p es : dir p es → (fs p - HEADER_SIZE) / ENTRY_SIZE = zlen es.
Proof.
  intros Hd. rewrite (dir_fs _ _ Hd). change HEADER_SIZE with 24. change ENTRY_SIZE with 4.
  rewrite (Z.add_comm 24), Z.add_simpl_r, (Z.mul_comm 4), Z.div_mul by lia. done.
Qed.

(** Shifting the entries from [i] on by one position and storing [e] at [i]. *)
Lemma shift_entries p p1 p2 es i e :
  dir p es → fs p + 4 ≤ fe p → (i < length es)%nat →
  let x := 24 + 4 * Z.of_nat i in
  p1 = splice p (x + 4) (slice p x (4 * (zlen es - Z.of_nat i))) →
  u16_at p2 x = SlotEntry.offset e → u16_at p2 (x + 2) = SlotEntry.length e →
  (∀ off len, 0 ≤ off → off + len ≤ x ∨ x + 4 ≤ off → slice p2 off len = slice p1 off len) →
  ∀ j e', insert_at i e es !! j = Some e' → entry_at p2 (Z.of_nat j) = e'.
Proof.
  intros Hd Hroom Hi x -> Ho Hl F j e' Hj.
  pose proof (dir_fs _ _ Hd). pose proof (dir_fe _ _ Hd).
  pose proof (page_ok_zlen p (dir_page _ _ Hd)) as Hz.
  assert (Hc : zlen (slice p x (4 * (zlen es - Z.of_nat i))) = 4 * (zlen es - Z.of_nat i)).
  { apply zlen_slice; subst x; zlia. }
  rewrite lookup_insert_at in Hj by lia. unfold entry_at. repeat case_decide.
  - rewrite <-(dir_lookup _ _ Hd _ _ Hj). unfold entry_at, u16_at.
    rewrite !F, !slice_splice_disj by (rewrite ?Hc; subst x; zlia). done.
  - subst j. injection Hj as <-. fold x. rewrite Ho, Hl. by destruct e.
  - pose proof (lookup_lt_Some _ _ _ Hj). rewrite <-(dir_lookup _ _ Hd _ _ Hj). unfold entry_at, u16_at.
    rewrite !F, !slice_splice_inside, !slice_slice by (rewrite ?Hc; subst x; zlia).
    do 2 f_equal; f_equal; subst x; zlia.
Qed.

Lemma insert_slot_entry_dir p es (i : nat) e :
  dir p es → entry_ok e → fs p + 4 ≤ fe p → (i ≤ length es)%nat →
  ∃ p', SlottedPageMut.insert_slot_entry_at_index t (Z.of_nat i) e p = (Ok tt, p') ∧
    dir p' (insert_at i e es) ∧ decode_header p' = with_free_start (fs p + 4) (decode_header p) ∧
    ∀ off len, fs p + 4 ≤ off → off + len ≤ 4096 → slice p' off len = slice p off len.
Proof.
  intros Hd He Hroom Hi. pose proof (dir_page _ _ Hd) as Hp.
  pose proof (dir_fs _ _ Hd) as Hfs. pose proof (dir_fe _ _ Hd). pose proof (dir_zlen _ _ Hd).
  pose proof (page_ok_zlen p Hp) as Hz.
  unfold SlottedPageMut.insert_slot_entry_at_index.
  mrun free_start_ok. mrun free_end_ok. mcalc. if_false. mcalc.
  rewrite (dir_count p es Hd). if_false.
  destruct (decide (i = length es)) as [->|Hne].
  { if_true. rewrite insert_at_end. by apply append_slot_entry_dir. }
  if_false. mcalc. change HEADER_SIZE with 24. change ENTRY_SIZE with 4.
  rewrite (Z.mul_comm _ 4). set (x := 24 + 4 * Z.of_nat i). rewrite (Z.mul_comm _ 4).
  erewrite bind_ok; [|apply ptr_copy_ok; subst x; zlia]. cbv beta zeta.
  set (p1 := splice p (x + 4) _).
  assert (Hc : zlen (slice p x (4 * (zlen es - Z.of_nat i))) = 4 * (zlen es - Z.of_nat i)).
  { apply zlen_slice; subst x; zlia. }
  destruct (write_ok p (x + 4) (slice p x (4 * (zlen es - Z.of_nat i)))) as (P1 & _ & F1);
    [done|apply bytes_ok_slice, Hp|subst x; zlia|rewrite Hc; subst x; zlia|].
  fold p1 in P1, F1. rewrite Hc in F1.
  destruct (write_entry_ok p1 x e) as (p2 & Hrun & P2 & Hh2 & Ho2 & Hl2 & F2);
    [done|done|subst x; zlia..|]. rewrite Hrun.
  destruct (commit_entry p p2 es (insert_at i e es)) as (p' & Hr & Hd' & Hh' & F');
    [done|done| |apply zlen_insert_at|done| |].
  - rewrite Hh2. apply decode_header_ext, F1; subst x; zlia.
  - apply (shift_entries p p1 p2); [done|done|lia|done..].
  - exists p'. split_and!; [done..|]. intros. rewrite F', F2, F1 by (subst x; zlia). done.
Qed.

Lemma insert_slot_entry_range p es idx e :
  dir p es → fs p + 4 ≤ fe p → zlen es < idx →
  SlottedPageMut.insert_slot_entry_at_index t idx e p = (Err SlotIndexNotInRange, p).
Proof.
  intros Hd Hroom Hi. pose proof (dir_page _ _ Hd) as Hp.
  pose proof (dir_fs _ _ Hd) as Hfs. pose proof (dir_fe _ _ Hd). pose proof (dir_zlen _ _ Hd).
  unfold SlottedPageMut.insert_slot_entry_at_index.
  mrun free_start_ok. mrun free_end_ok. mcalc. if_false. mcalc.
  rewrite (dir_count p es Hd). by if_true.
Qed.

Lemma insert_slot_entry_full p es idx e :
  dir p es → fe p - fs p < 4 →
  SlottedPageMut.insert_slot_entry_at_index t idx e p = (Err NotEnoughFreeSpace, p).
Proof.
  intros Hd Hroom. pose proof (dir_page _ _ Hd) as Hp. pose proof (dir_fe _ _ Hd).
  pose proof (dir_fs _ _ Hd). pose proof (zlen_nonneg es).
  unfold SlottedPageMut.insert_slot_entry_at_index.
  mrun free_start_ok. mrun free_end_ok. mcalc. by if_true.
Qed.
End DirFacts.
