(* ===== verification/SlottedCells.v ===== *)
(** * Cells of a slotted page: layout invariant and refinement

    The abstract state of a slotted page is the list of its cells.
    [slotted p lim cells] is the representation invariant: the slot array
    describes the cells in order, the cells tile [[free_end, lim)] without
    overlapping, and the free space lies between the two.  [lim] is the end of
    the cell area: [PAGE_SIZE], or the start of the special area.  The two
    insertions refine list insertion and the reads refine list lookup. *)

From S2P Require Import Prelude Bytes PageTypes Slotted SlottedHeader SlottedDir.

(** ** Representation *)

Abbreviation cell := (list Z).

Definition cell_of (p : RawPage) (e : SlotEntry) : cell :=
  slice p (SlotEntry.offset e) (SlotEntry.length e).

Definition total (ns : list Z) : Z := foldr Z.add 0 ns.

Definition apart (e e' : SlotEntry) : Prop :=
  SlotEntry.offset e + SlotEntry.length e ≤ SlotEntry.offset e' ∨
  SlotEntry.offset e' + SlotEntry.length e' ≤ SlotEntry.offset e.

Record layout (p : RawPage) (lim : Z) (es : list SlotEntry) : Prop := {
  lay_dir : dir p es;
  lay_lim : fe p ≤ lim ≤ 4096;
  lay_area : Forall (λ e, fe p ≤ SlotEntry.offset e ∧
                          SlotEntry.offset e + SlotEntry.length e ≤ lim) es;
  lay_total : fe p + total (SlotEntry.length <$> es) = lim;
  lay_apart : ∀ i j e e', es !! i = Some e → es !! j = Some e' → i ≠ j → apart e e' }.

Definition slotted (p : RawPage) (lim : Z) (cells : list cell) : Prop :=
  ∃ es, layout p lim es ∧ cells = cell_of p <$> es.

(** ** Abstract specification *)

(** Bytes taken by the cells and their slots, and bytes left for new ones. *)
Definition used (cells : list cell) : Z := total (zlen <$> cells) + 4 * zlen cells.
Definition room (lim : Z) (cells : list cell) : Z := lim - 24 - used cells.

Definition spec_add_at (lim : Z) (i : Z) (c : cell) (cells : list cell) :
  res PageError (list cell) :=
  if room lim cells <? zlen c + 4 then Err NoContigiousSpace
  else if zlen cells <? i then Err SlotIndexNotInRange
  else Ok (insert_at (Z.to_nat i) c cells).

Definition spec_append (lim : Z) (c : cell) (cells : list cell) : res PageError (list cell) :=
  if room lim cells <? zlen c + 4 then Err NoContigiousSpace else Ok (cells ++ [c]).

Definition spec_get (i : Z) (cells : list cell) : res PageError cell :=
  match cells with
  | [] => Err EmptySlotDir
  | _ => match cells !! Z.to_nat i with
         | Some c => Ok c
         | None => Err SlotIDOutOfBounds
         end
  end.

(** What an insertion leaves alone: every header field but the two bounds of
    the free space, and every byte from [lim] on. *)
Definition insertion_frame (p p' : RawPage) (lim : Z) : Prop :=
  (∃ s f, decode_header p' = with_free_end f (with_free_start s (decode_header p))) ∧
  ∀ off len, lim ≤ off → off + len ≤ 4096 → slice p' off len = slice p off len.

(** Outcome of a mutating operation against its specification: on success the
    new page represents the new list; on an error the page is untouched. *)
Definition refines (p : RawPage) (lim : Z) (r : res PageError unit * RawPage)
    (spec : res PageError (list cell)) : Prop :=
  match spec with
  | Ok cells' => r.1 = Ok tt ∧ slotted r.2 lim cells' ∧ insertion_frame p r.2 lim
  | Err e => r = (Err e, p)
  | _ => False
  end.

(** ** Facts about the representation *)

Section Layout.
Context (t : target).
Implicit Types (p : RawPage) (es : list SlotEntry) (e : SlotEntry) (lim : Z).

Lemma total_app k l : total (k ++ l) = total k + total l.
Proof. unfold total. induction k; cbn; lia. Qed.

Lemma total_insert_at i x l : total (insert_at i x l) = total l + x.
Proof.
  unfold insert_at. rewrite total_app. cbn. rewrite <-(take_drop i l) at 3. rewrite total_app.
  unfold total. lia.
Qed.

Lemma total_nonneg l : Forall (λ n, 0 ≤ n) l → 0 ≤ total l.
Proof. induction 1; cbn; unfold total in *; lia. Qed.

Lemma total_zlen_nonneg (cells : list cell) : 0 ≤ total (zlen <$> cells).
Proof. apply total_nonneg, Forall_fmap, Forall_true. intros. apply zlen_nonneg. Qed.

Lemma layout_page p lim es : layout p lim es → page_ok p.
Proof. intros H. apply H. Qed.

Lemma layout_lookup p lim es i e :
  layout p lim es → es !! i = Some e →
  fe p ≤ SlotEntry.offset e ∧ 0 ≤ SlotEntry.length e ∧
  SlotEntry.offset e + SlotEntry.length e ≤ lim.
Proof.
  intros H Hi. destruct (Forall_lookup_1 _ _ _ _ (lay_area _ _ _ H) Hi).
  destruct (dir_entry_ok _ _ _ _ (lay_dir _ _ _ H) Hi). lia.
Qed.

Lemma layout_zlen_cell p lim es e :
  layout p lim es → e ∈ es → zlen (cell_of p e) = SlotEntry.length e.
Proof.
  intros H [i Hi]%list_elem_of_lookup. pose proof (layout_lookup _ _ _ _ _ H Hi).
  pose proof (lay_lim _ _ _ H). pose proof (dir_fs _ _ (lay_dir _ _ _ H)).
  pose proof (dir_fe _ _ (lay_dir _ _ _ H)). pose proof (zlen_nonneg es).
  pose proof (page_ok_zlen p (layout_page _ _ _ H)). apply zlen_slice; lia.
Qed.

Lemma layout_lengths p lim es :
  layout p lim es → zlen <$> (cell_of p <$> es) = SlotEntry.length <$> es.
Proof.
  intros H. rewrite <-list_fmap_compose. apply list_fmap_ext. intros i e Hi.
  apply (layout_zlen_cell p lim es); [done|]. apply list_elem_of_lookup. eauto.
Qed.

(** The free space is what the cells and their slots leave of the area. *)
Lemma layout_room p lim es :
  layout p lim es → fe p - fs p = room lim (cell_of p <$> es).
Proof.
  intros H. unfold room, used. rewrite (layout_lengths p lim es H).
  pose proof (lay_total _ _ _ H). pose proof (dir_fs _ _ (lay_dir _ _ _ H)).
  unfold zlen. rewrite length_fmap. zlia.
Qed.

Lemma slotted_page p lim cells : slotted p lim cells → page_ok p.
Proof. intros (es & H & _). by eapply layout_page. Qed.

Lemma slotted_bounds p lim cells :
  slotted p lim cells →
  fs p = 24 + 4 * zlen cells ∧ fs p ≤ fe p ≤ lim ∧ lim ≤ 4096 ∧ fe p - fs p = room lim cells.
Proof.
  intros (es & H & ->). rewrite <-(layout_room _ _ _ H).
  pose proof (lay_lim _ _ _ H). pose proof (dir_fs _ _ (lay_dir _ _ _ H)).
  pose proof (dir_fe _ _ (lay_dir _ _ _ H)).
  unfold zlen in *. rewrite length_fmap. lia.
Qed.

Lemma slotted_nil p lim :
  page_ok p → fs p = 24 → fe p = lim → 24 ≤ lim ≤ 4096 → slotted p lim [].
Proof.
  intros. exists []. split; [|done]. split; [by apply dir_empty; [..|lia]|lia|done| |done].
  rewrite fmap_nil. change (total []) with 0. lia.
Qed.

(** A page that agrees with [p] on the header and on the slot array and the
    cells represents the same cells. *)
Lemma layout_ext p p' lim es :
  layout p lim es → page_ok p' → fs p' = fs p → fe p' = fe p →
  (∀ off len, 24 ≤ off → off + len ≤ lim → slice p' off len = slice p off len) →
  layout p' lim es ∧ (cell_of p' <$> es) = (cell_of p <$> es).
Proof.
  intros H Hp' Hs He Hb. pose proof (lay_lim _ _ _ H). pose proof (lay_dir _ _ _ H) as Hd.
  pose proof (dir_fs _ _ Hd). pose proof (dir_fe _ _ Hd). pose proof (zlen_nonneg es).
  split.
  - split; rewrite ?He; [|apply H..]. apply (dir_ext p); [done..|lia|].
    intros. apply Hb; lia.
  - apply list_fmap_ext. intros i e Hi. pose proof (layout_lookup _ _ _ _ _ H Hi).
    apply Hb; lia.
Qed.
End Layout.

(** ** Insertion *)

Section Insertion.
Context (t : target).
Implicit Types (p : RawPage) (es : list SlotEntry) (e : SlotEntry) (lim : Z).

Lemma apart_insert_at es (i : nat) e :
  (i ≤ length es)%nat →
  (∀ i j e1 e2, es !! i = Some e1 → es !! j = Some e2 → i ≠ j → apart e1 e2) →
  Forall (λ e', SlotEntry.offset e + SlotEntry.length e ≤ SlotEntry.offset e') es →
  ∀ j k e1 e2, insert_at i e es !! j = Some e1 → insert_at i e es !! k = Some e2 →
    j ≠ k → apart e1 e2.
Proof.
  intros Hi Hap Hall j k e1 e2 H1 H2 Hjk. rewrite Forall_lookup in Hall.
  rewrite lookup_insert_at in H1, H2 by done. unfold apart.
  repeat case_decide; simplify_eq; try (right; by eapply Hall); try (left; by eapply Hall).
  all: eapply Hap; [exact H1|exact H2|lia].
Qed.

(** ** Inserting a cell, whatever the other cells are

    The insertions look at the header and at the slot array only, so what they
    do is stated for any page with a slot directory: the entries may overlap or
    point anywhere. *)

(** The entry of a cell of length [zlen c] put below the free end. *)
Definition new_entry p (c : cell) : SlotEntry := SlotEntry.new (fe p - zlen c) (zlen c).

(** [p'] is [p] with cell [c] under slot [i] and nothing else changed: the
    bounds of the free space move, the entries from [i] on shift, the cell
    lies at the end of the former free space, and every byte from the former
    free end on is as before. *)
Record inserted p es (i : nat) (c : cell) p' : Prop := {
  ins_dir : dir p' (insert_at i (new_entry p c) es);
  ins_header : decode_header p' =
    with_free_end (fe p - zlen c) (with_free_start (fs p + 4) (decode_header p));
  ins_cell : cell_of p' (new_entry p c) = c;
  ins_frame off len : fe p ≤ off → off + len ≤ 4096 → slice p' off len = slice p off len }.

(** Copying the cell into place and moving the free end, after the slot entry
    of the cell has been stored: the common tail of the two insertions. *)
Lemma place_cell p p1 es (i : nat) c :
  dir p es → (i ≤ length es)%nat → bytes_ok c → zlen c + 4 ≤ fe p - fs p →
  dir p1 (insert_at i (new_entry p c) es) →
  decode_header p1 = with_free_start (fs p + 4) (decode_header p) →
  (∀ off len, fs p + 4 ≤ off → off + len ≤ 4096 → slice p1 off len = slice p off len) →
  ∃ p', (copy_nonoverlapping c (fe p - zlen c) (zlen c) ≫= λ _,
         SlottedPageMut.set_free_end t (fe p - zlen c)) p1 = (Ok tt, p') ∧ inserted p es i c p'.
Proof.
  intros Hd Hi Hc Hroom Hd1 Hh1 F1. pose proof (dir_fs _ _ Hd). pose proof (dir_fe _ _ Hd).
  pose proof (zlen_nonneg es). pose proof (zlen_nonneg c).
  pose proof (dir_page _ _ Hd1) as P1. pose proof (page_ok_zlen p1 P1).
  assert (Hs1 : fs p1 = fs p + 4 ∧ fe p1 = fe p) by (by rewrite Hh1). destruct Hs1 as [Hs1 He1].
  unfold new_entry in *. set (off := fe p - zlen c) in *.
  destruct (write_ok p1 off c) as (P2 & S2 & F2); [done|done|lia|lia|].
  set (p2 := splice p1 off c) in *.
  assert (Hh2 : decode_header p2 = decode_header p1) by (apply decode_header_ext, F2; lia).
  destruct (set_free_end_ok t p2 P2 off) as (p' & Hr & P' & Hh' & Hbody);
    [lia|rewrite Hh2; lia|].
  assert (F' : ∀ o n, 24 ≤ o → o + n ≤ 4096 → slice p' o n = slice p2 o n)
    by (intros; by apply body_slice).
  assert (He' : fe p' = off) by (by rewrite Hh').
  assert (Hs' : fs p' = fs p + 4) by (rewrite Hh'; cbn [with_free_end h_free_start]; by rewrite Hh2).
  exists p'. split; [|split].
  - erewrite bind_ok; [|apply copy_nonoverlapping_ok; lia]. exact Hr.
  - apply (dir_ext p1); [done|done|lia|lia|]. intros. rewrite F', F2 by lia. done.
  - by rewrite Hh', Hh2, Hh1.
  - unfold new_entry, cell_of. cbn. fold off. by rewrite F', S2 by lia.
  - intros. rewrite F', F2, F1 by lia. done.
Qed.

(** The guard of the two insertions. *)
Lemma insertion_guard p es (c : cell) :
  dir p es → zlen c + 4 < usize_mod →
  ∀ (k : Z → W unit),
  (free_start ← rd (SlottedPageMut.free_start t);
   free_end ← rd (SlottedPageMut.free_end t);
   need ← lift (add_w t usize_mod (zlen c) ENTRY_SIZE);
   room ← lift (sub_w t usize_mod free_end free_start);
   if room <? need then err NoContigiousSpace
   else
     off ← lift (sub_w t usize_mod free_end (zlen c));
     _ ← lift (assert (zlen c <=? u16_MAX));
     _ ← lift (assert (off <=? u16_MAX));
     k off) p
  = if fe p - fs p <? zlen c + 4 then (Err NoContigiousSpace, p) else k (fe p - zlen c) p.
Proof.
  intros Hd Hc k. pose proof (dir_page _ _ Hd) as Hp. pose proof (dir_fs _ _ Hd). pose proof (dir_fe _ _ Hd).
  pose proof (zlen_nonneg es). pose proof (zlen_nonneg c).
  mrun free_start_ok. mrun free_end_ok. mcalc. change ENTRY_SIZE with 4.
  destruct (Z.ltb_spec (fe p - fs p) (zlen c + 4)); [done|]. by mcalc.
Qed.

Lemma add_cell_at_dir p es i c :
  dir p es → bytes_ok c → zlen c + 4 < usize_mod → 0 ≤ i →
  let r := SlottedPageMut.add_cell_at_slot_entry_index t i c p in
  if fe p - fs p <? zlen c + 4 then r = (Err NoContigiousSpace, p)
  else if zlen es <? i then r = (Err SlotIndexNotInRange, p)
  else r.1 = Ok tt ∧ inserted p es (Z.to_nat i) c r.2.
Proof.
  intros Hd Hc Hz Hi. cbv zeta. unfold SlottedPageMut.add_cell_at_slot_entry_index.
  rewrite (insertion_guard p es c Hd Hz).
  destruct (Z.ltb_spec (fe p - fs p) (zlen c + 4)) as [|Hroom]; [done|].
  pose proof (dir_fs _ _ Hd). pose proof (dir_fe _ _ Hd).
  pose proof (zlen_nonneg c). pose proof (zlen_nonneg es). rewrite !as_w_id by zlia.
  destruct (Z.ltb_spec (zlen es) i) as [Hgt|Hle].
  { erewrite bind_err; [done|]. apply (insert_slot_entry_range t p es); [done|lia..]. }
  destruct (insert_slot_entry_dir t p es (Z.to_nat i) (new_entry p c)) as (p1 & Hr1 & Hd1 & Hh1 & F1);
    [done|split; cbn; lia|lia|zlia|].
  rewrite Z2Nat.id in Hr1 by lia. unfold new_entry in Hr1. rewrite (bind_ok _ _ _ _ _ Hr1).
  destruct (place_cell p p1 es (Z.to_nat i) c) as (p' & Hr' & H'); [done|zlia|done|lia|done|done|done|].
  by rewrite Hr'.
Qed.

(** Appending is inserting after the last slot, byte for byte. *)
Lemma add_cell_append_eq p es c :
  dir p es → zlen c + 4 < usize_mod →
  SlottedPageMut.add_cell_append_slot_entry t c p =
  SlottedPageMut.add_cell_at_slot_entry_index t (zlen es) c p.
Proof.
  intros Hd Hz. unfold SlottedPageMut.add_cell_append_slot_entry, SlottedPageMut.add_cell_at_slot_entry_index.
  rewrite !(insertion_guard p es c Hd Hz).
  destruct (Z.ltb_spec (fe p - fs p) (zlen c + 4)) as [|Hroom]; [done|].
  set (f := λ _ : unit, copy_nonoverlapping c (fe p - zlen c) (zlen c) ≫= λ _,
    SlottedPageMut.set_free_end t (fe p - zlen c)).
  cut (SlottedPageMut.append_slot_entry t (as_w u16_mod (zlen c)) (as_w u16_mod (fe p - zlen c)) p =
       SlottedPageMut.insert_slot_entry_at_index t (zlen es)
         (SlotEntry.new (as_w u16_mod (fe p - zlen c)) (as_w u16_mod (zlen c))) p).
  { intros E. change ((SlottedPageMut.append_slot_entry t (as_w u16_mod (zlen c))
      (as_w u16_mod (fe p - zlen c)) ≫= f) p = (SlottedPageMut.insert_slot_entry_at_index t (zlen es)
      (SlotEntry.new (as_w u16_mod (fe p - zlen c)) (as_w u16_mod (zlen c))) ≫= f) p).
    unfold mbind, M_bind. by rewrite E. }
  pose proof (dir_page _ _ Hd). pose proof (dir_fs _ _ Hd). pose proof (dir_fe _ _ Hd).
  pose proof (zlen_nonneg c). pose proof (zlen_nonneg es).
  symmetry. unfold SlottedPageMut.insert_slot_entry_at_index.
  mrun free_start_ok. mrun free_end_ok. mcalc. if_false. mcalc. rewrite (dir_count p es Hd).
  rewrite Z.ltb_irrefl, Z.eqb_refl. done.
Qed.

(** ** The list of cells *)

(** On a page whose cells are in order, the insertion is the one of the list. *)
Lemma inserted_refines p lim es (i : nat) c p' :
  layout p lim es → (i ≤ length es)%nat → zlen c + 4 ≤ fe p - fs p → inserted p es i c p' →
  slotted p' lim (insert_at i c (cell_of p <$> es)) ∧ insertion_frame p p' lim.
Proof.
  intros H Hi Hroom [Hd Hh Hc F]. pose proof (lay_lim _ _ _ H). pose proof (zlen_nonneg c).
  assert (He' : fe p' = fe p - zlen c) by (by rewrite Hh).
  split; [exists (insert_at i (new_entry p c) es); split; [split|]|split].
  - done.
  - lia.
  - rewrite He'. apply Forall_insert_at; [cbn; lia|].
    eapply Forall_impl; [apply H|]. cbv beta. lia.
  - rewrite fmap_insert_at, total_insert_at, He'. pose proof (lay_total _ _ _ H). cbn; lia.
  - apply apart_insert_at; [done|apply H|].
    eapply Forall_impl; [apply H|]. intros e' He0. cbv beta in He0. cbn. lia.
  - rewrite fmap_insert_at, Hc. f_equal. apply list_fmap_ext. intros j e' Hj.
    pose proof (layout_lookup _ _ _ _ _ H Hj). unfold cell_of. symmetry. apply F; lia.
  - eauto.
  - intros. apply F; lia.
Qed.

Lemma add_cell_at_refines p lim cells i c :
  slotted p lim cells → bytes_ok c → zlen c + 4 < usize_mod → 0 ≤ i →
  refines p lim (SlottedPageMut.add_cell_at_slot_entry_index t i c p) (spec_add_at lim i c cells).
Proof.
  intros H Hc Hz Hi. pose proof (slotted_bounds _ _ _ H) as (_ & _ & _ & Hr).
  destruct H as (es & H & ->). pose proof (add_cell_at_dir p es i c (lay_dir _ _ _ H) Hc Hz Hi) as Hrun.
  cbv zeta in Hrun. unfold spec_add_at. rewrite <- Hr.
  replace (zlen (cell_of p <$> es)) with (zlen es) by (unfold zlen; by rewrite length_fmap).
  destruct (Z.ltb_spec (fe p - fs p) (zlen c + 4)); [done|].
  destruct (Z.ltb_spec (zlen es) i); [done|]. destruct Hrun as [Hok Hins].
  split; [done|]. eapply inserted_refines; eauto; zlia.
Qed.

Lemma add_cell_append_refines p lim cells c :
  slotted p lim cells → bytes_ok c → zlen c + 4 < usize_mod →
  refines p lim (SlottedPageMut.add_cell_append_slot_entry t c p) (spec_append lim c cells).
Proof.
  intros H Hc Hz. pose proof H as (es & Hl & Hcs).
  assert (Hn : zlen cells = zlen es) by (rewrite Hcs; unfold zlen; by rewrite length_fmap).
  rewrite (add_cell_append_eq p es c (lay_dir _ _ _ Hl) Hz), <- Hn.
  pose proof (add_cell_at_refines p lim cells (zlen cells) c H Hc Hz (zlen_nonneg cells)) as Hr.
  unfold spec_add_at in Hr. unfold spec_append. rewrite Z.ltb_irrefl in Hr.
  replace (Z.to_nat (zlen cells)) with (length cells) in Hr by zlia. by rewrite insert_at_end in Hr.
Qed.
End Insertion.

(** ** Reads *)

(** A [for] loop over the slot iterator, collecting what [next] yields. *)
Fixpoint collect (t : target) (fuel : nat) (it : SlotDirIter.t) (p : RawPage) :
  res PageError (list SlotEntry) :=
  match fuel with
  | O => Diverge
  | S fuel =>
      '(o, it') ← SlotDirIter.next t it p;
      match o with
      | None => Ok []
      | Some e => es ← collect t fuel it' p; Ok (e :: es)
      end
  end.

Section Reads.
Context (t : target).
Implicit Types (p : RawPage) (es : list SlotEntry) (e : SlotEntry) (lim : Z).

Lemma slot_dir_ref_ok p :
  page_ok p → 24 ≤ fs p → SlottedPageRef.slot_dir_ref t p = Ok (SlotRef.new 24 (fs p - 24)).
Proof.
  intros Hp Hs. unfold SlottedPageRef.slot_dir_ref.
  rewrite (free_start_ok t p Hp : SlottedPageRef.free_start t p = _). cbn.
  pose proof (fs_range p Hp). rewrite assert_ok by zlia. cbn. by rewrite sub_w_ok by zlia.
Qed.

Lemma slot_count_eq n : SlotRef.slot_count (SlotRef.new 24 n) = n / 4.
Proof. unfold SlotRef.slot_count. cbn. by destruct (Z.eqb_spec n 0) as [->|]. Qed.

(** The lookup by slot id on any page whose slot array lies inside the page. *)
Lemma cell_slice_from_id_eq p id :
  page_ok p → 24 ≤ fs p ≤ 4096 → 0 ≤ SlotID_0 id →
  SlottedPageRef.cell_slice_from_id t id p =
    (if (fs p - 24) / 4 =? 0 then Err EmptySlotDir
     else if (fs p - 24) / 4 <=? SlotID_0 id then Err SlotIDOutOfBounds
     else let e := entry_at p (SlotID_0 id) in
          if 4096 <? SlotEntry.offset e + SlotEntry.length e then Err CorruptCell
          else Ok (cell_of p e)).
Proof.
  intros Hp Hs Hid. unfold SlottedPageRef.cell_slice_from_id.
  rewrite slot_dir_ref_ok by (done || lia). cbn [mbind res_bind]. unfold mbind, res_bind.
  rewrite slot_count_eq. destruct (_ =? 0); [done|].
  destruct (Z.leb_spec ((fs p - 24) / 4) (SlotID_0 id)) as [|Hlt]; [done|].
  assert (4 * ((fs p - 24) / 4) ≤ fs p - 24) by (apply Z.mul_div_le; lia).
  pose proof (page_ok_zlen p Hp). pose proof (page_ok_bytes p Hp).
  rewrite mul_w_ok by zlia. change (SlotRef.ptr _) with 24. change ENTRY_SIZE with 4.
  rewrite (Z.mul_comm _ 4).
  rewrite !read_u16_le_unsafe_ok by (done || lia).
  destruct (entry_at_ok p (SlotID_0 id)) as [Ho Hl]; [done|lia|lia|]. cbn in Ho, Hl.
  rewrite add_w_ok by zlia. cbn. change PAGE_SIZE with 4096.
  destruct (Z.ltb_spec 4096 (u16_at p (24 + 4 * SlotID_0 id) + u16_at p (24 + 4 * SlotID_0 id + 2)));
    [done|].
  rewrite index_range_ok by lia. unfold cell_of. cbn. do 2 f_equal. lia.
Qed.

Lemma cell_slice_from_id_slotted p lim cells id :
  slotted p lim cells → 0 ≤ SlotID_0 id →
  SlottedPageRef.cell_slice_from_id t id p = spec_get (SlotID_0 id) cells.
Proof.
  intros H Hid. pose proof (slotted_bounds _ _ _ H) as (Hs & Hb & Hl & _).
  pose proof (slotted_page _ _ _ H) as Hp. destruct H as (es & H & ->).
  pose proof (zlen_nonneg (cell_of p <$> es)).
  rewrite cell_slice_from_id_eq by (done || lia).
  replace ((fs p - 24) / 4) with (zlen es)
    by (rewrite <-(dir_count p es (lay_dir _ _ _ H)); done).
  unfold spec_get. destruct es as [|e0 es0] eqn:Ees; [done|]. rewrite <-Ees in *.
  assert (0 < zlen es) by (subst es; unfold zlen; cbn [length]; lia).
  if_false. replace (cell_of p <$> e0 :: es0) with (cell_of p <$> es) by (by subst es).
  rewrite list_lookup_fmap. destruct (es !! Z.to_nat (SlotID_0 id)) as [e|] eqn:He.
  - pose proof (lookup_lt_Some _ _ _ He). if_false.
    pose proof (dir_lookup _ _ (lay_dir _ _ _ H) _ _ He) as Hent.
    rewrite Z2Nat.id in Hent by lia. rewrite Hent. cbv zeta.
    pose proof (layout_lookup _ _ _ _ _ H He). if_false. by subst es.
  - apply lookup_ge_None in He. if_true. by subst es.
Qed.

Lemma cell_slice_from_entry_slotted p lim es e :
  layout p lim es → lim < 4096 → e ∈ es →
  SlottedPageRef.cell_slice_from_entry t e p = Ok (cell_of p e).
Proof.
  intros H Hlim [i Hi]%list_elem_of_lookup. pose proof (layout_lookup _ _ _ _ _ H Hi).
  pose proof (dir_entry_ok _ _ _ _ (lay_dir _ _ _ H) Hi) as [??].
  pose proof (page_ok_zlen p (layout_page _ _ _ H)).
  unfold SlottedPageRef.cell_slice_from_entry. rewrite add_w_ok by zlia. cbn.
  rewrite debug_assert_ok by zlia. cbn. rewrite index_range_ok by lia.
  unfold cell_of. do 2 f_equal. lia.
Qed.

(** One step of the iterator over the directory [es]. *)
Lemma next_entry_dir p es k :
  dir p es → (k ≤ length es)%nat →
  SlotDirIter.next t (SlotDirIter.mk 24 (fs p - 24) (Z.of_nat k)) p =
    match es !! k with
    | Some e => Ok (Some e, SlotDirIter.mk 24 (fs p - 24) (Z.of_nat (S k)))
    | None => Ok (None, SlotDirIter.mk 24 (fs p - 24) (Z.of_nat k))
    end.
Proof.
  intros Hd Hk. pose proof (dir_page _ _ Hd) as Hp. pose proof (dir_fs _ _ Hd).
  pose proof (dir_fe _ _ Hd). pose proof (dir_zlen _ _ Hd).
  pose proof (page_ok_zlen p Hp). pose proof (page_ok_bytes p Hp).
  unfold SlotDirIter.next, SlotDirIter.next_entry, SlotDirIter.slot_count.
  cbn [SlotDirIter.size SlotDirIter.pos SlotDirIter.ptr].
  change ((fs p - 24) / ENTRY_SIZE) with ((fs p - HEADER_SIZE) / ENTRY_SIZE).
  rewrite (dir_count p es Hd). destruct (es !! k) as [e|] eqn:He.
  - pose proof (lookup_lt_Some _ _ _ He). if_false.
    rewrite mul_w_ok by zlia. cbn. change ENTRY_SIZE with 4. rewrite (Z.mul_comm _ 4).
    rewrite !read_u16_le_unsafe_ok by (done || zlia). cbn.
    rewrite add_w_ok by zlia. cbn. rewrite <-(dir_lookup _ _ Hd _ _ He).
    unfold entry_at. do 3 f_equal. lia.
  - apply lookup_ge_None in He. by if_true.
Qed.

Lemma collect_dir p es k fuel :
  dir p es → (k ≤ length es)%nat → (length es - k < fuel)%nat →
  collect t fuel (SlotDirIter.mk 24 (fs p - 24) (Z.of_nat k)) p = Ok (drop k es).
Proof.
  intros Hd. revert k. induction fuel as [|fuel IH]; intros k Hk Hf; [lia|].
  cbn [collect]. rewrite (next_entry_dir p es k Hd Hk).
  destruct (es !! k) as [e|] eqn:He; cbn.
  - pose proof (lookup_lt_Some _ _ _ He). rewrite IH by lia. cbn. by rewrite (drop_S _ _ _ He).
  - apply lookup_ge_None in He. by rewrite drop_ge.
Qed.

Lemma free_contiguous_space_ok p lim cells :
  slotted p lim cells → SlottedPageRef.free_contiguous_space t p = Ok (room lim cells).
Proof.
  intros H. pose proof (slotted_bounds _ _ _ H) as (Hs & Hb & Hl & Hr).
  pose proof (slotted_page _ _ _ H) as Hp. unfold SlottedPageRef.free_contiguous_space.
  rewrite (free_end_ok t p Hp : SlottedPageRef.free_end t p = _). cbn.
  rewrite (free_start_ok t p Hp : SlottedPageRef.free_start t p = _). cbn.
  pose proof (zlen_nonneg cells). rewrite sub_w_ok by zlia. by rewrite Hr.
Qed.
End Reads.

(** ** Initialisation *)

Section Init.
Implicit Types p : RawPage.

Lemma init_new_ok p v :
  page_ok p → 0 ≤ v < 256 →
  updates_header (SlottedPageMut.init_new v) p tt
    (λ h, with_page_type v (with_free_end 4096 (with_free_start 24 h))).
Proof.
  intros Hp Hv. unfold updates_header, SlottedPageMut.init_new.
  pose proof (page_ok_zlen p Hp) as Hz.
  erewrite bind_ok; [|apply set_index_ok; zlia]. cbn [PageKindImpl.as_u8].
  destruct (write_ok p PAGE_TYPE_OFFSET [255]) as (P1 & _ & F1);
    [done|by apply byte_write_ok|zlia|rewrite zlen_byte; zlia|].
  set (p1 := splice p PAGE_TYPE_OFFSET [255]) in *. pose proof (page_ok_zlen p1 P1).
  erewrite bind_ok; [|apply copy_from_slice_ok; rewrite ?zlen_le16; zlia].
  destruct (write_ok p1 FREE_START_OFFSET (to_le_bytes 2 HEADER_SIZE_U16)) as (P2 & S2 & F2);
    [done|apply to_le_bytes_ok|zlia|rewrite zlen_le16; zlia|].
  set (p2 := splice p1 FREE_START_OFFSET _) in *. pose proof (page_ok_zlen p2 P2).
  erewrite bind_ok; [|apply copy_from_slice_ok; rewrite ?zlen_le16; zlia].
  destruct (write_ok p2 FREE_END_OFFSET (to_le_bytes 2 (as_w u16_mod PAGE_SIZE)))
    as (P3 & S3 & F3); [done|apply to_le_bytes_ok|zlia|rewrite zlen_le16; zlia|].
  set (p3 := splice p2 FREE_END_OFFSET _) in *.
  destruct (set_page_type_ok p3 P3 v Hv) as (p' & Hr & P' & Hh & Hb).
  exists p'. split_and!; [exact Hr|done| |].
  - rewrite Hh. rewrite zlen_le16 in *. rewrite zlen_byte in *.
    unfold with_page_type, with_free_end, with_free_start, decode_header.
    cbn [h_lsn h_checksum h_page_type h_flags h_free_start h_free_end h_special h_size_version h_txid].
    f_equal; rewrite ?F3, ?F2, ?F1 by zlia; try done.
    + change FREE_START_SIZE with 2. by rewrite S2.
    + change FREE_END_SIZE with 2. by rewrite S3.
  - rewrite Hb. unfold body. rewrite zlen_le16 in *. rewrite zlen_byte in *.
    by rewrite F3, F2, F1 by zlia.
Qed.

Lemma init_new_slotted p v :
  page_ok p → 0 ≤ v < 256 → ∃ p', SlottedPageMut.init_new v p = (Ok tt, p') ∧
    slotted p' 4096 [] ∧ h_page_type (decode_header p') = v ∧
    h_special (decode_header p') = h_special (decode_header p).
Proof.
  intros Hp Hv. destruct (init_new_ok p v Hp Hv) as (p' & Hr & P' & Hh & _).
  exists p'. split_and!; [done| |by rewrite Hh|by rewrite Hh].
  apply slotted_nil; [done|by rewrite Hh..|lia].
Qed.
End Init.
