(* ===== verification/SlottedProps.v ===== *)
(** * Properties of the slotted page

    The theorems about src/src/page/slotted_page.rs, stated over the
    specification of [SlottedCells]: refinement of the two insertions and of
    the lookup, of whole sequences of operations from an initialised page, the
    space accounting, the iterator, the raw slot operations and the behaviour
    on pages that do not satisfy the invariant. *)

From S2P Require Import Prelude Bytes PageTypes Slotted SlottedHeader SlottedDir SlottedCells.

(** ** Sequences of operations *)

Inductive page_op :=
| AppendCell (c : cell)
| AddCellAt (i : Z) (c : cell).

(** The arguments have their Rust types: a byte slice that fits in memory and
    a [usize] index. *)
Definition op_ok (o : page_op) : Prop :=
  match o with
  | AppendCell c => bytes_ok c ∧ zlen c + 4 < usize_mod
  | AddCellAt i c => bytes_ok c ∧ zlen c + 4 < usize_mod ∧ 0 ≤ i
  end.

#[global] Instance op_ok_dec o : Decision (op_ok o).
Proof. destruct o; cbn; apply _. Defined.

Definition exec (t : target) (o : page_op) : W unit :=
  match o with
  | AppendCell c => SlottedPageMut.add_cell_append_slot_entry t c
  | AddCellAt i c => SlottedPageMut.add_cell_at_slot_entry_index t i c
  end.

Definition spec_exec (lim : Z) (o : page_op) (cells : list cell) : res PageError (list cell) :=
  match o with
  | AppendCell c => spec_append lim c cells
  | AddCellAt i c => spec_add_at lim i c cells
  end.

(** Run the operations one after the other, whatever each returns, recording
    the results. *)
Fixpoint run (t : target) (ops : list page_op) (p : RawPage) :
  list (res PageError unit) * RawPage :=
  match ops with
  | [] => ([], p)
  | o :: ops =>
      let '(r, p1) := exec t o p in
      let '(rs, p2) := run t ops p1 in
      (r :: rs, p2)
  end.

Fixpoint spec_run (lim : Z) (ops : list page_op) (cells : list cell) :
  list (res PageError unit) * list cell :=
  match ops with
  | [] => ([], cells)
  | o :: ops =>
      let '(r, cells1) :=
        match spec_exec lim o cells with
        | Ok cells1 => (Ok tt, cells1)
        | Err e => (Err e, cells)
        | _ => (Panic, cells)
        end in
      let '(rs, cells2) := spec_run lim ops cells1 in
      (r :: rs, cells2)
  end.

Lemma exec_refines t p lim cells o :
  slotted p lim cells → op_ok o → refines p lim (exec t o p) (spec_exec lim o cells).
Proof.
  destruct o as [c|i c]; cbn.
  - intros H [? ?]. by apply add_cell_append_refines.
  - intros H (? & ? & ?). by apply add_cell_at_refines.
Qed.

Lemma run_refines t lim ops p cells :
  slotted p lim cells → Forall op_ok ops →
  (run t ops p).1 = (spec_run lim ops cells).1 ∧
  slotted (run t ops p).2 lim (spec_run lim ops cells).2.
Proof.
  intros H Hops. revert p cells H. induction Hops as [|o ops Ho _ IH]; intros p cells H; [done|].
  pose proof (exec_refines t p lim cells o H Ho) as Href. cbn [run spec_run].
  destruct (exec t o p) as [r p1] eqn:Er. unfold refines in Href.
  destruct (spec_exec lim o cells) as [cells1|e| | |] eqn:Es; try done; cbn in Href.
  - destruct Href as (-> & H1 & _). specialize (IH p1 cells1 H1).
    destruct (run t ops p1), (spec_run lim ops cells1). cbn in *. destruct IH as [-> ?]. done.
  - injection Href as -> ->. specialize (IH p cells H).
    destruct (run t ops p), (spec_run lim ops cells). cbn in *. destruct IH as [-> ?]. done.
Qed.

(** ** Sample pages for the witnesses *)

Definition empty_page : RawPage := (SlottedPageMut.init_new 2 zero_page).2.
Definition sample_ops : list page_op :=
  [AppendCell [1; 2; 3]; AddCellAt 0 [7]; AddCellAt 9 [5]; AppendCell []].
Definition sample_page : RawPage := (run dbg sample_ops empty_page).2.

Lemma empty_page_slotted : slotted empty_page 4096 [].
Proof.
  destruct (init_new_slotted zero_page 2 zero_page_ok) as (p' & Hr & H & _); [lia|].
  unfold empty_page. rewrite Hr. exact H.
Defined.

Lemma sample_page_slotted : slotted sample_page 4096 [[7]; [1; 2; 3]; []].
Proof.
  refine (proj2 (run_refines dbg 4096 sample_ops empty_page [] empty_page_slotted _)).
  apply (bool_decide_unpack _). vm_compute. exact I.
Qed.

(** ** Properties *)

(** C1: A slotted page behaves as a list of cells.  Initialise a page over any
    bytes and run any sequence of insertions (at the end or at an index): in
    both build profiles and on both byte orders every call returns exactly
    what the list specification returns, errors included, none panics or
    leaves the page, and the final page represents the final list. *)
Theorem slotted_page_refines_list t p0 v ops
    (Hp : page_ok p0) (Hv : 0 ≤ v < u8_mod) (Hops : Forall op_ok ops) :
  let p1 := (SlottedPageMut.init_new v p0).2 in
  (SlottedPageMut.init_new v p0).1 = Ok tt ∧
  (run t ops p1).1 = (spec_run PAGE_SIZE ops []).1 ∧
  slotted (run t ops p1).2 PAGE_SIZE (spec_run PAGE_SIZE ops []).2.
Proof.
  destruct (init_new_slotted p0 v Hp Hv) as (p1 & Hr & H & _). rewrite Hr. cbv zeta.
  split; [done|]. by apply run_refines.
Qed.

Lemma slotted_page_refines_list_witness :
  (run dbg sample_ops empty_page).1 = [Ok tt; Ok tt; Err SlotIndexNotInRange; Ok tt].
Proof.
  refine (proj1 (proj2 (slotted_page_refines_list dbg zero_page 2 sample_ops zero_page_ok _ _))).
  - vm_compute. split; congruence.
  - apply (bool_decide_unpack _). vm_compute. exact I.
Defined.

(** C2: Inserting a cell at an index refines list insertion: with room for the
    cell and its slot and an index at most the number of cells, the call
    succeeds, the cells from the index on move up by one, every other header
    field and the special area keep their bytes; without room it returns
    [NoContigiousSpace], with a larger index [SlotIndexNotInRange], and in
    both cases the page is untouched. *)
Theorem add_cell_at_index_refines t p lim cells i c
    (H : slotted p lim cells) (Hc : bytes_ok c) (Hz : zlen c + 4 < usize_mod) (Hi : 0 ≤ i) :
  refines p lim (SlottedPageMut.add_cell_at_slot_entry_index t i c p) (spec_add_at lim i c cells).
Proof. by apply add_cell_at_refines. Qed.

Lemma add_cell_at_index_refines_witness :
  refines sample_page 4096 (SlottedPageMut.add_cell_at_slot_entry_index dbg 1 [9; 9] sample_page)
    (Ok [[7]; [9; 9]; [1; 2; 3]; []]).
Proof.
  refine (add_cell_at_index_refines dbg sample_page 4096 _ 1 [9; 9] sample_page_slotted _ _ _).
  - apply (bool_decide_unpack _). vm_compute. exact I.
  - vm_compute. congruence.
  - vm_compute. congruence.
Defined.

(** C16: Appending a cell refines appending to the list of cells, with the same
    guarantees on the header, the special area and the error case. *)
Theorem add_cell_append_refines_list t p lim cells c
    (H : slotted p lim cells) (Hc : bytes_ok c) (Hz : zlen c + 4 < usize_mod) :
  refines p lim (SlottedPageMut.add_cell_append_slot_entry t c p) (spec_append lim c cells).
Proof. by apply add_cell_append_refines. Qed.

Lemma add_cell_append_refines_list_witness :
  refines sample_page 4096 (SlottedPageMut.add_cell_append_slot_entry dbg [4] sample_page)
    (Ok [[7]; [1; 2; 3]; []; [4]]).
Proof.
  refine (add_cell_append_refines_list dbg sample_page 4096 _ [4] sample_page_slotted _ _).
  - apply (bool_decide_unpack _). vm_compute. exact I.
  - vm_compute. congruence.
Defined.

(** C10: The lookup by slot id is list lookup, in both views: the cell at that
    position, [EmptySlotDir] on a page without cells, [SlotIDOutOfBounds]
    beyond the last one; it never reports a corrupt cell on a well-formed page. *)
Theorem cell_slice_from_id_refines t p lim cells id
    (H : slotted p lim cells) (Hid : 0 ≤ SlotID_0 id) :
  SlottedPageRef.cell_slice_from_id t id p = spec_get (SlotID_0 id) cells ∧
  SlottedPageMut.cell_slice_from_id t id p = spec_get (SlotID_0 id) cells.
Proof. split; by apply (cell_slice_from_id_slotted t p lim). Qed.

Lemma cell_slice_from_id_refines_witness :
  SlottedPageRef.cell_slice_from_id dbg (MkSlotID 1) sample_page = Ok [1; 2; 3].
Proof.
  refine (proj1 (cell_slice_from_id_refines dbg sample_page 4096 _ (MkSlotID 1)
                   sample_page_slotted _)).
  vm_compute. congruence.
Defined.

(** The new slot reads back. *)
Lemma lookup_inserted t p es p' (i : Z) c :
  dir p es → 0 ≤ i ≤ zlen es → inserted p es (Z.to_nat i) c p' →
  SlottedPageRef.cell_slice_from_id t (MkSlotID i) p' = Ok c.
Proof.
  intros Hd Hi [Hd' _ Hcell _]. pose proof (dir_fs _ _ Hd'). pose proof (dir_fe _ _ Hd').
  pose proof (dir_fe _ _ Hd). pose proof (zlen_insert_at es (Z.to_nat i) (new_entry p c)).
  rewrite cell_slice_from_id_eq by (apply Hd' || cbn; zlia). cbn [SlotID_0].
  rewrite (dir_count _ _ Hd' : (fs p' - 24) / 4 = _). if_false. if_false.
  rewrite <- (Z2Nat.id i), (dir_lookup _ _ Hd' (Z.to_nat i) (new_entry p c)) by
    (lia || (rewrite lookup_insert_at by zlia; by repeat case_decide; try lia)).
  cbv zeta. replace (SlotEntry.offset (new_entry p c) + _) with (fe p) by (cbn; lia). if_false. by rewrite Hcell.
Qed.

(** A page with two slots, one of which points outside the page. *)
Definition damaged_page : RawPage :=
  (SlottedPageMut.append_slot_entry dbg 7 4000
    (SlottedPageMut.append_slot_entry dbg 60000 65000 empty_page).2).2.

(** C15: Insertions keep any page with a sound header sound, whatever its slots
    and cells contain: the slot entries may overlap or point outside the page.
    An insertion never panics and never touches memory outside the page; on an
    error the page is untouched; on success the header is sound again with the
    two bounds moved by four bytes and by the length of the cell, the new entry
    is at its index with the others around it, the cell reads back, every byte
    from the former free end on is what it was, and so is every cell that lies
    there.  Appending is inserting after the last slot, byte for byte. *)
Theorem insertion_preserves_header t p i c
    (H : header_ok p) (Hc : bytes_ok c) (Hz : zlen c + 4 < usize_mod) (Hi : 0 ≤ i) :
  let es := slots_of p in
  let e := SlotEntry.new (fe p - zlen c) (zlen c) in
  let r := SlottedPageMut.add_cell_at_slot_entry_index t i c p in
  (if fe p - fs p <? zlen c + 4 then r = (Err NoContigiousSpace, p)
   else if zlen es <? i then r = (Err SlotIndexNotInRange, p)
   else ∃ p', r = (Ok tt, p') ∧ header_ok p' ∧ slots_of p' = insert_at (Z.to_nat i) e es ∧
     decode_header p' = with_free_end (fe p - zlen c) (with_free_start (fs p + 4) (decode_header p)) ∧
     SlottedPageRef.cell_slice_from_id t (MkSlotID i) p' = Ok c ∧
     (∀ off len, fe p ≤ off → off + len ≤ 4096 → slice p' off len = slice p off len) ∧
     (∀ e', fe p ≤ SlotEntry.offset e' → SlotEntry.offset e' + SlotEntry.length e' ≤ 4096 →
        cell_of p' e' = cell_of p e')) ∧
  SlottedPageMut.add_cell_append_slot_entry t c p =
    SlottedPageMut.add_cell_at_slot_entry_index t (zlen es) c p.
Proof.
  cbv zeta. pose proof (proj1 (header_dir p) H) as Hd. split; [|by apply add_cell_append_eq].
  pose proof (add_cell_at_dir t p (slots_of p) i c Hd Hc Hz Hi) as Hrun. cbv zeta in Hrun.
  destruct (fe p - fs p <? zlen c + 4); [done|].
  destruct (Z.ltb_spec (zlen (slots_of p)) i) as [|Hle]; [done|].
  destruct (SlottedPageMut.add_cell_at_slot_entry_index t i c p) as [r p']. cbn [fst snd] in Hrun.
  destruct Hrun as [-> Hins]. pose proof Hins as [Hd' Hh' Hcell F]. pose proof (dir_slots _ _ Hd') as Hs'.
  exists p'. split_and!; try done.
  - apply header_dir. by rewrite <- Hs'.
  - apply (lookup_inserted t p (slots_of p)); [done|lia|done].
  - intros e' Ho Hl. unfold cell_of. apply F; lia.
Qed.

Lemma insertion_preserves_header_witness :
  SlottedPageRef.cell_slice_from_id dbg (MkSlotID 1)
    (SlottedPageMut.add_cell_at_slot_entry_index dbg 1 [8; 9] damaged_page).2 = Ok [8; 9] ∧
  SlottedPageMut.add_cell_append_slot_entry dbg [8; 9] damaged_page =
    SlottedPageMut.add_cell_at_slot_entry_index dbg (zlen (slots_of damaged_page)) [8; 9] damaged_page.
Proof.
  split; [vm_compute; reflexivity|].
  pose proof (insertion_preserves_header dbg damaged_page 1 [8; 9]) as H. cbv zeta in H.
  destruct H as [_ E]; [..|exact E].
  - apply (bool_decide_unpack _). vm_compute. exact I.
  - apply (bool_decide_unpack _). vm_compute. exact I.
  - vm_compute. reflexivity.
  - vm_compute. congruence.
Defined.

(** Read your writes: after a successful insertion at index [i], slot [i]
    holds the new cell, the slots before it are unchanged and every later slot
    holds the cell that was one position lower. *)
Theorem insert_then_lookup t p lim cells i c p' j
    (H : slotted p lim cells) (Hc : bytes_ok c) (Hz : zlen c + 4 < usize_mod) (Hi : 0 ≤ i)
    (Hrun : SlottedPageMut.add_cell_at_slot_entry_index t i c p = (Ok tt, p')) (Hj : 0 ≤ j) :
  SlottedPageRef.cell_slice_from_id t (MkSlotID j) p' =
    if j <? i then SlottedPageRef.cell_slice_from_id t (MkSlotID j) p
    else if j =? i then Ok c
    else if zlen cells <? j then Err SlotIDOutOfBounds
    else SlottedPageRef.cell_slice_from_id t (MkSlotID (j - 1)) p.
Proof.
  pose proof (add_cell_at_refines t p lim cells i c H Hc Hz Hi) as Href. rewrite Hrun in Href.
  unfold spec_add_at in Href. destruct (room lim cells <? zlen c + 4); [done|].
  destruct (Z.ltb_spec (zlen cells) i) as [|Hle]; [done|]. destruct Href as (_ & H' & _).
  cbn in H'. rewrite (cell_slice_from_id_slotted t p' lim _ _ H') by done.
  rewrite !(cell_slice_from_id_slotted t p lim cells) by (cbn; done || (cbn; lia) || idtac).
  cbn [SlotID_0].
  assert (Hne : spec_get j (insert_at (Z.to_nat i) c cells) =
    match insert_at (Z.to_nat i) c cells !! Z.to_nat j with
    | Some x => Ok x | None => Err SlotIDOutOfBounds end).
  { unfold spec_get. pose proof (zlen_insert_at cells (Z.to_nat i) c) as Hlen.
    pose proof (zlen_nonneg cells). destruct (insert_at _ _ _); [|done].
    unfold zlen in Hlen at 1. cbn in Hlen. lia. }
  rewrite Hne, lookup_insert_at by zlia.
  destruct (Z.ltb_spec j i).
  - rewrite decide_True by lia. unfold spec_get. destruct cells as [|c0 cs]; [unfold zlen in Hle; cbn in Hle; lia|done].
  - rewrite decide_False by lia. destruct (Z.eqb_spec j i) as [->|]; [by rewrite decide_True|].
    rewrite decide_False by lia.
    destruct (Z.ltb_spec (zlen cells) j).
    + by rewrite lookup_ge_None_2 by zlia.
    + rewrite (cell_slice_from_id_slotted t p lim cells) by (done || (cbn; lia)).
      cbn [SlotID_0]. unfold spec_get. replace (Z.to_nat (j - 1)) with (Z.to_nat j - 1)%nat by lia.
      destruct cells as [|c0 cs]; [unfold zlen in *; cbn in *; lia|done].
Qed.

Lemma run_fst {S E A} (m : M S E A) s a : (m s).1 = Ok a → m s = (Ok a, (m s).2).
Proof. destruct (m s). cbn. by intros ->. Qed.

Lemma insert_then_lookup_witness :
  SlottedPageRef.cell_slice_from_id dbg (MkSlotID 2)
    (SlottedPageMut.add_cell_at_slot_entry_index dbg 1 [9; 9] sample_page).2 =
  if 2 <? 1 then SlottedPageRef.cell_slice_from_id dbg (MkSlotID 2) sample_page
  else if 2 =? 1 then Ok [9; 9]
  else if zlen [[7]; [1; 2; 3]; []] <? 2 then Err SlotIDOutOfBounds
  else SlottedPageRef.cell_slice_from_id dbg (MkSlotID (2 - 1)) sample_page.
Proof.
  refine (insert_then_lookup dbg sample_page 4096 _ 1 [9; 9] _ 2 sample_page_slotted _ _ _
            (run_fst _ _ _ _) _).
  - apply (bool_decide_unpack _). vm_compute. exact I.
  - vm_compute. congruence.
  - vm_compute. congruence.
  - vm_compute. reflexivity.
  - vm_compute. congruence.
Defined.

(** C18: Space accounting: the contiguous free space is the cell area less the
    cells and four bytes per slot, so an append succeeds exactly when the cell
    and its slot fit in it, and it then shrinks by exactly that much. *)
Theorem space_accounting t p lim cells c
    (H : slotted p lim cells) (Hc : bytes_ok c) (Hz : zlen c + 4 < usize_mod) :
  SlottedPageRef.free_contiguous_space t p = Ok (lim - 24 - total (zlen <$> cells) - 4 * zlen cells) ∧
  0 ≤ room lim cells ∧
  ((SlottedPageMut.add_cell_append_slot_entry t c p).1 = Ok tt ↔ zlen c + 4 ≤ room lim cells) ∧
  (zlen c + 4 ≤ room lim cells →
   SlottedPageRef.free_contiguous_space t (SlottedPageMut.add_cell_append_slot_entry t c p).2
   = Ok (room lim cells - zlen c - 4)).
Proof.
  pose proof (slotted_bounds _ _ _ H) as (_ & ? & _ & ?).
  pose proof (add_cell_append_refines t p lim cells c H Hc Hz) as Href. unfold spec_append in Href.
  split_and!.
  - rewrite (free_contiguous_space_ok t p lim cells H). unfold room, used. f_equal. lia.
  - lia.
  - destruct (Z.ltb_spec (room lim cells) (zlen c + 4)).
    + unfold refines in Href. rewrite Href. cbn. split; [done|lia].
    + destruct Href as (? & _). split; [lia|done].
  - intros. destruct (Z.ltb_spec (room lim cells) (zlen c + 4)); [lia|].
    destruct Href as (_ & H' & _). rewrite (free_contiguous_space_ok t _ lim _ H'). f_equal.
    unfold room, used. rewrite fmap_app, total_app, zlen_app. unfold total, zlen. cbn. lia.
Qed.

Lemma space_accounting_witness :
  SlottedPageRef.free_contiguous_space dbg sample_page = Ok 4056.
Proof.
  refine (proj1 (space_accounting dbg sample_page 4096 _ [] sample_page_slotted _ _)).
  - constructor.
  - vm_compute. congruence.
Defined.

(** C19: Iterating over the slot directory terminates and yields the entries of
    the slot array in order, once each: with fuel for one step more than the
    number of slots the loop returns all of them, and their byte ranges are
    the cells of the page. *)
Theorem slot_iteration_complete t p lim cells fuel
    (H : slotted p lim cells) (Hf : (length cells < fuel)%nat) :
  ∃ sd es, SlottedPageRef.slot_dir_ref t p = Ok sd ∧
    SlotRef.slot_count sd = zlen cells ∧
    collect t fuel (SlotRef.iter sd) p = Ok es ∧ es = slots_of p ∧ cell_of p <$> es = cells.
Proof.
  pose proof (slotted_page _ _ _ H) as Hp. pose proof (slotted_bounds _ _ _ H) as (Hs & Hb & Hl & _).
  pose proof (zlen_nonneg cells). destruct H as (es & H & ->).
  rewrite length_fmap in Hf. pose proof (lay_dir _ _ _ H) as Hd.
  eexists _, es. split_and!.
  - apply slot_dir_ref_ok; [done|lia].
  - rewrite slot_count_eq. unfold zlen at 1. rewrite length_fmap. by apply (dir_count p es).
  - apply (collect_dir t p es 0); [done|lia|lia].
  - by apply dir_slots.
  - done.
Qed.

Lemma slot_iteration_complete_witness :
  ∃ sd es, SlottedPageRef.slot_dir_ref dbg sample_page = Ok sd ∧
    SlotRef.slot_count sd = 3 ∧
    collect dbg 4 (SlotRef.iter sd) sample_page = Ok es ∧ es = slots_of sample_page ∧
    cell_of sample_page <$> es = [[7]; [1; 2; 3]; []].
Proof.
  refine (slot_iteration_complete dbg sample_page 4096 _ 4 sample_page_slotted _).
  cbn. lia.
Defined.

(** C20: The raw slot operations act on the slot array as on a list, whatever
    the entries say about cells: the entry is appended or inserted at the
    index, the array's tail moves up, no byte beyond the array and no header
    field but the free start changes; a full page gives [NotEnoughFreeSpace]
    and an index past the end [SlotIndexNotInRange], without any write. *)
Theorem slot_insertion_spec t p es i e (Hd : dir p es) (He : entry_ok e) (Hi : 0 ≤ i) :
  let r := SlottedPageMut.insert_slot_entry_at_index t i e p in
  (fe p - fs p < 4 → r = (Err NotEnoughFreeSpace, p) ∧
     SlottedPageMut.append_slot_entry t (SlotEntry.length e) (SlotEntry.offset e) p = r) ∧
  (4 ≤ fe p - fs p → zlen es < i → r = (Err SlotIndexNotInRange, p)) ∧
  (4 ≤ fe p - fs p → i ≤ zlen es →
     r.1 = Ok tt ∧ dir r.2 (insert_at (Z.to_nat i) e es) ∧
     decode_header r.2 = with_free_start (fs p + 4) (decode_header p) ∧
     (∀ off len, fs p + 4 ≤ off → off + len ≤ 4096 → slice r.2 off len = slice p off len) ∧
     (i = zlen es →
      SlottedPageMut.append_slot_entry t (SlotEntry.length e) (SlotEntry.offset e) p = r)).
Proof.
  cbv zeta. split_and!.
  - intros. rewrite (insert_slot_entry_full t p es) by done.
    by rewrite (append_slot_entry_full t p es) by done.
  - intros. apply (insert_slot_entry_range t p es); [done|lia..].
  - intros Hroom Hle.
    destruct (insert_slot_entry_dir t p es (Z.to_nat i) e) as (p' & Hr & Hd' & Hh & F);
      [done|done|lia|zlia|].
    rewrite Z2Nat.id in Hr by lia. rewrite Hr. split_and!; [done..|]. intros ->.
    destruct (append_slot_entry_dir t p es e) as (q & Hq & _); [done|done|lia|].
    rewrite Hq. rewrite <-Hr. rewrite <-Hq. unfold SlottedPageMut.insert_slot_entry_at_index.
    pose proof (dir_page _ _ Hd) as Hp. pose proof (dir_fs _ _ Hd). pose proof (dir_fe _ _ Hd).
    mrun free_start_ok. mrun free_end_ok. mcalc. if_false. mcalc.
    rewrite (dir_count p es Hd). if_false. by if_true.
Qed.

Lemma slot_insertion_spec_witness :
  (SlottedPageMut.insert_slot_entry_at_index dbg 0 (SlotEntry.new 20 10) empty_page).1 = Ok tt.
Proof.
  assert (Hd : dir empty_page []) by (destruct empty_page_slotted as ([|] & H & Hc); [apply H|done]).
  refine (proj1 (proj2 (proj2 (slot_insertion_spec dbg empty_page [] 0 (SlotEntry.new 20 10)
            Hd _ _)) _ _)).
  - split; cbn; lia.
  - lia.
  - vm_compute. congruence.
  - vm_compute. congruence.
Defined.

(** C21: Memory safety of lookup on untrusted bytes: on any page whose free start
    lies between the header and the end of the page, whatever the slots
    contain, looking up any slot id returns a slice of the page or an error:
    it neither panics nor reads outside the page. *)
Theorem lookup_memory_safe t p id
    (Hp : page_ok p) (Hs : HEADER_SIZE ≤ fs p ≤ PAGE_SIZE) (Hid : 0 ≤ SlotID_0 id) :
  defined (SlottedPageRef.cell_slice_from_id t id p) ∧
  defined (SlottedPageMut.cell_slice_from_id t id p).
Proof.
  assert (H : defined (SlottedPageRef.cell_slice_from_id t id p)).
  { rewrite cell_slice_from_id_eq by (done || zlia). cbv zeta.
    by repeat (match goal with |- context [if ?b then _ else _] => destruct b end). }
  split; [exact H|exact H].
Qed.

Lemma lookup_memory_safe_witness :
  defined (SlottedPageRef.cell_slice_from_id dbg (MkSlotID 0)
             (SlottedPageMut.set_free_start dbg 4096 zero_page).2).
Proof.
  refine (proj1 (lookup_memory_safe dbg _ (MkSlotID 0) _ _ _)).
  - apply (bool_decide_unpack _). vm_compute. exact I.
  - vm_compute. split; congruence.
  - vm_compute. congruence.
Defined.

(** C34: Without that bound the lookup leaves the page: when the stored free
    start exceeds the page size, every slot id whose entry lies past the end
    of the page (but below the computed slot count) is read through a raw
    pointer out of bounds, in both profiles; nothing checks the header. *)
Theorem lookup_out_of_bounds t p id
    (Hp : page_ok p) (Hid : PAGE_SIZE < HEADER_SIZE + ENTRY_SIZE * SlotID_0 id + 2)
    (Hc : ENTRY_SIZE * SlotID_0 id + ENTRY_SIZE ≤ fs p - HEADER_SIZE) :
  SlottedPageRef.cell_slice_from_id t id p = UB.
Proof.
  pose proof (fs_range p Hp). pose proof (page_ok_zlen p Hp).
  unfold SlottedPageRef.cell_slice_from_id.
  rewrite slot_dir_ref_ok by (done || zlia). cbn [mbind res_bind]. unfold mbind, res_bind.
  rewrite slot_count_eq.
  assert (SlotID_0 id + 1 ≤ (fs p - 24) / 4) by (apply Z.div_le_lower_bound; zlia).
  if_false. if_false. rewrite mul_w_ok by zlia.
  change (SlotRef.ptr _) with 24. by rewrite read_u16_le_unsafe_ub by zlia.
Qed.

Lemma lookup_out_of_bounds_witness :
  SlottedPageRef.cell_slice_from_id (Target Release LittleHost) (MkSlotID 1018)
    (splice zero_page FREE_START_OFFSET [0; 255]) = UB.
Proof.
  refine (lookup_out_of_bounds _ _ (MkSlotID 1018) _ _ _).
  - apply (bool_decide_unpack _). vm_compute. exact I.
  - vm_compute. congruence.
  - vm_compute. congruence.
Defined.

(** C35: The two accessors disagree on the last cell of a page without special
    area: the first cell put on an initialised page ends at [PAGE_SIZE];
    the lookup by id returns it in both profiles, while the lookup by entry
    fails its (strict) debug assertion and returns it only in release builds. *)
Theorem entry_lookup_debug_panic p0 v c
    (Hp : page_ok p0) (Hv : 0 ≤ v < u8_mod) (Hc : bytes_ok c) (Hz : zlen c ≤ 4068) :
  let p := (run dbg [AppendCell c] (SlottedPageMut.init_new v p0).2).2 in
  ∀ t, SlottedPageRef.cell_slice_from_id t (MkSlotID 0) p = Ok c ∧
    SlottedPageRef.cell_slice_from_entry t (SlotEntry.new (PAGE_SIZE - zlen c) (zlen c)) p =
      match prof t with Debug => Panic | Release => Ok c end ∧
    slots_of p = [SlotEntry.new (PAGE_SIZE - zlen c) (zlen c)].
Proof.
  destruct (init_new_slotted p0 v Hp Hv) as (p1 & Hr & H1 & _). rewrite Hr. cbn [snd run].
  pose proof (zlen_nonneg c) as Hc0. pose proof (slotted_bounds _ _ _ H1) as (Hs1 & Hb1 & _ & Hr1).
  pose proof (exec_refines dbg p1 4096 [] (AppendCell c) H1) as Href.
  cbn [op_ok spec_exec exec] in Href. specialize (Href ltac:(split; [done|zlia])).
  unfold spec_append in Href. change (room 4096 []) with 4072 in Href.
  destruct (Z.ltb_spec 4072 (zlen c + 4)) as [Hbad|Hfit]; [lia|].
  cbn [exec]. destruct (SlottedPageMut.add_cell_append_slot_entry dbg c p1) as [r p].
  cbn [snd fst] in *. destruct Href as (_ & H & _). cbn [app] in H.
  assert (Hsl : slots_of p = [SlotEntry.new (4096 - zlen c) (zlen c)]).
  { destruct H as (es & H & Hcs). rewrite <-(dir_slots p es (lay_dir _ _ _ H)).
    destruct es as [|e [|]]; try done. cbn in Hcs. injection Hcs as Hce.
    assert (Hlen : SlotEntry.length e = zlen c).
    { rewrite Hce. symmetry. eapply layout_zlen_cell; [exact H|by left]. }
    pose proof (lay_total _ _ _ H) as Ht. cbn in Ht. unfold total in Ht; cbn in Ht.
    destruct (layout_lookup _ _ _ 0%nat e H eq_refl) as (? & ? & ?).
    destruct e as [o l]. cbn in *. f_equal. f_equal; lia. }
  intros t. split_and!; [|destruct (prof t) eqn:Et|done].
  - exact (cell_slice_from_id_slotted t p 4096 [c] (MkSlotID 0) H ltac:(done)).
  - unfold SlottedPageRef.cell_slice_from_entry. cbn. rewrite add_w_ok by zlia. cbn.
    unfold debug_assert. rewrite Et. unfold assert. by if_false.
  - unfold SlottedPageRef.cell_slice_from_entry. cbn. rewrite add_w_ok by zlia. cbn.
    unfold debug_assert. rewrite Et. cbn.
    pose proof (slotted_page _ _ _ H) as Hpp. pose proof (page_ok_zlen p Hpp).
    rewrite index_range_ok by zlia. f_equal.
    destruct H as (es & H & Hcs). rewrite (dir_slots p es (lay_dir _ _ _ H)), Hsl in Hcs.
    injection Hcs as Hce. etrans; [|symmetry; exact Hce]. unfold cell_of. cbn. f_equal. zlia.
Qed.

Lemma entry_lookup_debug_panic_witness :
  SlottedPageRef.cell_slice_from_entry dbg (SlotEntry.new (PAGE_SIZE - zlen [1; 2]) (zlen [1; 2]))
    (run dbg [AppendCell [1; 2]] (SlottedPageMut.init_new 2 zero_page).2).2 = Panic.
Proof.
  refine (proj1 (proj2 (entry_lookup_debug_panic zero_page 2 [1; 2] zero_page_ok _ _ _ dbg))).
  - vm_compute. split; congruence.
  - apply (bool_decide_unpack _). vm_compute. exact I.
  - vm_compute. congruence.
Defined.

(** The special area is the tail of the page from the stored offset on:
    both accessors return exactly those bytes, an offset of zero means there
    is none (an error, size zero), and an offset beyond the page makes the
    accessors panic in both profiles. *)
Theorem special_area_spec t p (Hp : page_ok p) :
  let s := h_special (decode_header p) in
  (s = 0 → SlottedPageRef.get_special_ref t p = Err SpecialOffsetIsZero ∧
           SlottedPageMut.get_special_mut t p = (Err SpecialOffsetIsZero, p) ∧
           SlottedPageRef.special_size t p = Ok 0) ∧
  (0 < s ≤ PAGE_SIZE →
           SlottedPageRef.get_special_ref t p = Ok (slice p s (PAGE_SIZE - s)) ∧
           SlottedPageMut.get_special_mut t p = (Ok (s, PAGE_SIZE - s), p) ∧
           SlottedPageRef.special_size t p = Ok (PAGE_SIZE - s)) ∧
  (PAGE_SIZE < s → SlottedPageRef.get_special_ref t p = Panic ∧
           SlottedPageMut.get_special_mut t p = (Panic, p)).
Proof.
  cbv zeta. pose proof (special_range p Hp). pose proof (page_ok_zlen p Hp).
  pose proof (get_special_offset_ok t p Hp) as Hso.
  assert (Hso' : SlottedPageRef.get_special_offset t p = _) by exact Hso.
  split_and!; intros Hs.
  - unfold SlottedPageRef.get_special_ref, SlottedPageMut.get_special_mut, SlottedPageRef.special_size.
    rewrite Hso'. cbn. (erewrite bind_ok; [|by apply rd_ok]). by rewrite Hs.
  - rewrite get_special_ref_ok, get_special_mut_ok by done. split_and!; [done..|].
    unfold SlottedPageRef.special_size. rewrite Hso'. cbn [mbind res_bind]. if_false.
    rewrite debug_assert_ok by zlia. cbn. by rewrite sub_w_ok by zlia.
  - unfold SlottedPageRef.get_special_ref, SlottedPageMut.get_special_mut.
    rewrite Hso'. cbn. (erewrite bind_ok; [|by apply rd_ok]). cbv beta.
    assert (Hsub : ∀ n, sub_w (E:=PageError) t usize_mod PAGE_SIZE n = Panic ∨
      sub_w (E:=PageError) t usize_mod PAGE_SIZE n = Ok ((PAGE_SIZE - n) mod usize_mod) ∨ n ≤ PAGE_SIZE).
    { intros n. unfold sub_w, arith_w. destruct (Z.leb_spec 0 (PAGE_SIZE - n)); [right; right; zlia|].
      cbn. destruct (prof t); auto. }
    assert (Hmod : (PAGE_SIZE - h_special (decode_header p)) mod usize_mod
                   = PAGE_SIZE - h_special (decode_header p) + usize_mod).
    { symmetry. apply (Z.mod_unique _ _ (-1)); zlia. }
    if_false. destruct (Hsub (h_special (decode_header p))) as [Hq|[Hq|Hq]]; [| |lia].
    + rewrite Hq. split; [done|]. by erewrite bind_panic.
    + rewrite Hq, Hmod. split.
      * cbn. unfold assert. by if_false.
      * erewrite bind_ok; [|by apply lift_ok]. cbv beta.
        erewrite bind_panic; [done|]. unfold lift, assert. by if_false.
Qed.

Lemma special_area_spec_witness :
  SlottedPageRef.get_special_ref dbg (SlottedPageMut.set_special_offset dbg 2 zero_page).2 = Ok [0; 0].
Proof.
  refine (proj1 (proj1 (proj2 (special_area_spec dbg _ _)) _)).
  - apply (bool_decide_unpack _). vm_compute. exact I.
  - vm_compute. split; congruence.
Defined.
