(* ===== verification/IndexPage.v ===== *)
(** * Index pages (src/src/page/internal_page.rs)

    The index page interprets a slotted page: its cells are index cells
    [child pointer (8) | key length (2) | key], its special area holds the
    right sibling, and its page-type byte the kind and the level.  Errors of
    the slotted page are wrapped by [?]. *)

From S2P Require Import Prelude Bytes PageTypes Slotted SlottedHeader.

Inductive IndexPageError :=
| IndexPageError_PageError (error : PageError)
| InvalidPageType
| InvalidLevel.

(** [impl From<PageError> for IndexPageError] *)
Definition from_page_error (error : PageError) : IndexPageError := IndexPageError_PageError error.

Definition INDEX_SPECIAL_SIZE : Z := 16.
Definition RIGHT_SIBLING_OFFSET : Z := 8.
Definition CHILD_PTR_OFFSET : Z := 0.
Definition KEY_LEN_OFFSET : Z := 8.
Definition KEY_DATA_OFFSET : Z := 10.

#[export] Hint Unfold INDEX_SPECIAL_SIZE RIGHT_SIBLING_OFFSET CHILD_PTR_OFFSET KEY_LEN_OFFSET
  KEY_DATA_OFFSET : consts.

Abbreviation IR A := (RawPage → res IndexPageError A).
Abbreviation IW A := (M RawPage IndexPageError A).

(** [?] on the result of a slotted-page method. *)
Definition try_r {A} (f : RawPage → res PageError A) : IR A := λ p, map_err from_page_error (f p).
Definition try_w {A} (m : W A) : IW A := M_map_err from_page_error m.

(** ** Owned cells *)

Module IndexCellOwned.
Definition MAX_INDEX_CELL_SIZE : Z := PAGE_SIZE - HEADER_SIZE - ENTRY_SIZE.

Definition new (t : target) (key : list Z) (child_ptr : PageID) : res IndexPageError (list Z) :=
  est_size ← add_w t usize_mod 10 (zlen key);
  _ ← assert (est_size <? MAX_INDEX_CELL_SIZE);
  let cell := [] in
  let cell := cell ++ to_le_bytes 8 (PageIDImpl.into child_ptr) in
  let cell := cell ++ to_le_bytes 2 (as_w u16_mod (zlen key)) in
  let cell := cell ++ key in
  Ok cell.
End IndexCellOwned.

(** ** Borrowed cells *)

(** [Ord] on byte slices: lexicographic. *)
Fixpoint bytes_cmp (a b : list Z) : comparison :=
  match a, b with
  | [], [] => Eq
  | [], _ :: _ => Lt
  | _ :: _, [] => Gt
  | x :: a, y :: b => match x ?= y with Eq => bytes_cmp a b | c => c end
  end.
Definition bytes_lt (a b : list Z) : bool := match bytes_cmp a b with Lt => true | _ => false end.
Definition bytes_gt (a b : list Z) : bool := match bytes_cmp a b with Gt => true | _ => false end.

Module IndexCell.
Definition from (cell_ref : list Z) : res IndexPageError (list Z) :=
  _ ← assert (10 <=? zlen cell_ref);
  Ok cell_ref.

Definition get_key (t : target) (cell : list Z) : res IndexPageError (list Z) :=
  key_len ← read_u16_le_unsafe t cell KEY_LEN_OFFSET;
  _ ← debug_assert t (KEY_DATA_OFFSET + key_len <=? zlen cell);
  ptr_read cell KEY_DATA_OFFSET key_len.

Definition get_value_ptr (t : target) (cell : list Z) : res IndexPageError PageID :=
  page_id ← read_u64_le_unsafe t cell CHILD_PTR_OFFSET;
  Ok (PageIDImpl.from page_id).
End IndexCell.

(** ** The exclusive view *)

Module IndexPageMut.
Section Methods.
Context (t : target).

Definition from_slotted_page (page : RawPage) : RawPage := page.

Definition init_in_place (lsn : Z) : IW unit :=
  _ ← try_w SlottedPageMut.wipe_page;
  _ ← try_w (SlottedPageMut.set_page_type
               (PageTypeImpl.into_u8 (PageTypeImpl.new (PageKindImpl.as_u8 IndexInternal) 0)));
  _ ← try_w (SlottedPageMut.set_special_offset t INDEX_SPECIAL_SIZE);
  _ ← try_w (SlottedPageMut.set_free_start t HEADER_SIZE);
  fe ← lift (sub_w t usize_mod PAGE_SIZE INDEX_SPECIAL_SIZE);
  _ ← try_w (SlottedPageMut.set_free_end t fe);
  _ ← try_w (SlottedPageMut.set_lsn lsn);
  mret tt.

Definition get_page_type : IR PageType := λ p,
  b ← try_r SlottedPageMut.get_page_type p;
  Ok (PageTypeImpl.from_u8 b).

Definition set_page_type (page_type : PageKind) : IW unit :=
  try_w (SlottedPageMut.set_page_type (PageKindImpl.into_u8 page_type)).

Definition kind : IR PageKind := λ p,
  pt ← get_page_type p;
  Ok (PageTypeImpl.page_kind pt).

Definition level : IR IndexLevel := λ p,
  pt ← get_page_type p;
  IndexLevelImpl.from (PageTypeImpl.page_sub_type pt).

Definition set_level (level : IndexLevel) : IW unit :=
  pt ← rd get_page_type;
  let new_pt := PageTypeImpl.set_subtype_page_bits (IndexLevelImpl.into level) pt in
  try_w (SlottedPageMut.set_page_type (PageTypeImpl.into_u8 new_pt)).

(** [if let Ok(special) = .. { special[8..16].copy_from_slice(..) }]: the write
    goes through the borrowed region. *)
Definition set_right_sibling (page_id : PageID) : IW unit := λ p,
  match SlottedPageMut.get_special_mut t p with
  | (Ok (off, size), p') =>
      if RIGHT_SIBLING_OFFSET + 8 <=? size
      then copy_from_slice (off + RIGHT_SIBLING_OFFSET) (off + RIGHT_SIBLING_OFFSET + 8)
             (to_le_bytes 8 (PageIDImpl.into page_id)) p'
      else (Panic, p')
  | (Err _, p') => (Ok tt, p')
  | (Panic, p') => (Panic, p')
  | (UB, p') => (UB, p')
  | (Diverge, p') => (Diverge, p')
  end.

Definition has_right_sibling : IR bool := λ p,
  match SlottedPageMut.get_special_ref t p with
  | Ok special =>
      bs ← index_range special RIGHT_SIBLING_OFFSET (RIGHT_SIBLING_OFFSET + 8);
      Ok (negb (bool_decide (bs = replicate 8 0)))
  | Err _ => Ok false
  | Panic => Panic
  | UB => UB
  | Diverge => Diverge
  end.

Definition add_cell_append_slot_entry (cell : list Z) : IW unit :=
  try_w (SlottedPageMut.add_cell_append_slot_entry t cell).

Definition add_cell_at_slot_entry_index (index : Z) (cell : list Z) : IW unit :=
  try_w (SlottedPageMut.add_cell_at_slot_entry_index t index cell).
End Methods.
End IndexPageMut.

(** ** The shared view *)

Module IndexPageRef.
Section Methods.
Context (t : target).

Definition from_slotted_page (page : RawPage) : RawPage := page.

Definition has_right_sibling : IR bool := λ p,
  match SlottedPageRef.get_special_ref t p with
  | Ok special =>
      bs ← index_range special RIGHT_SIBLING_OFFSET (RIGHT_SIBLING_OFFSET + 8);
      Ok (negb (bool_decide (bs = replicate 8 0)))
  | Err _ => Ok false
  | Panic => Panic
  | UB => UB
  | Diverge => Diverge
  end.

Definition get_page_type : IR PageType := λ p,
  b ← try_r SlottedPageRef.get_page_type p;
  Ok (PageTypeImpl.from_u8 b).

Definition kind : IR PageKind := λ p,
  pt ← get_page_type p;
  Ok (PageTypeImpl.page_kind pt).

Definition level : IR IndexLevel := λ p,
  pt ← get_page_type p;
  IndexLevelImpl.from (PageTypeImpl.page_sub_type pt).

Definition get_right_sibling : IR (option PageID) := λ p,
  match SlottedPageRef.get_special_ref t p with
  | Ok special =>
      sib ← read_u64_le_unsafe t special RIGHT_SIBLING_OFFSET;
      Ok (if sib =? 0 then None else Some (PageIDImpl.from sib))
  | Err _ => Ok None
  | Panic => Panic
  | UB => UB
  | Diverge => Diverge
  end.

(** [iter.skip(n)]: the first [n] elements are dropped. *)
Fixpoint skip (n : nat) (it : SlotDirIter.t) : IR SlotDirIter.t := λ p,
  match n with
  | O => Ok it
  | S n =>
      '(o, it') ← map_err from_page_error (SlotDirIter.next t it p);
      match o with
      | None => Ok it'
      | Some _ => skip n it' p
      end
  end.

(** The [for] loop of [find_child_ptr]. *)
Fixpoint find_loop (fuel : nat) (key : list Z) (it : SlotDirIter.t) : IR (option PageID) := λ p,
  match fuel with
  | O => Diverge
  | S fuel =>
      '(o, it') ← map_err from_page_error (SlotDirIter.next t it p);
      match o with
      | None => Ok None
      | Some se =>
          bytes ← map_err from_page_error (SlottedPageRef.cell_slice_from_entry t se p);
          cell ← IndexCell.from bytes;
          cell_key ← IndexCell.get_key t cell;
          if bytes_lt key cell_key
          then v ← IndexCell.get_value_ptr t cell; Ok (Some v)
          else find_loop fuel key it' p
      end
  end.

Definition find_child_ptr (key : list Z) : IR (option PageID) := λ p,
  let scan (n : nat) : res IndexPageError (option PageID) :=
    sd ← try_r (SlottedPageRef.slot_dir_ref t) p;
    it ← skip n (SlotRef.iter sd) p;
    find_loop (S (Z.to_nat (SlotRef.slot_count sd))) key it p in
  high ← has_right_sibling p;
  if (high : bool) then
    hkc ← try_r (SlottedPageRef.cell_slice_from_id t (MkSlotID 0)) p;
    high_key_cell ← IndexCell.from hkc;
    high_key ← IndexCell.get_key t high_key_cell;
    if bytes_gt key high_key then get_right_sibling p
    else scan 1%nat
  else scan 0%nat.
End Methods.
End IndexPageRef.
