(* ===== verification/IndexFacts.v ===== *)
(** * Index pages: abstract state and refinement lemmas

    The abstract state of an index page is its LSN, its page-type byte, its
    right sibling (zero for none) and the list of its entries (key, child).
    [index_page p a] relates the bytes to it; the lemmas run every operation
    of [IndexPage] against it. *)

From S2P Require Import Prelude Bytes PageTypes Slotted SlottedHeader SlottedDir SlottedCells IndexPage.

(** ** Byte-string order *)

Section BytesOrder.
Implicit Types a b c : list Z.

Lemma bytes_cmp_eq a b : bytes_cmp a b = Eq → a = b.
Proof.
  revert b. induction a as [|x a IH]; intros [|y b]; cbn; try done.
  destruct (Z.compare_spec x y); try done. subst. intros. f_equal. auto.
Qed.

Lemma bytes_cmp_antisym a b : bytes_cmp b a = CompOpp (bytes_cmp a b).
Proof.
  revert b. induction a as [|x a IH]; intros [|y b]; cbn; try done.
  rewrite (Z.compare_antisym x y). destruct (x ?= y); cbn; auto.
Qed.

Lemma bytes_lt_trans a b c : bytes_lt a b = true → bytes_lt b c = true → bytes_lt a c = true.
Proof.
  unfold bytes_lt. revert b c. induction a as [|x a IH]; intros [|y b] [|z c]; cbn; try done.
  destruct (Z.compare_spec x y), (Z.compare_spec y z); try done; intros;
    destruct (Z.compare_spec x z); try done; try lia; subst; eauto.
Qed.

Lemma bytes_lt_le_trans a b c :
  bytes_lt a b = true → bytes_lt c b = false → bytes_lt a c = true.
Proof.
  intros Hab Hcb. destruct (bytes_cmp b c) eqn:Hbc.
  - apply bytes_cmp_eq in Hbc as ->. done.
  - apply (bytes_lt_trans a b c); [done|]. unfold bytes_lt. by rewrite Hbc.
  - exfalso. unfold bytes_lt in Hcb. by rewrite (bytes_cmp_antisym b c), Hbc in Hcb.
Qed.
End BytesOrder.

(** ** Abstract state *)

Abbreviation entry := (list Z * Z)%type.

Definition encode_entry (e : entry) : cell :=
  to_le_bytes 8 e.2 ++ to_le_bytes 2 (zlen e.1) ++ e.1.

Arguments encode_entry : simpl never.

(** The arguments [IndexCellOwned::new] accepts. *)
Definition entry_wf (e : entry) : Prop :=
  bytes_ok e.1 ∧ 10 + zlen e.1 < 4068 ∧ 0 ≤ e.2 < u64_mod.

#[global] Instance entry_wf_dec e : Decision (entry_wf e).
Proof. unfold entry_wf. apply _. Defined.

Record AIndex := {
  ix_lsn : Z;
  ix_type : Z;
  ix_sib : Z;
  ix_cells : list entry }.

Definition special_lim : Z := 4080.
Definition sibling_at : Z := 4088.

Record index_page (p : RawPage) (a : AIndex) : Prop := {
  ip_cells : slotted p special_lim (encode_entry <$> ix_cells a);
  ip_special : h_special (decode_header p) = special_lim;
  ip_lsn : h_lsn (decode_header p) = ix_lsn a;
  ip_type : h_page_type (decode_header p) = ix_type a;
  ip_sib : u64_at p sibling_at = ix_sib a;
  ip_wf : Forall entry_wf (ix_cells a) }.

Definition with_cells (cs : list entry) (a : AIndex) : AIndex :=
  {| ix_lsn := ix_lsn a; ix_type := ix_type a; ix_sib := ix_sib a; ix_cells := cs |}.
Definition with_type (v : Z) (a : AIndex) : AIndex :=
  {| ix_lsn := ix_lsn a; ix_type := v; ix_sib := ix_sib a; ix_cells := ix_cells a |}.
Definition with_sib (v : Z) (a : AIndex) : AIndex :=
  {| ix_lsn := ix_lsn a; ix_type := ix_type a; ix_sib := v; ix_cells := ix_cells a |}.

#[export] Hint Unfold special_lim sibling_at : consts.

(** ** Cells *)

Section CellFacts.
Context (t : target).
Implicit Types e : entry.

Lemma zlen_encode e : zlen (encode_entry e) = 10 + zlen e.1.
Proof. unfold encode_entry. rewrite !zlen_app, zlen_le16, zlen_le64. lia. Qed.

Lemma encode_bytes_ok e : entry_wf e → bytes_ok (encode_entry e).
Proof. intros (? & _). unfold encode_entry. rewrite !Forall_app. auto using to_le_bytes_ok. Qed.

Lemma new_ok key id :
  entry_wf (key, PageID_0 id) →
  IndexCellOwned.new t key id = Ok (encode_entry (key, PageID_0 id)).
Proof.
  intros (Hk & Hz & Hc). cbn in Hk, Hz, Hc. unfold IndexCellOwned.new. pose proof (zlen_nonneg key).
  rewrite add_w_ok by zlia. cbn. unfold IndexCellOwned.MAX_INDEX_CELL_SIZE.
  rewrite assert_ok by zlia. cbn. rewrite as_w_id by zlia. unfold encode_entry. cbn. done.
Qed.

Lemma new_too_large key id :
  4068 ≤ 10 + zlen key < usize_mod → IndexCellOwned.new t key id = Panic.
Proof.
  intros. unfold IndexCellOwned.new. pose proof (zlen_nonneg key).
  rewrite add_w_ok by zlia. cbn. unfold IndexCellOwned.MAX_INDEX_CELL_SIZE, assert. by if_false.
Qed.

Lemma cell_from_ok e : IndexCell.from (encode_entry e) = Ok (encode_entry e).
Proof.
  unfold IndexCell.from. pose proof (zlen_encode e). pose proof (zlen_nonneg e.1).
  by rewrite assert_ok by zlia.
Qed.

Lemma encode_key_len e :
  entry_wf e → u16_at (encode_entry e) KEY_LEN_OFFSET = zlen e.1.
Proof.
  intros (Hk & Hz & Hc). pose proof (zlen_nonneg e.1). unfold u16_at, encode_entry.
  rewrite slice_app_r by done.
  rewrite slice_app_l by (rewrite ?zlen_le16, ?zlen_le64; zlia).
  change (slice _ _ 2) with (to_le_bytes 2 (zlen e.1)). apply (from_to_le_bytes 2). zlia.
Qed.

Lemma get_key_ok e : entry_wf e → IndexCell.get_key t (encode_entry e) = Ok e.1.
Proof.
  intros He. pose proof (zlen_encode e) as Hlen. pose proof (encode_bytes_ok e He).
  pose proof (zlen_nonneg e.1). unfold IndexCell.get_key.
  rewrite read_u16_le_unsafe_ok by (done || zlia). cbn [mbind res_bind].
  rewrite encode_key_len by done.
  rewrite debug_assert_ok by zlia. cbn. rewrite ptr_read_ok by zlia. f_equal.
  unfold encode_entry. rewrite app_assoc. rewrite slice_app_r by (rewrite zlen_app; done).
  rewrite zlen_app, zlen_le16, zlen_le64. apply slice_full.
Qed.

Lemma get_value_ptr_ok e :
  entry_wf e → IndexCell.get_value_ptr t (encode_entry e) = Ok (MkPageID e.2).
Proof.
  intros He. pose proof (zlen_encode e) as Hlen. pose proof (encode_bytes_ok e He).
  pose proof (zlen_nonneg e.1). destruct He as (_ & _ & Hc). unfold IndexCell.get_value_ptr.
  rewrite read_u64_le_unsafe_ok by (done || zlia). cbn. unfold PageIDImpl.from, u64_at. do 2 f_equal.
  unfold encode_entry. rewrite slice_app_l by (rewrite ?zlen_le64; zlia).
  change (slice _ _ 8) with (to_le_bytes 8 e.2). by apply (from_to_le_bytes 8).
Qed.
End CellFacts.

(** ** Operations against the abstract state *)

Section Operations.
Context (t : target).
Implicit Types (p : RawPage) (a : AIndex).

Lemma ip_page p a : index_page p a → page_ok p.
Proof. intros H. eapply slotted_page, H. Qed.

Lemma try_w_ok {A} (m : W A) p x p' : m p = (Ok x, p') → try_w m p = (Ok x, p').
Proof. apply M_map_err_ok. Qed.
Lemma surjective_pairing_ok {S E A} (r : res E A * S) x : r.1 = Ok x → r = (Ok x, r.2).
Proof. destruct r. cbn. by intros ->. Qed.
Lemma try_w_err {A} (m : W A) p e p' :
  m p = (Err e, p') → try_w m p = (Err (IndexPageError_PageError e), p').
Proof. apply M_map_err_err. Qed.

(** A header update that leaves the free space alone keeps the cells. *)
Lemma slotted_header_update p p' lim cells :
  slotted p lim cells → page_ok p' → body p' = body p → fs p' = fs p → fe p' = fe p →
  slotted p' lim cells.
Proof.
  intros (es & H & ->) Hp' Hb Hs He. pose proof (lay_lim _ _ _ H).
  destruct (layout_ext p p' lim es) as [H' Hc]; [done..| |].
  - intros. apply body_slice; [done|lia..].
  - exists es. by rewrite Hc.
Qed.

Lemma body_u64_at p p' off :
  body p' = body p → 24 ≤ off → off + 8 ≤ 4096 → u64_at p' off = u64_at p off.
Proof. intros. unfold u64_at. by rewrite (body_slice p p'). Qed.

(** Writing the page-type byte. *)
Lemma index_set_type p a v :
  index_page p a → 0 ≤ v < 256 →
  ∃ p', try_w (SlottedPageMut.set_page_type v) p = (Ok tt, p') ∧ index_page p' (with_type v a).
Proof.
  intros H Hv. destruct (set_page_type_ok p (ip_page p a H) v Hv) as (p' & Hr & P' & Hh & Hb).
  exists p'. split; [by apply try_w_ok|]. split; rewrite ?Hh; cbn.
  - apply (slotted_header_update p); [apply H|done|done|by rewrite Hh..].
  - apply H.
  - apply H.
  - done.
  - rewrite (body_u64_at p p') by (done || zlia). apply H.
  - apply H.
Qed.

Lemma get_special_ref_index p a :
  index_page p a → SlottedPageRef.get_special_ref t p = Ok (slice p special_lim 16).
Proof.
  intros H. pose proof (ip_page p a H) as Hp. pose proof (ip_special p a H) as Hs.
  rewrite get_special_ref_ok by (rewrite ?Hs; done). unfold special_area. by rewrite Hs.
Qed.

Lemma sibling_slice p : slice (slice p special_lim 16) 8 8 = slice p sibling_at 8.
Proof. by rewrite slice_slice by zlia. Qed.

Lemma has_right_sibling_index p a :
  index_page p a → IndexPageRef.has_right_sibling t p = Ok (negb (ix_sib a =? 0)).
Proof.
  intros H. unfold IndexPageRef.has_right_sibling. rewrite (get_special_ref_index p a H).
  pose proof (ip_page p a H) as Hp. pose proof (page_ok_zlen p Hp).
  rewrite index_range_ok by (rewrite ?zlen_slice by zlia; zlia). cbn.
  change (8 + 8 - 8) with 8. rewrite sibling_slice. do 2 f_equal.
  rewrite <-(ip_sib p a H). unfold u64_at.
  assert (Hb : bytes_ok (slice p sibling_at 8)) by apply bytes_ok_slice, Hp.
  destruct (Z.eqb_spec (from_le_bytes (slice p sibling_at 8)) 0) as [Hz|Hz].
  - apply bool_decide_eq_true_2. apply from_le_bytes_inj; [done| |by rewrite length_slice by zlia|done].
    repeat constructor; zlia.
  - apply bool_decide_eq_false_2. intros Heq. by rewrite Heq in Hz.
Qed.

Lemma get_right_sibling_index p a :
  index_page p a →
  IndexPageRef.get_right_sibling t p =
    Ok (if ix_sib a =? 0 then None else Some (MkPageID (ix_sib a))).
Proof.
  intros H. unfold IndexPageRef.get_right_sibling. rewrite (get_special_ref_index p a H).
  pose proof (ip_page p a H) as Hp. pose proof (page_ok_zlen p Hp).
  rewrite read_u64_le_unsafe_ok; [|apply bytes_ok_slice, Hp|zlia|rewrite zlen_slice by zlia; zlia].
  cbn. unfold u64_at. change RIGHT_SIBLING_OFFSET with 8. rewrite sibling_slice.
  pose proof (ip_sib p a H) as Hs. unfold u64_at in Hs. by rewrite Hs.
Qed.

Lemma set_right_sibling_index p a id :
  index_page p a → 0 ≤ PageID_0 id < u64_mod →
  ∃ p', IndexPageMut.set_right_sibling t id p = (Ok tt, p') ∧
        index_page p' (with_sib (PageID_0 id) a).
Proof.
  intros H Hid. pose proof (ip_page p a H) as Hp. pose proof (ip_special p a H) as Hs.
  pose proof (page_ok_zlen p Hp).
  assert (Hm : SlottedPageMut.get_special_mut t p = (Ok (special_lim, 16), p)).
  { rewrite get_special_mut_ok by (rewrite ?Hs; done). by rewrite Hs. }
  unfold IndexPageMut.set_right_sibling. rewrite Hm. if_true.
  change (special_lim + RIGHT_SIBLING_OFFSET) with sibling_at.
  destruct (write_ok p sibling_at (to_le_bytes 8 (PageID_0 id))) as (P' & S' & F');
    [done|apply to_le_bytes_ok|zlia|rewrite zlen_le64; zlia|]. rewrite zlen_le64 in S', F'.
  rewrite copy_from_slice_ok by (rewrite ?zlen_le64; zlia).
  eexists. split; [reflexivity|]. unfold PageIDImpl.into.
  set (p' := splice p sibling_at _) in *.
  assert (Hh : decode_header p' = decode_header p) by (apply decode_header_ext, F'; zlia).
  split; rewrite ?Hh; cbn; try apply H.
  - destruct (ip_cells p a H) as (es & Hl & Hc).
    destruct (layout_ext p p' special_lim es) as [Hl' Hc']; [done|done|by rewrite Hh..| |].
    + intros. apply F'; zlia.
    + exists es. by rewrite Hc'.
  - unfold u64_at. rewrite S'. by apply (from_to_le_bytes 8).
Qed.

Lemma index_level p a :
  index_page p a →
  IndexPageRef.level p = Ok (MkIndexLevel (PageTypeImpl.page_sub_type (MkPageType (ix_type a)))).
Proof.
  intros H. unfold IndexPageRef.level, IndexPageRef.get_page_type, try_r.
  rewrite (get_page_type_ok p (ip_page p a H) : SlottedPageRef.get_page_type p = _). cbn.
  rewrite (ip_type p a H). apply IndexLevelFacts.from_sub_type.
Qed.

Lemma index_kind p a :
  index_page p a → IndexPageRef.kind p = Ok (PageTypeImpl.page_kind (MkPageType (ix_type a))).
Proof.
  intros H. unfold IndexPageRef.kind, IndexPageRef.get_page_type, try_r.
  rewrite (get_page_type_ok p (ip_page p a H) : SlottedPageRef.get_page_type p = _). cbn.
  by rewrite (ip_type p a H).
Qed.

Lemma set_level_index p a l :
  index_page p a →
  let pt := PageTypeImpl.set_subtype_page_bits (IndexLevel_0 l) (MkPageType (ix_type a)) in
  ∃ p', IndexPageMut.set_level l p = (Ok tt, p') ∧ index_page p' (with_type (PageType_0 pt) a).
Proof.
  intros H pt. destruct (index_set_type p a (PageType_0 pt) H) as (p' & Hr & H').
  { apply PageTypeFacts.raw_set_subtype_range. }
  exists p'. split; [|done]. unfold IndexPageMut.set_level.
  erewrite bind_ok; [exact Hr|]. apply rd_ok. unfold IndexPageMut.get_page_type, try_r.
  rewrite (get_page_type_ok p (ip_page p a H)). cbn. by rewrite (ip_type p a H).
Qed.

(** Wiping the page and writing the header fields in turn. *)
Lemma init_in_place_index p lsn :
  page_ok p → 0 ≤ lsn < u64_mod →
  ∃ p', IndexPageMut.init_in_place t lsn p = (Ok tt, p') ∧
    index_page p' {| ix_lsn := lsn; ix_type := 2; ix_sib := 0; ix_cells := [] |}.
Proof.
  intros Hp Hlsn. unfold IndexPageMut.init_in_place.
  assert (Hw : SlottedPageMut.wipe_page p = (Ok tt, zero_page)).
  { unfold SlottedPageMut.wipe_page, zero_page. do 2 f_equal.
    pose proof (page_ok_zlen p Hp). zlia. }
  erewrite bind_ok; [|apply try_w_ok, Hw].
  change (PageTypeImpl.into_u8 _) with 2.
  destruct (set_page_type_ok zero_page zero_page_ok 2) as (p1 & R1 & P1 & H1 & B1); [lia|].
  erewrite bind_ok; [|apply try_w_ok, R1].
  destruct (set_special_offset_ok t p1 P1 16) as (p2 & R2 & P2 & H2 & B2); [lia|].
  erewrite bind_ok; [|apply try_w_ok, R2].
  destruct (set_free_start_ok t p2 P2 24) as (p3 & R3 & P3 & H3 & B3); [lia|].
  erewrite bind_ok; [|apply try_w_ok, R3]. mcalc.
  destruct (set_free_end_ok t p3 P3 4080) as (p4 & R4 & P4 & H4 & B4); [lia|by rewrite H3|].
  erewrite bind_ok; [|apply try_w_ok, R4].
  destruct (set_lsn_ok p4 P4 lsn Hlsn) as (p5 & R5 & P5 & H5 & B5).
  erewrite bind_ok; [|apply try_w_ok, R5]. exists p5. split; [done|].
  rewrite H1 in H2. rewrite H2 in H3. rewrite H3 in H4. rewrite H4 in H5.
  split; rewrite ?H5; try done.
  - apply slotted_nil; [done|by rewrite H5..|zlia].
  - cbn [ix_sib]. rewrite (body_u64_at zero_page p5) by (congruence || zlia). done.
Qed.

(** Appending and inserting an entry: the cell is built by
    [IndexCellOwned::new] and handed to the slotted page. *)
Lemma insertion_frame_index p p' a cs :
  index_page p a → insertion_frame p p' special_lim →
  slotted p' special_lim (encode_entry <$> cs) → Forall entry_wf cs →
  index_page p' (with_cells cs a).
Proof.
  intros H [(s & f & Hh) F] Hs Hwf. split; rewrite ?Hh; cbn; try apply H; try done.
  unfold u64_at. rewrite F by zlia. apply H.
Qed.

Lemma add_at_index p a (i : Z) e :
  index_page p a → entry_wf e → 0 ≤ i →
  let r := IndexPageMut.add_cell_at_slot_entry_index t i (encode_entry e) p in
  if room special_lim (encode_entry <$> ix_cells a) <? 14 + zlen e.1
  then r = (Err (IndexPageError_PageError NoContigiousSpace), p)
  else if zlen (ix_cells a) <? i
  then r = (Err (IndexPageError_PageError SlotIndexNotInRange), p)
  else r.1 = Ok tt ∧ index_page r.2 (with_cells (insert_at (Z.to_nat i) e (ix_cells a)) a).
Proof.
  intros H He Hi. cbv zeta. pose proof (zlen_encode e) as Hlen. pose proof He as (_ & Hz & _).
  pose proof (zlen_nonneg e.1).
  pose proof (add_cell_at_refines t p special_lim _ i (encode_entry e) (ip_cells p a H)
    (encode_bytes_ok e He) ltac:(zlia) Hi) as Href.
  unfold spec_add_at in Href. unfold IndexPageMut.add_cell_at_slot_entry_index.
  assert (Hzl : zlen (encode_entry <$> ix_cells a) = zlen (ix_cells a))
    by (unfold zlen; by rewrite length_fmap).
  rewrite Hlen, Hzl in Href. replace (10 + zlen e.1 + 4) with (14 + zlen e.1) in Href by lia.
  destruct (_ <? 14 + _); [by apply try_w_err|].
  destruct (zlen (ix_cells a) <? i); [by apply try_w_err|].
  destruct Href as (Hr & Hs & Hf). erewrite try_w_ok; [|by apply surjective_pairing_ok].
  split; [done|]. cbn. rewrite <-fmap_insert_at in Hs.
  apply (insertion_frame_index p); [done|done|done|]. apply Forall_insert_at; [done|apply H].
Qed.

Lemma append_index p a e :
  index_page p a → entry_wf e →
  let r := IndexPageMut.add_cell_append_slot_entry t (encode_entry e) p in
  if room special_lim (encode_entry <$> ix_cells a) <? 14 + zlen e.1
  then r = (Err (IndexPageError_PageError NoContigiousSpace), p)
  else r.1 = Ok tt ∧ index_page r.2 (with_cells (ix_cells a ++ [e]) a).
Proof.
  intros H He. cbv zeta. pose proof (zlen_encode e) as Hlen. pose proof He as (_ & Hz & _).
  pose proof (zlen_nonneg e.1).
  pose proof (add_cell_append_refines t p special_lim _ (encode_entry e) (ip_cells p a H)
    (encode_bytes_ok e He) ltac:(zlia)) as Href.
  unfold spec_append in Href. unfold IndexPageMut.add_cell_append_slot_entry.
  rewrite Hlen in Href. replace (10 + zlen e.1 + 4) with (14 + zlen e.1) in Href by lia.
  destruct (_ <? 14 + _); [by apply try_w_err|].
  destruct Href as (Hr & Hs & Hf). erewrite try_w_ok; [|by apply surjective_pairing_ok].
  split; [done|]. cbn. change [encode_entry e] with (encode_entry <$> [e]) in Hs.
  rewrite <-fmap_app in Hs. apply (insertion_frame_index p); [done|done|done|].
  apply Forall_app; split; [apply H|by constructor].
Qed.
End Operations.

(** ** Search *)

Fixpoint first_gt (key : list Z) (es : list entry) : option PageID :=
  match es with
  | [] => None
  | (k, c) :: es => if bytes_lt key k then Some (MkPageID c) else first_gt key es
  end.

(** What [find_child_ptr] answers: with a right sibling, slot 0 is the high key
    and a larger key is sent to the sibling; otherwise the child of the first
    entry whose key is greater. *)
Definition spec_find (key : list Z) (a : AIndex) : res IndexPageError (option PageID) :=
  if ix_sib a =? 0 then Ok (first_gt key (ix_cells a))
  else match ix_cells a with
       | [] => Err (IndexPageError_PageError EmptySlotDir)
       | (high_key, _) :: rest =>
           if bytes_gt key high_key then Ok (Some (MkPageID (ix_sib a)))
           else Ok (first_gt key rest)
       end.

Section Search.
Context (t : target).
Implicit Types (p : RawPage) (a : AIndex) (es : list SlotEntry) (cs : list entry).

Lemma find_loop_index p es cs key k fuel :
  layout p special_lim es → encode_entry <$> cs = cell_of p <$> es → Forall entry_wf cs →
  (k ≤ length es)%nat → (length es - k < fuel)%nat →
  IndexPageRef.find_loop t fuel key (SlotDirIter.mk 24 (fs p - 24) (Z.of_nat k)) p
  = Ok (first_gt key (drop k cs)).
Proof.
  intros H Hcs Hwf. revert k. induction fuel as [|fuel IH]; intros k Hk Hf; [lia|].
  assert (Hlen : length cs = length es)
    by (rewrite <-(length_fmap encode_entry), Hcs, length_fmap; done).
  cbn [IndexPageRef.find_loop]. rewrite (next_entry_dir t p es k (lay_dir _ _ _ H) Hk).
  destruct (es !! k) as [e|] eqn:He; cbn [map_err mbind res_bind].
  - pose proof (lookup_lt_Some _ _ _ He).
    destruct (lookup_lt_is_Some_2 cs k) as [[ck cc] Hc]; [lia|].
    assert (Hcell : cell_of p e = encode_entry (ck, cc)).
    { assert (Some (cell_of p e) = Some (encode_entry (ck, cc))) as [= ->]; [|done].
      transitivity ((cell_of p <$> es) !! k); [by rewrite list_lookup_fmap, He|].
      rewrite <-Hcs. by rewrite list_lookup_fmap, Hc. }
    assert (Hw : entry_wf (ck, cc)) by (eapply Forall_lookup_1; eauto).
    rewrite (cell_slice_from_entry_slotted t p special_lim es e H) by
      (zlia || (apply list_elem_of_lookup; eauto)).
    cbn [map_err mbind res_bind]. rewrite Hcell, cell_from_ok. cbn [mbind res_bind].
    rewrite get_key_ok by done. cbn [mbind res_bind fst].
    rewrite (drop_S _ _ _ Hc). cbn [first_gt].
    destruct (bytes_lt key ck).
    + rewrite get_value_ptr_ok by done. done.
    + apply IH; lia.
  - apply lookup_ge_None in He. by rewrite drop_ge by lia.
Qed.

Lemma skip_index p es n :
  dir p es → (n ≤ 1)%nat → (n ≤ length es)%nat →
  IndexPageRef.skip t n (SlotDirIter.new 24 (fs p - 24)) p =
    Ok (SlotDirIter.mk 24 (fs p - 24) (Z.of_nat n)).
Proof.
  intros Hd Hn Hl. destruct n as [|[|]]; [done| |lia]. cbn [IndexPageRef.skip].
  change (SlotDirIter.new 24 (fs p - 24)) with (SlotDirIter.mk 24 (fs p - 24) (Z.of_nat 0)).
  rewrite (next_entry_dir t p es 0 Hd) by lia.
  destruct (es !! 0%nat) eqn:He; [done|]. apply lookup_ge_None in He. lia.
Qed.

Lemma find_child_ptr_index p a key :
  index_page p a → IndexPageRef.find_child_ptr t key p = spec_find key a.
Proof.
  intros H. pose proof (ip_page p a H) as Hp. destruct (ip_cells p a H) as (es & Hl & Hcs).
  pose proof (slotted_bounds _ _ _ (ip_cells p a H)) as (Hs & Hb & _).
  pose proof (zlen_nonneg (encode_entry <$> ix_cells a)).
  assert (Hlen : length (ix_cells a) = length es)
    by (rewrite <-(length_fmap encode_entry), Hcs, length_fmap; done).
  assert (Hscan : ∀ n, (n ≤ 1)%nat → (n ≤ length es)%nat →
    (sd ← try_r (SlottedPageRef.slot_dir_ref t) p;
     it ← IndexPageRef.skip t n (SlotRef.iter sd) p;
     IndexPageRef.find_loop t (S (Z.to_nat (SlotRef.slot_count sd))) key it p)
    = Ok (first_gt key (drop n (ix_cells a)))).
  { intros n Hn1 Hn. unfold try_r. rewrite slot_dir_ref_ok by (done || lia).
    cbn [map_err mbind res_bind]. unfold SlotRef.iter.
    cbn [SlotRef.ptr SlotRef.size SlotRef.new].
    rewrite (skip_index p es n (lay_dir _ _ _ Hl)) by done. cbn [mbind res_bind].
    apply (find_loop_index p es); [done|done|apply H|done|].
    rewrite slot_count_eq. change ((fs p - 24) / 4) with ((fs p - HEADER_SIZE) / ENTRY_SIZE).
    rewrite (dir_count p es (lay_dir _ _ _ Hl)). zlia. }
  unfold IndexPageRef.find_child_ptr, spec_find. cbv zeta.
  rewrite (has_right_sibling_index t p a H). cbn [mbind res_bind].
  destruct (Z.eqb_spec (ix_sib a) 0) as [Hz|Hnz]; cbn [negb]; [by rewrite Hscan by lia|].
  assert (Hid : try_r (SlottedPageRef.cell_slice_from_id t (MkSlotID 0)) p =
                map_err from_page_error (spec_get 0 (encode_entry <$> ix_cells a))).
  { unfold try_r. f_equal.
    exact (cell_slice_from_id_slotted t p special_lim _ (MkSlotID 0) (ip_cells p a H) ltac:(done)). }
  rewrite Hid. clear Hid.
  destruct (ix_cells a) as [|[hk hc] rest] eqn:Ea; [done|].
  change (spec_get 0 _) with (Ok (E:=PageError) (encode_entry (hk, hc))).
  cbn [map_err mbind res_bind].
  assert (Hw : entry_wf (hk, hc)) by (pose proof (ip_wf p a H) as Hwf; rewrite Ea in Hwf; by inversion Hwf).
  rewrite cell_from_ok. cbn [mbind res_bind]. rewrite get_key_ok by done. cbn [mbind res_bind fst].
  destruct (bytes_gt key hk).
  - rewrite (get_right_sibling_index t p a H). by rewrite (proj2 (Z.eqb_neq _ _) Hnz).
  - rewrite Hscan; [done|lia|rewrite <-Hlen; cbn; lia].
Qed.

(** The first greater key, as a position. *)
Lemma first_gt_Some key cs c :
  first_gt key cs = Some c ↔
  ∃ i k, cs !! i = Some (k, PageID_0 c) ∧ bytes_lt key k = true ∧
    ∀ j k' c', (j < i)%nat → cs !! j = Some (k', c') → bytes_lt key k' = false.
Proof.
  split.
  - induction cs as [|[k0 c0] cs IH]; cbn; [done|]. destruct (bytes_lt key k0) eqn:Hk.
    + intros [= <-]. exists 0%nat, k0. split_and!; [done|done|]. intros; lia.
    + intros Hf. destruct (IH Hf) as (i & k & Hi & Hlt & Hall). exists (S i), k.
      split_and!; [done|done|]. intros [|j] k' c' Hj Hl; [by injection Hl as -> ->|].
      eapply (Hall j); [lia|done].
  - intros (i & k & Hi & Hlt & Hall). revert i Hi Hall.
    induction cs as [|[k0 c0] cs IH]; intros i Hi Hall; [done|]. cbn.
    destruct i as [|i].
    + cbn in Hi. injection Hi as -> ->. rewrite Hlt. by destruct c.
    + rewrite (Hall 0%nat k0 c0) by (done || lia). apply (IH i); [done|].
      intros j k' c' Hj Hl. apply (Hall (S j) k' c'); [lia|done].
Qed.

Lemma first_gt_None key cs :
  first_gt key cs = None ↔ ∀ i k c, cs !! i = Some (k, c) → bytes_lt key k = false.
Proof.
  induction cs as [|[k0 c0] cs IH]; cbn; [done|]. destruct (bytes_lt key k0) eqn:Hk.
  - split; [done|]. intros Hall. by rewrite (Hall 0%nat k0 c0) in Hk.
  - rewrite IH. split.
    + intros Hall [|i] k c Hl; [by injection Hl as -> ->|by eapply Hall].
    + intros Hall i k c Hl. by apply (Hall (S i) k c).
Qed.
End Search.
