(* ===== verification/IndexProps.v ===== *)
(** * Properties of index pages

    The theorems about src/src/page/internal_page.rs: whole sequences of
    operations refine the abstract index page, the search is the search of the
    specification (and, on sorted entries, the B-tree descent rule), and the
    codecs of cells, siblings, levels and kinds are inverse to each other. *)

From S2P Require Import Prelude Bytes PageTypes Slotted SlottedHeader SlottedDir SlottedCells.
From S2P Require Import IndexPage IndexFacts.

(** ** Sequences of operations *)

Inductive index_op :=
| OpSetLevel (l : IndexLevel)
| OpSetKind (k : PageKind)
| OpSetSibling (id : PageID)
| OpAppend (key : list Z) (child : PageID)
| OpAddAt (i : Z) (key : list Z) (child : PageID).

Definition iop_ok (o : index_op) : Prop :=
  match o with
  | OpSetLevel _ | OpSetKind _ => True
  | OpSetSibling id => 0 ≤ PageID_0 id < u64_mod
  | OpAppend key child => entry_wf (key, PageID_0 child)
  | OpAddAt i key child => entry_wf (key, PageID_0 child) ∧ 0 ≤ i
  end.

#[global] Instance iop_ok_dec o : Decision (iop_ok o).
Proof. destruct o; cbn; apply _. Defined.

Definition iexec (t : target) (o : index_op) : IW unit :=
  match o with
  | OpSetLevel l => IndexPageMut.set_level l
  | OpSetKind k => IndexPageMut.set_page_type k
  | OpSetSibling id => IndexPageMut.set_right_sibling t id
  | OpAppend key child =>
      c ← lift (IndexCellOwned.new t key child);
      IndexPageMut.add_cell_append_slot_entry t c
  | OpAddAt i key child =>
      c ← lift (IndexCellOwned.new t key child);
      IndexPageMut.add_cell_at_slot_entry_index t i c
  end.

Definition entries_room (a : AIndex) : Z := room special_lim (encode_entry <$> ix_cells a).

Definition no_space : res IndexPageError unit := Err (IndexPageError_PageError NoContigiousSpace).
Definition bad_index : res IndexPageError unit := Err (IndexPageError_PageError SlotIndexNotInRange).

(** The codes of the page format. *)
Definition kind_code (k : PageKind) : Z :=
  match k with
  | Undefined => 0 | Heap => 1 | IndexInternal => 2 | IndexMiniLeaf => 3 | IndexLeaf => 4 | Meta => 5 | Free => 6
  end.

(** The type byte is the kind plus sixteen times the level: setting the level
    keeps the kind and four bits of the level, setting the kind puts the level
    back to zero. *)
Definition spec_iexec (o : index_op) (a : AIndex) : res IndexPageError unit * AIndex :=
  match o with
  | OpSetLevel l =>
      (Ok tt, with_type (ix_type a mod 16 + 16 * (IndexLevel_0 l mod 16)) a)
  | OpSetKind k => (Ok tt, with_type (kind_code k) a)
  | OpSetSibling id => (Ok tt, with_sib (PageID_0 id) a)
  | OpAppend key child =>
      if entries_room a <? 14 + zlen key then (no_space, a)
      else (Ok tt, with_cells (ix_cells a ++ [(key, PageID_0 child)]) a)
  | OpAddAt i key child =>
      if entries_room a <? 14 + zlen key then (no_space, a)
      else if zlen (ix_cells a) <? i then (bad_index, a)
      else (Ok tt, with_cells (insert_at (Z.to_nat i) (key, PageID_0 child) (ix_cells a)) a)
  end.

Fixpoint irun (t : target) (ops : list index_op) (p : RawPage) :
  list (res IndexPageError unit) * RawPage :=
  match ops with
  | [] => ([], p)
  | o :: ops =>
      let '(r, p1) := iexec t o p in
      let '(rs, p2) := irun t ops p1 in
      (r :: rs, p2)
  end.

Fixpoint spec_irun (ops : list index_op) (a : AIndex) :
  list (res IndexPageError unit) * AIndex :=
  match ops with
  | [] => ([], a)
  | o :: ops =>
      let '(r, a1) := spec_iexec o a in
      let '(rs, a2) := spec_irun ops a1 in
      (r :: rs, a2)
  end.

Definition empty_index (lsn : Z) : AIndex :=
  {| ix_lsn := lsn; ix_type := 2; ix_sib := 0; ix_cells := [] |}.

Lemma kind_code_range k : 0 ≤ PageKindImpl.into_u8 k < 256.
Proof. by destruct k. Qed.

Lemma kind_code_eq k : PageKindImpl.into_u8 k = kind_code k.
Proof. by destruct k. Qed.

Lemma iexec_refines t o p a :
  index_page p a → iop_ok o →
  (iexec t o p).1 = (spec_iexec o a).1 ∧ index_page (iexec t o p).2 (spec_iexec o a).2.
Proof.
  intros H Ho. destruct o as [l|k|id|key child|i key child]; cbn [iexec spec_iexec iop_ok] in *.
  - destruct (set_level_index p a l H) as (p' & Hr & H'). rewrite Hr.
    by rewrite PageTypeFacts.set_subtype_value in H'.
  - destruct (index_set_type p a _ H (kind_code_range k)) as (p' & Hr & H').
    unfold IndexPageMut.set_page_type. rewrite Hr. by rewrite kind_code_eq in H'.
  - destruct (set_right_sibling_index t p a id H Ho) as (p' & Hr & H'). by rewrite Hr.
  - rewrite (new_ok t key child Ho). erewrite bind_ok; [|by apply lift_ok].
    pose proof (append_index t p a _ H Ho) as Hr. cbn [fst] in Hr. unfold entries_room.
    destruct (_ <? 14 + _); [by rewrite Hr|]. done.
  - destruct Ho as [Ho Hi]. rewrite (new_ok t key child Ho). erewrite bind_ok; [|by apply lift_ok].
    pose proof (add_at_index t p a i _ H Ho Hi) as Hr. cbn [fst] in Hr. unfold entries_room.
    destruct (_ <? 14 + _); [by rewrite Hr|]. destruct (zlen (ix_cells a) <? i); [by rewrite Hr|]. done.
Qed.

Lemma irun_refines t ops p a :
  index_page p a → Forall iop_ok ops →
  (irun t ops p).1 = (spec_irun ops a).1 ∧ index_page (irun t ops p).2 (spec_irun ops a).2.
Proof.
  intros H Hops. revert p a H. induction Hops as [|o ops Ho _ IH]; intros p a H; [done|].
  destruct (iexec_refines t o p a H Ho) as [Hr H1]. cbn [irun spec_irun].
  destruct (iexec t o p) as [r p1], (spec_iexec o a) as [r' a1]. cbn in Hr, H1. subst r'.
  specialize (IH p1 a1 H1). destruct (irun t ops p1), (spec_irun ops a1). cbn in *.
  destruct IH as [-> ?]. done.
Qed.

(** Pages the index layer can produce: an initialised page, then any sequence
    of operations with well-typed arguments. *)
Inductive reachable (t : target) : RawPage → Prop :=
| reach_init p lsn :
    page_ok p → 0 ≤ lsn < u64_mod → reachable t (IndexPageMut.init_in_place t lsn p).2
| reach_step p o :
    reachable t p → iop_ok o → reachable t (iexec t o p).2.

Lemma reachable_index t p : reachable t p → ∃ a, index_page p a.
Proof.
  induction 1 as [p lsn Hp Hl|p o _ [a Ha] Ho].
  - destruct (init_in_place_index t p lsn Hp Hl) as (p' & Hr & H). rewrite Hr. by exists (empty_index lsn).
  - destruct (iexec_refines t o p a Ha Ho) as [_ H]. eauto.
Qed.

(** ** Sample page *)

Definition sample_iops : list index_op :=
  [ OpAppend [5] (MkPageID 50); OpAppend [9; 1] (MkPageID 91); OpAddAt 1 [7] (MkPageID 70);
    OpSetLevel (MkIndexLevel 3) ].
Definition index0 : RawPage := (IndexPageMut.init_in_place dbg 77 zero_page).2.
Definition sample_index : RawPage := (irun dbg sample_iops index0).2.
Definition sample_state : AIndex :=
  {| ix_lsn := 77; ix_type := 50; ix_sib := 0; ix_cells := [([5], 50); ([7], 70); ([9; 1], 91)] |}.

Lemma index0_ok : index_page index0 (empty_index 77).
Proof.
  destruct (init_in_place_index dbg zero_page 77 zero_page_ok) as (p' & Hr & H); [zlia|].
  unfold index0. rewrite Hr. exact H.
Qed.

Lemma sample_index_ok : index_page sample_index sample_state.
Proof.
  refine (proj2 (irun_refines dbg sample_iops index0 (empty_index 77) index0_ok _)).
  apply (bool_decide_unpack _). vm_compute. exact I.
Qed.

(** ** Properties *)

(** C3: An index page behaves as its abstract state.  Initialise a page over
    any bytes and run any sequence of level, kind and sibling updates, appends
    and insertions: every call returns what the specification returns (errors
    included), none panics, and the final bytes represent the final LSN, type
    byte, sibling and entry list. *)
Theorem index_page_refines_state t p0 lsn ops
    (Hp : page_ok p0) (Hl : 0 ≤ lsn < u64_mod) (Hops : Forall iop_ok ops) :
  let p1 := (IndexPageMut.init_in_place t lsn p0).2 in
  (IndexPageMut.init_in_place t lsn p0).1 = Ok tt ∧
  (irun t ops p1).1 = (spec_irun ops (empty_index lsn)).1 ∧
  index_page (irun t ops p1).2 (spec_irun ops (empty_index lsn)).2.
Proof.
  destruct (init_in_place_index t p0 lsn Hp Hl) as (p1 & Hr & H). rewrite Hr. cbv zeta.
  split; [done|]. by apply irun_refines.
Qed.

Lemma index_page_refines_state_witness :
  (irun dbg sample_iops index0).1 = [Ok tt; Ok tt; Ok tt; Ok tt].
Proof.
  refine (proj1 (proj2 (index_page_refines_state dbg zero_page 77 sample_iops zero_page_ok _ _))).
  - vm_compute. split; congruence.
  - apply (bool_decide_unpack _). vm_compute. exact I.
Defined.

(** C4: Searching an index page is the search of the specification: with a
    right sibling, slot 0 is the high key, a key above it is answered with the
    sibling and the remaining entries are scanned otherwise; the scan returns
    the child of the first entry with a greater key, or nothing.  The loop
    terminates within its slot count on every such page. *)
Theorem find_child_ptr_refines t p a key (H : index_page p a) :
  IndexPageRef.find_child_ptr t key p = spec_find key a.
Proof. by apply find_child_ptr_index. Qed.

Lemma find_child_ptr_refines_witness :
  IndexPageRef.find_child_ptr dbg [7] sample_index = Ok (Some (MkPageID 91)).
Proof. exact (find_child_ptr_refines dbg sample_index sample_state [7] sample_index_ok). Defined.

(** Keys in non-decreasing order. *)
Definition keys_sorted (cs : list entry) : Prop :=
  ∀ i j k k' c c', (i < j)%nat → cs !! i = Some (k, c) → cs !! j = Some (k', c') →
    bytes_lt k' k = false.

(** The entries a search scans: all of them, or all but the high key. *)
Definition scanned (a : AIndex) : list entry :=
  if ix_sib a =? 0 then ix_cells a else tail (ix_cells a).

(** The key is not beyond the high key of a page with a right sibling. *)
Definition covered (key : list Z) (a : AIndex) : Prop :=
  ix_sib a = 0 ∨ ∃ high_key c, head (ix_cells a) = Some (high_key, c) ∧ bytes_gt key high_key = false.

Lemma spec_find_covered key a : covered key a → spec_find key a = Ok (first_gt key (scanned a)).
Proof.
  unfold spec_find, scanned. intros [-> |(hk & c & Hh & Hle)]; [done|].
  destruct (ix_sib a =? 0); [done|]. destruct (ix_cells a) as [|[k0 c0] rest]; [done|].
  cbn in *. injection Hh as -> ->. by rewrite Hle.
Qed.

(** C13: On a page whose scanned keys are sorted, the search for a key the page
    covers is the B-tree descent rule: it returns the child at the unique
    position that separates the keys at most the search key from the greater
    ones, and nothing exactly when no key is greater. *)
Theorem find_child_ptr_sorted t p a key (H : index_page p a) (Hcov : covered key a)
    (Hsorted : keys_sorted (scanned a)) :
  (∀ child, IndexPageRef.find_child_ptr t key p = Ok (Some child) ↔
     ∃ i k, scanned a !! i = Some (k, PageID_0 child) ∧
       (∀ j k' c', (j < i)%nat → scanned a !! j = Some (k', c') → bytes_lt key k' = false) ∧
       (∀ j k' c', (i ≤ j)%nat → scanned a !! j = Some (k', c') → bytes_lt key k' = true)) ∧
  (IndexPageRef.find_child_ptr t key p = Ok None ↔
     ∀ i k c, scanned a !! i = Some (k, c) → bytes_lt key k = false).
Proof.
  rewrite (find_child_ptr_index t p a key H), spec_find_covered by done. split.
  - intros child. rewrite (inj_iff Ok), first_gt_Some. split.
    + intros (i & k & Hi & Hlt & Hall). exists i, k. split_and!; [done|exact Hall|].
      intros j k' c' Hj Hl. destruct (decide (i = j)) as [<-|]; [by simplify_eq|].
      apply (bytes_lt_le_trans key k k'); [done|]. eapply (Hsorted i j); [lia|done..].
    + intros (i & k & Hi & Hlo & Hhi). exists i, k. split_and!; [done| |done].
      by eapply (Hhi i).
  - rewrite (inj_iff Ok). apply first_gt_None.
Qed.

Lemma find_child_ptr_sorted_witness :
  IndexPageRef.find_child_ptr dbg [9; 1] sample_index = Ok None ↔
     ∀ i k c, scanned sample_state !! i = Some (k, c) → bytes_lt [9; 1] k = false.
Proof.
  refine (proj2 (find_child_ptr_sorted dbg sample_index sample_state [9; 1] sample_index_ok _ _)).
  - left. reflexivity.
  - intros i j k k' c c' Hij Hi Hj.
    destruct i as [|[|[|]]], j as [|[|[|]]]; try lia; cbn in Hi, Hj;
      try discriminate; injection Hi as <- _; injection Hj as <- _; reflexivity.
Defined.

(** C22: Safety on every page the index layer can produce (an initialised page
    after any sequence of operations): the level and the kind can always be
    read, the level is at most 15, and a search never panics, never leaves the
    page and never runs out of fuel; its only error is an empty slot directory,
    on a page that has a right sibling but no high key. *)
Theorem reachable_index_safe t p key (H : reachable t p) :
  (∃ l, IndexPageRef.level p = Ok l ∧ 0 ≤ IndexLevel_0 l ≤ IndexLevelImpl.MAX) ∧
  (∃ k, IndexPageRef.kind p = Ok k) ∧
  ((∃ r, IndexPageRef.find_child_ptr t key p = Ok r) ∨
   IndexPageRef.find_child_ptr t key p = Err (IndexPageError_PageError EmptySlotDir) ∧
   IndexPageRef.has_right_sibling t p = Ok true).
Proof.
  destruct (reachable_index t p H) as [a Ha]. split_and!.
  - eexists. split; [by apply index_level|]. apply PageTypeFacts.page_sub_type_range.
  - eexists. by apply index_kind.
  - rewrite (find_child_ptr_index t p a key Ha), (has_right_sibling_index t p a Ha). unfold spec_find.
    destruct (ix_sib a =? 0); [eauto|]. destruct (ix_cells a) as [|[hk hc] rest]; [by right|].
    destruct (bytes_gt key hk); eauto.
Qed.

Lemma reachable_index_safe_witness :
  ∃ k, IndexPageRef.kind (iexec dbg (OpSetSibling (MkPageID 4)) index0).2 = Ok k.
Proof.
  refine (proj1 (proj2 (reachable_index_safe dbg _ [] (reach_step dbg _ _ (reach_init dbg _ 77 _ _) _)))).
  - exact zero_page_ok.
  - vm_compute. split; congruence.
  - vm_compute. split; congruence.
Defined.

(** C23: An index cell decodes to what it was built from: for every key and
    child that [IndexCellOwned::new] accepts, viewing the built cell and
    reading the key and the child pointer gives them back; a key too long for
    the page is refused by a panic. *)
Theorem index_cell_roundtrip t key child :
  (entry_wf (key, PageID_0 child) →
   ∃ c, IndexCellOwned.new t key child = Ok c ∧ zlen c = 10 + zlen key ∧
     IndexCell.from c = Ok c ∧ IndexCell.get_key t c = Ok key ∧
     IndexCell.get_value_ptr t c = Ok child) ∧
  (IndexCellOwned.MAX_INDEX_CELL_SIZE ≤ 10 + zlen key < usize_mod →
   IndexCellOwned.new t key child = Panic).
Proof.
  split.
  - intros Hw. exists (encode_entry (key, PageID_0 child)). split_and!.
    + by apply new_ok.
    + apply zlen_encode.
    + apply cell_from_ok.
    + by apply (get_key_ok t (key, PageID_0 child)).
    + rewrite (get_value_ptr_ok t (key, PageID_0 child)) by done. by destruct child.
  - intros. by apply new_too_large.
Qed.

Lemma index_cell_roundtrip_witness :
  ∃ c, IndexCellOwned.new dbg [1; 2] (MkPageID 300) = Ok c ∧ zlen c = 10 + zlen [1; 2] ∧
     IndexCell.from c = Ok c ∧ IndexCell.get_key dbg c = Ok [1; 2] ∧
     IndexCell.get_value_ptr dbg c = Ok (MkPageID 300).
Proof.
  refine (proj1 (index_cell_roundtrip dbg [1; 2] (MkPageID 300)) _).
  apply (bool_decide_unpack _). vm_compute. exact I.
Defined.

(** C26: The right sibling reads back as written and writing it disturbs
    nothing else: the page then represents the same state with that sibling;
    page id 0 reads back as no sibling. *)
Theorem right_sibling_roundtrip t p a id
    (H : index_page p a) (Hid : 0 ≤ PageID_0 id < u64_mod) :
  let r := IndexPageMut.set_right_sibling t id p in
  r.1 = Ok tt ∧ index_page r.2 (with_sib (PageID_0 id) a) ∧
  IndexPageRef.get_right_sibling t r.2 = Ok (if PageID_0 id =? 0 then None else Some id) ∧
  IndexPageRef.has_right_sibling t r.2 = Ok (negb (PageID_0 id =? 0)) ∧
  IndexPageMut.has_right_sibling t r.2 = Ok (negb (PageID_0 id =? 0)).
Proof.
  cbv zeta. destruct (set_right_sibling_index t p a id H Hid) as (p' & Hr & H'). rewrite Hr. cbn.
  split_and!; [done|done| |by apply (has_right_sibling_index t p' _ H')..].
  rewrite (get_right_sibling_index t p' _ H'). cbn. by destruct id.
Qed.

Lemma right_sibling_roundtrip_witness :
  (IndexPageMut.set_right_sibling dbg (MkPageID 12) sample_index).1 = Ok tt.
Proof.
  refine (proj1 (right_sibling_roundtrip dbg sample_index sample_state (MkPageID 12)
                   sample_index_ok _)).
  vm_compute. split; congruence.
Defined.

(** C27: Setting the level stores its low four bits, keeps the kind and the
    rest of the page, and reads back; setting the kind reads back too but
    resets the level to 0, because it writes the bare kind code. *)
Theorem level_and_kind_roundtrip t p a l k (H : index_page p a) :
  let r := IndexPageMut.set_level l p in
  let s := IndexPageMut.set_page_type k p in
  (r.1 = Ok tt ∧ IndexPageRef.level r.2 = Ok (MkIndexLevel (Z.land (IndexLevel_0 l) 15)) ∧
   IndexPageRef.kind r.2 = IndexPageRef.kind p ∧
   ∀ key, IndexPageRef.find_child_ptr t key r.2 = IndexPageRef.find_child_ptr t key p) ∧
  (s.1 = Ok tt ∧ IndexPageRef.kind s.2 = Ok k ∧ IndexPageRef.level s.2 = Ok (MkIndexLevel 0)).
Proof.
  cbv zeta. destruct (set_level_index p a l H) as (p1 & Hr1 & H1). rewrite Hr1.
  destruct (index_set_type p a _ H (kind_code_range k)) as (p2 & Hr2 & H2).
  unfold IndexPageMut.set_page_type. rewrite Hr2. cbn [fst snd].
  rewrite (index_level p1 _ H1), (index_level p2 _ H2), (index_kind p1 _ H1), (index_kind p2 _ H2),
    (index_kind p _ H). cbn [with_type ix_type]. split_and!; try done.
  - do 2 f_equal. apply PageTypeFacts.page_sub_type_set_subtype.
  - f_equal. apply PageTypeFacts.page_kind_eq, PageTypeFacts.page_type_set_subtype.
  - intros key. by rewrite (find_child_ptr_index t p1 _ key H1), (find_child_ptr_index t p a key H).
  - by destruct k.
  - by destruct k.
Qed.

Lemma level_and_kind_roundtrip_witness :
  (IndexPageMut.set_level (MkIndexLevel 9) sample_index).1 = Ok tt.
Proof.
  exact (proj1 (proj1 (level_and_kind_roundtrip dbg sample_index sample_state (MkIndexLevel 9)
                         IndexLeaf sample_index_ok))).
Defined.

(** C36: [MAX_INDEX_CELL_SIZE] does not account for the special area: a cell of
    4053 to 4067 bytes is built without complaint but fits on no index page,
    not even an empty one. *)
Theorem oversized_cell_never_fits t p a key child i
    (H : index_page p a) (Hw : entry_wf (key, PageID_0 child)) (Hz : 4043 ≤ zlen key) (Hi : 0 ≤ i) :
  iexec t (OpAppend key child) p = (no_space, p) ∧
  iexec t (OpAddAt i key child) p = (no_space, p).
Proof.
  assert (Hroom : entries_room a < 14 + zlen key).
  { unfold entries_room, room, used. pose proof (total_zlen_nonneg (encode_entry <$> ix_cells a)).
    pose proof (zlen_nonneg (encode_entry <$> ix_cells a)). zlia. }
  unfold entries_room in Hroom. cbn [iexec]. rewrite (new_ok t key child Hw).
  pose proof (append_index t p a _ H Hw) as Ha. pose proof (add_at_index t p a i _ H Hw Hi) as Hb.
  cbn [fst] in Ha, Hb. rewrite (proj2 (Z.ltb_lt _ _) Hroom) in Ha, Hb.
  split; (erewrite bind_ok; [|by apply lift_ok]); [exact Ha|exact Hb].
Qed.

Lemma oversized_cell_never_fits_witness :
  iexec dbg (OpAppend (replicate 4050 1) (MkPageID 3)) index0 = (no_space, index0).
Proof.
  refine (proj1 (oversized_cell_never_fits dbg index0 (empty_index 77) (replicate 4050 1) (MkPageID 3) 0
                   index0_ok _ _ _)).
  - apply (bool_decide_unpack _). vm_compute. exact I.
  - vm_compute. congruence.
  - vm_compute. congruence.
Defined.
