(* ===== verification/IndexCorrupt.v ===== *)
(** * Index accessors on pages and cells that are not well formed

    What the unchecked reads of src/src/page/internal_page.rs do when a length
    or an offset stored on the page is wrong. *)

From S2P Require Import Prelude Bytes PageTypes Slotted SlottedHeader IndexPage.

(** C38: The key of a cell.  Any cell of at least ten bytes has a key when its
    stored length fits the cell: exactly the bytes after the header.  When it
    does not, the accessor panics in the debug profile, and in the release
    profile builds a slice that leaves the cell. *)
Theorem get_key_bounds t cell (Hc : bytes_ok cell) (Hl : KEY_DATA_OFFSET ≤ zlen cell) :
  let n := u16_at cell KEY_LEN_OFFSET in
  IndexCell.from cell = Ok cell ∧
  IndexCell.get_value_ptr t cell = Ok (MkPageID (u64_at cell CHILD_PTR_OFFSET)) ∧
  (KEY_DATA_OFFSET + n ≤ zlen cell →
     IndexCell.get_key t cell = Ok (slice cell KEY_DATA_OFFSET n)) ∧
  (zlen cell < KEY_DATA_OFFSET + n →
     IndexCell.get_key t cell = match prof t with Debug => Panic | Release => UB end).
Proof.
  cbv zeta. pose proof (u16_at_range cell KEY_LEN_OFFSET Hc ltac:(done) ltac:(zlia)).
  unfold IndexCell.get_key, IndexCell.get_value_ptr, IndexCell.from.
  rewrite read_u16_le_unsafe_ok, read_u64_le_unsafe_ok by (done || zlia). cbn [mbind res_bind].
  split_and!.
  - by rewrite assert_ok by zlia.
  - done.
  - intros Hn. rewrite debug_assert_ok by zlia. cbn. by rewrite ptr_read_ok by zlia.
  - intros Hn. unfold debug_assert. destruct (prof t).
    + unfold assert. if_false. done.
    + cbn. by rewrite ptr_read_ub by zlia.
Qed.

Lemma get_key_bounds_witness :
  IndexCell.get_key (Target Release LittleHost) [0; 0; 0; 0; 0; 0; 0; 0; 200; 0; 1] = UB.
Proof.
  refine (proj2 (proj2 (proj2 (get_key_bounds (Target Release LittleHost)
    [0; 0; 0; 0; 0; 0; 0; 0; 200; 0; 1] _ _))) _).
  - apply (bool_decide_unpack _). vm_compute. exact I.
  - vm_compute. congruence.
  - vm_compute. congruence.
Defined.

(** C39: The right sibling of a page whose special area is shorter than the
    sixteen bytes the index layer expects: the exclusive view and the presence
    test panic on their slice, while [get_right_sibling], which reads through
    a raw pointer, leaves the page. *)
Theorem short_special_area t p id (Hp : page_ok p)
    (Hs : PAGE_SIZE - INDEX_SPECIAL_SIZE < h_special (decode_header p) ≤ PAGE_SIZE) :
  IndexPageRef.has_right_sibling t p = Panic ∧
  IndexPageMut.set_right_sibling t id p = (Panic, p) ∧
  IndexPageRef.get_right_sibling t p = UB ∧
  ∀ key, IndexPageRef.find_child_ptr t key p = Panic.
Proof.
  pose proof (get_special_ref_ok t p Hp ltac:(zlia)) as Hr.
  pose proof (get_special_mut_ok t p Hp ltac:(zlia)) as Hm. pose proof (page_ok_zlen p Hp).
  assert (Hz : zlen (special_area p) = PAGE_SIZE - h_special (decode_header p)).
  { apply zlen_slice; zlia. }
  assert (Hhas : IndexPageRef.has_right_sibling t p = Panic).
  { unfold IndexPageRef.has_right_sibling, index_range. rewrite Hr, Hz. if_false. done. }
  split_and!; [done| | |].
  - unfold IndexPageMut.set_right_sibling. rewrite Hm. if_false. done.
  - unfold IndexPageRef.get_right_sibling, read_u64_le_unsafe, read_unaligned. rewrite Hr.
    by rewrite ptr_read_ub by zlia.
  - intros key. unfold IndexPageRef.find_child_ptr. by rewrite Hhas.
Qed.

Lemma short_special_area_witness :
  IndexPageRef.get_right_sibling dbg (SlottedPageMut.set_special_offset dbg 8 zero_page).2 = UB.
Proof.
  refine (proj1 (proj2 (proj2 (short_special_area dbg _ (MkPageID 0) _ _)))).
  - apply (bool_decide_unpack _). vm_compute. exact I.
  - vm_compute. split; congruence.
Defined.
