(* ===== verification/RwLock.v ===== *)
(** * std::sync::RwLock

    The lock that [NaiveMappingTable] and [PageFrame] use: the protected
    value, the number of read guards alive, whether a write guard is alive and
    the poison flag.  Acquiring a held lock blocks the caller ([Diverge] for a
    caller that is alone); the source always unwraps the result, so acquiring
    a poisoned lock panics.  Dropping a write guard during a panic poisons the
    lock, dropping a read guard does not. *)

From S2P Require Import Prelude.

Record RwLock (A : Type) := MkRwLock {
  value : A; readers : nat; writer : bool; poisoned : bool }.
Arguments MkRwLock {A}.
Arguments value {A}.
Arguments readers {A}.
Arguments writer {A}.
Arguments poisoned {A}.

Module RwLockImpl.
Section Methods.
Context {A E : Type}.
Implicit Types l : RwLock A.

Definition new (v : A) : RwLock A := MkRwLock v 0 false false.

(** [self.read().unwrap()] *)
Definition read : M (RwLock A) E unit := λ l,
  if writer l then (Diverge, l)
  else if poisoned l then (Panic, l)
  else (Ok tt, MkRwLock (value l) (S (readers l)) false false).

(** [self.write().unwrap()] *)
Definition write : M (RwLock A) E unit := λ l,
  if writer l || negb (readers l =? 0)%nat then (Diverge, l)
  else if poisoned l then (Panic, l)
  else (Ok tt, MkRwLock (value l) 0 true false).

Definition drop_read l : RwLock A :=
  MkRwLock (value l) (pred (readers l)) (writer l) (poisoned l).

Definition drop_write (panicking : bool) l : RwLock A :=
  MkRwLock (value l) (readers l) false (poisoned l || panicking).

(** A statement that holds a read guard while [f] looks at the value. *)
Definition with_read {B} (f : A → res E B) : M (RwLock A) E B := λ l,
  match read l with
  | (Ok _, l1) =>
      match f (value l1) with
      | Diverge => (Diverge, l1)
      | UB => (UB, l1)
      | r => (r, drop_read l1)
      end
  | (Err e, l1) => (Err e, l1)
  | (Panic, l1) => (Panic, l1)
  | (UB, l1) => (UB, l1)
  | (Diverge, l1) => (Diverge, l1)
  end.

(** A statement that holds a write guard while [f] changes the value. *)
Definition with_write {B} (f : M A E B) : M (RwLock A) E B := λ l,
  match write l with
  | (Ok _, l1) =>
      let '(r, v) := f (value l1) in
      let l2 := MkRwLock v (readers l1) (writer l1) (poisoned l1) in
      match r with
      | Ok b => (Ok b, drop_write false l2)
      | Err e => (Err e, drop_write false l2)
      | Panic => (Panic, drop_write true l2)
      | UB => (UB, l2)
      | Diverge => (Diverge, l2)
      end
  | (Err e, l1) => (Err e, l1)
  | (Panic, l1) => (Panic, l1)
  | (UB, l1) => (UB, l1)
  | (Diverge, l1) => (Diverge, l1)
  end.
End Methods.
End RwLockImpl.

(** No guard is alive and no writer has panicked. *)
Definition available {A} (l : RwLock A) : Prop := l = RwLockImpl.new (value l).

