(* ===== verification/Latch.v ===== *)
(** * The page-table latch (src/src/buffer/page_table_latch.rs)

    A latch is an atomic state byte and a data cell.  Any number of threads
    call [load] or [peek]; a configuration holds the latch and the program
    counter of every thread, and [step_thread] executes the next atomic action
    of one thread (one atomic access to the state, one access to the data, or
    one run of the caller's [work]).  Interleaving these actions is the
    semantics of the code for executions without a data race on the cell, and
    race freedom is one of the theorems.

    The ghost fields [calls] and [waits] record the invocations of [work] and
    the waits of the back-off policy, in order.  [Clone] of the data is a copy. *)

From S2P Require Import Prelude.
From stdpp Require Import strings.
#[local] Open Scope Z_scope.

Definition SPIN_LIMIT : Z := 10.
Definition YIELD_LIMIT : Z := 50.

Definition PT_ON_DISK : Z := 0.
Definition PT_LOADING : Z := 1.
Definition PT_IN_MEMORY : Z := 2.
Definition PT_INVALID : Z := 3.

#[export] Hint Unfold SPIN_LIMIT YIELD_LIMIT PT_ON_DISK PT_LOADING PT_IN_MEMORY PT_INVALID : consts.

(** What the caller's closure [FnOnce(T) -> Result<T, String>] does. *)
Inductive work_result (T : Type) :=
| WOk (v : T)
| WErr (msg : string)
| WPanic.
Arguments WOk {T} v.
Arguments WErr {T} msg.
Arguments WPanic {T}.

(** Which wait the back-off policy chooses. *)
Inductive wait := SpinLoop | YieldNow | Sleep.

Module PageTableLatch.
Section Methods.
Context {T : Type}.

Record latch := mk { state_ : Z; data : T }.

Definition new (d : T) : latch := {| state_ := PT_ON_DISK; data := d |}.

Definition state (self : latch) : Z :=
  let state := state_ self in
  if state =? PT_IN_MEMORY then PT_IN_MEMORY
  else if state =? PT_LOADING then PT_LOADING
  else if state =? PT_ON_DISK then PT_ON_DISK
  else PT_INVALID.

Definition current_state (self : latch) : Z := state_ self.
End Methods.
Arguments latch : clear implicits.

Definition backoff (spin_count : Z) : wait :=
  if spin_count <? SPIN_LIMIT then SpinLoop
  else if spin_count <? YIELD_LIMIT then YieldNow
  else Sleep.
End PageTableLatch.

Section Threads.
Context {T : Type}.

(** Program counters: the next action of a thread inside [load] or [peek]. *)
Inductive pc :=
(* load *)
| LoadState (spin_count : Z)   (* top of the loop: read the state *)
| ReadFast                     (* in memory: clone the data and return *)
| Cas (spin_count : Z)         (* on disk: compare_exchange *)
| CloneForWork                 (* won the exchange: clone the data *)
| RunWork (d : T)              (* call work on the clone *)
| WriteData (v : T)            (* store the loaded value *)
| StoreState (v : T)           (* publish PT_IN_MEMORY *)
| Backoff (spin_count : Z)     (* wait, count, try again *)
(* peek *)
| PeekState                    (* read the state *)
| PeekData (st : Z)            (* clone the data *)
(* finished *)
| Loaded (v : T)               (* load returned Ok(v) *)
| LoadFailed (msg : string)    (* load returned Err(msg) *)
| Peeked (st : Z) (v : T)      (* peek returned (st, v) *)
| Panicked.

Record config := Config {
  cell : PageTableLatch.latch T;
  threads : gmap nat pc;
  calls : list (nat * T);
  waits : list (nat * wait) }.

Context (t : target) (work : nat → T → work_result T).

Definition goto (i : nat) (p : pc) (c : config) : config :=
  {| cell := cell c; threads := <[i := p]> (threads c); calls := calls c; waits := waits c |}.
Definition set_state (st : Z) (c : config) : config :=
  {| cell := PageTableLatch.mk st (PageTableLatch.data (cell c));
     threads := threads c; calls := calls c; waits := waits c |}.
Definition set_data (v : T) (c : config) : config :=
  {| cell := PageTableLatch.mk (PageTableLatch.state_ (cell c)) v;
     threads := threads c; calls := calls c; waits := waits c |}.
Definition log_call (i : nat) (d : T) (c : config) : config :=
  {| cell := cell c; threads := threads c; calls := calls c ++ [(i, d)]; waits := waits c |}.
Definition log_wait (i : nat) (w : wait) (c : config) : config :=
  {| cell := cell c; threads := threads c; calls := calls c; waits := waits c ++ [(i, w)] |}.

Definition cstate (c : config) : Z := PageTableLatch.state_ (cell c).
Definition cdata (c : config) : T := PageTableLatch.data (cell c).

(** One action of [load] at program counter [p]. *)
Definition load (i : nat) (p : pc) (c : config) : option config :=
  match p with
  | LoadState spin_count =>
      let state := cstate c in
      if state =? PT_IN_MEMORY then Some (goto i ReadFast c)
      else if state =? PT_ON_DISK then Some (goto i (Cas spin_count) c)
      else if state =? PT_LOADING then Some (goto i (Backoff spin_count) c)
      else Some (goto i (LoadFailed "Invalid state") c)
  | ReadFast => Some (goto i (Loaded (cdata c)) c)
  | Cas spin_count =>
      if cstate c =? PT_ON_DISK
      then Some (goto i CloneForWork (set_state PT_LOADING c))
      else Some (goto i (LoadState spin_count) c)
  | CloneForWork => Some (goto i (RunWork (cdata c)) c)
  | RunWork d =>
      let c := log_call i d c in
      match work i d with
      | WOk v => Some (goto i (WriteData v) c)
      | WErr msg => Some (goto i (LoadFailed msg) c)
      | WPanic => Some (goto i Panicked c)
      end
  | WriteData v => Some (goto i (StoreState v) (set_data v c))
  | StoreState v => Some (goto i (Loaded v) (set_state PT_IN_MEMORY c))
  | Backoff spin_count =>
      let c := log_wait i (PageTableLatch.backoff spin_count) c in
      match add_w (E:=string) t u8_mod spin_count 1 with
      | Ok spin_count' => Some (goto i (LoadState spin_count') c)
      | _ => Some (goto i Panicked c)
      end
  | _ => None
  end.

(** One action of [peek]. *)
Definition peek (i : nat) (p : pc) (c : config) : option config :=
  match p with
  | PeekState => Some (goto i (PeekData (cstate c)) c)
  | PeekData st => Some (goto i (Peeked st (cdata c)) c)
  | _ => None
  end.

Definition step_thread (i : nat) (c : config) : option config :=
  match threads c !! i with
  | None => None
  | Some p => match load i p c with Some c' => Some c' | None => peek i p c end
  end.

Inductive step : config → config → Prop :=
| step_intro i c c' : step_thread i c = Some c' → step c c'.

(** A scheduler: run the threads in the given order, skipping finished ones. *)
Fixpoint run_sched (l : list nat) (c : config) : config :=
  match l with
  | [] => c
  | i :: l => run_sched l (match step_thread i c with Some c' => c' | None => c end)
  end.

(** A fresh latch with one thread per listed program counter. *)
Definition init (d : T) (ps : gmap nat pc) : config :=
  {| cell := PageTableLatch.new d; threads := ps; calls := []; waits := [] |}.

(** All threads at the entry of [load], or of [load] or [peek]. *)
Definition loaders (ps : gmap nat pc) : Prop := ∀ i p, ps !! i = Some p → p = LoadState 0.
Definition entering (ps : gmap nat pc) : Prop :=
  ∀ i p, ps !! i = Some p → p = LoadState 0 ∨ p = PeekState.

(** The action a thread takes next on the data cell, which is not atomic. *)
Definition reads_data (p : pc) : bool :=
  match p with ReadFast | CloneForWork | PeekData _ => true | _ => false end.
Definition writes_data (p : pc) : bool :=
  match p with WriteData _ => true | _ => false end.

(** Two threads about to access the data, one of them writing. *)
Definition race (c : config) : Prop :=
  ∃ i j p q, i ≠ j ∧ threads c !! i = Some p ∧ threads c !! j = Some q ∧
    writes_data p = true ∧ (reads_data q = true ∨ writes_data q = true).

(** The section between winning the exchange and leaving [load]. *)
Definition loading (p : pc) : bool :=
  match p with CloneForWork | RunWork _ | WriteData _ | StoreState _ => true | _ => false end.

Definition finished (p : pc) : bool :=
  match p with Loaded _ | LoadFailed _ | Peeked _ _ | Panicked => true | _ => false end.
End Threads.
Arguments pc : clear implicits.
Arguments config : clear implicits.
