(* ===== verification/LatchFacts.v ===== *)
(** * The invariant of the page-table latch

    [phase] describes every configuration reachable from a fresh latch, by the
    three values the state takes: on disk (nobody has won the exchange),
    loading (one owner between winning the exchange and leaving [load]) and in
    memory (the owner's value is published).  [phase_step] is the rule
    induction all the theorems of LatchProps rest on. *)

From S2P Require Import Prelude Latch.
From stdpp Require Import strings relations.
#[local] Open Scope Z_scope.

(** Splits a step into the program counter of the thread that moved. *)
Ltac step_cases Hi :=
  unfold step_thread; lazymatch goal with |- context [threads ?c !! ?i] =>
    let q := fresh "q" in
    destruct (threads c !! i) as [q|] eqn:Hi; [|done]; destruct q; try done
  end.

(** Evaluates the tests of the state, which is known. *)
Ltac states Hs := cbn [load peek]; rewrite ?Hs; cbn [Z.eqb PT_IN_MEMORY PT_ON_DISK PT_LOADING Pos.eqb].

Section Invariant.
Context {T : Type} (t : target) (work : nat → T → work_result T) (d0 : T).
Notation config := (config T).
Notation pc := (pc T).
Implicit Types (c : config) (p : pc) (i w : nat).

(** Program counters of threads inside [load] that have not got the data. *)
Definition waiting p : Prop :=
  match p with
  | LoadState _ | Cas _ | Backoff _ => True
  | Panicked => prof t = Debug
  | _ => False
  end.

(** A [peek] that has seen a state at most [m]. *)
Definition peeking (m : Z) p : Prop :=
  match p with
  | PeekState => True
  | PeekData st | Peeked st _ => PT_ON_DISK ≤ st ≤ m
  | _ => False
  end.

(** Nobody has won the exchange. *)
Definition idle p : Prop :=
  match p with
  | LoadState _ | Cas _ => True
  | _ => peeking PT_ON_DISK p
  end.

(** The thread that has won the exchange. *)
Definition owning w p (d : T) (log : list (nat * T)) : Prop :=
  match p with
  | CloneForWork => d = d0 ∧ log = []
  | RunWork x => x = d0 ∧ d = d0 ∧ log = []
  | WriteData v => work w d0 = WOk v ∧ d = d0 ∧ log = [(w, d0)]
  | StoreState v => work w d0 = WOk v ∧ d = v ∧ log = [(w, d0)]
  | LoadFailed msg => work w d0 = WErr msg ∧ d = d0 ∧ log = [(w, d0)]
  | Panicked => work w d0 = WPanic ∧ d = d0 ∧ log = [(w, d0)]
  | _ => False
  end.

(** The value [v] is published. *)
Definition settled (v : T) p : Prop :=
  match p with
  | ReadFast => True
  | Loaded v' => v' = v
  | Peeked st v' => PT_ON_DISK ≤ st ≤ PT_IN_MEMORY ∧ (st = PT_IN_MEMORY → v' = v)
  | _ => waiting p ∨ peeking PT_IN_MEMORY p
  end.

Definition everyone (P : nat → pc → Prop) c : Prop := map_Forall P (threads c).

Inductive phase c : Prop :=
| OnDisk :
    cstate c = PT_ON_DISK → cdata c = d0 → calls c = [] →
    everyone (λ _, idle) c → phase c
| Loading w p :
    cstate c = PT_LOADING → threads c !! w = Some p → owning w p (cdata c) (calls c) →
    everyone (λ i q, i ≠ w → waiting q ∨ peeking PT_LOADING q) c → phase c
| InMemory w v :
    cstate c = PT_IN_MEMORY → cdata c = v → work w d0 = WOk v → calls c = [(w, d0)] →
    everyone (λ _, settled v) c → phase c.

Lemma phase_init ps : entering ps → phase (init d0 ps).
Proof.
  intros H. apply OnDisk; try done. intros i p Hi. by destruct (H i p Hi) as [-> | ->].
Qed.

Lemma everyone_insert (P : nat → pc → Prop) c i q :
  everyone P c → P i q → map_Forall P (<[i := q]> (threads c)).
Proof. intros. by apply map_Forall_insert_2. Qed.

Lemma everyone_insert_owner (P : nat → pc → Prop) c i q :
  everyone (λ j p, j ≠ i → P j p) c → P i q → map_Forall P (<[i := q]> (threads c)).
Proof.
  intros HP Hq j p. destruct (decide (j = i)) as [->|]; [rewrite lookup_insert_eq|rewrite lookup_insert_ne];
    try done; [by intros [= <-]|]. intros Hj. by apply (HP j p).
Qed.

Lemma everyone_impl (P Q : nat → pc → Prop) c :
  everyone P c → (∀ i p, threads c !! i = Some p → P i p → Q i p) → everyone Q c.
Proof. intros HP HPQ i p Hi. eauto using HP. Qed.

Lemma idle_waiting p : idle p → waiting p ∨ peeking PT_LOADING p.
Proof. destruct p; cbn; autounfold with consts; intros; auto with lia. Qed.

Lemma waiting_settled v p : waiting p ∨ peeking PT_LOADING p → settled v p.
Proof.
  destruct p; cbn; autounfold with consts; intros [?|?]; try done; auto with lia.
Qed.

(** [spin_count += 1] *)
Lemma spin_count_add s :
  (∃ s', add_w (E:=string) t u8_mod s 1 = Ok s') ∨
  (add_w (E:=string) t u8_mod s 1 = Panic ∧ prof t = Debug).
Proof. unfold add_w, arith_w. repeat case_match; eauto. Qed.

Lemma disk_step i c c' :
  cstate c = PT_ON_DISK → cdata c = d0 → calls c = [] → everyone (λ _, idle) c →
  step_thread t work i c = Some c' → phase c'.
Proof.
  intros Hs Hd Hc Hall. step_cases Hi; pose proof (Hall _ _ Hi) as Hp; try done;
    states Hs; intros [= <-].
  - apply OnDisk; try done. by apply everyone_insert.
  - apply (Loading _ i CloneForWork); cbn; rewrite ?lookup_insert_eq; auto.
    apply everyone_insert; [|done]. eapply everyone_impl; eauto using idle_waiting.
  - apply OnDisk; try done. apply everyone_insert; cbn; [done|]. unfold PT_ON_DISK. lia.
  - apply OnDisk; try done. by apply everyone_insert.
Qed.

Lemma memory_step i c c' w v :
  cstate c = PT_IN_MEMORY → cdata c = v → work w d0 = WOk v → calls c = [(w, d0)] →
  everyone (λ _, settled v) c → step_thread t work i c = Some c' → phase c'.
Proof.
  intros Hs Hd Hw Hc Hall.
  assert (Hgo : ∀ q, settled v q → ∀ l, phase (goto i q
     {| cell := cell c; threads := threads c; calls := calls c; waits := l |})).
  { intros q Hq l. apply (InMemory _ w v); try done. by apply everyone_insert. }
  step_cases Hi; pose proof (Hall _ _ Hi) as Hp;
    try (by cbn in Hp; intuition); states Hs;
    try (intros [= <-]; apply (Hgo _) with (l := waits c)).
  all: try by (cbn; auto).
  - destruct (spin_count_add spin_count) as [[s' ->]|[-> ?]]; intros [= <-]; apply Hgo; cbn; auto.
  - cbn. right. cbn. unfold PT_ON_DISK, PT_IN_MEMORY. lia.
  - cbn in *. destruct Hp as [[]|Hp]. split; [done|]. intros. congruence.
Qed.

Lemma loading_step i c c' w p :
  cstate c = PT_LOADING → threads c !! w = Some p → owning w p (cdata c) (calls c) →
  everyone (λ i q, i ≠ w → waiting q ∨ peeking PT_LOADING q) c →
  step_thread t work i c = Some c' → phase c'.
Proof.
  intros Hs Hw Ho Hall. destruct (decide (i = w)) as [->|Hne].
  - unfold step_thread. rewrite Hw.
    assert (Hgo : ∀ q d l, owning w q d l → phase (goto w q
       {| cell := PageTableLatch.mk PT_LOADING d; threads := threads c; calls := l; waits := waits c |})).
    { intros q d l Hq. apply (Loading _ w q); cbn; rewrite ?lookup_insert_eq; auto.
      by apply everyone_insert. }
    destruct c as [[st d] ths log wts]; unfold cstate, cdata in *; cbn in Hs, Hw, Ho, Hall, Hgo; subst st.
    destruct p; try done; cbn [load]; cbn in Ho; destruct_and?; subst.
    + intros [= <-]. by apply Hgo.
    + cbn. destruct (work w d0) eqn:E; intros [= <-]; apply Hgo; cbn; auto.
    + intros [= <-]. by apply Hgo.
    + intros [= <-]. apply (InMemory _ w v); try done. apply everyone_insert_owner; [|done].
      eapply everyone_impl; eauto using waiting_settled.
  - assert (Hgo : ∀ q l, waiting q ∨ peeking PT_LOADING q → phase (goto i q
       {| cell := cell c; threads := threads c; calls := calls c; waits := l |})).
    { intros q l Hq. apply (Loading _ w p); cbn; rewrite ?lookup_insert_ne; auto.
      by apply everyone_insert. }
    step_cases Hi; pose proof (Hall _ _ Hi Hne) as Hp; try (by destruct Hp);
      states Hs; try (intros [= <-]; apply (Hgo _ (waits c)); cbn; auto).
    + destruct (spin_count_add spin_count) as [[s' ->]|[-> ?]]; intros [= <-]; apply Hgo; cbn; auto.
    + right. unfold PT_ON_DISK, PT_LOADING. lia.
Qed.

Lemma phase_step c c' : phase c → step t work c c' → phase c'.
Proof.
  intros Hp Hs. inversion Hs; subst. destruct Hp.
  - eapply disk_step; eassumption.
  - eapply loading_step; eassumption.
  - eapply memory_step; eassumption.
Qed.

Lemma phase_reachable ps c : entering ps → rtc (step t work) (init d0 ps) c → phase c.
Proof.
  intros Hps Hr. pose proof (phase_init ps Hps) as H. induction Hr; eauto using phase_step.
Qed.

(** ** Who may do what *)

(** In the loading state a thread inside the loading section is the owner. *)
Lemma loading_owner c w p :
  phase c → threads c !! w = Some p → loading p = true →
  cstate c = PT_LOADING ∧ owning w p (cdata c) (calls c) ∧
  everyone (λ i q, i ≠ w → waiting q ∨ peeking PT_LOADING q) c.
Proof.
  intros [Hs _ _ Hall|w' p' Hs Hw Ho Hall|w' v Hs _ _ _ Hall] Hi Hl.
  - pose proof (Hall _ _ Hi). by destruct p.
  - destruct (decide (w = w')) as [->|Hne]; [by simplify_eq|].
    pose proof (Hall _ _ Hi Hne). destruct p; cbn in *; intuition congruence.
  - pose proof (Hall _ _ Hi). destruct p; cbn in *; intuition congruence.
Qed.

Lemma step_other i j c c' :
  step_thread t work i c = Some c' → j ≠ i → threads c' !! j = threads c !! j.
Proof.
  unfold step_thread. intros Hst Hne. repeat case_match; simplify_eq/=; try done;
  match goal with p : pc |- _ => destruct p end;
    cbn in *; repeat case_match; simplify_eq/=; by rewrite lookup_insert_ne.
Qed.

(** The state only moves forwards. *)
Lemma step_state_mono c c' : phase c → step t work c c' → cstate c ≤ cstate c'.
Proof.
  intros Hp Hst. inversion Hst as [i c1 c2 Hs]; subst. clear Hst.
  unfold step_thread in Hs. destruct (threads c !! i) as [p|] eqn:Hi; [|done].
  destruct p; cbn in Hs; try (simplify_eq/=; reflexivity).
  - repeat case_match; simplify_eq/=; reflexivity.
  - destruct (Z.eqb_spec (cstate c) PT_ON_DISK) as [E|]; simplify_eq/=; [|reflexivity].
    by rewrite E.
  - repeat case_match; simplify_eq/=; reflexivity.
  - destruct (loading_owner c i _ Hp Hi eq_refl) as [E _]. simplify_eq. by rewrite E.
  - repeat case_match; simplify_eq/=; reflexivity.
Qed.

(** Outside the loading state the data does not change. *)
Lemma step_data c c' :
  phase c → step t work c c' → cstate c ≠ PT_LOADING → cdata c' = cdata c.
Proof.
  intros Hp Hst Hne. inversion Hst as [i c1 c2 Hs]; subst. clear Hst.
  unfold step_thread in Hs. destruct (threads c !! i) as [p|] eqn:Hi; [|done].
  destruct p; cbn in Hs; try (by simplify_eq); try by (repeat case_match; simplify_eq).
  destruct (loading_owner c i _ Hp Hi eq_refl) as [E _]. done.
Qed.

Lemma steps_monotone c c' :
  phase c → rtc (step t work) c c' →
  phase c' ∧ cstate c ≤ cstate c' ∧ (cstate c = PT_IN_MEMORY → cdata c' = cdata c).
Proof.
  intros Hp Hr. induction Hr as [|c1 c2 c3 Hs _ IH]; [auto with lia|].
  pose proof (phase_step _ _ Hp Hs) as Hp2. pose proof (step_state_mono _ _ Hp Hs) as Hm.
  destruct (IH Hp2) as (Hp3 & Hm3 & Hd3). split_and!; [done|lia|]. intros E.
  rewrite Hd3; [|].
  - apply step_data; try done. by rewrite E.
  - destruct Hp2 as [E2|? ? E2|? ? E2]; rewrite ?E, ?E2 in *; done.
Qed.

(** A thread may enter [load] at any time. *)
Lemma phase_join i c :
  phase c → i ∉ dom (threads c) → phase (goto i (LoadState 0) c).
Proof.
  intros Hp Hi. apply not_elem_of_dom in Hi.
  destruct Hp as [Hs Hd Hc Hall|w p Hs Hw Ho Hall|w v Hs Hd Hwk Hc Hall].
  - apply OnDisk; try done. by apply everyone_insert.
  - apply (Loading _ w p); try done.
    + cbn. rewrite lookup_insert_ne; [done|congruence].
    + apply everyone_insert; [done|]. by left.
  - apply (InMemory _ w v); try done. apply everyone_insert; [done|]. cbn. by left.
Qed.

(** All results of [load] on one latch agree. *)
Lemma phase_calls c w d : phase c → (w, d) ∈ calls c → d = d0.
Proof.
  intros [_ _ -> _|w' p _ _ Ho _|w' v _ _ _ -> _] Hin; [set_solver| |set_solver].
  destruct p; cbn in Ho; destruct_and?; try done;
    match goal with H : calls c = _ |- _ => rewrite H in Hin end; set_solver.
Qed.

Lemma phase_agreement c i v :
  phase c → threads c !! i = Some (Loaded v) →
  (∃ w, work w d0 = WOk v ∧ calls c = [(w, d0)]) ∧
  cell c = PageTableLatch.mk PT_IN_MEMORY v ∧
  (∀ j v', threads c !! j = Some (Loaded v') → v' = v).
Proof.
  intros [Hs _ _ Hall|w p Hs Hw Ho Hall|w v0 Hs Hd Hwk Hc Hall] Hi.
  - by pose proof (Hall _ _ Hi).
  - destruct (decide (i = w)) as [->|Hne]; [by simplify_eq|].
    pose proof (Hall _ _ Hi Hne) as [H|H]; done.
  - pose proof (Hall _ _ Hi) as Hv. cbn in Hv. subst v0. split_and!.
    + exists w. by subst v.
    + destruct c as [[st d] ? ? ?]; unfold cstate, cdata in *; cbn in *. by subst.
    + intros j v' Hj. pose proof (Hall _ _ Hj) as Hv'. cbn in Hv'. congruence.
Qed.
End Invariant.
