(* ===== verification/LatchProgress.v ===== *)
(** * Progress of the page-table latch

    A round is any list of thread numbers in which every thread occurs.  In
    the release profile, when no [work] fails, every thread inside [load] gets
    closer to its return in every round: two rounds until somebody wins the
    exchange, four until the owner publishes, three until the others read. *)

From S2P Require Import Prelude Latch LatchFacts.
From stdpp Require Import strings relations.
#[local] Open Scope Z_scope.

Section Progress.
Context {T : Type} (t : target) (work : nat → T → work_result T) (d0 : T).
Notation config := (config T).
Notation pc := (pc T).
Notation phase := (phase t work d0).
Implicit Types (c : config) (p : pc) (i j w : nat).

(** What the scheduler does with one entry of the schedule. *)
Definition act i c : config :=
  match step_thread t work i c with Some c' => c' | None => c end.

Lemma act_phase i c : phase c → phase (act i c).
Proof.
  unfold act. destruct (step_thread t work i c) eqn:E; eauto using phase_step, step_intro.
Qed.

Lemma run_phase l c : phase c → phase (run_sched t work l c).
Proof. revert c. induction l; cbn; eauto using act_phase. Qed.

Lemma act_other i j c : i ≠ j → threads (act j c) !! i = threads c !! i.
Proof. unfold act. intros. case_match; eauto using step_other. Qed.

Lemma run_sched_rtc l c : rtc (step t work) c (run_sched t work l c).
Proof.
  revert c. induction l as [|i l IH]; intros c; cbn; [done|].
  destruct (step_thread t work i c) eqn:E; [|done].
  eapply rtc_l; [by eapply step_intro|done].
Qed.

Lemma run_sched_app l1 l2 c :
  run_sched t work (l1 ++ l2) c = run_sched t work l2 (run_sched t work l1 c).
Proof. revert c. induction l1; cbn; auto. Qed.

(** If thread [i] turns [P] into [Q] and nobody else destroys either, a round
    with [i] in it leads from [P] to [Q]. *)
Lemma leads_to (P Q : config → Prop) i :
  (∀ c, phase c → P c → Q (act i c)) →
  (∀ j c, j ≠ i → phase c → P c → P (act j c) ∨ Q (act j c)) →
  (∀ j c, phase c → Q c → Q (act j c)) →
  ∀ l c, i ∈ l → phase c → P c → Q (run_sched t work l c).
Proof.
  intros Hi HP HQ.
  assert (Hrun : ∀ l c, phase c → Q c → Q (run_sched t work l c)).
  { intros l. induction l; cbn; eauto using act_phase. }
  induction l as [|j l IH]; intros c Hin Hp HPc; [by apply elem_of_nil in Hin|]. cbn.
  fold (act j c). destruct (decide (j = i)) as [->|Hne]; [eauto using act_phase|].
  apply elem_of_cons in Hin as [->|Hin]; [done|].
  destruct (HP j c Hne Hp HPc); eauto using act_phase.
Qed.

Lemma act_keeps_state i c : phase c → cstate c ≠ PT_ON_DISK → cstate (act i c) ≠ PT_ON_DISK.
Proof.
  intros Hp Hne. unfold act. destruct (step_thread t work i c) as [c'|] eqn:E; [|done].
  pose proof (step_state_mono t work d0 c c' Hp (step_intro _ _ _ _ _ E)).
  destruct Hp as [E'|? ? E'|? ? E']; rewrite E' in *; [done| |];
    unfold PT_ON_DISK, PT_LOADING, PT_IN_MEMORY in *; lia.
Qed.

(** *** Until somebody wins *)

Definition at_top i c : Prop :=
  cstate c ≠ PT_ON_DISK ∨ ∃ s, threads c !! i = Some (LoadState s) ∨ threads c !! i = Some (Cas s).
Definition at_cas i c : Prop :=
  cstate c ≠ PT_ON_DISK ∨ ∃ s, threads c !! i = Some (Cas s).

Lemma act_top i c s :
  cstate c = PT_ON_DISK → threads c !! i = Some (LoadState s) →
  threads (act i c) !! i = Some (Cas s).
Proof.
  intros Hs Hi. unfold act, step_thread. rewrite Hi. cbn [load]. rewrite Hs. cbn.
  by rewrite lookup_insert_eq.
Qed.

Lemma act_cas i c s : threads c !! i = Some (Cas s) → cstate (act i c) ≠ PT_ON_DISK.
Proof.
  intros Hi. unfold act, step_thread. rewrite Hi. cbn [load].
  destruct (Z.eqb_spec (cstate c) PT_ON_DISK); [done|]. done.
Qed.

Lemma round_top i l c : i ∈ l → phase c → at_top i c → at_cas i (run_sched t work l c).
Proof.
  apply leads_to.
  - intros c1 Hp [Hs|[s [Hi|Hi]]]; [left; by apply act_keeps_state| |left; by eapply act_cas].
    destruct (decide (cstate c1 = PT_ON_DISK)); [right; eauto using act_top|].
    left. by apply act_keeps_state.
  - intros j c1 Hne Hp [Hs|[s Hi]]; left; [left; by apply act_keeps_state|].
    right. exists s. by rewrite !act_other.
  - intros j c1 Hp [Hs|[s Hi]]; [left; by apply act_keeps_state|].
    destruct (decide (j = i)) as [->|]; [left; by eapply act_cas|].
    right. exists s. by rewrite act_other.
Qed.

Lemma round_cas i l c :
  i ∈ l → phase c → at_cas i c → cstate (run_sched t work l c) ≠ PT_ON_DISK.
Proof.
  apply (leads_to (at_cas i) (λ c, cstate c ≠ PT_ON_DISK)).
  - intros c1 Hp [Hs|[s Hi]]; [by apply act_keeps_state|by eapply act_cas].
  - intros j c1 Hne Hp [Hs|[s Hi]]; [left; left; by apply act_keeps_state|].
    left. right. exists s. by rewrite act_other.
  - intros j c1 Hp. by apply act_keeps_state.
Qed.

(** *** Until the owner publishes *)

Definition stage p : nat :=
  match p with
  | CloneForWork => 1 | RunWork _ => 2 | WriteData _ => 3 | StoreState _ => 4 | _ => 0
  end.

Definition published c : Prop := cstate c = PT_IN_MEMORY.

Definition owner_at (k : nat) w c : Prop :=
  published c ∨ ∃ p, threads c !! w = Some p ∧ loading p = true ∧ (k ≤ stage p)%nat.

Context (Hwork : ∀ i, ∃ v, work i d0 = WOk v).

Lemma act_published i c : phase c → published c → published (act i c).
Proof.
  unfold published. intros Hp Hs. unfold act.
  destruct (step_thread t work i c) as [c'|] eqn:E; [|done].
  pose proof (phase_step t work d0 c c' Hp (step_intro _ _ _ _ _ E)) as Hp'.
  pose proof (step_state_mono t work d0 c c' Hp (step_intro _ _ _ _ _ E)) as Hm.
  destruct Hp' as [E'|? ? E'|? ? E']; rewrite E' in *; rewrite Hs in Hm; done.
Qed.

Lemma owner_moves w c p :
  phase c → threads c !! w = Some p → loading p = true →
  published (act w c) ∨
  ∃ q, threads (act w c) !! w = Some q ∧ loading q = true ∧ stage q = S (stage p).
Proof.
  intros Hp Hw Hl. destruct (loading_owner _ _ _ _ _ _ Hp Hw Hl) as (Hs & Ho & _).
  unfold act, step_thread. rewrite Hw.
  destruct p; try done; cbn [load]; cbn in Ho; destruct_and?; subst.
  - right. eexists. cbn. by rewrite lookup_insert_eq.
  - destruct (Hwork w) as [v ->]. right. eexists. cbn. by rewrite lookup_insert_eq.
  - right. eexists. cbn. by rewrite lookup_insert_eq.
  - by left.
Qed.

Lemma round_owner k w l c :
  w ∈ l → phase c → owner_at k w c → owner_at (S k) w (run_sched t work l c).
Proof.
  assert (Hmine : ∀ m m' c, phase c → (m' ≤ S m)%nat → owner_at m w c → owner_at m' w (act w c)).
  { intros m m' c1 Hp Hm [H|(p & Hw & Hl & Hk)]; [left; by apply act_published|].
    destruct (owner_moves w c1 p Hp Hw Hl) as [?|(q & ? & ? & ?)]; [by left|].
    right. exists q. split_and!; [done..|lia]. }
  assert (Hothers : ∀ m j c, j ≠ w → phase c → owner_at m w c → owner_at m w (act j c)).
  { intros m j c1 Hne Hp [H|(p & Hw & Hl & Hk)]; [left; by apply act_published|].
    right. exists p. by rewrite act_other. }
  apply leads_to.
  - intros. by apply (Hmine k).
  - intros j c1 Hne Hp H. left. by apply Hothers.
  - intros j c1 Hp H. destruct (decide (j = w)) as [->|]; [apply (Hmine (S k)); auto|by apply Hothers].
Qed.

Lemma owner_at_5 w c : owner_at 5 w c → published c.
Proof. intros [?|(p & _ & _ & Hk)]; [done|]. destruct p; cbn in Hk; lia. Qed.

Lemma off_disk_owner c :
  phase c → cstate c ≠ PT_ON_DISK → ∃ w, w ∈ dom (threads c) ∧ owner_at 1 w c ∨ published c.
Proof.
  intros [?|w p Hs Hw Ho _|w v Hs _ _ _ _] Hne; [done| |exists w; by right].
  exists w. left. split; [by apply elem_of_dom_2 in Hw|]. right. exists p.
  destruct (Hwork w) as [v Hv].
  destruct p; cbn in Ho; rewrite ?Hv in Ho; destruct_and?; simplify_eq; (split_and!; [done..|cbn; lia]).
Qed.

(** *** Until the others have read *)

Definition rank p : nat :=
  match p with
  | Loaded _ => 0 | ReadFast => 1 | LoadState _ => 2 | Cas _ | Backoff _ => 3 | _ => 4
  end.

Definition reader_at (k : nat) i c : Prop :=
  published c ∧ ∃ p, threads c !! i = Some p ∧ (rank p ≤ k)%nat.

Context (Hprof : prof t = Release).

Lemma reader_moves i c p :
  phase c → published c → threads c !! i = Some p → (rank p ≤ 3)%nat →
  ∃ q, threads (act i c) !! i = Some q ∧ (rank q ≤ pred (rank p))%nat.
Proof.
  intros Hp Hs Hi Hr. unfold act, step_thread. rewrite Hi.
  destruct p; cbn [load]; try (cbn in Hr; lia).
  - unfold published in Hs. rewrite Hs. cbn. rewrite lookup_insert_eq. eauto.
  - cbn. rewrite lookup_insert_eq. eauto.
  - unfold published in Hs. rewrite Hs. cbn. rewrite lookup_insert_eq. eauto.
  - destruct (spin_count_add t spin_count) as [[s ->]|[_ ?]]; [|congruence].
    cbn. rewrite lookup_insert_eq. eauto.
  - cbn. eauto.
Qed.

Lemma round_reader k i l c :
  (k < 3)%nat → i ∈ l → phase c → reader_at (S k) i c → reader_at k i (run_sched t work l c).
Proof.
  intros Hk.
  assert (Hmine : ∀ m m' c, (m ≤ 3)%nat → (pred m ≤ m')%nat → phase c →
    reader_at m i c → reader_at m' i (act i c)).
  { intros m m' c1 ?? Hp (Hs & p & Hi & Hr). split; [by apply act_published|].
    destruct (reader_moves i c1 p Hp Hs Hi ltac:(lia)) as (q & ? & ?). exists q. split; [done|lia]. }
  assert (Hothers : ∀ m j c, j ≠ i → phase c → reader_at m i c → reader_at m i (act j c)).
  { intros m j c1 Hne Hp (Hs & p & Hi & Hr). split; [by apply act_published|].
    exists p. by rewrite act_other. }
  apply leads_to.
  - intros. apply (Hmine (S k)); auto with lia.
  - intros j c1 Hne Hp H. left. by apply Hothers.
  - intros j c1 Hp H. destruct (decide (j = i)) as [->|]; [apply (Hmine k); auto with lia|by apply Hothers].
Qed.

(** *** Threads inside [load] *)

Definition in_load p : bool :=
  match p with PeekState | PeekData _ | Peeked _ _ => false | _ => true end.

Lemma published_rank i c p :
  phase c → published c → threads c !! i = Some p → in_load p = true → (rank p ≤ 3)%nat.
Proof.
  unfold published. intros [Hs|? ? Hs|w v _ _ _ _ Hall] Hpub Hi Hin; try by rewrite Hs in Hpub.
  pose proof (Hall _ _ Hi) as Hset. destruct p; cbn in *; try lia; intuition congruence.
Qed.
End Progress.

(** Facts that need neither success of [work] nor the release profile. *)
Section Threads.
Context {T : Type} (t : target) (work : nat → T → work_result T).
Implicit Types (c : config T) (p q : pc T).

Lemma act_threads i c :
  act t work i c = c ∨
  ∃ p q, threads c !! i = Some p ∧ threads (act t work i c) = <[i := q]> (threads c) ∧
    in_load p = in_load q.
Proof.
  unfold act, step_thread. destruct (threads c !! i) as [p|]; [|by left].
  destruct p; cbn; try (by left); right;
    repeat case_match; simplify_eq; do 2 eexists; (split; [done|]; split; reflexivity).
Qed.

Lemma run_in_load l c i p :
  threads c !! i = Some p →
  ∃ q, threads (run_sched t work l c) !! i = Some q ∧ in_load q = in_load p.
Proof.
  revert c p. induction l as [|j l IH]; intros c p Hi; cbn; [eauto|].
  fold (act t work j c).
  destruct (act_threads j c) as [->|(p' & q & Hj & Heq & Hin)]; [eauto|].
  destruct (decide (i = j)) as [->|].
  - destruct (IH (act t work j c) q) as (q' & ? & ?); [rewrite Heq; by rewrite lookup_insert_eq|].
    exists q'. split; [done|]. congruence.
  - apply IH. rewrite Heq. by rewrite lookup_insert_ne.
Qed.

Lemma run_dom l c : dom (threads (run_sched t work l c)) = dom (threads c).
Proof.
  revert c. induction l as [|j l IH]; intros c; cbn; [done|]. rewrite IH.
  fold (act t work j c).
  destruct (act_threads j c) as [->|(p' & q & Hj & -> & _)]; [done|].
  rewrite dom_insert_L. apply elem_of_dom_2 in Hj. set_solver.
Qed.

Lemma run_loaded l c i v :
  threads c !! i = Some (Loaded v) → threads (run_sched t work l c) !! i = Some (Loaded v).
Proof.
  revert c. induction l as [|j l IH]; intros c Hi; cbn; [done|]. apply IH.
  fold (act t work j c). destruct (decide (i = j)) as [<-|]; [|by rewrite act_other].
  unfold act, step_thread. by rewrite Hi.
Qed.

Lemma reachable_sched c c' : rtc (step t work) c c' → ∃ l, c' = run_sched t work l c.
Proof.
  induction 1 as [|c1 c2 c3 Hs _ [l ->]]; [by exists []|].
  inversion Hs as [i ? ? E]; subst. exists (i :: l). cbn. by rewrite E.
Qed.
End Threads.

(** *** Nine rounds *)

Section Rounds.
Context {T : Type} (t : target) (work : nat → T → work_result T) (d0 : T).
Context (Hprof : prof t = Release) (Hwork : ∀ i, ∃ v, work i d0 = WOk v).
Context (D : gset nat).
Notation run := (run_sched t work).
Notation phase := (phase t work d0).
Implicit Types (c : config T).

Definition round (l : list nat) : Prop := ∀ j, j ∈ D → j ∈ l.

Lemma rounds_win i l1 l2 c :
  round l1 → round l2 → i ∈ D → phase c → at_top i c → cstate (run (l1 ++ l2) c) ≠ PT_ON_DISK.
Proof.
  intros H1 H2 Hi Hp Ht. rewrite run_sched_app.
  eapply round_cas; eauto using run_phase, round_top.
Qed.

Lemma rounds_publish l1 l2 l3 l4 c :
  round l1 → round l2 → round l3 → round l4 → phase c → dom (threads c) = D →
  cstate c ≠ PT_ON_DISK → published (run (l1 ++ l2 ++ l3 ++ l4) c).
Proof.
  intros H1 H2 H3 H4 Hp HD Hs.
  destruct (off_disk_owner t work d0 Hwork c Hp Hs) as [w [[Hw Ho]|Hpub]].
  - rewrite HD in Hw. rewrite !run_sched_app. apply (owner_at_5 w).
    do 4 (eapply round_owner; eauto using run_phase).
  - generalize (l1 ++ l2 ++ l3 ++ l4). intros l. revert c Hp Hpub HD Hs.
    induction l as [|j l IH]; intros c Hp Hpub HD Hs; cbn; [done|]. fold (act t work j c).
    apply IH; eauto using act_phase, act_published, act_keeps_state.
    pose proof (run_dom t work [j] c) as E. cbn in E. by rewrite <- HD.
Qed.

Lemma rounds_read i p l1 l2 l3 c :
  round l1 → round l2 → round l3 → i ∈ D → phase c → published c →
  threads c !! i = Some p → in_load p = true →
  ∃ v, threads (run (l1 ++ l2 ++ l3) c) !! i = Some (Loaded v).
Proof.
  intros H1 H2 H3 Hi Hp Hpub Hip Hin.
  assert (Hr : reader_at 3 i c).
  { split; [done|]. exists p. eauto using published_rank. }
  assert (reader_at 0 i (run (l1 ++ l2 ++ l3) c)) as (_ & q & Hq & Hrank).
  { rewrite !run_sched_app. do 3 (eapply round_reader; eauto using run_phase with lia). }
  destruct q; cbn in Hrank; try lia. eauto.
Qed.
End Rounds.

Section NineRounds.
Context {T : Type} (t : target) (work : nat → T → work_result T) (d0 : T).

Lemma nine_rounds ps rounds i :
  prof t = Release → (∀ j, ∃ v, work j d0 = WOk v) →
  entering ps → ps !! i = Some (LoadState 0) →
  (9 ≤ length rounds)%nat → (∀ l, l ∈ rounds → ∀ j, j ∈ dom ps → j ∈ l) →
  ∃ v, threads (run_sched t work (concat rounds) (init d0 ps)) !! i = Some (Loaded v).
Proof.
  intros Hprof Hwork Hps Hi Hlen Hrounds.
  destruct rounds as [|r1 [|r2 [|r3 [|r4 [|r5 [|r6 [|r7 [|r8 [|r9 rest]]]]]]]]];
    cbn [length] in Hlen; try lia.
  assert (Hround : ∀ l, l ∈ [r1; r2; r3; r4; r5; r6; r7; r8; r9] → round (dom ps) l).
  { intros l Hl j. apply Hrounds. set_solver. }
  replace (concat _) with ((r1 ++ r2) ++ (r3 ++ r4 ++ r5 ++ r6) ++ (r7 ++ r8 ++ r9) ++ concat rest)
    by (cbn; by rewrite <- ?app_assoc).
  rewrite 3!run_sched_app.
  set (c1 := run_sched t work (r1 ++ r2) _). set (c2 := run_sched t work (_ ++ _) c1).
  set (c3 := run_sched t work (_ ++ _) c2).
  pose proof (phase_init t work d0 ps Hps) as Hp0. pose proof (elem_of_dom_2 _ _ _ Hi) as HiD.
  assert (Hp1 : phase t work d0 c1) by by apply run_phase.
  assert (Hp2 : phase t work d0 c2) by by apply run_phase.
  assert (Hs1 : cstate c1 ≠ PT_ON_DISK).
  { eapply (rounds_win t work d0 (dom ps) i); try (apply Hround; set_solver); try done.
    right. exists 0. by left. }
  assert (Hpub : published c2).
  { eapply (rounds_publish t work d0 Hwork (dom ps)); try (apply Hround; set_solver); try done.
    unfold c1. by rewrite run_dom. }
  destruct (run_in_load t work ((r1 ++ r2) ++ (r3 ++ r4 ++ r5 ++ r6)) (init d0 ps) i _ Hi)
    as (p & Hip & Hin). rewrite run_sched_app in Hip.
  destruct (rounds_read t work d0 Hprof (dom ps) i p r7 r8 r9 c2) as [v Hv];
    try (apply Hround; set_solver); try done.
  exists v. by apply run_loaded.
Qed.
End NineRounds.
