(* ===== verification/LatchSpec.v ===== *)
(** * The latch as a write-once cell

    An abstract specification of what [load] promises: a cell that is empty,
    being filled by one thread, full, or dead after a failed fill, and callers
    that have returned or not.  Spinning, exchanges, the order of the two
    writes of the owner and the back-off are all invisible.  The concrete
    latch of Latch.v is related to it by a forward simulation. *)

From S2P Require Import Prelude Latch LatchFacts.
From stdpp Require Import strings relations.
#[local] Open Scope Z_scope.

Section Spec.
Context {T : Type} (t : target) (work : nat → T → work_result T) (d0 : T).
Notation config := (config T).
Notation pc := (pc T).
Implicit Types (c : config) (p q : pc) (i w : nat).

Inductive once := Empty | Filling (w : nat) | Full (v : T) | Dead.

(** A caller of [load]: still inside, or returned. *)
Inductive status := Calling | ReturnedOk (v : T) | ReturnedErr (msg : string) | Unwound.

Record spec := Spec { once_cell : once; callers : gmap nat status }.

Inductive spec_step : spec → spec → Prop :=
| spec_claim w st : st !! w = Some Calling → spec_step (Spec Empty st) (Spec (Filling w) st)
| spec_fill w v st :
    work w d0 = WOk v → spec_step (Spec (Filling w) st) (Spec (Full v) (<[w := ReturnedOk v]> st))
| spec_fail w msg st :
    work w d0 = WErr msg → spec_step (Spec (Filling w) st) (Spec Dead (<[w := ReturnedErr msg]> st))
| spec_unwind w st :
    work w d0 = WPanic → spec_step (Spec (Filling w) st) (Spec Dead (<[w := Unwound]> st))
| spec_get i v st :
    st !! i = Some Calling → spec_step (Spec (Full v) st) (Spec (Full v) (<[i := ReturnedOk v]> st))
| spec_overflow i o st :   (* the back-off counter, debug profile only *)
    prof t = Debug → st !! i = Some Calling → o ≠ Empty → o ≠ Filling i →
    spec_step (Spec o st) (Spec o (<[i := Unwound]> st)).

Definition status_of p : status :=
  match p with
  | Loaded v => ReturnedOk v
  | LoadFailed msg => ReturnedErr msg
  | Panicked => Unwound
  | _ => Calling
  end.

Definition statuses c : gmap nat status := status_of <$> threads c.

(** How the state, the data and the owner represent the cell. *)
Inductive represents c : once → Prop :=
| rep_empty : cstate c = PT_ON_DISK → represents c Empty
| rep_filling w p :
    cstate c = PT_LOADING → threads c !! w = Some p → loading p = true → represents c (Filling w)
| rep_dead w p :
    cstate c = PT_LOADING → threads c !! w = Some p → owning work d0 w p (cdata c) (calls c) →
    loading p = false → represents c Dead
| rep_full : cstate c = PT_IN_MEMORY → represents c (Full (cdata c)).

Definition simulates c (a : spec) : Prop :=
  phase t work d0 c ∧ represents c (once_cell a) ∧ callers a = statuses c.

Lemma statuses_goto i q l c :
  statuses (goto i q {| cell := cell c; threads := threads c; calls := calls c; waits := l |})
  = <[i := status_of q]> (statuses c).
Proof. unfold statuses. cbn. by rewrite fmap_insert. Qed.

Lemma statuses_lookup i p c : threads c !! i = Some p → statuses c !! i = Some (status_of p).
Proof. intros Hi. unfold statuses. by rewrite lookup_fmap, Hi. Qed.

(** A step between program counters of the same status is invisible. *)
Lemma statuses_stutter i p q c c' :
  threads c !! i = Some p → threads c' = <[i := q]> (threads c) → status_of p = status_of q →
  statuses c' = statuses c.
Proof.
  intros Hi Ht Heq. unfold statuses. rewrite Ht, fmap_insert.
  apply insert_id. by rewrite lookup_fmap, Hi, <- Heq.
Qed.

(** The abstract counterpart of a concrete step: none or one. *)
Definition matched c' (a : spec) : Prop :=
  ∃ a', (a' = a ∨ spec_step a a') ∧ represents c' (once_cell a') ∧ callers a' = statuses c'.

Lemma matched_stutter c' a : represents c' (once_cell a) → callers a = statuses c' → matched c' a.
Proof. intros. exists a. auto. Qed.

Lemma matched_step c' a a' :
  spec_step a a' → represents c' (once_cell a') → callers a' = statuses c' → matched c' a.
Proof. intros. exists a'. auto. Qed.

Lemma disk_matched i c c' st :
  cstate c = PT_ON_DISK → everyone (λ _, idle) c → st = statuses c →
  step_thread t work i c = Some c' → matched c' (Spec Empty st).
Proof.
  intros Hs Hall ->. step_cases Hi; pose proof (Hall _ _ Hi) as Hp; try done; states Hs; intros [= <-].
  - apply matched_stutter; [by apply rep_empty|]. symmetry. by eapply statuses_stutter.
  - eapply matched_step; [eapply (spec_claim i); by rewrite (statuses_lookup _ _ _ Hi)| |].
    + eapply rep_filling; [done| |]; cbn; [by rewrite lookup_insert_eq|done].
    + symmetry. by eapply statuses_stutter.
  - apply matched_stutter; [by apply rep_empty|]. symmetry. by eapply statuses_stutter.
  - apply matched_stutter; [by apply rep_empty|]. symmetry. by eapply statuses_stutter.
Qed.

Lemma memory_matched i c c' st v :
  cstate c = PT_IN_MEMORY → cdata c = v → everyone (λ _, settled t v) c → st = statuses c →
  step_thread t work i c = Some c' → matched c' (Spec (Full v) st).
Proof.
  intros Hs <- Hall ->. step_cases Hi; pose proof (Hall _ _ Hi) as Hp; try (by cbn in Hp; intuition); states Hs.
  - intros [= <-]. apply matched_stutter; [by apply rep_full|]. symmetry. by eapply statuses_stutter.
  - intros [= <-]. eapply matched_step; [eapply (spec_get i); by rewrite (statuses_lookup _ _ _ Hi)| |].
    + by apply rep_full.
    + unfold statuses. cbn. by rewrite fmap_insert.
  - intros [= <-]. apply matched_stutter; [by apply rep_full|]. symmetry. by eapply statuses_stutter.
  - destruct (spin_count_add t spin_count) as [[s' ->]|[-> Hd]]; intros [= <-].
    + apply matched_stutter; [by apply rep_full|]. symmetry. by eapply statuses_stutter.
    + eapply matched_step; [eapply (spec_overflow i); [done|by rewrite (statuses_lookup _ _ _ Hi)|done..]| |].
      * by apply rep_full.
      * unfold statuses. cbn. by rewrite fmap_insert.
  - intros [= <-]. apply matched_stutter; [by apply rep_full|]. symmetry. by eapply statuses_stutter.
  - intros [= <-]. apply matched_stutter; [by apply rep_full|]. symmetry. by eapply statuses_stutter.
Qed.

(** The owner's actions: only the last one is visible. *)
Lemma owner_matched w p c c' st :
  cstate c = PT_LOADING → threads c !! w = Some p → owning work d0 w p (cdata c) (calls c) →
  loading p = true → st = statuses c → step_thread t work w c = Some c' →
  matched c' (Spec (Filling w) st).
Proof.
  intros Hs Hw Ho Hl ->. unfold step_thread. rewrite Hw.
  assert (Hstay : ∀ q c1, threads c1 = <[w := q]> (threads c) → cstate c1 = PT_LOADING →
    loading q = true → matched c1 (Spec (Filling w) (statuses c))).
  { intros q c1 Ht Hs1 Hq. apply matched_stutter.
    - eapply rep_filling; [done|rewrite Ht; by rewrite lookup_insert_eq|done].
    - symmetry. eapply statuses_stutter; eauto. destruct p; try done; by destruct q. }
  assert (Hcall : ∀ q, statuses (goto w q c) = <[w := status_of q]> (statuses c)).
  { intros q. unfold statuses. cbn. by rewrite fmap_insert. }
  destruct p; try done; cbn [load]; cbn in Ho; destruct_and?; subst.
  - intros [= <-]. by eapply Hstay.
  - destruct (work w d0) eqn:E; intros [= <-].
    + by eapply Hstay.
    + eapply matched_step; [by eapply spec_fail| |].
      * eapply rep_dead; [done|cbn; by rewrite lookup_insert_eq| |done]. cbn.
        match goal with H : calls c = [] |- _ => rewrite H end. done.
      * symmetry. apply (Hcall (LoadFailed msg)).
    + eapply matched_step; [by eapply spec_unwind| |].
      * eapply rep_dead; [done|cbn; by rewrite lookup_insert_eq| |done]. cbn.
        match goal with H : calls c = [] |- _ => rewrite H end. done.
      * symmetry. apply (Hcall Panicked).
  - intros [= <-]. by eapply Hstay.
  - intros [= <-]. eapply matched_step; [by eapply spec_fill| |].
    + by apply rep_full.
    + symmetry. apply (Hcall (Loaded (cdata c))).
Qed.

(** The actions of a thread that waits while another one loads. *)
Lemma waiter_matched i p c c' o st :
  cstate c = PT_LOADING → threads c !! i = Some p → waiting t p ∨ peeking PT_LOADING p →
  o ≠ Empty → o ≠ Filling i →
  (∀ q l, represents (goto i q {| cell := cell c; threads := threads c; calls := calls c; waits := l |}) o) →
  st = statuses c → step_thread t work i c = Some c' → matched c' (Spec o st).
Proof.
  intros Hs Hi Hp Hne Hni Hrep ->.
  assert (Hgo : ∀ q l, status_of p = status_of q →
    matched (goto i q {| cell := cell c; threads := threads c; calls := calls c; waits := l |}) (Spec o (statuses c))).
  { intros q l Heq. apply matched_stutter; [apply Hrep|]. symmetry. by eapply statuses_stutter. }
  unfold step_thread. rewrite Hi.
  destruct p; try (by destruct Hp); states Hs; try (by intros [= <-]; apply (Hgo _ (waits c))).
  destruct (spin_count_add t spin_count) as [[s' ->]|[-> Hd]]; intros [= <-]; [by apply Hgo|].
  eapply matched_step; [eapply (spec_overflow i); [done|by rewrite (statuses_lookup _ _ _ Hi)|done..]|apply Hrep|].
  symmetry. apply (statuses_goto i Panicked).
Qed.

Lemma simulates_step c c' a :
  simulates c a → step t work c c' →
  ∃ a', (a' = a ∨ spec_step a a') ∧ simulates c' a'.
Proof.
  intros (Hph & Hrep & Hst) Hs. pose proof (phase_step t work d0 c c' Hph Hs) as Hph'.
  inversion Hs as [i ? ? E]; subst. destruct a as [o st]. cbn [once_cell callers] in *.
  cut (matched c' (Spec o st)).
  { intros (a' & ? & ? & ?). by exists a'. }
  destruct Hph as [H0 _ _ Hall|w p H1 Hw Ho Hall|w v H2 Hd _ _ Hall].
  - assert (o = Empty) as -> by (inversion Hrep; autounfold with consts in *; congruence). by eapply disk_matched.
  - assert (Ho' : (loading p = true ∧ o = Filling w) ∨ (loading p = false ∧ o = Dead)).
    { inversion Hrep as [|w' p' _ Hw' Hl|w' p' _ Hw' Ho' Hl|]; try (autounfold with consts in *; congruence);
        (destruct (decide (w = w')) as [<-|Hne]; [rewrite Hw in Hw'; simplify_eq; auto|]);
        pose proof (Hall _ _ Hw' ltac:(congruence)) as Hp'.
      - destruct p'; cbn in *; intuition congruence.
      - destruct p'; cbn in *; try (by intuition congruence); destruct p; cbn in *; intuition congruence. }
    destruct (decide (i = w)) as [->|Hne].
    + destruct Ho' as [[Hl ->]|[Hl ->]]; [by eapply owner_matched|].
      unfold step_thread in E. rewrite Hw in E. by destruct p.
    + destruct (threads c !! i) as [q|] eqn:Hi; [|unfold step_thread in E; by rewrite Hi in E].
      eapply (waiter_matched i q); eauto; try by destruct Ho' as [[_ ->]|[_ ->]]; congruence.
      intros q' l. destruct Ho' as [[Hl ->]|[Hl ->]].
      * eapply rep_filling; [done|cbn; by rewrite lookup_insert_ne|done].
      * apply (rep_dead _ w p); [done|cbn; by rewrite lookup_insert_ne|done|done].
  - assert (o = Full v) as -> by (inversion Hrep; autounfold with consts in *; congruence). by eapply memory_matched.
Qed.

Definition spec_init (ps : gmap nat pc) : spec := Spec Empty ((λ _, Calling) <$> ps).

Lemma simulates_init ps : loaders ps → simulates (init d0 ps) (spec_init ps).
Proof.
  intros Hps. split_and!.
  - apply phase_init. intros i p Hi. left. by eapply Hps.
  - by apply rep_empty.
  - cbn. apply map_eq. intros i. unfold statuses. cbn. rewrite !lookup_fmap.
    destruct (ps !! i) as [p|] eqn:Hi; [|done]. by rewrite (Hps _ _ Hi).
Qed.

Lemma simulates_reachable ps c :
  loaders ps → rtc (step t work) (init d0 ps) c →
  ∃ a, rtc spec_step (spec_init ps) a ∧ simulates c a.
Proof.
  intros Hps Hr. pose proof (simulates_init ps Hps) as Hsim.
  assert (Hex : ∃ a, rtc spec_step (spec_init ps) a ∧ simulates (init d0 ps) a) by (by exists (spec_init ps)).
  clear Hsim. induction Hr as [|c1 c2 c3 Hs _ IH]; [done|]. apply IH.
  destruct Hex as (a & Ha & Hsim). destruct (simulates_step _ _ _ Hsim Hs) as (a' & [->|Hst] & Hsim').
  - by exists a.
  - exists a'. split; [by eapply rtc_r|done].
Qed.
End Spec.
Arguments once : clear implicits.
Arguments status : clear implicits.
Arguments spec : clear implicits.
