(* ===== verification/LatchProps.v ===== *)
(** * Theorems about the page-table latch

    Agreement, mutual exclusion, race freedom, progress, and what happens when
    [work] fails, when a thread waits for too long and when [peek] runs
    concurrently with the loader. *)

From S2P Require Import Prelude Latch LatchFacts LatchProgress LatchSpec.
From stdpp Require Import strings relations.
#[local] Open Scope Z_scope.

Section Latch.
Context {T : Type} (t : target) (work : nat → T → work_result T) (d0 : T).
Implicit Types (c : config T) (ps : gmap nat (pc T)).

(** C8: agreement.  In every configuration reachable from a fresh latch, if
    any [load] has returned [Ok v], then [v] is the result of exactly one call
    of [work], made on the initial data; the latch is [PT_IN_MEMORY] and holds
    [v]; and every other [load] that has returned [Ok] returned the same [v]. *)
Theorem load_agreement ps c i v :
  entering ps → rtc (step t work) (init d0 ps) c → threads c !! i = Some (Loaded v) →
  (∃ w, work w d0 = WOk v ∧ calls c = [(w, d0)]) ∧
  cell c = PageTableLatch.mk PT_IN_MEMORY v ∧
  (∀ j v', threads c !! j = Some (Loaded v') → v' = v).
Proof.
  intros Hps Hr. apply (phase_agreement t). by apply (phase_reachable _ _ _ ps).
Qed.

(** C11: mutual exclusion.  At most one thread is ever between winning the
    exchange and leaving [load]; while it is there the state is [PT_LOADING];
    and [work] is called at most once in the lifetime of the latch. *)
Theorem single_loader ps c :
  entering ps → rtc (step t work) (init d0 ps) c →
  (∀ i j p q, threads c !! i = Some p → threads c !! j = Some q →
     loading p = true → loading q = true → i = j) ∧
  (∀ i p, threads c !! i = Some p → loading p = true → cstate c = PT_LOADING) ∧
  (length (calls c) ≤ 1)%nat.
Proof.
  intros Hps Hr. pose proof (phase_reachable t work d0 ps c Hps Hr) as Hp. split_and!.
  - intros i j p q Hi Hj Hlp Hlq. destruct (decide (i = j)) as [|Hne]; [done|].
    destruct (loading_owner _ _ _ _ _ _ Hp Hj Hlq) as (_ & _ & Hall).
    destruct (Hall _ _ Hi Hne) as [H|H]; by destruct p.
  - intros i p Hi Hl. by destruct (loading_owner _ _ _ _ _ _ Hp Hi Hl).
  - destruct Hp as [_ _ -> _|w p _ _ Ho _|w v _ _ _ -> _]; cbn; [lia| |lia].
    destruct p; cbn in Ho; destruct_and?; try done;
      match goal with H : calls c = _ |- _ => rewrite H end; cbn; lia.
Qed.

(** C17: race freedom.  The data cell is not atomic.  When a thread is about to
    write it, no other thread is about to write it or to read it inside [load];
    the only possible conflict is a [peek] that did not see [PT_IN_MEMORY].
    Without [peek] there is no race. *)
Theorem load_race_free ps c :
  entering ps → rtc (step t work) (init d0 ps) c →
  (∀ i j p q, i ≠ j → threads c !! i = Some p → threads c !! j = Some q →
     writes_data p = true → reads_data q = true ∨ writes_data q = true →
     ∃ st, q = PeekData st ∧ st ≠ PT_IN_MEMORY) ∧
  (loaders ps → ¬ race c).
Proof.
  intros Hps Hr. pose proof (phase_reachable t work d0 ps c Hps Hr) as Hp.
  assert (Hconf : ∀ i j p q, i ≠ j → threads c !! i = Some p → threads c !! j = Some q →
     writes_data p = true → reads_data q = true ∨ writes_data q = true →
     ∃ st, q = PeekData st ∧ st ≠ PT_IN_MEMORY).
  { intros i j p q Hne Hi Hj Hwp Hq.
    destruct (loading_owner _ _ _ _ i p Hp Hi) as (_ & _ & Hall); [by destruct p|].
    destruct (Hall _ _ Hj (not_eq_sym Hne)) as [H|H]; destruct q; cbn in *; try done;
      try (by destruct Hq). eexists; split; [done|].
    unfold PT_LOADING, PT_IN_MEMORY in *. lia. }
  split; [exact Hconf|]. intros Hl (i & j & p & q & Hne & Hi & Hj & Hwp & Hq).
  destruct (Hconf i j p q) as (st & -> & _); [done..|].
  destruct (reachable_sched t work _ _ Hr) as [l ->].
  destruct (ps !! j) as [p0|] eqn:E.
  - pose proof (Hl _ _ E) as ->.
    destruct (run_in_load t work l (init d0 ps) j (LoadState 0) E) as (q & Hj' & Hin).
    rewrite Hj in Hj'. by simplify_eq.
  - apply elem_of_dom_2 in Hj. rewrite run_dom in Hj. apply elem_of_dom in Hj as [??].
    cbn in *. congruence.
Qed.

(** The life cycle.  Along every execution the state only moves from
    [PT_ON_DISK] to [PT_LOADING] to [PT_IN_MEMORY]; [state] and
    [current_state] agree and never report [PT_INVALID]; and once in memory
    the data never changes again. *)
Theorem latch_lifecycle ps c c' :
  entering ps → rtc (step t work) (init d0 ps) c → rtc (step t work) c c' →
  cstate c ≤ cstate c' ∧
  PageTableLatch.state (cell c) = PageTableLatch.current_state (cell c) ∧
  PageTableLatch.state (cell c) ≠ PT_INVALID ∧
  (cstate c = PT_IN_MEMORY → cdata c' = cdata c).
Proof.
  intros Hps Hr Hr'. pose proof (phase_reachable t work d0 ps c Hps Hr) as Hp.
  destruct (steps_monotone t work d0 c c' Hp Hr') as (_ & Hm & Hd).
  split_and!; [done| | |done].
  - unfold PageTableLatch.state, PageTableLatch.current_state.
    fold (cstate c). destruct Hp as [-> | ? ? -> | ? ? ->]; done.
  - unfold PageTableLatch.state. fold (cstate c). destruct Hp as [-> | ? ? -> | ? ? ->]; done.
Qed.

(** [peek] agrees with [load].  A [peek] that reports [PT_IN_MEMORY]
    returns the published value, and every [peek] reports one of the three
    valid states. *)
Theorem peek_agreement ps c i st v :
  entering ps → rtc (step t work) (init d0 ps) c → threads c !! i = Some (Peeked st v) →
  PT_ON_DISK ≤ st ≤ PT_IN_MEMORY ∧
  (st = PT_IN_MEMORY → cell c = PageTableLatch.mk PT_IN_MEMORY v ∧
     ∀ j v', threads c !! j = Some (Loaded v') → v' = v).
Proof.
  intros Hps Hr Hi. destruct (phase_reachable t work d0 ps c Hps Hr)
    as [Hs _ _ Hall|w p Hs Hw Ho Hall|w v0 Hs Hd Hwk Hc Hall].
  - pose proof (Hall _ _ Hi) as H. cbn in H. autounfold with consts in *. lia.
  - destruct (decide (i = w)) as [->|Hne]; [by simplify_eq|].
    pose proof (Hall _ _ Hi Hne) as [H|H]; [done|]. cbn in H. autounfold with consts in *. lia.
  - pose proof (Hall _ _ Hi) as [Hst Hv]. split; [done|]. intros E. specialize (Hv E). split.
    + destruct c as [[st' d] ? ? ?]; unfold cstate, cdata in *; cbn in *. by subst.
    + intros j v' Hj. pose proof (Hall _ _ Hj) as Hv'. cbn in Hv'. congruence.
Qed.

(** C9: progress.  In the release profile, if no call of [work] on the initial
    data fails, then after nine rounds of any scheduler, a round being any
    sequence in which every thread occurs at least once, each thread that
    called [load] has returned [Ok]. *)
Theorem load_completes ps rounds i :
  prof t = Release → (∀ j, ∃ v, work j d0 = WOk v) →
  entering ps → ps !! i = Some (LoadState 0) →
  (9 ≤ length rounds)%nat → (∀ l, l ∈ rounds → ∀ j, j ∈ dom ps → j ∈ l) →
  ∃ v, threads (run_sched t work (concat rounds) (init d0 ps)) !! i = Some (Loaded v).
Proof. apply (nine_rounds t work d0). Qed.

(** C28: a failed load is never repaired.  When the owner's [work] returns an
    error, the [?] leaves [load] without touching the state: the latch stays in
    [PT_LOADING] with the old data for ever, and no thread ever gets a value. *)
Theorem failed_work_wedges_latch ps c c' w msg :
  entering ps → rtc (step t work) (init d0 ps) c → threads c !! w = Some (LoadFailed msg) →
  rtc (step t work) c c' →
  cell c' = PageTableLatch.mk PT_LOADING d0 ∧
  (∀ i v, threads c' !! i ≠ Some (Loaded v)) ∧
  (prof t = Release → ∀ i p, i ≠ w → threads c' !! i = Some p → in_load p = true →
     finished p = false).
Proof.
  intros Hps Hr Hw Hr'.
  assert (Hinv : phase t work d0 c' ∧ threads c' !! w = Some (LoadFailed msg)).
  { pose proof (phase_reachable t work d0 ps c Hps Hr) as Hp. clear Hr.
    induction Hr' as [|c1 c2 c3 Hs _ IH]; [done|]. apply IH; [|by eapply phase_step].
    inversion Hs as [i ? ? E]; subst. destruct (decide (w = i)) as [<-|].
    - unfold step_thread in E. by rewrite Hw in E.
    - by rewrite (step_other t work i w c1 c2). }
  destruct Hinv as [[_ _ _ Hall|w' p Hs Hw' Ho Hall|w' v _ _ _ _ Hall] Hwf].
  - by pose proof (Hall _ _ Hwf).
  - destruct (decide (w = w')) as [<-|Hne]; [|by destruct (Hall _ _ Hwf Hne)].
    rewrite Hwf in Hw'. simplify_eq. cbn in Ho. destruct Ho as (_ & Hd & _). split_and!.
    + destruct c' as [[? ?] ? ? ?]; unfold cstate, cdata in *; cbn in *. by subst.
    + intros i v Hi. destruct (decide (i = w)) as [->|Hne]; [by simplify_eq|].
      by destruct (Hall _ _ Hi Hne).
    + intros Hrel i p Hne Hi Hin. destruct (Hall _ _ Hi Hne) as [H|H]; destruct p; cbn in *;
        congruence || done.
  - pose proof (Hall _ _ Hwf) as H. cbn in H. by destruct H.
Qed.

(** C6: The latch refines a write-once cell.  Every configuration threads that
    call [load] can reach represents a state of the abstract cell (empty, being
    filled by one thread, full, dead) that the specification can reach with
    the same callers having returned the same results: spinning, the exchange,
    the two writes of the owner and the back-off are invisible. *)
Theorem latch_refines_once_cell ps c :
  loaders ps → rtc (step t work) (init d0 ps) c →
  ∃ a, rtc (spec_step t work d0) (spec_init ps) a ∧
    callers a = statuses c ∧ represents work d0 c (once_cell a).
Proof.
  intros Hps Hr. destruct (simulates_reachable t work d0 ps c Hps Hr) as (a & Ha & _ & Hrep & Hst).
  by exists a.
Qed.
End Latch.

(** Two threads at the entry of [load]. *)
Definition two_loaders {T} : gmap nat (pc T) := {[0%nat := LoadState 0; 1%nat := LoadState 0]}.

(** [peek] races with the loader.  A [peek] that read the state during the
    load clones the data while the owner may be writing it. *)
Theorem peek_races {T} (t : target) (work : nat → T → work_result T) (d0 v : T) :
  work 0%nat d0 = WOk v →
  let ps := {[0%nat := LoadState 0; 1%nat := PeekState]} in
  ∃ c, rtc (step t work) (init d0 ps) c ∧ race c ∧
    threads c !! 1%nat = Some (PeekData PT_LOADING).
Proof.
  intros Hv ps. set (c3 := run_sched t work [0; 0; 0]%nat (init d0 ps)).
  set (c4 := goto 0 (WriteData v) (log_call 0 d0 c3)).
  assert (H0 : threads c3 !! 0%nat = Some (RunWork d0)) by (vm_compute; reflexivity).
  assert (H1 : threads c3 !! 1%nat = Some PeekState) by (vm_compute; reflexivity).
  assert (Hs : cstate c3 = PT_LOADING) by (vm_compute; reflexivity).
  assert (Hr : rtc (step t work) (init d0 ps) c3) by apply run_sched_rtc.
  clearbody c3. exists (goto 1 (PeekData PT_LOADING) c4). split_and!.
  - eapply rtc_r; [eapply rtc_r; [exact Hr|]|].
    + apply (step_intro _ _ 0). unfold step_thread. rewrite H0. cbn. by rewrite Hv.
    + apply (step_intro _ _ 1). unfold step_thread, c4. cbn. rewrite lookup_insert_ne, H1 by done.
      cbn. unfold cstate. cbn. by rewrite <- Hs.
  - exists 0%nat, 1%nat, (WriteData v), (PeekData PT_LOADING). cbn.
    rewrite lookup_insert_ne, !lookup_insert_eq by done. split_and!; auto.
  - cbn. by rewrite lookup_insert_eq.
Qed.

(** ** Witnesses *)

(** Loading the page with offset 4096 into frame 7. *)
Definition ok_work (_ : nat) (d : Z) : work_result Z := WOk (d + 7).
Definition bad_work (_ : nat) (_ : Z) : work_result Z := WErr "io".
Definition rel : target := Target Release LittleHost.
Definition reach (l : list nat) : rtc (step rel ok_work) (init 4096 two_loaders)
    (run_sched rel ok_work l (init 4096 two_loaders)) :=
  run_sched_rtc rel ok_work l (init 4096 two_loaders).

Lemma two_loaders_loaders T : loaders (@two_loaders T).
Proof. intros i p. unfold two_loaders. rewrite lookup_insert_Some, lookup_singleton_Some. naive_solver. Qed.
Lemma two_loaders_entering T : entering (@two_loaders T).
Proof. intros i p Hi. left. by eapply two_loaders_loaders. Qed.

Lemma load_agreement_witness :
  let c := run_sched rel ok_work (replicate 6 0 ++ replicate 3 1)%nat (init 4096 two_loaders) in
  threads c !! 1%nat = Some (Loaded 4103) ∧ cell c = PageTableLatch.mk PT_IN_MEMORY 4103.
Proof.
  split; [vm_compute; reflexivity|].
  refine (proj1 (proj2 (load_agreement rel ok_work 4096 two_loaders _ 1 4103
    (two_loaders_entering Z) (reach _) _))). vm_compute. reflexivity.
Defined.

Lemma single_loader_witness :
  let c := run_sched rel ok_work [0; 1; 0; 1; 0]%nat (init 4096 two_loaders) in
  threads c !! 0%nat = Some (RunWork 4096) ∧ (length (calls c) ≤ 1)%nat.
Proof.
  split; [vm_compute; reflexivity|].
  exact (proj2 (proj2 (single_loader rel ok_work 4096 two_loaders _
    (two_loaders_entering Z) (reach [0; 1; 0; 1; 0]%nat)))).
Defined.

Lemma load_race_free_witness :
  let c := run_sched rel ok_work [0; 1; 0; 1; 0; 0]%nat (init 4096 two_loaders) in
  threads c !! 0%nat = Some (WriteData 4103) ∧ ¬ race c.
Proof.
  split; [vm_compute; reflexivity|].
  exact (proj2 (load_race_free rel ok_work 4096 two_loaders _
    (two_loaders_entering Z) (reach [0; 1; 0; 1; 0; 0]%nat)) (two_loaders_loaders Z)).
Defined.

Lemma latch_lifecycle_witness :
  let c := run_sched rel ok_work [0; 0]%nat (init 4096 two_loaders) in
  cstate c = PT_LOADING ∧
  PageTableLatch.state (cell c) = PageTableLatch.current_state (cell c).
Proof.
  split; [vm_compute; reflexivity|].
  exact (proj1 (proj2 (latch_lifecycle rel ok_work 4096 two_loaders _ _
    (two_loaders_entering Z) (reach [0; 0]%nat) (rtc_refl _ _)))).
Defined.

Definition loader_and_peeker : gmap nat (pc Z) := {[0%nat := LoadState 0; 1%nat := PeekState]}.

Lemma loader_and_peeker_entering : entering loader_and_peeker.
Proof.
  intros i p. unfold loader_and_peeker. rewrite lookup_insert_Some, lookup_singleton_Some. naive_solver.
Qed.

Lemma peek_agreement_witness :
  let c := run_sched rel ok_work (replicate 6 0 ++ [1; 1])%nat (init 4096 loader_and_peeker) in
  threads c !! 1%nat = Some (Peeked PT_IN_MEMORY 4103) ∧
  cell c = PageTableLatch.mk PT_IN_MEMORY 4103.
Proof.
  split; [vm_compute; reflexivity|].
  refine (proj1 (proj2 (peek_agreement rel ok_work 4096 loader_and_peeker _ 1 PT_IN_MEMORY 4103
    loader_and_peeker_entering (run_sched_rtc _ _ _ _) _) eq_refl)). vm_compute. reflexivity.
Defined.

Lemma load_completes_witness :
  ∃ v, threads (run_sched rel ok_work (concat (replicate 9 [1; 0]%nat)) (init 4096 two_loaders))
    !! 1%nat = Some (Loaded v).
Proof.
  apply (load_completes rel ok_work 4096 two_loaders (replicate 9 [1; 0]%nat) 1).
  - reflexivity.
  - intros j. exists 4103. reflexivity.
  - apply two_loaders_entering.
  - reflexivity.
  - reflexivity.
  - intros l Hl j Hj. apply elem_of_replicate_inv in Hl as ->.
    unfold two_loaders in Hj. set_solver.
Defined.

Lemma failed_work_wedges_latch_witness :
  let c := run_sched rel bad_work [0; 0; 0; 0]%nat (init 4096 two_loaders) in
  threads c !! 0%nat = Some (LoadFailed "io") ∧
  cell (run_sched rel bad_work (replicate 600 1%nat) c) = PageTableLatch.mk PT_LOADING 4096.
Proof.
  split; [vm_compute; reflexivity|].
  refine (proj1 (failed_work_wedges_latch rel bad_work 4096 two_loaders _ _ 0 "io"
    (two_loaders_entering Z) (run_sched_rtc _ _ [0; 0; 0; 0]%nat _) _ (run_sched_rtc _ _ _ _))).
  vm_compute. reflexivity.
Defined.

Lemma peek_races_witness :
  ok_work 0%nat 4096 = WOk 4103 ∧
  ∃ c, rtc (step rel ok_work) (init 4096 {[0%nat := LoadState 0; 1%nat := PeekState]}) c ∧ race c ∧
    threads c !! 1%nat = Some (PeekData PT_LOADING).
Proof. split; [reflexivity|]. exact (peek_races rel ok_work 4096 4103 eq_refl). Defined.

Lemma latch_refines_once_cell_witness :
  let c := run_sched rel ok_work (replicate 6 0 ++ replicate 3 1)%nat (init 4096 two_loaders) in
  ∃ a, rtc (spec_step rel ok_work 4096) (spec_init two_loaders) a ∧
    callers a = statuses c ∧ represents ok_work 4096 c (once_cell a).
Proof.
  exact (latch_refines_once_cell rel ok_work 4096 two_loaders _ (two_loaders_loaders Z)
    (reach (replicate 6 0 ++ replicate 3 1)%nat)).
Defined.
