(* ===== verification/LatchBackoff.v ===== *)
(** * The back-off policy of the latch

    Every wait of [load] increments a counter that the compiler infers to be a
    [u8].  The invariant of this file ties the counter of each thread to the
    waits it has made, over every execution. *)

From S2P Require Import Prelude Latch LatchFacts LatchProgress LatchProps.
From stdpp Require Import strings relations.
#[local] Open Scope Z_scope.

(** The wait number [k] (from 0) of a thread whose counter wraps at 256. *)
Definition wait_at (k : nat) : wait :=
  if (k mod 256 <? 10)%nat then SpinLoop else if (k mod 256 <? 50)%nat then YieldNow else Sleep.

Section Backoff.
Context {T : Type} (t : target) (work : nat → T → work_result T) (d0 : T).
Implicit Types (c : config T) (p : pc T) (i j : nat).

(** The waits of thread [i], in order. *)
Definition waits_of i c : list wait := (filter (λ x, x.1 = i) (waits c)).*2.

(** The counter at a program counter of [load]. *)
Definition spin_count p : option Z :=
  match p with LoadState s | Cas s | Backoff s => Some s | _ => None end.

Record counted i c p : Prop := {
  co_waits : waits_of i c = wait_at <$> seq 0 (length (waits_of i c));
  co_spin s : spin_count p = Some s → s = Z.of_nat (length (waits_of i c)) mod 256;
  co_debug : prof t = Debug →
    (length (waits_of i c) < 256)%nat ∨ length (waits_of i c) = 256%nat ∧ p = Panicked;
  co_panic : p = Panicked →
    prof t = Debug ∧ length (waits_of i c) = 256%nat ∨ ∃ d, (i, d) ∈ calls c ∧ work i d = WPanic }.

(** The policy of the source as a function of the number of waits made. *)
Lemma backoff_wait_at n : PageTableLatch.backoff (Z.of_nat n mod 256) = wait_at n.
Proof.
  unfold PageTableLatch.backoff, wait_at, SPIN_LIMIT, YIELD_LIMIT.
  replace (Z.of_nat n mod 256) with (Z.of_nat (n mod 256)) by (rewrite Nat2Z.inj_mod; done).
  repeat (case_match; rewrite ?Z.ltb_lt, ?Z.ltb_ge, ?Nat.ltb_lt, ?Nat.ltb_ge in * ); done || lia.
Qed.

(** A step that makes no wait. *)
Lemma counted_move i c c' p q :
  counted i c p → waits c' = waits c → (∀ x, x ∈ calls c → x ∈ calls c') →
  p ≠ Panicked → (∀ s, spin_count q = Some s → spin_count p = Some s) →
  (q = Panicked → ∃ d, (i, d) ∈ calls c' ∧ work i d = WPanic) → counted i c' q.
Proof.
  intros [Hw Hs Hd _] Ew Hc Hne Hq Hp.
  assert (E : waits_of i c' = waits_of i c) by (unfold waits_of; by rewrite Ew).
  split; rewrite E; [done|by eauto| |by eauto]. intros H. destruct (Hd H) as [?|[_ ?]]; [by left|done].
Qed.

Lemma waits_of_log i c w : waits_of i (log_wait i w c) = waits_of i c ++ [w].
Proof.
  unfold waits_of. cbn. rewrite filter_app, fmap_app. f_equal.
  rewrite filter_cons_True by done. by rewrite filter_nil.
Qed.

(** A wait, after which the counter is incremented or overflows. *)
Lemma counted_wait i c s :
  counted i c (Backoff s) →
  let c' := log_wait i (PageTableLatch.backoff s) c in
  match add_w (E:=string) t u8_mod s 1 with
  | Ok s' => counted i c' (LoadState s')
  | _ => counted i c' Panicked
  end.
Proof.
  intros [Hw Hs Hd _] c'. specialize (Hs s eq_refl).
  set (n := length (waits_of i c)) in *.
  assert (E : waits_of i c' = wait_at <$> seq 0 (S n)).
  { unfold c'. rewrite waits_of_log, Hs, backoff_wait_at, Hw, seq_S, fmap_app. done. }
  assert (Hn : length (waits_of i c') = S n) by (rewrite E, length_fmap, length_seq; done).
  assert (Hmod : Z.of_nat (S n) mod 256 = (s + 1) mod 256).
  { rewrite Hs, Z.add_mod_idemp_l by lia. f_equal. lia. }
  pose proof (Z.mod_pos_bound (Z.of_nat n) 256 ltac:(lia)).
  unfold add_w, arith_w. change u8_mod with 256. destruct (_ && _) eqn:Er.
  - apply andb_true_iff in Er as [_ ?%Z.ltb_lt]. split; rewrite ?Hn; [done| |intros Hdb|done].
    + intros s' [= <-]. rewrite Hmod, Z.mod_small; lia.
    + destruct (Hd Hdb) as [?|[_ [=]]]. rewrite Z.mod_small in Hs by lia. left. lia.
  - assert (Hs255 : s = 255) by (apply andb_false_iff in Er as [?%Z.leb_gt|?%Z.ltb_ge]; lia).
    destruct (prof t) eqn:Ep.
    + destruct (Hd eq_refl) as [?|[_ [=]]]. rewrite Z.mod_small in Hs by lia.
      split; rewrite ?Hn; [done|done|right; split; [lia|done]|left; split; [done|lia]].
    + split; rewrite ?Hn; [done| |congruence|done]. intros s' [= <-]. by rewrite Hmod.
Qed.

(** What a step of thread [i] adds to the logs. *)
Lemma step_logs i c c' :
  step_thread t work i c = Some c' →
  (waits c' = waits c ∨ ∃ w, waits c' = waits c ++ [(i, w)]) ∧ (∀ x, x ∈ calls c → x ∈ calls c').
Proof.
  step_cases Hi; cbn [load peek]; repeat case_match; intros; simplify_eq; cbn;
    (split; [first [left; reflexivity|right; eexists; reflexivity]|set_solver]).
Qed.

Lemma counted_other i j c c' p :
  j ≠ i → step_thread t work i c = Some c' → counted j c p → counted j c' p.
Proof.
  intros Hne Hs [Hw Hc Hd Hp]. destruct (step_logs i c c' Hs) as [Hl Hk].
  assert (E : waits_of j c' = waits_of j c).
  { unfold waits_of. destruct Hl as [->|[w ->]]; [done|].
    rewrite filter_app, fmap_app, filter_cons_False by (cbn; congruence). by rewrite app_nil_r. }
  split; rewrite E; [done..|]. intros H. destruct (Hp H) as [?|(d & ? & ?)]; eauto.
Qed.

Lemma counted_own i c c' p :
  threads c !! i = Some p → step_thread t work i c = Some c' → counted i c p →
  ∃ q, threads c' !! i = Some q ∧ counted i c' q.
Proof.
  intros Hi Hs Hc. destruct (step_logs i c c' Hs) as [_ Hk]. unfold step_thread in Hs. rewrite Hi in Hs.
  destruct p; cbn [load peek] in Hs; try done.
  all: try (repeat case_match; simplify_eq; eexists; (split; [apply lookup_insert_eq|]);
    eapply counted_move; eauto; cbn; try done; try congruence; set_solver).
  pose proof (counted_wait i c spin_count0 Hc) as Hw. cbv zeta in Hw.
  destruct (add_w (E:=string) t u8_mod spin_count0 1); simplify_eq; eexists; (split; [apply lookup_insert_eq|]);
    by destruct Hw.
Qed.

Lemma counted_init i ps p : entering ps → ps !! i = Some p → counted i (init d0 ps) p.
Proof.
  intros Hps Hi. destruct (Hps i p Hi) as [-> | ->]; split; cbn; try done; try (by left; lia).
  by intros s [= <-].
Qed.

Lemma counted_reachable ps c i p :
  entering ps → rtc (step t work) (init d0 ps) c → threads c !! i = Some p → counted i c p.
Proof.
  intros Hps Hr.
  assert (H0 : ∀ j q, threads (init d0 ps) !! j = Some q → counted j (init d0 ps) q)
    by (intros; by apply counted_init).
  revert i p. induction Hr as [|c1 c2 c3 Hs _ IH]; [done|]. apply IH. intros j q Hj.
  inversion Hs as [i ? ? E]; subst. destruct (decide (j = i)) as [->|Hne].
  - destruct (threads c1 !! i) as [p|] eqn:Hi; [|unfold step_thread in E; by rewrite Hi in E].
    destruct (counted_own i c1 c2 p Hi E (H0 _ _ Hi)) as (q' & Hq' & Hc). congruence.
  - rewrite (step_other t work i j c1 c2 E Hne) in Hj. eapply counted_other; eauto.
Qed.
End Backoff.

(** C33: the back-off counter, in every execution of any number of threads.  The
    waits of a thread are 10 spins, 40 yields and 206 sleeps, and then the
    policy starts over; the counter is the number of waits modulo 256.  In the
    debug profile a thread never gets past its 256th wait, which panics: it has
    panicked when it has waited 256 times, and a thread only panics for this
    reason or because its [work] did. *)
Theorem backoff_overflows {T} (t : target) (work : nat → T → work_result T) (d0 : T) ps c i p :
  entering ps → rtc (step t work) (init d0 ps) c → threads c !! i = Some p →
  let n := length (waits_of i c) in
  waits_of i c = wait_at <$> seq 0 n ∧
  (∀ s, spin_count p = Some s → s = Z.of_nat n mod 256) ∧
  (prof t = Debug → (n < 256)%nat ∨ n = 256%nat ∧ p = Panicked) ∧
  (p = Panicked → prof t = Debug ∧ n = 256%nat ∨ ∃ d, (i, d) ∈ calls c ∧ work i d = WPanic).
Proof. intros Hps Hr Hi. by destruct (counted_reachable t work d0 ps c i p Hps Hr Hi). Qed.

(** Thread 0 has won the exchange and is slow; thread 1 waits 256 times. *)
Definition dbg_latch : target := Target Debug LittleHost.
Definition starved (t : target) : config Z :=
  run_sched t ok_work (replicate 2 0 ++ replicate 512 1)%nat (init 4096 two_loaders).

Lemma backoff_overflows_witness :
  threads (starved dbg_latch) !! 1%nat = Some Panicked ∧
  length (waits_of 1 (starved dbg_latch)) = 256%nat ∧
  waits_of 1 (starved dbg_latch) = wait_at <$> seq 0 256.
Proof.
  split_and!; [vm_compute; reflexivity..|].
  refine (proj1 (backoff_overflows dbg_latch ok_work 4096 two_loaders (starved dbg_latch) 1%nat Panicked
    (two_loaders_entering Z) (run_sched_rtc _ _ _ _) _)).
  vm_compute. reflexivity.
Defined.
