(* ===== verification/LatchBench.v ===== *)
(** * The benchmark of the latch, run in the model

    The test [page_latch_thread_benches] of src/src/buffer/page_table_latch.rs
    uses one latch again and again: it stores [PT_ON_DISK], lets a number of
    threads load, joins them and prints order statistics of their latencies.
    The schedule and the measured times of a round are arguments.  The barrier
    only makes the threads enter [load] together, which is how a round starts
    here. *)

From S2P Require Import Prelude Latch LatchFacts LatchProgress.
From stdpp Require Import strings sorting relations.
#[local] Open Scope Z_scope.

Definition THREADS : list nat := [1; 2; 10; 20; 50; 100; 250; 500; 750; 1000]%nat.

(** The closure of every thread. *)
Definition bench_work (_ : nat) (_ : Z) : work_result Z := WOk 10.

(** [thread] new threads at the entry of [load]. *)
Definition spawn (thread : nat) : gmap nat (pc Z) :=
  list_to_map ((λ i, (i, LoadState 0)) <$> seq 0 thread).

(** [for t in handles { .. t.join().unwrap() .. }]: waits for ever for a thread
    that does not finish, and panics on one that panicked. *)
Fixpoint join_all (handles : list nat) (c : config Z) : res Empty_set unit :=
  match handles with
  | [] => Ok tt
  | i :: handles =>
      match threads c !! i with
      | Some Panicked => Panic
      | Some p => if finished p then join_all handles c else Diverge
      | None => Diverge
      end
  end.

Record latency := Latency { first : Z; p50 : Z; p90 : Z; p99 : Z; last : Z }.

(** The printed statistics.  The products stay below [usize::MAX]: a vector of
    128-bit integers has fewer than [2^59] elements. *)
Definition latencies (times : list Z) : latency :=
  let results := merge_sort (≤) times in
  let len := length results in
  {| first := default 0 (results !! 0%nat);
     p50 := default 0 (results !! (len / 2)%nat);
     p90 := default 0 (results !! (len * 9 / 10)%nat);
     p99 := default 0 (results !! (len * 99 / 100)%nat);
     last := default 0 (list.last results) |}.

(** One round: the order in which its threads run and the time each takes. *)
Record run := Run { schedule : list (list nat); elapsed : nat → Z }.

Definition bench_start (thread : nat) (l : PageTableLatch.latch Z) : config Z :=
  Config (PageTableLatch.mk PT_ON_DISK (PageTableLatch.data l)) (spawn thread) [] [].

Definition bench_round (t : target) (thread : nat) (r : run) : M (PageTableLatch.latch Z) Empty_set latency :=
  λ l, let c := run_sched t bench_work (concat (schedule r)) (bench_start thread l) in
       (_ ← join_all (seq 0 thread) c; Ok (latencies (elapsed r <$> seq 0 thread)), cell c).

Fixpoint bench_loop (t : target) (l : list (nat * run)) : M (PageTableLatch.latch Z) Empty_set (list latency) :=
  match l with
  | [] => mret []
  | (thread, r) :: l => x ← bench_round t thread r; xs ← bench_loop t l; mret (x :: xs)
  end.

Definition page_latch_thread_benches (t : target) (runs : list run) :
  res Empty_set (list latency) * PageTableLatch.latch Z :=
  bench_loop t (zip THREADS runs) (PageTableLatch.mk PT_IN_MEMORY 10).

(** ** Order statistics *)

Lemma sorted_lookup (l : list Z) i j x y :
  StronglySorted (≤) l → l !! i = Some x → l !! j = Some y → (i ≤ j)%nat → x ≤ y.
Proof.
  intros Hs. revert i j. induction Hs as [|a l Hs IH Ha]; intros [|i] [|j]; cbn; try done || lia.
  - intros [= <-] [= <-]. lia.
  - intros [= <-] Hj _. rewrite Forall_lookup in Ha. by eapply Ha.
  - intros Hi Hj Hij. eapply IH; eauto. lia.
Qed.

Definition ordered (x : latency) : Prop :=
  first x ≤ p50 x ≤ p90 x ∧ p90 x ≤ p99 x ≤ last x.

Lemma latencies_ordered times :
  times ≠ [] → ordered (latencies times) ∧ first (latencies times) ∈ times ∧
  ∀ y, y ∈ times → first (latencies times) ≤ y ≤ last (latencies times).
Proof.
  intros Hne. unfold ordered, latencies. cbn [first p50 p90 p99 last].
  pose proof (StronglySorted_merge_sort (≤) times) as Hs.
  pose proof (merge_sort_Permutation (≤) times) as Hp.
  set (l := merge_sort (≤) times) in *. set (n := length l).
  assert (Hn : (0 < n)%nat).
  { unfold n. rewrite (Permutation_length Hp). destruct times; [done|cbn; lia]. }
  assert (Hget : ∀ k, (k < n)%nat → ∃ x, l !! k = Some x) by (intros; by apply lookup_lt_is_Some_2).
  rewrite last_lookup. change (length l) with n.
  assert (H1 : (n / 2 ≤ n * 9 / 10)%nat) by (apply Nat.div_le_lower_bound; [lia|];
    pose proof (Nat.mul_div_le n 2 ltac:(lia)); lia).
  assert (H2 : (n * 9 / 10 ≤ n * 99 / 100)%nat) by (apply Nat.div_le_lower_bound; [lia|];
    pose proof (Nat.mul_div_le (n * 9) 10 ltac:(lia)); lia).
  assert (H3 : (n * 99 / 100 < n)%nat) by (apply Nat.div_lt_upper_bound; lia).
  destruct (Hget 0%nat ltac:(lia)) as [a Ea], (Hget (n / 2)%nat ltac:(lia)) as [b Eb],
    (Hget (n * 9 / 10)%nat ltac:(lia)) as [c Ec], (Hget (n * 99 / 100)%nat H3) as [d Ed],
    (Hget (pred n) ltac:(lia)) as [e Ee].
  rewrite Ea, Eb, Ec, Ed, Ee. cbn.
  split_and!; try (eapply (sorted_lookup l); [done|eassumption|eassumption|lia]).
  - eapply elem_of_Permutation_proper; [symmetry; exact Hp|]. by eapply list_elem_of_lookup_2.
  - intros y Hy. apply (elem_of_Permutation_proper y _ _ Hp) in Hy. apply list_elem_of_lookup_1 in Hy as [k Hk].
    pose proof (lookup_lt_Some _ _ _ Hk). split; (eapply (sorted_lookup l); [done|eassumption|eassumption|unfold n; lia]).
Qed.

(** ** Rounds *)

Lemma spawn_lookup thread i : (i < thread)%nat → spawn thread !! i = Some (LoadState 0).
Proof.
  intros Hi. apply elem_of_list_to_map_1.
  - rewrite <- list_fmap_compose. cbn. rewrite list_fmap_id. apply NoDup_seq.
  - apply list_elem_of_fmap. exists i. split; [done|]. apply elem_of_seq. lia.
Qed.

Lemma spawn_inv thread i p : spawn thread !! i = Some p → p = LoadState 0 ∧ (i < thread)%nat.
Proof.
  intros H. apply elem_of_list_to_map_2, list_elem_of_fmap in H as (j & [= -> ->] & Hj).
  apply elem_of_seq in Hj. split; [done|lia].
Qed.

(** Every thread gets a turn in each of at least nine rounds of the scheduler. *)
Definition fair (thread : nat) (r : run) : Prop :=
  (9 ≤ length (schedule r))%nat ∧ ∀ l, l ∈ schedule r → ∀ j, (j < thread)%nat → j ∈ l.

(** Round robin is fair. *)
Lemma round_robin_fair thread f : fair thread (Run (replicate 9 (seq 0 thread)) f).
Proof.
  split; [done|]. intros l Hl j Hj. apply elem_of_replicate in Hl as [-> _]. apply elem_of_seq. lia.
Qed.

Lemma join_all_loaded c hs :
  (∀ i, i ∈ hs → ∃ v, threads c !! i = Some (Loaded v)) → join_all hs c = Ok tt.
Proof.
  induction hs as [|i hs IH]; intros H; cbn; [done|].
  destruct (H i) as [v ->]; [set_solver|]. apply IH. set_solver.
Qed.

Lemma bench_phase t d thread l :
  phase t bench_work d (run_sched t bench_work l (init d (spawn thread))).
Proof.
  apply run_phase, phase_init. intros i p Hi. left. by apply spawn_inv in Hi as [-> _].
Qed.

(** A fair round ends with the data loaded by exactly one thread. *)
Lemma bench_round_ok t thread r l :
  prof t = Release → (0 < thread)%nat → fair thread r →
  bench_round t thread r l =
    (Ok (latencies (elapsed r <$> seq 0 thread)), PageTableLatch.mk PT_IN_MEMORY 10).
Proof.
  intros Ht Hn [Hlen Hfair]. unfold bench_round. set (d := PageTableLatch.data l).
  change (bench_start thread l) with (init d (spawn thread)).
  assert (Hall : ∀ i, (i < thread)%nat → ∃ v, threads (run_sched t bench_work (concat (schedule r))
    (init d (spawn thread))) !! i = Some (Loaded v)).
  { intros i Hi. apply nine_rounds; try done.
    - intros j. by exists 10.
    - intros j p Hj. left. by apply spawn_inv in Hj as [-> _].
    - by apply spawn_lookup.
    - intros k Hk j Hj. apply (Hfair k Hk). apply elem_of_dom in Hj as [p Hj].
      by apply spawn_inv in Hj as [_ ?]. }
  rewrite join_all_loaded by (intros i Hi; apply elem_of_seq in Hi; apply Hall; lia).
  cbn. f_equal. destruct (Hall 0%nat Hn) as [v Hv].
  destruct (phase_agreement _ _ _ _ _ _ (bench_phase t d thread _) Hv) as ((w & [= <-] & _) & Hc & _).
  exact Hc.
Qed.

(** The benchmark passes: with fair schedules of release builds each round is
    joined, the latch can be used again, it ends in memory with the loaded
    value, and the statistics are printed in increasing order. *)
Theorem latch_benches_pass t runs :
  prof t = Release → Forall2 fair THREADS runs →
  ∃ out, page_latch_thread_benches t runs = (Ok out, PageTableLatch.mk PT_IN_MEMORY 10) ∧
    length out = length THREADS ∧ Forall ordered out.
Proof.
  intros Ht. unfold page_latch_thread_benches.
  assert (Hpos : Forall (λ n, 0 < n)%nat THREADS) by (apply (bool_decide_unpack _); exact I).
  revert runs Hpos. generalize THREADS as ns.
  induction ns as [|n ns IH]; intros runs Hpos Hf; inversion Hf as [|? r ? rs Hr Hrs]; subst; cbn.
  - by exists [].
  - inversion Hpos; subst. destruct (IH rs) as (out & E & Hlen & Ho); [done..|].
    exists (latencies (elapsed r <$> seq 0 n) :: out). unfold mbind, M_bind.
    rewrite bench_round_ok, E by done. split_and!; [done|cbn; by rewrite Hlen|].
    constructor; [|done]. apply latencies_ordered. destruct n; [lia|done].
Qed.

(** In debug builds the same test can panic: a thread that waits 256 times
    while another one loads overflows its counter, and [unwrap] on its join
    passes the panic on. *)
Theorem latch_bench_debug_panics r :
  let starve := [[0; 0; 0]; replicate 600 1; replicate 5 0]%nat in
  (bench_round (Target Debug LittleHost) 2 (Run starve r) (PageTableLatch.mk PT_IN_MEMORY 10)).1 = Panic.
Proof. vm_compute. reflexivity. Qed.
