(* ===== verification/LatchWeak.v ===== *)
(** * The latch under release/acquire memory

    The same code of src/src/buffer/page_table_latch.rs, with the orderings of
    its atomic accesses taken seriously.  The state is a location with a
    history of messages: a thread may read any message that is not older than
    the newest one it knows of, so reads can be stale.  A message carries the
    view of the thread that released it, and an acquire read joins that view.
    The data cell is not atomic: an access that is not ordered after every
    conflicting access by happens-before is a data race.

    Timestamps are natural numbers.  A store picks any free timestamp above the
    thread's own, a compare-exchange the one right after the message it read
    (no message can come between the two).  Since a store may leave gaps of
    any size, every modification order is covered. *)

From S2P Require Import Prelude Latch.
From stdpp Require Import strings.
#[local] Open Scope Z_scope.

(** std::sync::atomic::Ordering *)
Module Ordering.
Inductive t := Relaxed | Release | Acquire | AcqRel | SeqCst.
End Ordering.

Definition acquires (o : Ordering.t) : bool :=
  match o with Ordering.Acquire | Ordering.AcqRel | Ordering.SeqCst => true | _ => false end.
Definition releases (o : Ordering.t) : bool :=
  match o with Ordering.Release | Ordering.AcqRel | Ordering.SeqCst => true | _ => false end.

(** The orderings of the five accesses to the state. *)
Record orders := Orders {
  o_load : Ordering.t;      (* load: the test at the top of the loop *)
  o_cas : Ordering.t;       (* load: compare_exchange, success *)
  o_cas_fail : Ordering.t;  (* load: compare_exchange, failure *)
  o_store : Ordering.t;     (* load: publishing the data *)
  o_peek : Ordering.t }.    (* peek *)

Definition latch_orders : orders :=
  {| o_load := Ordering.Acquire; o_cas := Ordering.AcqRel; o_cas_fail := Ordering.Acquire;
     o_store := Ordering.Release; o_peek := Ordering.Acquire |}.

(** What a thread knows: the newest state message, and the accesses to the
    data that happen before its next action. *)
Record view := View { ts : nat; hb : gset nat }.

Definition join (V W : view) : view := View (ts V `max` ts W) (hb V ∪ hb W).
Definition no_view : view := View 0 ∅.

Record message := Msg { mval : Z; mview : view }.

Section Threads.
Context {T : Type}.

Record wconfig := WConfig {
  msgs : gmap nat message;           (* the history of the state *)
  wdata : T;                         (* the data cell *)
  writes : gset nat;                 (* the accesses to it so far *)
  reads : gset nat;
  next_access : nat;
  wthreads : gmap nat (pc T * view);
  wcalls : list (nat * T) }.

(** The result of one action. *)
Inductive outcome := Next (c : wconfig) | DataRace.

Context (t : target) (o : orders) (work : nat → T → work_result T).

Definition wgoto (i : nat) (p : pc T) (V : view) (c : wconfig) : wconfig :=
  {| msgs := msgs c; wdata := wdata c; writes := writes c; reads := reads c;
     next_access := next_access c; wthreads := <[i := (p, V)]> (wthreads c); wcalls := wcalls c |}.

(** An atomic read of message [k] with ordering [ord]: the new view. *)
Definition read_view (ord : Ordering.t) (k : nat) (m : message) (V : view) : view :=
  let V := View (ts V `max` k) (hb V) in
  if acquires ord then join V (mview m) else V.

Definition atomic_read (ord : Ordering.t) (k : nat) (V : view) (c : wconfig) : option (Z * view) :=
  match msgs c !! k with
  | Some m => if (ts V <=? k)%nat then Some (mval m, read_view ord k m V) else None
  | None => None
  end.

(** An atomic write of [v] at timestamp [k]; [base] is the view of the message a
    read-modify-write read, whose release sequence it continues. *)
Definition atomic_write (ord : Ordering.t) (k : nat) (v : Z) (V base : view) (c : wconfig) :
  view * wconfig :=
  let V := View (ts V `max` k) (hb V) in
  let m := Msg v (join base (if releases ord then V else View k ∅)) in
  (V, {| msgs := <[k := m]> (msgs c); wdata := wdata c; writes := writes c; reads := reads c;
         next_access := next_access c; wthreads := wthreads c; wcalls := wcalls c |}).

(** Non-atomic accesses to the data by thread [i], which goes on at [k]. *)
Definition data_read (i : nat) (V : view) (k : T → pc T) (c : wconfig) : outcome :=
  if bool_decide (writes c ⊆ hb V) then
    let n := next_access c in
    Next (wgoto i (k (wdata c)) (View (ts V) ({[n]} ∪ hb V))
      {| msgs := msgs c; wdata := wdata c; writes := writes c; reads := {[n]} ∪ reads c;
         next_access := S n; wthreads := wthreads c; wcalls := wcalls c |})
  else DataRace.

Definition data_write (i : nat) (V : view) (v : T) (k : pc T) (c : wconfig) : outcome :=
  if bool_decide (writes c ∪ reads c ⊆ hb V) then
    let n := next_access c in
    Next (wgoto i k (View (ts V) ({[n]} ∪ hb V))
      {| msgs := msgs c; wdata := v; writes := {[n]} ∪ writes c; reads := reads c;
         next_access := S n; wthreads := wthreads c; wcalls := wcalls c |})
  else DataRace.

(** One action of [load]; [k] is the timestamp it reads or writes. *)
Definition weak_load (i k : nat) (p : pc T) (V : view) (c : wconfig) : option outcome :=
  match p with
  | LoadState spin_count =>
      match atomic_read (o_load o) k V c with
      | Some (state, V) =>
          let q := if state =? PT_IN_MEMORY then ReadFast
                   else if state =? PT_ON_DISK then Cas spin_count
                   else if state =? PT_LOADING then Backoff spin_count
                   else LoadFailed "Invalid state" in
          Some (Next (wgoto i q V c))
      | None => None
      end
  | ReadFast => Some (data_read i V Loaded c)
  | Cas spin_count =>
      match msgs c !! k with
      | Some m =>
          if (ts V <=? k)%nat then
            if mval m =? PT_ON_DISK then
              match msgs c !! S k with
              | Some _ => None
              | None =>
                  let '(V, c) := atomic_write (o_cas o) (S k) PT_LOADING
                                   (read_view (o_cas o) k m V) (mview m) c in
                  Some (Next (wgoto i CloneForWork V c))
              end
            else Some (Next (wgoto i (LoadState spin_count) (read_view (o_cas_fail o) k m V) c))
          else None
      | None => None
      end
  | CloneForWork => Some (data_read i V RunWork c)
  | RunWork d =>
      let q := match work i d with WOk v => WriteData v | WErr msg => LoadFailed msg | WPanic => Panicked end in
      Some (Next (wgoto i q V
        {| msgs := msgs c; wdata := wdata c; writes := writes c; reads := reads c;
           next_access := next_access c; wthreads := wthreads c; wcalls := wcalls c ++ [(i, d)] |}))
  | WriteData v => Some (data_write i V v (StoreState v) c)
  | StoreState v =>
      if (ts V <? k)%nat then
        match msgs c !! k with
        | Some _ => None
        | None =>
            let '(V, c) := atomic_write (o_store o) k PT_IN_MEMORY V no_view c in
            Some (Next (wgoto i (Loaded v) V c))
        end
      else None
  | Backoff spin_count =>
      match add_w (E:=string) t u8_mod spin_count 1 with
      | Ok spin_count' => Some (Next (wgoto i (LoadState spin_count') V c))
      | _ => Some (Next (wgoto i Panicked V c))
      end
  | _ => None
  end.

(** One action of [peek]. *)
Definition weak_peek (i k : nat) (p : pc T) (V : view) (c : wconfig) : option outcome :=
  match p with
  | PeekState =>
      match atomic_read (o_peek o) k V c with
      | Some (state, V) => Some (Next (wgoto i (PeekData state) V c))
      | None => None
      end
  | PeekData st => Some (data_read i V (Peeked st) c)
  | _ => None
  end.

Definition weak_thread (i k : nat) (c : wconfig) : option outcome :=
  match wthreads c !! i with
  | None => None
  | Some (p, V) => match weak_load i k p V c with Some r => Some r | None => weak_peek i k p V c end
  end.

Inductive weak_step : wconfig → wconfig → Prop :=
| weak_step_intro i k c c' : weak_thread i k c = Some (Next c') → weak_step c c'.

(** Some thread can take an action that races. *)
Definition weak_race (c : wconfig) : Prop := ∃ i k, weak_thread i k c = Some DataRace.

(** Runs a list of choices (thread, timestamp), stopping at the first that is
    not possible. *)
Fixpoint run_choices (l : list (nat * nat)) (c : wconfig) : wconfig :=
  match l with
  | [] => c
  | (i, k) :: l => match weak_thread i k c with Some (Next c') => run_choices l c' | _ => c end
  end.

(** A fresh latch: its creation, access 0, happens before every thread. *)
Definition weak_init (d : T) (ps : gmap nat (pc T)) : wconfig :=
  let V := View 0 {[0%nat]} in
  {| msgs := {[0%nat := Msg PT_ON_DISK V]}; wdata := d; writes := {[0%nat]}; reads := ∅;
     next_access := 1; wthreads := (λ p, (p, V)) <$> ps; wcalls := [] |}.
End Threads.
Arguments wconfig : clear implicits.
Arguments outcome : clear implicits.
