(* ===== verification/LatchWeakFacts.v ===== *)
(** * The invariant of the latch under release/acquire memory

    [wphase] describes the configurations that loaders reach, provided the test
    of the state acquires and the publication releases; [wphase_step] shows
    that every action keeps it and that none of them races. *)

From S2P Require Import Prelude Latch LatchFacts LatchWeak.
From stdpp Require Import strings relations.
#[local] Open Scope Z_scope.

Section Invariant.
Context {T : Type} (t : target) (o : orders) (work : nat → T → work_result T) (d0 : T).
Context (Hload : acquires (o_load o) = true) (Hstore : releases (o_store o) = true).
Notation wconfig := (wconfig T).
Notation pc := (pc T).
Implicit Types (c : wconfig) (p : pc) (V : view) (i k w : nat).

(** The messages of the three phases. *)
Definition on_disk_msg k (m : message) : Prop := k = 0%nat ∧ mval m = PT_ON_DISK.
Definition loading_msg k (m : message) : Prop := k = 1%nat ∧ mval m = PT_LOADING.
Definition published_msg c k (m : message) : Prop :=
  (1 < k)%nat ∧ mval m = PT_IN_MEMORY ∧ writes c ⊆ hb (mview m).

(** A thread before its turn; the creation of the latch happens before it. *)
Definition wwaiting p V : Prop := waiting t p ∧ 0%nat ∈ hb V.

(** The owner has seen every access to the data. *)
Definition wowning w p V c : Prop :=
  match p with
  | CloneForWork => wdata c = d0 ∧ wcalls c = []
  | RunWork x => x = d0 ∧ wdata c = d0 ∧ wcalls c = []
  | WriteData v => work w d0 = WOk v ∧ wdata c = d0 ∧ wcalls c = [(w, d0)]
  | StoreState v => work w d0 = WOk v ∧ wdata c = v ∧ wcalls c = [(w, d0)]
  | LoadFailed msg => work w d0 = WErr msg ∧ wdata c = d0 ∧ wcalls c = [(w, d0)]
  | Panicked => work w d0 = WPanic ∧ wdata c = d0 ∧ wcalls c = [(w, d0)]
  | _ => False
  end ∧ writes c ∪ reads c ⊆ hb V ∧ (1 ≤ ts V)%nat.

Definition wsettled c (v : T) p V : Prop :=
  match p with
  | ReadFast => writes c ⊆ hb V
  | Loaded v' => v' = v
  | _ => waiting t p
  end.

#[local] Instance waiting_dec p : Decision (waiting t p).
Proof. destruct p; cbn; apply _. Defined.

Definition weveryone (P : nat → pc → view → Prop) c : Prop :=
  map_Forall (λ i '(p, V), P i p V) (wthreads c).

Inductive wphase c : Prop :=
| WOnDisk :
    is_Some (msgs c !! 0%nat) → map_Forall on_disk_msg (msgs c) →
    wdata c = d0 → wcalls c = [] → writes c = {[0%nat]} → reads c = ∅ →
    weveryone (λ _ p V, wwaiting p V) c → wphase c
| WLoading w p V :
    is_Some (msgs c !! 1%nat) → map_Forall (λ k m, on_disk_msg k m ∨ loading_msg k m) (msgs c) →
    wthreads c !! w = Some (p, V) → wowning w p V c →
    weveryone (λ i p V, i ≠ w → wwaiting p V) c → wphase c
| WInMemory w v :
    is_Some (msgs c !! 1%nat) →
    map_Forall (λ k m, on_disk_msg k m ∨ loading_msg k m ∨ published_msg c k m) (msgs c) →
    wdata c = v → work w d0 = WOk v → wcalls c = [(w, d0)] →
    weveryone (λ _ p V, wsettled c v p V) c → wphase c.

Lemma wphase_init ps : loaders ps → wphase (weak_init d0 ps).
Proof.
  intros Hps. apply WOnDisk; try done; cbn.
  - intros k m. rewrite lookup_singleton_Some. by intros [<- <-].
  - intros i [p V]. cbn. rewrite lookup_fmap_Some. intros (q & [= <- <-] & Hq).
    apply Hps in Hq as ->. split; [done|]. cbn. set_solver.
Qed.

Lemma weveryone_insert (P : nat → pc → view → Prop) c i q V :
  weveryone P c → P i q V → map_Forall (λ i '(p, V), P i p V) (<[i := (q, V)]> (wthreads c)).
Proof. intros. by apply map_Forall_insert_2. Qed.

Lemma weveryone_insert_owner (P : nat → pc → view → Prop) c i q V :
  weveryone (λ j p V, j ≠ i → P j p V) c → P i q V →
  map_Forall (λ i '(p, V), P i p V) (<[i := (q, V)]> (wthreads c)).
Proof.
  intros HP Hq j [p W]. destruct (decide (j = i)) as [->|].
  - rewrite lookup_insert_eq. by intros [= <- <-].
  - rewrite lookup_insert_ne by done. intros Hj. by apply (HP j (p, W)).
Qed.

Lemma weveryone_impl (P Q : nat → pc → view → Prop) c :
  weveryone P c → (∀ i p V, P i p V → Q i p V) → weveryone Q c.
Proof. intros HP HPQ i [p V] Hi. apply HPQ. exact (HP i (p, V) Hi). Qed.

Lemma hb_read_view ord k m V : hb V ⊆ hb (read_view ord k m V).
Proof. unfold read_view. destruct (acquires ord); cbn; set_solver. Qed.

(** A read through an acquiring access knows what the message's writer knew. *)
Lemma hb_acquire k m V : hb (mview m) ⊆ hb (read_view (o_load o) k m V).
Proof. unfold read_view. rewrite Hload. cbn. set_solver. Qed.

(** The state reads [PT_LOADING] or [PT_ON_DISK]: the thread keeps waiting. *)
Inductive wait_result i k V c : outcome T → Prop :=
| Waits q V' : waiting t q → hb V ⊆ hb V' → wait_result i k V c (Next (wgoto i q V' c))
| SeesData m V' :
    msgs c !! k = Some m → mval m = PT_IN_MEMORY → hb (mview m) ⊆ hb V' →
    wait_result i k V c (Next (wgoto i ReadFast V' c))
| SeesGarbage m r :
    msgs c !! k = Some m → mval m ≠ PT_ON_DISK → mval m ≠ PT_LOADING → mval m ≠ PT_IN_MEMORY →
    wait_result i k V c r
| Wins m V' m' :
    msgs c !! k = Some m → mval m = PT_ON_DISK → msgs c !! S k = None → mval m' = PT_LOADING →
    hb V ⊆ hb V' → (S k ≤ ts V')%nat →
    wait_result i k V c (Next (wgoto i CloneForWork V'
      {| msgs := <[S k := m']> (msgs c); wdata := wdata c; writes := writes c; reads := reads c;
         next_access := next_access c; wthreads := wthreads c; wcalls := wcalls c |})).

Lemma waiting_step i k p V c r :
  waiting t p → weak_load t o work i k p V c = Some r → wait_result i k V c r.
Proof.
  intros Hp. destruct p; try done; cbn [weak_load].
  - unfold atomic_read. destruct (msgs c !! k) as [m|] eqn:Hm; [|done].
    destruct (_ <=? _)%nat; [|done]. intros [= <-].
    destruct (Z.eqb_spec (mval m) PT_IN_MEMORY).
    { eapply SeesData; eauto using hb_acquire. }
    destruct (Z.eqb_spec (mval m) PT_ON_DISK); [apply Waits; [done|apply hb_read_view]|].
    destruct (Z.eqb_spec (mval m) PT_LOADING); [apply Waits; [done|apply hb_read_view]|].
    eapply SeesGarbage; eauto.
  - destruct (msgs c !! k) as [m|] eqn:Hm; [|done]. destruct (_ <=? _)%nat; [|done].
    destruct (Z.eqb_spec (mval m) PT_ON_DISK).
    + destruct (msgs c !! S k) eqn:HS; [done|]. intros [= <-].
      eapply Wins; eauto; cbn; [apply hb_read_view|lia].
    + intros [= <-]. apply Waits; [done|apply hb_read_view].
  - destruct (spin_count_add t spin_count) as [[s ->]|[-> ?]]; intros [= <-]; by apply Waits.
Qed.

Lemma waiting_no_peek i k p V c : waiting t p → weak_peek o i k p V c = None.
Proof. by destruct p. Qed.

Definition safe (r : outcome T) : Prop := ∃ c', r = Next c' ∧ wphase c'.

Lemma wdisk_step i k c r :
  is_Some (msgs c !! 0%nat) → map_Forall on_disk_msg (msgs c) →
  wdata c = d0 → wcalls c = [] → writes c = {[0%nat]} → reads c = ∅ →
  weveryone (λ _ p V, wwaiting p V) c → weak_thread t o work i k c = Some r → safe r.
Proof.
  intros H0 Hm Hd Hc Hw Hr Hall. unfold weak_thread.
  destruct (wthreads c !! i) as [[p V]|] eqn:Hi; [|done].
  destruct (Hall _ _ Hi) as [Hp H0V]. destruct (weak_load t o work i k p V c) eqn:E;
    [|by rewrite waiting_no_peek]. intros [= <-].
  destruct (waiting_step _ _ _ _ _ _ Hp E) as [q V' Hq Hhb|m V' Hk Hv _|m r' Hk ? ? ?|m V' m' Hk Hv HS Hv' Hhb Hts].
  - eexists; split; [done|]. apply WOnDisk; try done. apply weveryone_insert; [done|].
    split; [done|set_solver].
  - destruct (Hm _ _ Hk) as [_ E']. by rewrite E' in Hv.
  - destruct (Hm _ _ Hk) as [_ E']. congruence.
  - destruct (Hm _ _ Hk) as [-> _]. eexists; split; [done|].
    apply (WLoading _ i CloneForWork V'); cbn; rewrite ?lookup_insert_eq; auto.
    + apply map_Forall_insert_2; [by right|]. intros k' m1 Hk'. left. by apply Hm.
    + split_and!; cbn; rewrite ?Hw, ?Hr; [done..|set_solver|lia].
    + apply weveryone_insert; [|done]. eapply weveryone_impl; eauto.
Qed.

(** The owner's accesses to the data are ordered after all others. *)
Lemma owner_step k c r w p V :
  is_Some (msgs c !! 1%nat) → map_Forall (λ k m, on_disk_msg k m ∨ loading_msg k m) (msgs c) →
  wthreads c !! w = Some (p, V) → wowning w p V c →
  weveryone (λ i p V, i ≠ w → wwaiting p V) c → weak_thread t o work w k c = Some r → safe r.
Proof.
  intros H1 Hm Hw (Ho & Hseen & Hts) Hall. unfold weak_thread. rewrite Hw.
  assert (Hstay : ∀ q V' d wr rd n l,
    wowning w q V' (WConfig (msgs c) d wr rd n (wthreads c) l) →
    safe (Next (wgoto w q V' (WConfig (msgs c) d wr rd n (wthreads c) l)))).
  { intros q V' d wr rd n l Hq. eexists; split; [done|].
    apply (WLoading _ w q V'); cbn; rewrite ?lookup_insert_eq; try done.
    by apply weveryone_insert. }
  destruct p; try done; cbn [weak_load weak_peek]; destruct_and?; subst.
  - unfold data_read. rewrite bool_decide_true by set_solver. intros [= <-]. apply Hstay.
    split_and!; cbn; [done..|set_solver|done].
  - intros [= <-]. apply Hstay.
    destruct (work w d0) eqn:E; split_and!; cbn; try done; match goal with H : wcalls c = [] |- _ => by rewrite H end.
  - unfold data_write. rewrite bool_decide_true by done. intros [= <-]. apply Hstay.
    split_and!; cbn; [done..|set_solver|done].
  - destruct (Nat.ltb_spec (ts V) k); [|done]. destruct (msgs c !! k) eqn:Hk; [done|].
    intros [= <-]. eexists; split; [done|].
    eapply (WInMemory _ w (wdata c)); cbn; try done.
    + rewrite lookup_insert_ne by lia. done.
    + apply map_Forall_insert_2.
      * right. right. split_and!; cbn; [lia|done|]. rewrite Hstore. cbn. set_solver.
      * intros k' m' Hk'. destruct (Hm _ _ Hk'); auto.
    + apply weveryone_insert_owner; [|done].
      eapply weveryone_impl; [exact Hall|]. intros j q W Hq Hj. destruct (Hq Hj) as [Hq' _].
      destruct q; done.
Qed.

Lemma wloading_step i k c r w p V :
  is_Some (msgs c !! 1%nat) → map_Forall (λ k m, on_disk_msg k m ∨ loading_msg k m) (msgs c) →
  wthreads c !! w = Some (p, V) → wowning w p V c →
  weveryone (λ i p V, i ≠ w → wwaiting p V) c → weak_thread t o work i k c = Some r → safe r.
Proof.
  intros H1 Hm Hw Ho Hall. destruct (decide (i = w)) as [->|Hne].
  - by eapply owner_step.
  - unfold weak_thread. destruct (wthreads c !! i) as [[q W]|] eqn:Hi; [|done].
    destruct (Hall _ _ Hi Hne) as [Hq H0W]. destruct (weak_load t o work i k q W c) eqn:E;
      [|by rewrite waiting_no_peek]. intros [= <-].
    destruct (waiting_step _ _ _ _ _ _ Hq E) as [q' V' Hq' Hhb|m V' Hk Hv _|m r' Hk ? ? ?|m V' m' Hk Hv HS Hv' Hhb Hts].
    + eexists; split; [done|]. apply (WLoading _ w p V); cbn; rewrite ?lookup_insert_ne by done; try done.
      apply weveryone_insert; [done|]. intros _. split; [done|set_solver].
    + destruct (Hm _ _ Hk) as [[_ E']|[_ E']]; by rewrite E' in Hv.
    + destruct (Hm _ _ Hk) as [[_ E']|[_ E']]; congruence.
    + destruct (Hm _ _ Hk) as [[-> _]|[_ E']]; [|by rewrite E' in Hv].
      rewrite HS in H1. by destruct H1.
Qed.

Lemma wmemory_step i k c r w v :
  is_Some (msgs c !! 1%nat) →
  map_Forall (λ k m, on_disk_msg k m ∨ loading_msg k m ∨ published_msg c k m) (msgs c) →
  wdata c = v → work w d0 = WOk v → wcalls c = [(w, d0)] →
  weveryone (λ _ p V, wsettled c v p V) c → weak_thread t o work i k c = Some r → safe r.
Proof.
  intros H1 Hm Hd Hw Hc Hall. unfold weak_thread.
  destruct (wthreads c !! i) as [[p V]|] eqn:Hi; [|done]. pose proof (Hall _ _ Hi) as Hp.
  assert (Hgo : ∀ q V', wsettled c v q V' → safe (Next (wgoto i q V' c))).
  { intros q V' Hq. eexists; split; [done|]. apply (WInMemory _ w v); try done.
    by apply weveryone_insert. }
  destruct (decide (waiting t p)) as [Hwait|Hnot].
  - destruct (weak_load t o work i k p V c) eqn:E; [|by rewrite waiting_no_peek]. intros [= <-].
    destruct (waiting_step _ _ _ _ _ _ Hwait E) as [q V' Hq Hhb|m V' Hk Hv Hhb|m r' Hk ? ? ?|m V' m' Hk Hv HS Hv' Hhb Hts].
    + apply Hgo. by destruct q.
    + apply Hgo. destruct (Hm _ _ Hk) as [[_ E']|[[_ E']|(_ & _ & Hsub)]]; [by rewrite E' in Hv..|].
      cbn. set_solver.
    + destruct (Hm _ _ Hk) as [[_ E']|[[_ E']|(_ & E' & _)]]; congruence.
    + destruct (Hm _ _ Hk) as [[-> _]|[[_ E']|(_ & E' & _)]]; [|by rewrite E' in Hv..].
      rewrite HS in H1. by destruct H1.
  - destruct p; try done. cbn [weak_load]. cbn in Hp. unfold data_read.
    rewrite bool_decide_true by done. intros [= <-]. eexists; split; [done|].
    apply (WInMemory _ w v); try done. by apply weveryone_insert.
Qed.

Lemma wphase_step i k c r : wphase c → weak_thread t o work i k c = Some r → safe r.
Proof.
  intros []; [by apply wdisk_step|by eapply wloading_step|by eapply wmemory_step].
Qed.

Lemma wphase_reachable ps c :
  loaders ps → rtc (weak_step t o work) (weak_init d0 ps) c → wphase c.
Proof.
  intros Hps Hr. pose proof (wphase_init ps Hps) as H. induction Hr as [|c1 c2 c3 Hs _ IH]; [done|].
  apply IH. inversion Hs as [i k ? ? E]; subst.
  destruct (wphase_step i k c1 _ H E) as (c' & [= ->] & ?). done.
Qed.
End Invariant.
