(* ===== verification/LatchWeakProps.v ===== *)
(** * Theorems about the latch under release/acquire memory *)

From S2P Require Import Prelude Latch LatchFacts LatchWeak LatchWeakFacts LatchProps.
From stdpp Require Import strings relations.
#[local] Open Scope Z_scope.

(** C5: With the orderings the code uses, [load] has no data race and all its
    results agree, although threads may read stale states: in every execution
    of any number of loading threads under release/acquire memory, no thread
    can take a step whose access to the data is not ordered by happens-before
    after the conflicting ones; [work] is called at most once; and every
    value a [load] returns is its result on the initial data, which is what
    the data cell holds. *)
Theorem weak_load_safe {T} (t : target) (work : nat → T → work_result T) (d0 : T) ps c :
  loaders ps → rtc (weak_step t latch_orders work) (weak_init d0 ps) c →
  ¬ weak_race t latch_orders work c ∧ (length (wcalls c) ≤ 1)%nat ∧
  ∀ i v V, wthreads c !! i = Some (Loaded v, V) →
    (∃ w, work w d0 = WOk v ∧ wcalls c = [(w, d0)]) ∧ wdata c = v ∧
    ∀ j v' V', wthreads c !! j = Some (Loaded v', V') → v' = v.
Proof.
  intros Hps Hr.
  assert (Hp : wphase t work d0 c) by (by eapply (wphase_reachable t latch_orders work d0)).
  split_and!.
  - intros (i & k & E). destruct (wphase_step t latch_orders work d0 eq_refl eq_refl i k c _ Hp E)
      as (c' & ? & _). done.
  - destruct Hp as [_ _ _ -> _ _ _|w p V _ _ _ (Ho & _ & _) _|w v _ _ _ _ -> _]; cbn; [lia| |lia].
    destruct p; try done; destruct_and?; match goal with H : wcalls c = _ |- _ => rewrite H end; cbn; lia.
  - intros i v V Hi. destruct Hp as [_ _ _ _ _ _ Hall|w p W _ _ Hw Ho Hall|w v0 _ _ Hd Hwk Hc Hall].
    + by destruct (Hall _ _ Hi).
    + destruct (decide (i = w)) as [->|Hne]; [|by destruct (Hall _ _ Hi Hne)].
      rewrite Hw in Hi. simplify_eq. by destruct Ho.
    + assert (Heq : ∀ j v' V', wthreads c !! j = Some (Loaded v', V') → v' = v0)
        by (intros j v' V' Hj; exact (Hall _ _ Hj)).
      pose proof (Heq _ _ _ Hi). split_and!; [exists w; by subst|by subst|].
      intros j v' V' Hj. rewrite (Heq _ _ _ Hj). done.
Qed.

(** The choices of an execution in which thread 0 loads the data while thread 1
    waits for its turn; thread 1 then reads the published state. *)
Definition handover : list (nat * nat) :=
  [(0, 0); (0, 0); (0, 0); (0, 0); (0, 0); (0, 2); (1, 2)]%nat.

Lemma run_choices_rtc {T} t o (work : nat → T → work_result T) l c :
  rtc (weak_step t o work) c (run_choices t o work l c).
Proof.
  revert c. induction l as [|[i k] l IH]; intros c; cbn; [done|].
  destruct (weak_thread t o work i k c) as [[c'|]|] eqn:E; [|done..].
  eapply rtc_l; [by eapply weak_step_intro|done].
Qed.

(** C40: The two orderings that matter are needed.  If the test of the state did
    not acquire, or the publication did not release, a thread that sees
    [PT_IN_MEMORY] could race with the write of the data; the orderings of the
    compare-exchange make no difference. *)
Theorem orderings_needed {T} (t : target) (o : orders) (d0 v : T) :
  let work := λ (_ : nat) (_ : T), WOk v in
  (acquires (o_load o) = true ∧ releases (o_store o) = true) ↔
  ∀ ps c, loaders ps → rtc (weak_step t o work) (weak_init d0 ps) c → ¬ weak_race t o work c.
Proof.
  intros work. split.
  - intros [Hl Hs] ps c Hps Hr (i & k & E).
    pose proof (wphase_reachable t o work d0 Hl Hs ps c Hps Hr) as Hp.
    by destruct (wphase_step t o work d0 Hl Hs i k c _ Hp E) as (c' & ? & _).
  - intros Hfree. specialize (Hfree two_loaders _ (two_loaders_loaders T)
      (run_choices_rtc t o work handover (weak_init d0 two_loaders))).
    destruct o as [ol oc oe os op]. cbn [o_load o_store].
    destruct (acquires ol) eqn:El, (releases os) eqn:Es; [done|exfalso; apply Hfree; exists 1%nat, 0%nat..].
    all: destruct ol, os; try discriminate; destruct oc; vm_compute; reflexivity.
Qed.

Lemma weak_load_safe_witness :
  let c := run_choices rel latch_orders ok_work (handover ++ [(1, 0)]%nat) (weak_init 4096 two_loaders) in
  (λ x, x.1) <$> wthreads c !! 1%nat = Some (Loaded 4103) ∧ ¬ weak_race rel latch_orders ok_work c.
Proof.
  split; [vm_compute; reflexivity|].
  exact (proj1 (weak_load_safe rel ok_work 4096 two_loaders _ (two_loaders_loaders Z)
    (run_choices_rtc _ _ _ (handover ++ [(1, 0)]%nat) _))).
Defined.
