(* ===== verification/PageTable.v ===== *)
(** * The page table (src/src/buffer/page_table.rs)

    [PageTable] is the trait, with the laws its users rely on in
    [PageTableLaws]; [NaiveMappingTable] is the implementation, a [HashMap]
    behind an [RwLock].  A [PageTableHandle] is an [Arc], so a handle is an
    address and entries live in a shared heap: copies of a handle alias the
    same latch. *)

From S2P Require Import Prelude Bytes PageTypes RwLock Latch.
From stdpp Require Import strings.
#[local] Open Scope Z_scope.

Inductive PageTableResult :=
| Disk (offset : Z)
| Memory (frame : Z).

#[global] Instance PageTableResult_eq_dec : EqDecision PageTableResult.
Proof. solve_decision. Defined.

Definition PageTableEntry : Type := PageTableLatch.latch PageTableResult.

Module PageTableEntryImpl.
Definition new {E} (t : target) (id : PageID) : res E PageTableEntry :=
  offset ← PageIDImpl.to_offset t id;
  Ok (PageTableLatch.new (Disk offset)).
End PageTableEntryImpl.

(** An [Arc<PageTableEntry>]: an address in the heap of entries. *)
Definition PageTableHandle : Type := nat.

(** [HashMap] lookups and insertions do not fail, so the error type is empty. *)
Class PageTable (S : Type) := {
  get : PageID → M S Empty_set (option PageTableHandle);
  insert : PageID → PageTableHandle → M S Empty_set unit }.

(** What a user of the trait may assume: a well-formed table behaves as the
    finite map [table_map]. *)
Class PageTableLaws (S : Type) `{PageTable S} := {
  table_ok : S → Prop;
  table_map : S → gmap PageID PageTableHandle;
  get_law s id : table_ok s → get id s = (Ok (table_map s !! id), s);
  insert_law s id h : table_ok s → ∃ s', insert id h s = (Ok tt, s') ∧
    table_ok s' ∧ table_map s' = <[id := h]> (table_map s) }.

Record NaiveMappingTable := MkNaive { map_ : RwLock (gmap PageID PageTableHandle) }.

Module NaiveMappingTableImpl.
Definition new : NaiveMappingTable := MkNaive (RwLockImpl.new ∅).

Definition get (page_id : PageID) : M NaiveMappingTable Empty_set (option PageTableHandle) := λ s,
  let '(r, l) := RwLockImpl.with_read (λ m, Ok (m !! page_id)) (map_ s) in (r, MkNaive l).

Definition insert (page_id : PageID) (entry : PageTableHandle) : M NaiveMappingTable Empty_set unit := λ s,
  let '(r, l) := RwLockImpl.with_write (λ m, (Ok tt, <[page_id := entry]> m)) (map_ s) in
  (r, MkNaive l).
End NaiveMappingTableImpl.

#[global] Instance naive_page_table : PageTable NaiveMappingTable := {
  get := NaiveMappingTableImpl.get;
  insert := NaiveMappingTableImpl.insert }.

(** ** The table, the entries and the threads that use them

    The system of the module's usage: a thread creates an entry for a page id
    and inserts it, inserts a handle it already has, or looks a page id up and
    loads the entry through the handle it got.  [entries] maps every handle to
    its latch with the threads working on it; [origin] is a ghost record of
    the page id an entry was created for. *)
Section System.
Context {S : Type} `{PageTable S}.
Context (t : target) (work : nat → PageTableResult → work_result PageTableResult).

Record system := System {
  table : S;
  entries : gmap PageTableHandle (config PageTableResult);
  origin : gmap PageTableHandle PageID }.

Inductive event :=
| Create (id : PageID)                        (* insert(id, Arc::new(PageTableEntry::new(id))) *)
| Insert (id : PageID) (h : PageTableHandle)  (* insert(id, h.clone()) *)
| Load (i : nat) (id : PageID)                (* thread i: get(id).unwrap().state.load(..) *)
| Run (i : nat) (h : PageTableHandle).        (* one action of thread i inside load *)

Definition handle_event (e : event) (s : system) : option system :=
  match e with
  | Create id =>
      match PageTableEntryImpl.new (E:=Empty_set) t id with
      | Ok e =>
          let h := fresh (dom (entries s)) in
          match insert id h (table s) with
          | (Ok _, tb) => Some (System tb
              (<[h := Config e ∅ [] []]> (entries s)) (<[h := id]> (origin s)))
          | _ => None
          end
      | _ => None
      end
  | Insert id h =>
      if decide (h ∈ dom (entries s)) then
        match insert id h (table s) with
        | (Ok _, tb) => Some (System tb (entries s) (origin s))
        | _ => None
        end
      else None
  | Load i id =>
      match get id (table s) with
      | (Ok (Some h), tb) =>
          match entries s !! h with
          | Some c =>
              if decide (i ∈ dom (threads c)) then None
              else Some (System tb (<[h := goto i (LoadState 0) c]> (entries s)) (origin s))
          | None => None
          end
      | _ => None
      end
  | Run i h =>
      match entries s !! h with
      | Some c =>
          match step_thread t work i c with
          | Some c' => Some (System (table s) (<[h := c']> (entries s)) (origin s))
          | None => None
          end
      | None => None
      end
  end.

Fixpoint handle_events (es : list event) (s : system) : option system :=
  match es with
  | [] => Some s
  | e :: es => match handle_event e s with Some s' => handle_events es s' | None => None end
  end.
End System.
Arguments system : clear implicits.
Arguments System {S}.
