(* ===== verification/PageTableProps.v ===== *)
(** * Theorems about the page table

    [NaiveMappingTable] keeps the laws of the trait; the invariant of the
    threads that load entries through a table is proved against the trait. *)

From S2P Require Import Prelude Bytes PageTypes RwLock Latch LatchFacts LatchProgress PageTable.
From stdpp Require Import strings relations.
#[local] Open Scope Z_scope.

(** ** NaiveMappingTable implements the trait *)

#[global] Program Instance naive_page_table_laws : PageTableLaws NaiveMappingTable := {
  table_ok s := available (map_ s);
  table_map s := value (map_ s) }.
Next Obligation.
  intros [l] id Hl. unfold available in Hl. cbn in *. rewrite Hl. reflexivity.
Qed.
Next Obligation.
  intros [l] id h Hl. unfold available in Hl. cbn in *. rewrite Hl.
  eexists. split; [reflexivity|]. done.
Qed.

(** ** Page offsets *)

(** C32: [to_offset] is exact and injective on the page ids whose offset fits
    in 64 bits, [id < 2^52].  Above that the multiplication panics in the debug
    profile and in the release profile maps the page onto another one's offset. *)
Theorem page_offset_bounds (t : target) (id : PageID) :
  0 ≤ PageID_0 id < u64_mod →
  (PageID_0 id < 2 ^ 52 → PageIDImpl.to_offset (E:=Empty_set) t id = Ok (4096 * PageID_0 id)) ∧
  (2 ^ 52 ≤ PageID_0 id → prof t = Debug → PageIDImpl.to_offset (E:=Empty_set) t id = Panic) ∧
  (2 ^ 52 ≤ PageID_0 id → prof t = Release →
     ∃ id', 0 ≤ PageID_0 id' < 2 ^ 52 ∧ id' ≠ id ∧
       PageIDImpl.to_offset (E:=Empty_set) t id = PageIDImpl.to_offset t id').
Proof.
  destruct id as [n]. cbn [PageID_0]. intros Hn. unfold PageIDImpl.to_offset. cbn [PageID_0].
  change PAGE_SIZE with 4096. split_and!.
  - intros Hlt. rewrite mul_w_ok by (unfold u64_mod; lia). f_equal. lia.
  - intros Hge Hd. unfold mul_w, arith_w. rewrite Hd, (proj2 (Z.ltb_ge _ _)); [|unfold u64_mod; lia].
    by rewrite andb_false_r.
  - intros Hge Hr. exists (MkPageID (n mod 2 ^ 52)). cbn [PageID_0].
    pose proof (Z.mod_pos_bound n (2 ^ 52) ltac:(lia)). split_and!; [lia..| |].
    + intros [= E]. lia.
    + rewrite (mul_w_ok t u64_mod (n mod 2 ^ 52) 4096) by (unfold u64_mod; lia).
      unfold mul_w, arith_w. rewrite Hr, (proj2 (Z.ltb_ge _ _)), andb_false_r by (unfold u64_mod; lia).
      change u64_mod with (2 ^ 52 * 4096). by rewrite Z.mul_mod_distr_r by lia.
Qed.

(** ** The system of threads that load through a table *)

Section System.
Context {S : Type} `{PageTableLaws S}.
Context (t : target) (work : nat → PageTableResult → work_result PageTableResult).
Implicit Types (s : system S) (h : PageTableHandle).

(** Every handle in the table has an entry, and every entry is a latch in a
    legal phase of loading the page it was created for. *)
Record coherent s : Prop := {
  coherent_table : table_ok (table s);
  coherent_handles id h : table_map (table s) !! id = Some h → h ∈ dom (entries s);
  coherent_entries h c : entries s !! h = Some c →
    ∃ id off, origin s !! h = Some id ∧ PageIDImpl.to_offset (E:=Empty_set) t id = Ok off ∧
      phase t work (Disk off) c }.

Lemma coherent_new tb : table_ok tb → table_map tb = ∅ → coherent (System tb ∅ ∅).
Proof. intros Hok Hm. split; cbn; [done| |done]. intros id h. by rewrite Hm. Qed.

(** Replacing the configuration of an entry by a legal successor. *)
Lemma coherent_update s tb h c c' :
  coherent s → table_ok tb → table_map tb = table_map (table s) → entries s !! h = Some c →
  (∀ d, phase t work d c → phase t work d c') →
  coherent (System tb (<[h := c']> (entries s)) (origin s)).
Proof.
  intros [Hok Hh He] Htb Hm Hc Hphase. split; cbn; [done| |].
  - intros id h'. rewrite Hm. intros Hid. rewrite dom_insert_L. set_solver.
  - intros h' c1. rewrite lookup_insert_Some. intros [[<- <-]|[_ Hl]]; [|eauto].
    destruct (He _ _ Hc) as (id & off & ? & ? & ?). exists id, off. auto.
Qed.

Lemma coherent_insert s tb id h :
  coherent s → table_ok tb → table_map tb = <[id := h]> (table_map (table s)) →
  h ∈ dom (entries s) → coherent (System tb (entries s) (origin s)).
Proof.
  intros [Hok Hh He] Htb Hm Hin. split; cbn; [done| |done].
  intros id' h'. rewrite Hm, lookup_insert_Some. intros [[_ <-]|[_ ?]]; eauto.
Qed.

Lemma coherent_create s tb id off :
  let h := fresh (dom (entries s)) in
  coherent s → table_ok tb → table_map tb = <[id := h]> (table_map (table s)) →
  PageIDImpl.to_offset (E:=Empty_set) t id = Ok off →
  coherent (System tb (<[h := Config (PageTableLatch.new (Disk off)) ∅ [] []]> (entries s))
    (<[h := id]> (origin s))).
Proof.
  intros h [Hok Hh He] Htb Hm Hoff.
  assert (Hfresh : h ∉ dom (entries s)) by apply is_fresh.
  split; cbn; [done| |].
  - intros id' h'. rewrite Hm, lookup_insert_Some, dom_insert_L. set_solver.
  - intros h' c. rewrite lookup_insert_Some. intros [[<- <-]|[Hne Hl]].
    + exists id, off. rewrite lookup_insert_eq. split_and!; [done..|].
      change (Config _ _ _ _) with (init (Disk off) ∅). apply phase_init. intros i p Hi. by rewrite lookup_empty in Hi.
    + destruct (He _ _ Hl) as (id' & off' & ? & ? & ?). exists id', off'.
      rewrite lookup_insert_ne by done. auto.
Qed.

Lemma coherent_event e s s' :
  coherent s → handle_event t work e s = Some s' → coherent s'.
Proof.
  intros Hc. pose proof (coherent_table s Hc) as Hok. destruct e as [id|id h|i id|i h]; cbn.
  - unfold PageTableEntryImpl.new. destruct (PageIDImpl.to_offset (E:=Empty_set) t id) as [off| | | |] eqn:Hoff; cbn; try done.
    destruct (insert_law (table s) id (fresh (dom (entries s))) Hok) as (tb & -> & Htb & Hm).
    cbn. intros [= <-]. by apply (coherent_create s tb id off).
  - case_decide as Hin; [|done].
    destruct (insert_law (table s) id h Hok) as (tb & -> & Htb & Hm).
    cbn. intros [= <-]. by apply (coherent_insert s tb id h).
  - rewrite get_law by done. destruct (table_map (table s) !! id) as [h|]; [|done].
    destruct (entries s !! h) as [c|] eqn:Hh; [|done]. case_decide; [done|]. intros [= <-].
    eapply coherent_update; eauto using phase_join.
  - destruct (entries s !! h) as [c|] eqn:Hh; [|done].
    destruct (step_thread t work i c) as [c'|] eqn:Hs; [|done]. intros [= <-].
    eapply coherent_update; eauto using phase_step, step_intro.
Qed.

Lemma coherent_events es s s' :
  coherent s → handle_events t work es s = Some s' → coherent s'.
Proof.
  revert s. induction es as [|e es IH]; intros s Hc; cbn; [by intros [= <-]|].
  destruct (handle_event t work e s) eqn:E; [|done]. eauto using coherent_event.
Qed.
End System.

(** The offset an entry is created with is the page number times the page size,
    in 64 bits; in the debug profile it is not truncated. *)
Lemma to_offset_value t id off :
  PageIDImpl.to_offset (E:=Empty_set) t id = Ok off →
  off = (4096 * PageID_0 id) mod 2 ^ 64 ∧ (prof t = Debug → off = 4096 * PageID_0 id).
Proof.
  unfold PageIDImpl.to_offset, mul_w, arith_w. change PAGE_SIZE with 4096. rewrite (Z.mul_comm _ 4096).
  change u64_mod with (2 ^ 64). destruct (_ && _) eqn:E.
  - intros [= <-]. apply andb_true_iff in E as [?%Z.leb_le ?%Z.ltb_lt]. by rewrite Z.mod_small.
  - destruct (prof t); [done|]. by intros [= <-].
Qed.

(** C12: loading through the page table.  However threads create entries,
    insert handles, look page ids up and run [load], the table never holds a
    dangling handle; every entry was created for one page id, and [work] is
    only ever called for it with the disk offset of that page, 4096 times the
    id in 64 bits (exactly, in debug builds); and all threads that loaded
    through the same handle got the same location, the result of the only call
    of [work] for that entry. *)
Theorem page_table_load_agreement (t : target) work es s :
  handle_events t work es (System NaiveMappingTableImpl.new ∅ ∅) = Some s →
  (∀ id h, value (map_ (table s)) !! id = Some h → is_Some (entries s !! h)) ∧
  (∀ h c, entries s !! h = Some c →
     ∃ id off, origin s !! h = Some id ∧
       off = (4096 * PageID_0 id) mod 2 ^ 64 ∧ (prof t = Debug → off = 4096 * PageID_0 id) ∧
       (∀ w d, (w, d) ∈ calls c → d = Disk off) ∧
       ∀ i v, threads c !! i = Some (Loaded v) →
         (∃ w, work w (Disk off) = WOk v ∧ calls c = [(w, Disk off)]) ∧
         ∀ j v', threads c !! j = Some (Loaded v') → v' = v).
Proof.
  intros Hes.
  assert (Hc : coherent t work s).
  { eapply coherent_events, Hes. by apply coherent_new. }
  split.
  - intros id h Hl. apply elem_of_dom. exact (coherent_handles _ _ _ Hc _ _ Hl).
  - intros h c Hh. destruct (coherent_entries _ _ _ Hc _ _ Hh) as (id & off & Hid & Hoff & Hp).
    destruct (to_offset_value t id off Hoff) as [Hv Hd]. exists id, off. split_and!; try done.
    + intros w d Hin. by apply (phase_calls t work (Disk off) c w d Hp) in Hin.
    + intros i v Hi. destruct (phase_agreement _ _ _ _ _ _ Hp Hi) as (? & _ & ?). done.
Qed.

(** ** Witnesses *)

Lemma page_offset_bounds_witness :
  0 ≤ 1234 < u64_mod ∧
  PageIDImpl.to_offset (E:=Empty_set) (Target Release LittleHost) (MkPageID 1234) = Ok (4096 * 1234).
Proof.
  split; [split; vm_compute; congruence|].
  refine (proj1 (page_offset_bounds (Target Release LittleHost) (MkPageID 1234) _) _);
    [split; vm_compute; congruence|reflexivity].
Defined.

(** Two threads load page 1234 through the table. *)
Definition frame_work (_ : nat) (_ : PageTableResult) : work_result PageTableResult :=
  WOk (Memory 1234).
Definition two_threads : list event :=
  [Create (MkPageID 1234); Create (MkPageID 5678);
   Load 0 (MkPageID 1234); Load 1 (MkPageID 1234)] ++
  replicate 6 (Run 0 0%nat) ++ replicate 2 (Run 1 0%nat).
Definition final : system NaiveMappingTable :=
  default (System NaiveMappingTableImpl.new ∅ ∅)
    (handle_events (Target Release LittleHost) frame_work two_threads
      (System NaiveMappingTableImpl.new ∅ ∅)).
Definition final_entry : config PageTableResult :=
  default (init (Disk 0) ∅) (entries final !! 0%nat).

Lemma page_table_load_agreement_witness :
  threads final_entry !! 1%nat = Some (Loaded (Memory 1234)) ∧
  is_Some (entries final !! 1%nat) ∧
  calls final_entry = [(0%nat, Disk 5054464)].
Proof.
  split_and!; [vm_compute; reflexivity| |].
  - refine (proj1 (page_table_load_agreement (Target Release LittleHost) frame_work two_threads final _)
      (MkPageID 5678) 1%nat _); vm_compute; reflexivity.
  - vm_compute. reflexivity.
Defined.
