(* ===== verification/PageFrame.v ===== *)
(** * The page frame (src/src/buffer/page_frame.rs)

    A frame owns a page behind an [RwLock].  A guard is the right to use the
    page in place, so [raw] of a guard reads and writes the bytes inside the
    frame; a guard value itself carries the page kind.  Guards are released by
    [drop], also when a panic unwinds through their scope. *)

From S2P Require Import Prelude Bytes PageTypes Slotted RwLock.

Inductive PageFrameError := InvalidPageKind.

#[global] Instance PageFrameError_eq_dec : EqDecision PageFrameError.
Proof. solve_decision. Defined.

Record PageFrame := MkPageFrame {
  checksum : Z; kind : PageKind; dirty : bool; latch : RwLock RawPage; pin : Z }.

Record FrameReadGuard := MkFrameReadGuard { read_kind : PageKind }.
Record FrameWriteGuard := MkFrameWriteGuard { write_kind : PageKind }.

Definition with_latch (l : RwLock RawPage) (fr : PageFrame) : PageFrame :=
  {| checksum := checksum fr; kind := kind fr; dirty := dirty fr; latch := l; pin := pin fr |}.

(** An action on the lock of a frame. *)
Definition on_latch {E A} (m : M (RwLock RawPage) E A) : M PageFrame E A := λ fr,
  let '(r, l) := m (latch fr) in (r, with_latch l fr).

(** The bytes of the frame, and an action on them in place. *)
Definition page_of (fr : PageFrame) : RawPage := value (latch fr).
Definition on_page {E A} (m : M RawPage E A) : M PageFrame E A :=
  on_latch (λ l, let '(r, p) := m (value l) in
    (r, MkRwLock p (readers l) (writer l) (poisoned l))).

Module FrameReadGuardImpl.
Definition new (kind : PageKind) : FrameReadGuard := MkFrameReadGuard kind.
Definition raw (self : FrameReadGuard) (fr : PageFrame) : RawPage := page_of fr.
Definition deref (self : FrameReadGuard) (fr : PageFrame) : RawPage := page_of fr.

Definition slotted_ref (self : FrameReadGuard) (fr : PageFrame) : res PageFrameError RawPage :=
  if PageKindImpl.uses_slotted_page_layout (read_kind self)
  then Ok (SlottedPageRef.from_bytes (raw self fr))
  else Err InvalidPageKind.

Definition drop (self : FrameReadGuard) : PageFrame → PageFrame := λ fr,
  with_latch (RwLockImpl.drop_read (latch fr)) fr.
End FrameReadGuardImpl.

Module FrameWriteGuardImpl.
Definition new (kind : PageKind) : FrameWriteGuard := MkFrameWriteGuard kind.
Definition raw (self : FrameWriteGuard) (fr : PageFrame) : RawPage := page_of fr.
Definition deref (self : FrameWriteGuard) (fr : PageFrame) : RawPage := page_of fr.
Definition deref_mut (self : FrameWriteGuard) (fr : PageFrame) : RawPage := page_of fr.

Definition slotted_mut (self : FrameWriteGuard) (fr : PageFrame) : res PageFrameError RawPage :=
  if PageKindImpl.uses_slotted_page_layout (write_kind self)
  then Ok (SlottedPageMut.from_bytes (page_of fr))
  else Err InvalidPageKind.

Definition drop (self : FrameWriteGuard) (panicking : bool) : PageFrame → PageFrame := λ fr,
  with_latch (RwLockImpl.drop_write panicking (latch fr)) fr.
End FrameWriteGuardImpl.

Module PageFrameImpl.
Section Methods.
Context {E : Type}.

Definition new (checksum : Z) (kind : PageKind) (raw_page : RawPage) : PageFrame :=
  {| checksum := checksum; kind := kind; dirty := false;
     latch := RwLockImpl.new raw_page; pin := 0 |}.

Definition read_guard : M PageFrame E FrameReadGuard :=
  _ ← on_latch RwLockImpl.read;
  k ← rd (λ fr, Ok (kind fr));
  mret (FrameReadGuardImpl.new k).

Definition write_guard : M PageFrame E FrameWriteGuard :=
  _ ← on_latch RwLockImpl.write;
  k ← rd (λ fr, Ok (kind fr));
  mret (FrameWriteGuardImpl.new k).

(** [f(r.raw()); drop(r)]: an unwinding [f] drops the guard, an [f] that never
    returns keeps it.  [f] hands what it captured to its caller as its result. *)
Definition read {A} (f : RawPage → res E A) : M PageFrame E A := λ fr,
  match read_guard fr with
  | (Ok r, fr1) =>
      match f (FrameReadGuardImpl.raw r fr1) with
      | Diverge => (Diverge, fr1)
      | UB => (UB, fr1)
      | res => (res, FrameReadGuardImpl.drop r fr1)
      end
  | (Err e, fr1) => (Err e, fr1)
  | (Panic, fr1) => (Panic, fr1)
  | (UB, fr1) => (UB, fr1)
  | (Diverge, fr1) => (Diverge, fr1)
  end.

Definition write {A} (f : M RawPage E A) : M PageFrame E A := λ fr,
  match write_guard fr with
  | (Ok w, fr1) =>
      match on_page f fr1 with
      | (Diverge, fr2) => (Diverge, fr2)
      | (UB, fr2) => (UB, fr2)
      | (Panic, fr2) => (Panic, FrameWriteGuardImpl.drop w true fr2)
      | (r, fr2) => (r, FrameWriteGuardImpl.drop w false fr2)
      end
  | (Err e, fr1) => (Err e, fr1)
  | (Panic, fr1) => (Panic, fr1)
  | (UB, fr1) => (UB, fr1)
  | (Diverge, fr1) => (Diverge, fr1)
  end.
End Methods.
End PageFrameImpl.
