(* ===== verification/PageFrameProps.v ===== *)
(** * Theorems about page frames

    What is written through a frame is what is read from it later, also
    through the slotted views, and a panic while writing closes the frame. *)

From S2P Require Import Prelude Bytes PageTypes Slotted SlottedHeader SlottedCells SlottedProps.
From S2P Require Import RwLock PageFrame.

(** No guard alive, not poisoned. *)
Definition frame_free (fr : PageFrame) : Prop := available (latch fr).

Lemma frame_free_eq fr : frame_free fr → fr = with_latch (RwLockImpl.new (page_of fr)) fr.
Proof. destruct fr as [? ? ? l ?]. unfold frame_free, available. cbn. by intros ->. Qed.

Definition held_for_writing (fr : PageFrame) : PageFrame :=
  with_latch (MkRwLock (page_of fr) 0 true false) fr.
Definition held_for_reading (fr : PageFrame) : PageFrame :=
  with_latch (MkRwLock (page_of fr) 1 false false) fr.

Section Guards.
Context {E : Type}.

Lemma write_guard_free fr :
  frame_free fr →
  PageFrameImpl.write_guard (E:=E) fr = (Ok (MkFrameWriteGuard (kind fr)), held_for_writing fr).
Proof. intros H. rewrite (frame_free_eq fr H). reflexivity. Qed.

Lemma read_guard_free fr :
  frame_free fr →
  PageFrameImpl.read_guard (E:=E) fr = (Ok (MkFrameReadGuard (kind fr)), held_for_reading fr).
Proof. intros H. rewrite (frame_free_eq fr H). reflexivity. Qed.

Lemma write_free {A} (f : M RawPage E A) fr r p' :
  frame_free fr → f (page_of fr) = (r, p') → defined r →
  PageFrameImpl.write f fr = (r, with_latch (RwLockImpl.new p') fr).
Proof.
  intros H Hf Hr. unfold PageFrameImpl.write. rewrite write_guard_free by done.
  unfold on_page, on_latch. cbn. rewrite Hf. by destruct r.
Qed.

Lemma write_panic {A} (f : M RawPage E A) fr p' :
  frame_free fr → f (page_of fr) = (Panic, p') →
  PageFrameImpl.write f fr = (Panic, with_latch (MkRwLock p' 0 false true) fr).
Proof.
  intros H Hf. unfold PageFrameImpl.write. rewrite write_guard_free by done.
  unfold on_page, on_latch. cbn. by rewrite Hf.
Qed.

Lemma read_free {A} (f : RawPage → res E A) fr :
  frame_free fr → f (page_of fr) ≠ Diverge → f (page_of fr) ≠ UB →
  PageFrameImpl.read f fr = (f (page_of fr), fr).
Proof.
  intros H Hd Hu. unfold PageFrameImpl.read. rewrite read_guard_free by done.
  assert (Hdrop : FrameReadGuardImpl.drop (MkFrameReadGuard (kind fr)) (held_for_reading fr) = fr)
    by exact (eq_sym (frame_free_eq fr H)).
  rewrite Hdrop. unfold FrameReadGuardImpl.raw.
  change (page_of (held_for_reading fr)) with (page_of fr). by destruct (f (page_of fr)).
Qed.
End Guards.

(** Insertions through a mutable view, collecting their results. *)
Definition run_view {E} (t : target) (ops : list page_op) : M RawPage E (list (res PageError unit)) :=
  λ p, let '(rs, p') := run t ops p in (Ok rs, p').

(** Frames hold slotted pages.  On a free frame of one of the three index
    kinds whose page represents the list [cells], take the write guard, run
    any insertions through [slotted_mut], drop the guard, and look a slot up
    through [slotted_ref] of a read guard: the insertions return what the list
    specification returns, the lookup finds the cells of the resulting list,
    the frame is free again and its kind, checksum, dirty flag and pin count
    are what they were.  On a frame of any other kind both views are refused
    with [InvalidPageKind]. *)
Theorem frame_slotted_roundtrip {E} t fr lim cells ops id :
  frame_free fr → slotted (page_of fr) lim cells → Forall op_ok ops → 0 ≤ SlotID_0 id →
  let slotted_kind := bool_decide (kind fr ∈ [IndexInternal; IndexMiniLeaf; IndexLeaf]) in
  ∃ w fr1, PageFrameImpl.write_guard (E:=E) fr = (Ok w, fr1) ∧
  if slotted_kind then
    ∃ page, FrameWriteGuardImpl.slotted_mut w fr1 = Ok page ∧ page = page_of fr ∧
    ∃ fr1', on_page (E:=E) (run_view t ops) fr1 = (Ok (spec_run lim ops cells).1, fr1') ∧
    let fr2 := FrameWriteGuardImpl.drop w false fr1' in
    frame_free fr2 ∧ fr2 = with_latch (latch fr2) fr ∧
    ∃ r fr3, PageFrameImpl.read_guard (E:=E) fr2 = (Ok r, fr3) ∧
    ∃ view, FrameReadGuardImpl.slotted_ref r fr3 = Ok view ∧
      SlottedPageRef.cell_slice_from_id t id view = spec_get (SlotID_0 id) (spec_run lim ops cells).2 ∧
      FrameReadGuardImpl.drop r fr3 = fr2
  else
    FrameWriteGuardImpl.slotted_mut w fr1 = Err InvalidPageKind ∧
    FrameWriteGuardImpl.drop w false fr1 = fr ∧
    ∃ r fr3, PageFrameImpl.read_guard (E:=E) fr = (Ok r, fr3) ∧
      FrameReadGuardImpl.slotted_ref r fr3 = Err InvalidPageKind.
Proof.
  intros Hfree Hsl Hops Hid. cbv zeta. eexists _, _. split; [by apply write_guard_free|].
  destruct (run_refines t lim ops _ _ Hsl Hops) as [Hrs Hsl'].
  case_bool_decide as Hk.
  - assert (Hu : PageKindImpl.uses_slotted_page_layout (kind fr) = true).
    { rewrite !elem_of_cons in Hk. by destruct Hk as [-> |[-> |[-> |[]%elem_of_nil]]]. }
    exists (page_of fr). unfold FrameWriteGuardImpl.slotted_mut. cbn [write_kind]. rewrite Hu.
    split; [done|]. split; [done|].
    unfold on_page, on_latch, run_view. cbn [latch held_for_writing with_latch value].
    destruct (run t ops (page_of fr)) as [rs page'] eqn:Er. cbn in Hrs, Hsl'. subst rs.
    eexists. split; [done|]. split; [done|]. split; [done|].
    eexists _, _. split; [by apply read_guard_free|].
    unfold FrameReadGuardImpl.slotted_ref. cbn [read_kind]. cbn [kind with_latch FrameWriteGuardImpl.drop held_for_writing].
    rewrite Hu. eexists. split; [done|]. split; [|done].
    by apply (cell_slice_from_id_slotted t page' lim).
  - assert (Hu : PageKindImpl.uses_slotted_page_layout (kind fr) = false).
    { destruct (kind fr); try done; exfalso; apply Hk; set_solver. }
    unfold FrameWriteGuardImpl.slotted_mut. cbn [write_kind]. rewrite Hu. split; [done|].
    split; [symmetry; by apply frame_free_eq|].
    eexists _, _. split; [by apply read_guard_free|].
    unfold FrameReadGuardImpl.slotted_ref. cbn [read_kind]. by rewrite Hu.
Qed.

(** C25: the closure interface.  On a free frame, [write f] runs [f] on the
    page, and a following [read g] runs [g] on exactly the bytes [f] left,
    with no other field changed.  If [f] panics, the bytes it had written
    stay, and from then on every [read] and [write] panics without running
    its closure; a panic inside [read] leaves the frame as it was. *)
Theorem frame_closures {E A B} (f : M RawPage E A) (g : RawPage → res E B) fr p' :
  frame_free fr → g p' ≠ Diverge → g p' ≠ UB →
  (∀ a, f (page_of fr) = (Ok a, p') →
     let fr' := with_latch (RwLockImpl.new p') fr in
     PageFrameImpl.write f fr = (Ok a, fr') ∧ PageFrameImpl.read g fr' = (g p', fr')) ∧
  (f (page_of fr) = (Panic, p') →
     let fr' := (PageFrameImpl.write f fr).2 in
     (PageFrameImpl.write f fr).1 = Panic ∧ page_of fr' = p' ∧
     ∀ C (f' : M RawPage E C) (g' : RawPage → res E C),
       PageFrameImpl.write f' fr' = (Panic, fr') ∧ PageFrameImpl.read g' fr' = (Panic, fr')).
Proof.
  intros Hfree Hd Hu. split.
  - intros a Hf fr'. split; [by apply write_free|]. by apply (read_free g fr').
  - intros Hf fr'. pose proof (write_panic f fr p' Hfree Hf) as Hw.
    unfold fr'. rewrite Hw. split_and!; [done..|]. by intros C f' g'.
Qed.

(** ** Witnesses *)

Definition sample_frame : PageFrame := PageFrameImpl.new 10 IndexLeaf empty_page.

Lemma frame_slotted_roundtrip_witness :
  ∃ w fr1, PageFrameImpl.write_guard (E:=Empty_set) sample_frame = (Ok w, fr1) ∧
    ∃ page, FrameWriteGuardImpl.slotted_mut w fr1 = Ok page ∧ page = empty_page ∧
    ∃ fr1', on_page (E:=Empty_set) (run_view dbg sample_ops) fr1 =
      (Ok (spec_run 4096 sample_ops []).1, fr1') ∧
    let fr2 := FrameWriteGuardImpl.drop w false fr1' in
    frame_free fr2 ∧ fr2 = with_latch (latch fr2) sample_frame ∧
    ∃ r fr3, PageFrameImpl.read_guard (E:=Empty_set) fr2 = (Ok r, fr3) ∧
    ∃ view, FrameReadGuardImpl.slotted_ref r fr3 = Ok view ∧
      SlottedPageRef.cell_slice_from_id dbg (MkSlotID 1) view = spec_get 1 (spec_run 4096 sample_ops []).2 ∧
      FrameReadGuardImpl.drop r fr3 = fr2.
Proof.
  refine (frame_slotted_roundtrip dbg sample_frame 4096 [] sample_ops (MkSlotID 1)
            eq_refl empty_page_slotted _ _).
  - apply (bool_decide_unpack _). vm_compute. exact I.
  - vm_compute. congruence.
Defined.

Lemma frame_closures_witness :
  let f : M RawPage Empty_set unit := λ p, (Panic, sample_page) in
  let fr' := (PageFrameImpl.write f sample_frame).2 in
  page_of fr' = sample_page ∧
  PageFrameImpl.write f fr' = (Panic, fr') ∧
  PageFrameImpl.read (E:=Empty_set) (λ _, Ok tt) fr' = (Panic, fr').
Proof.
  destruct (proj2 (frame_closures (λ p, (Panic, sample_page) : res Empty_set unit * RawPage)
    (λ _, Ok tt) sample_frame sample_page eq_refl ltac:(done) ltac:(done)) eq_refl) as (_ & Hp & H).
  split; [exact Hp|]. exact (H unit _ _).
Defined.
