(* ===== verification/FrameThreads.v ===== *)
(** * Threads that share a page frame

    Any number of threads take read and write guards of one frame, call the
    page code through [slotted_mut] and [slotted_ref], drop their guards or
    panic while they hold one.  An event is the next thing one thread does; it
    is not possible while the lock makes the thread wait.

    The page code is not atomic.  A call begins and ends in separate events,
    with events of other threads in between:
    - an insertion works from the bytes it found when it began; until it ends
      it may leave any bytes on the page, and when it ends the page is what it
      computed, whatever the page has become meanwhile;
    - a lookup reads its bytes one by one: it sees any mixture of the contents
      the page had between its beginning and its end.
    Nothing but the lock keeps calls apart.

    The ghost fields are the contents the page has had, and the calls with
    their replies in the order in which they returned. *)

From S2P Require Import Prelude Bytes PageTypes Slotted SlottedHeader SlottedCells SlottedProps.
From S2P Require Import RwLock PageFrame PageFrameProps.

(** What a thread holds. *)
Inductive hold := Reading (g : FrameReadGuard) | Writing (g : FrameWriteGuard) | Gone.

(** A call of the page code in progress. *)
Inductive activity :=
| Inserting (o : page_op) (found : RawPage)   (* works from the bytes [found] *)
| Looking (id : SlotID) (since : nat)         (* reads the contents from number [since] on *)
| Stuck.                                      (* undefined behaviour, or never returns *)

Inductive call := AddCell (o : page_op) | GetCell (id : SlotID).
Inductive reply := Inserted (r : res PageError unit) | Found (r : res PageError (list Z)).

Record frame_system := FrameSystem {
  frame : PageFrame;
  holders : gmap nat hold;
  active : gmap nat activity;
  history : list RawPage;
  log : list (call * reply) }.

Inductive frame_event :=
| TakeRead (i : nat)
| TakeWrite (i : nat)
| BeginInsert (i : nat) (o : page_op)      (* w.slotted_mut()?.add_cell_..(..) *)
| PartialWrite (i : nat) (p : RawPage)     (* the insertion leaves the bytes [p] for now *)
| EndInsert (i : nat)
| BeginLookUp (i : nat) (id : SlotID)      (* r.slotted_ref()?.cell_slice_from_id(id) *)
| EndLookUp (i : nat) (seen : RawPage)     (* having read the bytes [seen] *)
| DropGuard (i : nat)
| PanicThread (i : nat).                   (* the thread panics outside the page code *)

(** Every byte of [seen] was at its place in one of the [contents]. *)
Definition mixture (seen : RawPage) (contents : list RawPage) : Prop :=
  length seen = Z.to_nat PAGE_SIZE ∧
  Forall (λ k, Exists (λ q, seen !! k = q !! k) contents) (seq 0 (Z.to_nat PAGE_SIZE)).

#[global] Instance mixture_dec seen contents : Decision (mixture seen contents).
Proof. apply _. Defined.

Definition with_frame (fr : PageFrame) (hs : gmap nat hold) (s : frame_system) : frame_system :=
  FrameSystem fr hs (active s) (history s) (log s).
Definition with_active (a : gmap nat activity) (s : frame_system) : frame_system :=
  FrameSystem (frame s) (holders s) a (history s) (log s).
Definition set_page (p : RawPage) (s : frame_system) : frame_system :=
  FrameSystem (on_page (E:=Empty_set) (λ _, (Ok tt, p)) (frame s)).2
    (holders s) (active s) (history s ++ [p]) (log s).
Definition record (c : call) (r : reply) (s : frame_system) : frame_system :=
  FrameSystem (frame s) (holders s) (active s) (history s) (log s ++ [(c, r)]).

(** The call of thread [i] is over with result [r].  A panic unwinds and drops
    the guard with [unwind]. *)
Definition finish {A} (i : nat) (r : res PageError A) (unwind : PageFrame → PageFrame)
    (s : frame_system) : frame_system :=
  match r with
  | Ok _ | Err _ => with_active (delete i (active s)) s
  | Panic => with_active (delete i (active s)) (with_frame (unwind (frame s)) (<[i := Gone]> (holders s)) s)
  | UB | Diverge => with_active (<[i := Stuck]> (active s)) s
  end.

Section Events.
Context (t : target).

Definition handle_frame_event (e : frame_event) (s : frame_system) : option frame_system :=
  match e with
  | TakeRead i =>
      match holders s !! i, PageFrameImpl.read_guard (E:=Empty_set) (frame s) with
      | None, (Ok g, fr) => Some (with_frame fr (<[i := Reading g]> (holders s)) s)
      | None, (Panic, fr) => Some (with_frame fr (<[i := Gone]> (holders s)) s)
      | _, _ => None
      end
  | TakeWrite i =>
      match holders s !! i, PageFrameImpl.write_guard (E:=Empty_set) (frame s) with
      | None, (Ok g, fr) => Some (with_frame fr (<[i := Writing g]> (holders s)) s)
      | None, (Panic, fr) => Some (with_frame fr (<[i := Gone]> (holders s)) s)
      | _, _ => None
      end
  | BeginInsert i o =>
      match active s !! i, holders s !! i with
      | None, Some (Writing g) =>
          match FrameWriteGuardImpl.slotted_mut g (frame s) with
          | Ok view => Some (with_active (<[i := Inserting o view]> (active s)) s)
          | _ => Some s
          end
      | _, _ => None
      end
  | PartialWrite i p =>
      match active s !! i with
      | Some (Inserting _ _) => Some (set_page p s)
      | _ => None
      end
  | EndInsert i =>
      match active s !! i, holders s !! i with
      | Some (Inserting o found), Some (Writing g) =>
          let '(r, p) := exec t o found in
          Some (finish i r (FrameWriteGuardImpl.drop g true) (record (AddCell o) (Inserted r) (set_page p s)))
      | _, _ => None
      end
  | BeginLookUp i id =>
      match active s !! i, holders s !! i with
      | None, Some (Reading g) =>
          match FrameReadGuardImpl.slotted_ref g (frame s) with
          | Ok _ => Some (with_active (<[i := Looking id (pred (length (history s)))]> (active s)) s)
          | _ => Some s
          end
      | _, _ => None
      end
  | EndLookUp i seen =>
      match active s !! i, holders s !! i with
      | Some (Looking id since), Some (Reading g) =>
          if decide (mixture seen (drop since (history s))) then
            let r := SlottedPageRef.cell_slice_from_id t id (SlottedPageRef.from_bytes seen) in
            Some (finish i r (FrameReadGuardImpl.drop g) (record (GetCell id) (Found r) s))
          else None
      | _, _ => None
      end
  | DropGuard i =>
      match active s !! i, holders s !! i with
      | None, Some (Reading g) =>
          Some (with_frame (FrameReadGuardImpl.drop g (frame s)) (delete i (holders s)) s)
      | None, Some (Writing g) =>
          Some (with_frame (FrameWriteGuardImpl.drop g false (frame s)) (delete i (holders s)) s)
      | _, _ => None
      end
  | PanicThread i =>
      match active s !! i, holders s !! i with
      | None, Some (Reading g) =>
          Some (with_frame (FrameReadGuardImpl.drop g (frame s)) (<[i := Gone]> (holders s)) s)
      | None, Some (Writing g) =>
          Some (with_frame (FrameWriteGuardImpl.drop g true (frame s)) (<[i := Gone]> (holders s)) s)
      | None, None => Some (with_frame (frame s) (<[i := Gone]> (holders s)) s)
      | _, _ => None
      end
  end.

Fixpoint handle_frame_events (es : list frame_event) (s : frame_system) : option frame_system :=
  match es with
  | [] => Some s
  | e :: es => match handle_frame_event e s with Some s' => handle_frame_events es s' | None => None end
  end.
End Events.

(** A new frame and threads that hold nothing. *)
Definition fresh_system (checksum : Z) (k : PageKind) (p : RawPage) : frame_system :=
  FrameSystem (PageFrameImpl.new checksum k p) ∅ ∅ [p] [].

(** Event arguments of their Rust types. *)
Definition event_ok (e : frame_event) : Prop :=
  match e with
  | BeginInsert _ o => op_ok o
  | PartialWrite _ p | EndLookUp _ p => page_ok p
  | BeginLookUp _ id => 0 ≤ SlotID_0 id
  | _ => True
  end.

#[global] Instance event_ok_dec e : Decision (event_ok e).
Proof. destruct e; cbn; apply _. Defined.

Inductive typed_step (t : target) : frame_system → frame_system → Prop :=
| typed_step_intro e s s' : event_ok e → handle_frame_event t e s = Some s' → typed_step t s s'.

(** ** The sequential specification: one caller and a list of cells *)

Definition seq_step (lim : Z) (c : call) (cs : list cell) : reply * list cell :=
  match c with
  | AddCell o =>
      match spec_exec lim o cs with
      | Ok cs' => (Inserted (Ok tt), cs')
      | Err e => (Inserted (Err e), cs)
      | _ => (Inserted Panic, cs)
      end
  | GetCell id => (Found (spec_get (SlotID_0 id) cs), cs)
  end.

Fixpoint seq_run (lim : Z) (calls : list call) (cs : list cell) : list reply * list cell :=
  match calls with
  | [] => ([], cs)
  | c :: calls =>
      let '(r, cs1) := seq_step lim c cs in
      let '(rs, cs2) := seq_run lim calls cs1 in (r :: rs, cs2)
  end.

Definition is_reader (h : hold) : bool := match h with Reading _ => true | _ => false end.
Definition is_writer (h : hold) : bool := match h with Writing _ => true | _ => false end.

(** The threads that hold a read guard. *)
Definition reader_set (hs : gmap nat hold) : gset nat := dom (filter (λ x, is_reader x.2 = true) hs).
Definition writer_set (hs : gmap nat hold) : gset nat := dom (filter (λ x, is_writer x.2 = true) hs).
