(* ===== verification/FrameThreadsProps.v ===== *)
(** * Theorems about threads that share a page frame *)

From S2P Require Import Prelude Bytes PageTypes Slotted SlottedHeader SlottedCells SlottedProps.
From S2P Require Import RwLock PageFrame PageFrameProps FrameThreads.
From stdpp Require Import relations.
#[local] Open Scope Z_scope.

(** ** The sets of readers and writers *)

Section Holders.
Implicit Types (hs : gmap nat hold) (h : hold) (i : nat).

Lemma elem_of_reader_set i hs : i ∈ reader_set hs ↔ ∃ g, hs !! i = Some (Reading g).
Proof.
  unfold reader_set. rewrite elem_of_dom. unfold is_Some. setoid_rewrite map_lookup_filter_Some. cbn. split.
  - intros ([g| |] & ? & ?); by eauto.
  - intros [g ?]. by exists (Reading g).
Qed.

Lemma elem_of_writer_set i hs : i ∈ writer_set hs ↔ ∃ g, hs !! i = Some (Writing g).
Proof.
  unfold writer_set. rewrite elem_of_dom. unfold is_Some. setoid_rewrite map_lookup_filter_Some. cbn. split.
  - intros ([|g|] & ? & ?); by eauto.
  - intros [g ?]. by exists (Writing g).
Qed.

Lemma reader_set_insert i h hs :
  reader_set (<[i := h]> hs) = if is_reader h then {[i]} ∪ reader_set hs else reader_set hs ∖ {[i]}.
Proof.
  apply set_eq. intros j. destruct (decide (j = i)) as [->|Hne].
  - rewrite elem_of_reader_set, lookup_insert_eq. destruct h; cbn; set_solver.
  - rewrite elem_of_reader_set, lookup_insert_ne, <- elem_of_reader_set by done.
    destruct (is_reader h); set_solver.
Qed.

Lemma writer_set_insert i h hs :
  writer_set (<[i := h]> hs) = if is_writer h then {[i]} ∪ writer_set hs else writer_set hs ∖ {[i]}.
Proof.
  apply set_eq. intros j. destruct (decide (j = i)) as [->|Hne].
  - rewrite elem_of_writer_set, lookup_insert_eq. destruct h; cbn; set_solver.
  - rewrite elem_of_writer_set, lookup_insert_ne, <- elem_of_writer_set by done.
    destruct (is_writer h); set_solver.
Qed.

(** Thread [i] holds nothing any more, the others hold what they held. *)
Definition left_by i hs hs' : Prop :=
  (∀ j, j ≠ i → hs' !! j = hs !! j) ∧ (hs' !! i = None ∨ hs' !! i = Some Gone).

Lemma left_by_delete i hs : left_by i hs (delete i hs).
Proof. split; [|left; apply lookup_delete_eq]. intros. by rewrite lookup_delete_ne. Qed.
Lemma left_by_gone i hs : left_by i hs (<[i := Gone]> hs).
Proof. split; [|right; apply lookup_insert_eq]. intros. by rewrite lookup_insert_ne. Qed.

Lemma reader_set_left i hs hs' : left_by i hs hs' → reader_set hs' = reader_set hs ∖ {[i]}.
Proof.
  intros [Hne Hi]. apply set_eq. intros j.
  rewrite elem_of_difference, elem_of_singleton, !elem_of_reader_set.
  destruct (decide (j = i)) as [->|Hj]; [|rewrite (Hne j Hj)]; naive_solver.
Qed.
Lemma writer_set_left i hs hs' : left_by i hs hs' → writer_set hs' = writer_set hs ∖ {[i]}.
Proof.
  intros [Hne Hi]. apply set_eq. intros j.
  rewrite elem_of_difference, elem_of_singleton, !elem_of_writer_set.
  destruct (decide (j = i)) as [->|Hj]; [|rewrite (Hne j Hj)]; naive_solver.
Qed.
Lemma left_by_holds i hs hs' j h : left_by i hs hs' → hs' !! j = Some h → h ≠ Gone → hs !! j = Some h.
Proof. intros [Hne Hi] Hj Hg. destruct (decide (j = i)) as [->|Hji]; [naive_solver|by rewrite <- Hne]. Qed.

Lemma size_add i (X : gset nat) : i ∉ X → size ({[i]} ∪ X) = S (size X).
Proof. intros. rewrite size_union, size_singleton by set_solver. done. Qed.
Lemma size_sub i (X : gset nat) : i ∈ X → size (X ∖ {[i]}) = pred (size X).
Proof. intros. rewrite size_difference, size_singleton by set_solver. lia. Qed.
End Holders.

(** ** The lock and the guards agree *)

Record locked (k : PageKind) (l : RwLock RawPage) (hs : gmap nat hold) : Prop := {
  locked_readers : readers l = size (reader_set hs);
  locked_writers : size (writer_set hs) = if writer l then 1%nat else 0%nat;
  locked_exclusive : writer l = true → readers l = 0%nat;
  locked_read_kind i g : hs !! i = Some (Reading g) → read_kind g = k;
  locked_write_kind i g : hs !! i = Some (Writing g) → write_kind g = k }.

Section Locked.
Context (k : PageKind).
Implicit Types (l : RwLock RawPage) (hs : gmap nat hold).

(** Changing the bytes or the poison flag. *)
Lemma locked_value l hs p b : locked k l hs → locked k (MkRwLock p (readers l) (writer l) b) hs.
Proof. by intros []. Qed.

Lemma locked_take_read l hs i g b :
  locked k l hs → hs !! i = None → writer l = false → read_kind g = k →
  locked k (MkRwLock (value l) (S (readers l)) false b) (<[i := Reading g]> hs).
Proof.
  intros [Hr Hw He Hk Hk'] Hi Hwl Hg. rewrite Hwl in Hw.
  assert (i ∉ reader_set hs) by (rewrite elem_of_reader_set; naive_solver).
  assert (i ∉ writer_set hs) by (rewrite elem_of_writer_set; naive_solver).
  split; cbn.
  - rewrite reader_set_insert. cbn. by rewrite size_add, Hr.
  - rewrite writer_set_insert. cbn. by rewrite difference_disjoint_L by set_solver.
  - done.
  - intros j g'. rewrite lookup_insert_Some. naive_solver.
  - intros j g'. rewrite lookup_insert_Some. naive_solver.
Qed.

Lemma locked_take_write l hs i g b :
  locked k l hs → hs !! i = None → writer l = false → readers l = 0%nat → write_kind g = k →
  locked k (MkRwLock (value l) 0 true b) (<[i := Writing g]> hs).
Proof.
  intros [Hr Hw He Hk Hk'] Hi Hwl Hrl Hg. rewrite Hwl in Hw.
  assert (i ∉ reader_set hs) by (rewrite elem_of_reader_set; naive_solver).
  assert (i ∉ writer_set hs) by (rewrite elem_of_writer_set; naive_solver).
  split; cbn.
  - rewrite reader_set_insert. cbn. rewrite difference_disjoint_L by set_solver. congruence.
  - rewrite writer_set_insert. cbn. by rewrite size_add, Hw.
  - done.
  - intros j g'. rewrite lookup_insert_Some. naive_solver.
  - intros j g'. rewrite lookup_insert_Some. naive_solver.
Qed.

Lemma locked_leave_read l hs hs' i g :
  locked k l hs → hs !! i = Some (Reading g) → left_by i hs hs' →
  locked k (RwLockImpl.drop_read l) hs'.
Proof.
  intros [Hr Hw He Hk Hk'] Hi Hl.
  assert (Hin : i ∈ reader_set hs) by (rewrite elem_of_reader_set; eauto).
  assert (i ∉ writer_set hs) by (rewrite elem_of_writer_set; naive_solver).
  split; cbn.
  - rewrite (reader_set_left _ _ _ Hl), size_sub by done. by rewrite Hr.
  - rewrite (writer_set_left _ _ _ Hl), difference_disjoint_L by set_solver. done.
  - intros E. by rewrite (He E).
  - intros j g' Hj. eapply Hk, left_by_holds; eauto.
  - intros j g' Hj. eapply Hk', left_by_holds; eauto.
Qed.

Lemma locked_leave_write l hs hs' i g b :
  locked k l hs → hs !! i = Some (Writing g) → left_by i hs hs' →
  locked k (RwLockImpl.drop_write b l) hs'.
Proof.
  intros [Hr Hw He Hk Hk'] Hi Hl.
  assert (Hin : i ∈ writer_set hs) by (rewrite elem_of_writer_set; eauto).
  assert (i ∉ reader_set hs) by (rewrite elem_of_reader_set; naive_solver).
  split; cbn.
  - rewrite (reader_set_left _ _ _ Hl), difference_disjoint_L by set_solver. done.
  - rewrite (writer_set_left _ _ _ Hl), size_sub, Hw by done. by destruct (writer l).
  - done.
  - intros j g' Hj. eapply Hk, left_by_holds; eauto.
  - intros j g' Hj. eapply Hk', left_by_holds; eauto.
Qed.

Lemma locked_idle_gone l hs i :
  locked k l hs → hs !! i = None → locked k l (<[i := Gone]> hs).
Proof.
  intros [Hr Hw He Hk Hk'] Hi. pose proof (left_by_gone i hs) as Hl.
  assert (i ∉ reader_set hs) by (rewrite elem_of_reader_set; naive_solver).
  assert (i ∉ writer_set hs) by (rewrite elem_of_writer_set; naive_solver).
  split.
  - by rewrite (reader_set_left _ _ _ Hl), difference_disjoint_L by set_solver.
  - by rewrite (writer_set_left _ _ _ Hl), difference_disjoint_L by set_solver.
  - done.
  - intros j g' Hj. eapply Hk, left_by_holds; eauto.
  - intros j g' Hj. eapply Hk', left_by_holds; eauto.
Qed.
End Locked.

(** A writer excludes every other holder. *)
Lemma locked_writer_alone k l hs i g j h :
  locked k l hs → hs !! i = Some (Writing g) → j ≠ i → hs !! j = Some h → h = Gone.
Proof.
  intros [Hr Hw He _ _] Hi Hne Hj.
  assert (Hin : i ∈ writer_set hs) by (rewrite elem_of_writer_set; eauto).
  assert (Hwl : writer l = true).
  { destruct (writer l); [done|]. apply size_empty_inv in Hw. by apply Hw, elem_of_empty in Hin. }
  rewrite Hwl in Hw. rewrite (He Hwl) in Hr. destruct h as [g'|g'|]; [| |done]; exfalso.
  - assert (Hjr : j ∈ reader_set hs) by (rewrite elem_of_reader_set; eauto).
    symmetry in Hr. apply size_empty_inv in Hr. by apply Hr, elem_of_empty in Hjr.
  - assert (Hjw : j ∈ writer_set hs) by (rewrite elem_of_writer_set; eauto).
    apply size_1_elem_of in Hw as [x Hx]. apply Hx, elem_of_singleton in Hin, Hjw. congruence.
Qed.

(** ** Taking a guard *)

Lemma with_latch_id fr : with_latch (latch fr) fr = fr.
Proof. by destruct fr. Qed.

(** What taking a guard does, by the state of the lock. *)
Lemma read_guard_cases fr :
  PageFrameImpl.read_guard (E:=Empty_set) fr =
    if writer (latch fr) then (Diverge, fr)
    else if poisoned (latch fr) then (Panic, fr)
    else (Ok (MkFrameReadGuard (kind fr)),
          with_latch (MkRwLock (page_of fr) (S (readers (latch fr))) false false) fr).
Proof.
  unfold PageFrameImpl.read_guard, on_latch, RwLockImpl.read, mbind, M_bind. destruct fr as [? ? ? [? ? w b] ?].
  cbn. by destruct w, b.
Qed.

Lemma write_guard_cases fr :
  PageFrameImpl.write_guard (E:=Empty_set) fr =
    if writer (latch fr) || negb (readers (latch fr) =? 0)%nat then (Diverge, fr)
    else if poisoned (latch fr) then (Panic, fr)
    else (Ok (MkFrameWriteGuard (kind fr)), with_latch (MkRwLock (page_of fr) 0 true false) fr).
Proof.
  unfold PageFrameImpl.write_guard, on_latch, RwLockImpl.write, mbind, M_bind. destruct fr as [? ? ? [? r w b] ?].
  cbn. destruct w; [done|]. destruct r; [|done]. by destruct b.
Qed.

(** ** Guards and calls

    Calls in progress belong to threads with the right guard, and the newest
    entry of the history is the page.  None of this depends on the bytes. *)

Definition fits (a : activity) (h : option hold) : Prop :=
  match a, h with
  | Inserting _ _, Some (Writing _) | Looking _ _, Some (Reading _) => True
  | Stuck, Some (Reading _) | Stuck, Some (Writing _) => True
  | _, _ => False
  end.

Record guarded (s : frame_system) : Prop := {
  g_lock : locked (kind (frame s)) (latch (frame s)) (holders s);
  g_fits i a : active s !! i = Some a → fits a (holders s !! i);
  g_history : list.last (history s) = Some (page_of (frame s)) }.

Lemma guarded_new checksum k p : guarded (fresh_system checksum k p).
Proof. split; [|done|done]. by split. Qed.

Section Guarded.
Implicit Types (s : frame_system) (i : nat).

Lemma guarded_inserting s i o q :
  guarded s → active s !! i = Some (Inserting o q) → ∃ g, holders s !! i = Some (Writing g).
Proof. intros Hg Hi. pose proof (g_fits s Hg _ _ Hi) as H. destruct (holders s !! i) as [[]|]; by eauto. Qed.

(** While a thread inserts, no other call is in progress. *)
Lemma guarded_alone s i o q j a :
  guarded s → active s !! i = Some (Inserting o q) → active s !! j = Some a → j = i.
Proof.
  intros Hg Hi Hj. destruct (guarded_inserting _ _ _ _ Hg Hi) as [g Hw].
  destruct (decide (j = i)) as [|Hne]; [done|]. pose proof (g_fits s Hg _ _ Hj) as Hf.
  destruct (holders s !! j) as [h|] eqn:Eh; [|by destruct a].
  rewrite (locked_writer_alone _ _ _ i g j h (g_lock s Hg) Hw Hne Eh) in Hf. by destruct a.
Qed.

(** New holders and a new lock around the same bytes. *)
Lemma guarded_frame s l hs :
  guarded s → value l = page_of (frame s) → locked (kind (frame s)) l hs →
  (∀ i a, active s !! i = Some a → hs !! i = holders s !! i) →
  guarded (with_frame (with_latch l (frame s)) hs s).
Proof.
  intros [_ Hf Hh] Hv Hl Hsame. split; cbn; [done| |].
  - intros i a Hi. rewrite (Hsame _ _ Hi). eauto.
  - by rewrite Hh, <- Hv.
Qed.

Lemma guarded_active s i a :
  guarded s → fits a (holders s !! i) → guarded (with_active (<[i := a]> (active s)) s).
Proof.
  intros [Hl Hf Hh] Ha. split; cbn; [done| |done].
  intros j b. rewrite lookup_insert_Some. naive_solver.
Qed.

Lemma guarded_inactive s i : guarded s → guarded (with_active (delete i (active s)) s).
Proof.
  intros [Hl Hf Hh]. split; cbn; [done| |done]. intros j b. rewrite lookup_delete_Some. naive_solver.
Qed.

Lemma guarded_set_page s p : guarded s → guarded (set_page p s).
Proof. intros [Hl Hf Hh]. split; cbn; [by apply locked_value|done|by rewrite last_snoc]. Qed.

Lemma guarded_record s c r : guarded s → guarded (record c r s).
Proof. by intros []. Qed.

(** Leaving the lock, as a reader or as a writer. *)
Definition unlocks (unwind : PageFrame → PageFrame) (h : hold) : Prop :=
  match h with
  | Reading g => unwind = FrameReadGuardImpl.drop g
  | Writing g => ∃ b, unwind = FrameWriteGuardImpl.drop g b
  | Gone => False
  end.

Lemma guarded_leave s i h unwind hs' :
  guarded s → active s !! i = None → holders s !! i = Some h → unlocks unwind h →
  left_by i (holders s) hs' → guarded (with_frame (unwind (frame s)) hs' s).
Proof.
  intros Hg Ha Hi Hu Hl. pose proof (g_lock s Hg) as Hlk.
  assert (Hsame : ∀ j a, active s !! j = Some a → hs' !! j = holders s !! j).
  { intros j a Hj. apply Hl. congruence. }
  destruct h as [g|g|]; cbn in Hu; [subst|destruct Hu as [b ->]|done].
  - apply guarded_frame; [done..| |done]. eapply locked_leave_read; eauto.
  - apply guarded_frame; [done..| |done]. eapply locked_leave_write; eauto.
Qed.

Lemma guarded_finish {A} s i h (r : res PageError A) unwind :
  guarded s → holders s !! i = Some h → unlocks unwind h → guarded (finish i r unwind s).
Proof.
  intros Hg Hi Hu. destruct r; cbn.
  - by apply guarded_inactive.
  - by apply guarded_inactive.
  - set (s1 := with_active (delete i (active s)) s).
    change (guarded (with_frame (unwind (frame s1)) (<[i := Gone]> (holders s1)) s1)).
    apply (guarded_leave s1 i h); try done.
    + by apply guarded_inactive.
    + apply lookup_delete_eq.
    + apply left_by_gone.
  - apply guarded_active; [done|]. rewrite Hi. by destruct h.
  - apply guarded_active; [done|]. rewrite Hi. by destruct h.
Qed.

Lemma guarded_idle_gone s i :
  guarded s → holders s !! i = None → guarded (with_frame (frame s) (<[i := Gone]> (holders s)) s).
Proof.
  intros Hg Hi. rewrite <- (with_latch_id (frame s)) at 1.
  apply guarded_frame; [done..| |]; [by apply locked_idle_gone; [apply g_lock|]|].
  intros j a Hj. rewrite lookup_insert_ne; [done|]. intros <-.
  pose proof (g_fits s Hg _ _ Hj) as H. rewrite Hi in H. by destruct a.
Qed.

Lemma guarded_take s i h l :
  guarded s → holders s !! i = None → value l = page_of (frame s) →
  locked (kind (frame s)) l (<[i := h]> (holders s)) →
  guarded (with_frame (with_latch l (frame s)) (<[i := h]> (holders s)) s).
Proof.
  intros Hg Hi Hv Hl. apply guarded_frame; [done..|].
  intros j a Hj. rewrite lookup_insert_ne; [done|]. intros <-.
  pose proof (g_fits s Hg _ _ Hj) as H. rewrite Hi in H. by destruct a.
Qed.

Lemma guarded_event t s e s' : guarded s → handle_frame_event t e s = Some s' → guarded s'.
Proof.
  intros Hg. pose proof (g_lock s Hg) as Hl. destruct e as [i|i|i o|i p|i|i id|i seen|i|i]; cbn.
  - destruct (holders s !! i) eqn:Hi; [done|]. rewrite read_guard_cases.
    destruct (writer _) eqn:Hw; [done|].
    destruct (poisoned _); intros [= <-]; [by apply guarded_idle_gone|].
    apply guarded_take; [done..|]. by apply locked_take_read.
  - destruct (holders s !! i) eqn:Hi; [done|]. rewrite write_guard_cases.
    destruct (writer _) eqn:Hw; [done|]. cbn [orb].
    destruct (Nat.eqb_spec (readers (latch (frame s))) 0); [|done]. cbn [negb].
    destruct (poisoned _); intros [= <-]; [by apply guarded_idle_gone|].
    apply guarded_take; [done..|]. by apply locked_take_write.
  - destruct (active s !! i), (holders s !! i) as [[]|] eqn:Hi; try done.
    case_match; intros [= <-]; try done. apply guarded_active; [done|]. by rewrite Hi.
  - destruct (active s !! i) as [[]|]; try done. intros [= <-]. by apply guarded_set_page.
  - destruct (active s !! i) as [[]|], (holders s !! i) as [[]|] eqn:Hi; try done.
    destruct (exec t o found) as [r p]. intros [= <-].
    eapply guarded_finish; [by apply guarded_record, guarded_set_page|exact Hi|by eexists].
  - destruct (active s !! i), (holders s !! i) as [[]|] eqn:Hi; try done.
    case_match; intros [= <-]; try done. apply guarded_active; [done|]. by rewrite Hi.
  - destruct (active s !! i) as [[]|], (holders s !! i) as [[]|] eqn:Hi; try done.
    case_decide; [|done]. intros [= <-]. eapply guarded_finish; [by apply guarded_record|exact Hi|done].
  - destruct (active s !! i) eqn:Ha, (holders s !! i) as [[]|] eqn:Hi; try done; intros [= <-];
      (eapply guarded_leave; eauto using left_by_delete); cbn; eauto.
  - destruct (active s !! i) eqn:Ha, (holders s !! i) as [[]|] eqn:Hi; try done; intros [= <-];
      [..|by apply guarded_idle_gone]; (eapply guarded_leave; eauto using left_by_gone); cbn; eauto.
Qed.

Lemma guarded_reachable t checksum k p s :
  rtc (typed_step t) (fresh_system checksum k p) s → guarded s.
Proof.
  intros Hr. pose proof (guarded_new checksum k p) as Hg.
  induction Hr as [|s1 s2 s3 Hs _ IH]; [done|]. apply IH. inversion Hs; subst. by eapply guarded_event.
Qed.

Lemma finish_page {A} s i (r : res PageError A) unwind h :
  unlocks unwind h → page_of (frame (finish i r unwind s)) = page_of (frame s) ∧
  history (finish i r unwind s) = history s ∧ log (finish i r unwind s) = log s.
Proof. intros Hu. destruct r, h; cbn in *; try done; by (subst || destruct Hu as [? ->]). Qed.

(** Only a call of an insertion changes the page. *)
Lemma event_page t e s s' :
  handle_frame_event t e s = Some s' →
  page_of (frame s') = page_of (frame s) ∨ ∃ i o q, active s !! i = Some (Inserting o q).
Proof.
  destruct e as [i|i|i o|i p|i|i id|i seen|i|i]; cbn.
  - destruct (holders s !! i); [done|]. rewrite read_guard_cases.
    repeat case_match; intros; simplify_eq; by left.
  - destruct (holders s !! i); [done|]. rewrite write_guard_cases.
    repeat case_match; intros; simplify_eq; by left.
  - repeat case_match; intros; simplify_eq; by left.
  - destruct (active s !! i) as [[]|] eqn:Ha; try done. intros _. right. eauto.
  - destruct (active s !! i) as [[]|] eqn:Ha; try done. intros _. right. eauto.
  - repeat case_match; intros; simplify_eq; by left.
  - destruct (active s !! i) as [[]|], (holders s !! i) as [[g|g|]|]; try done.
    case_decide; [|done]. intros [= <-]. left.
    by destruct (finish_page (record (GetCell id) (Found (SlottedPageRef.cell_slice_from_id t id seen)) s) i
      (SlottedPageRef.cell_slice_from_id t id seen) (FrameReadGuardImpl.drop g) (Reading g) eq_refl).
  - repeat case_match; intros; simplify_eq; by left.
  - repeat case_match; intros; simplify_eq; by left.
Qed.
End Guarded.

(** C14: Guards exclude each other.  In every interleaving of threads that use a
    frame, whatever bytes it holds, a thread with the write guard is the only
    one that holds a guard, the lock counts exactly the read guards alive, and
    as long as a thread keeps a read guard the bytes it sees do not change. *)
Theorem frame_guard_exclusion t checksum k p s :
  rtc (typed_step t) (fresh_system checksum k p) s →
  (∀ i g j h, holders s !! i = Some (Writing g) → j ≠ i → holders s !! j = Some h → h = Gone) ∧
  readers (latch (frame s)) = size (reader_set (holders s)) ∧
  (∀ i g s', holders s !! i = Some (Reading g) → typed_step t s s' →
     page_of (frame s') = page_of (frame s)).
Proof.
  intros Hr. pose proof (guarded_reachable t _ _ _ _ Hr) as Hg. pose proof (g_lock s Hg) as Hl. split_and!.
  - intros i g j h. by eapply locked_writer_alone.
  - by apply Hl.
  - intros i g s' Hi Hs. inversion Hs as [e ? ? _ He]; subst.
    destruct (event_page t e s s' He) as [?|(j & o & q & Hj)]; [done|].
    destruct (guarded_inserting s j o q Hg Hj) as [g' Hw].
    destruct (decide (i = j)) as [->|Hne]; [congruence|].
    by pose proof (locked_writer_alone _ _ _ j g' i (Reading g) Hl Hw Hne Hi).
Qed.

(** ** Calls and the list of cells *)

Lemma seq_run_snoc lim calls c cs :
  seq_run lim (calls ++ [c]) cs =
    let '(rs, cs1) := seq_run lim calls cs in
    let '(r, cs2) := seq_step lim c cs1 in (rs ++ [r], cs2).
Proof.
  revert cs. induction calls as [|c' calls IH]; intros cs; cbn [app seq_run].
  - by destruct (seq_step lim c cs).
  - destruct (seq_step lim c' cs) as [r' cs']. rewrite IH.
    destruct (seq_run lim calls cs') as [rs cs1]. by destruct (seq_step lim c cs1).
Qed.

(** A mixture of equal pages is that page. *)
Lemma mixture_same seen contents p :
  page_ok p → mixture seen contents → (∀ q, q ∈ contents → q = p) → seen = p.
Proof.
  intros [Hp _] [Hlen Hmix] Hall. unfold zlen in Hp. change PAGE_SIZE with 4096 in Hp.
  apply list_eq_same_length with (length p); [done| |].
  - rewrite Hlen. change (Z.to_nat PAGE_SIZE) with 4096%nat. lia.
  - intros k x y Hk Hx Hy. rewrite Forall_forall in Hmix.
    assert (Hex : Exists (λ q, seen !! k = q !! k) contents).
    { apply Hmix, elem_of_seq. change (Z.to_nat PAGE_SIZE) with 4096%nat. lia. }
    apply Exists_exists in Hex as (q & Hq & E). apply Hall in Hq as ->.
    unfold RawPage in *. congruence.
Qed.

Section Linear.
Context (t : target) (lim : Z) (cells : list cell).
Implicit Types (s : frame_system) (i : nat).

(** The list of cells after the calls that have returned. *)
Definition contents s : list cell := (seq_run lim (log s).*1 cells).2.

Definition nobody_inserts s : Prop := ∀ i o q, active s !! i ≠ Some (Inserting o q).

Record consistent s : Prop := {
  con_guard : guarded s;
  con_replies : (log s).*2 = (seq_run lim (log s).*1 cells).1;
  con_insert i o q : active s !! i = Some (Inserting o q) → op_ok o ∧ slotted q lim (contents s);
  con_look i id n : active s !! i = Some (Looking id n) →
    0 ≤ SlotID_0 id ∧ ∀ q, q ∈ drop n (history s) → q = page_of (frame s);
  con_stuck i : active s !! i ≠ Some Stuck;
  con_page : nobody_inserts s → slotted (page_of (frame s)) lim (contents s) }.

Lemma consistent_new checksum k p : slotted p lim cells → consistent (fresh_system checksum k p).
Proof. intros Hp. split; try done; cbn; by apply guarded_new || (intros; by rewrite lookup_empty in *). Qed.

(** Events that change holders and lock only. *)
Lemma consistent_frame s fr hs :
  consistent s → page_of fr = page_of (frame s) → guarded (with_frame fr hs s) →
  consistent (with_frame fr hs s).
Proof.
  intros [Hg Hr Hi Hl Hs Hp] E Hg'. split; cbn; [done..| |done|]; rewrite E; [|exact Hp]. exact Hl.
Qed.

(** A call begins. *)
Lemma consistent_begin_insert s i o :
  consistent s → guarded (with_active (<[i := Inserting o (page_of (frame s))]> (active s)) s) →
  active s !! i = None → op_ok o →
  consistent (with_active (<[i := Inserting o (page_of (frame s))]> (active s)) s).
Proof.
  intros [Hg Hr Hi Hl Hs Hp] Hg' Ha Ho.
  assert (Hin : active (with_active (<[i := Inserting o (page_of (frame s))]> (active s)) s) !! i =
    Some (Inserting o (page_of (frame s)))) by apply lookup_insert_eq.
  assert (Hnone : nobody_inserts s).
  { intros j o' q Hj. assert (j ≠ i) by congruence.
    pose proof (guarded_alone _ _ _ _ j (Inserting o' q) Hg' Hin) as Hn. cbn in Hn.
    rewrite lookup_insert_ne in Hn by done. by apply Hn in Hj. }
  split; cbn; try done.
  - intros j o' q. rewrite lookup_insert_Some. intros [[<- [= <- <-]]|[_ Hj]]; [|by apply Hi in Hj].
    split; [done|by apply Hp].
  - intros j id n. rewrite lookup_insert_Some. intros [[<- [=]]|[_ Hj]]. by eapply Hl.
  - intros j. rewrite lookup_insert_Some. intros [[_ [=]]|[_ Hj]]. by apply (Hs j).
  - intros Hno. by apply Hno in Hin.
Qed.

Lemma consistent_begin_look s i id :
  consistent s → guarded (with_active (<[i := Looking id (pred (length (history s)))]> (active s)) s) →
  active s !! i = None → 0 ≤ SlotID_0 id →
  consistent (with_active (<[i := Looking id (pred (length (history s)))]> (active s)) s).
Proof.
  intros [Hg Hr Hi Hl Hs Hp] Hg' Ha Hid. split; cbn; try done.
  - intros j o' q. rewrite lookup_insert_Some. intros [[<- [=]]|[_ Hj]]. by eapply Hi.
  - intros j id' n. rewrite lookup_insert_Some. intros [[<- [= <- <-]]|[_ Hj]]; [|by eapply Hl].
    split; [done|]. pose proof (g_history s Hg) as Hlast. apply last_Some in Hlast as [l ->].
    intros q. rewrite length_app, Nat.add_comm. cbn [length Nat.add pred].
    rewrite drop_app_length. by intros ?%list_elem_of_singleton.
  - intros j. rewrite lookup_insert_Some. intros [[_ [=]]|[_ Hj]]. by apply (Hs j).
  - intros Hno. apply Hp. intros j o q Hj. apply (Hno j o q). cbn.
    rewrite lookup_insert_ne; [done|congruence].
Qed.

(** An insertion leaves something on the page. *)
Lemma consistent_partial s i o q p :
  consistent s → active s !! i = Some (Inserting o q) → consistent (set_page p s).
Proof.
  intros [Hg Hr Hi Hl Hs Hp] Ha. split; cbn; try done; [by apply guarded_set_page| |].
  - intros j id n Hj. pose proof (guarded_alone _ _ _ _ _ _ Hg Ha Hj). congruence.
  - intros Hno. by apply Hno in Ha.
Qed.

(** A call returns: its reply is the one of the specification. *)
Lemma contents_record s c r s' :
  log s' = log s ++ [(c, r)] → (log s).*2 = (seq_run lim (log s).*1 cells).1 →
  r = (seq_step lim c (contents s)).1 →
  (log s').*2 = (seq_run lim (log s').*1 cells).1 ∧ contents s' = (seq_step lim c (contents s)).2.
Proof.
  intros El Hr ->. unfold contents in *. rewrite El, !fmap_app, !list_fmap_singleton.
  rewrite seq_run_snoc, Hr. destruct (seq_run lim (log s).*1 cells) as [rs cs]. cbn [fst snd].
  by destruct (seq_step lim c cs).
Qed.

Lemma consistent_end_insert s i o q g r p :
  consistent s → active s !! i = Some (Inserting o q) → holders s !! i = Some (Writing g) →
  exec t o q = (r, p) →
  consistent (finish i r (FrameWriteGuardImpl.drop g true) (record (AddCell o) (Inserted r) (set_page p s))).
Proof.
  intros [Hg Hr Hi Hl Hs Hp] Ha Hh He. destruct (Hi _ _ _ Ha) as [Ho Hq].
  pose proof (exec_refines t q lim _ o Hq Ho) as Href. rewrite He in Href.
  assert (Hspec : Inserted r = (seq_step lim (AddCell o) (contents s)).1 ∧
    slotted p lim (seq_step lim (AddCell o) (contents s)).2 ∧ (r = Ok tt ∨ ∃ e, r = Err e)).
  { cbn. unfold refines in Href. destruct (spec_exec lim o (contents s)); try done.
    - destruct Href as (E & ? & _). cbn in E. subst. eauto.
    - injection Href as -> ->. eauto. }
  destruct Hspec as (Hrep & Hsl & Hret).
  set (s1 := record (AddCell o) (Inserted r) (set_page p s)).
  assert (Hg1 : guarded s1) by by apply guarded_record, guarded_set_page.
  replace (finish i r _ s1) with (with_active (delete i (active s1)) s1) by by destruct Hret as [->|[e ->]].
  destruct (contents_record s (AddCell o) (Inserted r) (with_active (delete i (active s1)) s1) eq_refl Hr Hrep)
    as [Hr' Hc'].
  assert (Hidle : ∀ j a, active (with_active (delete i (active s1)) s1) !! j ≠ Some a).
  { intros j a. cbn. rewrite lookup_delete_Some. intros [Hne Hj].
    by pose proof (guarded_alone _ _ _ _ _ _ Hg Ha Hj). }
  split; [by apply guarded_inactive|done|..]; try (intros; by edestruct Hidle).
  - by intros.
  - intros _. by rewrite Hc'.
Qed.

Lemma consistent_end_look s i id n g seen :
  consistent s → active s !! i = Some (Looking id n) → holders s !! i = Some (Reading g) →
  mixture seen (drop n (history s)) →
  let r := SlottedPageRef.cell_slice_from_id t id (SlottedPageRef.from_bytes seen) in
  consistent (finish i r (FrameReadGuardImpl.drop g) (record (GetCell id) (Found r) s)).
Proof.
  intros [Hg Hr Hi Hl Hs Hp] Ha Hh Hm. cbv zeta. destruct (Hl _ _ _ Ha) as [Hid Hsame].
  assert (Hnone : nobody_inserts s).
  { intros j o q Hj. pose proof (guarded_alone _ _ _ _ _ _ Hg Hj Ha). congruence. }
  specialize (Hp Hnone). rewrite (mixture_same _ _ _ (slotted_page _ _ _ Hp) Hm Hsame).
  rewrite (cell_slice_from_id_slotted t _ lim _ id Hp Hid : SlottedPageRef.cell_slice_from_id t id
    (SlottedPageRef.from_bytes (page_of (frame s))) = _).
  set (r := spec_get (SlotID_0 id) (contents s)). set (s1 := record (GetCell id) (Found r) s).
  replace (finish i r _ s1) with (with_active (delete i (active s1)) s1)
    by (unfold r, spec_get; by repeat case_match).
  destruct (contents_record s (GetCell id) (Found r) (with_active (delete i (active s1)) s1) eq_refl Hr eq_refl)
    as [Hr' Hc'].
  assert (Hback : ∀ j a, active (with_active (delete i (active s1)) s1) !! j = Some a → active s !! j = Some a).
  { intros j a. cbn. rewrite lookup_delete_Some. by intros [_ ?]. }
  split; [by apply guarded_inactive, guarded_record|done|..].
  - intros j o q Hj. rewrite Hc'. by eapply Hi, Hback.
  - intros j id' n' Hj. by eapply Hl, Hback.
  - intros j Hj. by eapply Hs, Hback.
  - intros _. by rewrite Hc'.
Qed.

Lemma consistent_event s e s' :
  consistent s → event_ok e → handle_frame_event t e s = Some s' → consistent s'.
Proof.
  intros Hc He Hs. pose proof (guarded_event t s e s' (con_guard s Hc) Hs) as Hg'.
  destruct e as [i|i|i o|i p|i|i id|i seen|i|i]; cbn in He, Hs.
  - destruct (holders s !! i); [done|]. rewrite read_guard_cases in Hs.
    repeat case_match; simplify_eq; by apply consistent_frame.
  - destruct (holders s !! i); [done|]. rewrite write_guard_cases in Hs.
    repeat case_match; simplify_eq; by apply consistent_frame.
  - destruct (active s !! i) eqn:Ha, (holders s !! i) as [[]|]; try done.
    unfold FrameWriteGuardImpl.slotted_mut in Hs.
    destruct (PageKindImpl.uses_slotted_page_layout _); simplify_eq/=; [|done].
    by apply consistent_begin_insert.
  - destruct (active s !! i) as [[]|] eqn:Ha; simplify_eq. by eapply consistent_partial.
  - destruct (active s !! i) as [[]|] eqn:Ha, (holders s !! i) as [[]|] eqn:Hh; try done.
    destruct (exec t o found) as [r p] eqn:E. simplify_eq. by eapply consistent_end_insert.
  - destruct (active s !! i) eqn:Ha, (holders s !! i) as [[]|]; try done.
    unfold FrameReadGuardImpl.slotted_ref in Hs.
    destruct (PageKindImpl.uses_slotted_page_layout _); simplify_eq/=; [|done].
    by apply consistent_begin_look.
  - destruct (active s !! i) as [[]|] eqn:Ha, (holders s !! i) as [[]|] eqn:Hh; try done.
    case_decide; simplify_eq. by eapply consistent_end_look.
  - repeat case_match; simplify_eq; by apply consistent_frame.
  - repeat case_match; simplify_eq; by apply consistent_frame.
Qed.

Lemma consistent_reachable checksum k p s :
  slotted p lim cells → rtc (typed_step t) (fresh_system checksum k p) s → consistent s.
Proof.
  intros Hp Hr. pose proof (consistent_new checksum k p Hp) as Hc.
  induction Hr as [|s1 s2 s3 Hs _ IH]; [done|]. apply IH. inversion Hs; subst. by eapply consistent_event.
Qed.
End Linear.

(** C7: A shared frame is a list of cells.  Calls of any threads overlap, an
    insertion may leave anything on the page until it returns and a lookup
    reads the page byte by byte.  Still, in every interleaving, the calls that
    have returned have the replies of a single caller who makes them one after
    the other, in the order in which they returned, on the list of cells; the
    page represents the resulting list whenever no insertion is in progress;
    no call ends in undefined behaviour or never returns; and while an
    insertion is in progress no other call is. *)
Theorem frame_linearizable t checksum k p lim cells s :
  slotted p lim cells → rtc (typed_step t) (fresh_system checksum k p) s →
  (log s).*2 = (seq_run lim (log s).*1 cells).1 ∧
  ((∀ i o q, active s !! i ≠ Some (Inserting o q)) →
     slotted (page_of (frame s)) lim (seq_run lim (log s).*1 cells).2) ∧
  (∀ i, active s !! i ≠ Some Stuck) ∧
  (∀ i o q j a, active s !! i = Some (Inserting o q) → active s !! j = Some a → j = i).
Proof.
  intros Hp Hr. pose proof (consistent_reachable t lim cells _ _ _ _ Hp Hr) as Hc.
  split_and!; [by apply Hc..|]. intros i o q j a. apply guarded_alone, Hc.
Qed.

(** ** Witnesses *)

Lemma events_reachable t es s s' :
  Forall event_ok es → handle_frame_events t es s = Some s' → rtc (typed_step t) s s'.
Proof.
  intros Hes. revert s. induction Hes as [|e es He _ IH]; intros s; cbn; [by intros [= <-]|].
  destruct (handle_frame_event t e s) as [s1|] eqn:E; [|done]. intros H.
  eapply rtc_l; [by eapply typed_step_intro|by apply IH].
Qed.

(** Thread 0 inserts two cells, wiping the page for a moment; then the lookups
    of threads 1 and 2 overlap. *)
Definition sample_frame_page : RawPage := (exec dbg (AddCellAt 0 [7]) (exec dbg (AppendCell [1; 2]) empty_page).2).2.
Definition sample_events : list frame_event :=
  [TakeWrite 0; BeginInsert 0 (AppendCell [1; 2]); PartialWrite 0 zero_page; EndInsert 0;
   BeginInsert 0 (AddCellAt 0 [7]); EndInsert 0; DropGuard 0;
   TakeRead 1; TakeRead 2; BeginLookUp 1 (MkSlotID 0); BeginLookUp 2 (MkSlotID 2);
   EndLookUp 1 sample_frame_page; EndLookUp 2 sample_frame_page].
Definition sample_start : frame_system := fresh_system 10 IndexLeaf empty_page.
Definition sample_system : frame_system :=
  default sample_start (handle_frame_events dbg sample_events sample_start).

Lemma sample_reachable : rtc (typed_step dbg) sample_start sample_system.
Proof.
  apply (events_reachable dbg sample_events).
  - apply (bool_decide_unpack _). vm_compute. exact I.
  - vm_compute. reflexivity.
Qed.

Lemma frame_guard_exclusion_witness :
  readers (latch (frame sample_system)) = 2%nat ∧
  readers (latch (frame sample_system)) = size (reader_set (holders sample_system)).
Proof.
  split; [vm_compute; reflexivity|].
  exact (proj1 (proj2 (frame_guard_exclusion dbg 10 IndexLeaf empty_page sample_system sample_reachable))).
Defined.

Lemma frame_linearizable_witness :
  (log sample_system).*2 = [Inserted (Ok tt); Inserted (Ok tt); Found (Ok [7]); Found (Err SlotIDOutOfBounds)] ∧
  (log sample_system).*2 = (seq_run 4096 (log sample_system).*1 []).1.
Proof.
  split; [vm_compute; reflexivity|].
  exact (proj1 (frame_linearizable dbg 10 IndexLeaf empty_page 4096 [] sample_system
    empty_page_slotted sample_reachable)).
Defined.
