(* ===== verification/PageCache.v ===== *)
(** * The page cache interface (src/src/buffer/page_cache.rs)

    The trait has no implementation in the repository, so it is a class
    without laws: [get] passes the bytes of a page to a closure over the
    caller's state [K], [fetch] returns a shared frame (an address).
    [BaseFileCache] is the empty cache object that exists so far. *)

From S2P Require Import Prelude Bytes PageTypes PageFrame.

Inductive PageCacheError := PageAllocationFailed.

#[global] Instance PageCacheError_eq_dec : EqDecision PageCacheError.
Proof. solve_decision. Defined.

(** [Arc<PageFrame>] and [Arc<()>]. *)
Definition ArcFrame : Type := nat.
Definition ArcUnit : Type := nat.

Class PageCache (S : Type) := {
  get {K : Type} (page_id : PageID) (f : list Z → M K Empty_set unit) : M (S * K) Empty_set unit;
  fetch (page_id : PageID) : M S PageCacheError ArcFrame;
  put (page : unit) : M S PageCacheError unit;
  remove (page_id : PageID) : M S PageCacheError unit }.

(** [Mutex<HashMap<PageID, Arc<()>>>]: the map, whether the lock is held and
    whether it is poisoned. *)
Record BaseFileCache := MkBaseFileCache {
  cache : gmap PageID ArcUnit; locked : bool; cache_poisoned : bool }.

Module BaseFileCacheImpl.
Definition new : BaseFileCache := MkBaseFileCache ∅ false false.
End BaseFileCacheImpl.
