(* ===== verification/Tree.v ===== *)
(** * Transactions, the meta page and the b-tree base

    src/src/transaction/tx_memory.rs, src/src/meta/meta.rs and
    src/src/tree/btree_base.rs as they stand: records with their constructors,
    the error conversion, and [traverse], which ignores its arguments. *)

From S2P Require Import Prelude Bytes PageTypes IndexPage PageCache.

Record TxMemory := MkTxMemory { tx_cache : ArcUnit; tx_id : Z }.

Module TxMemoryImpl.
Definition new_fake_tx (id : Z) (cache : ArcUnit) : TxMemory := MkTxMemory cache id.
End TxMemoryImpl.

Record BTreeMetaPage := MkBTreeMetaPage { version : Z; meta_checksum : Z; root : PageID }.

Inductive BTreeInnerError := BTreeInnerError_IndexPageError (err : IndexPageError).

Definition from_index_page_error (err : IndexPageError) : BTreeInnerError :=
  BTreeInnerError_IndexPageError err.

Record BInner := MkBInner { tx : TxMemory }.

Module BInnerImpl.
Definition new (tx : TxMemory) : BInner := MkBInner tx.

Definition traverse (self : BInner) (page : PageID) (key : list Z) : res BTreeInnerError PageID :=
  Ok (MkPageID 0).
End BInnerImpl.
