(* ===== verification/UnitTests.v ===== *)
(** * The unit tests of the repository, run in the model

    The tests of src/src/page/slotted_page.rs, src/src/page/mod.rs,
    src/src/buffer/page_frame.rs and src/src/buffer/page_table.rs, translated
    call by call.  [assert_eq!] and
    [unwrap] panic on failure; what a test prints is its result.  The
    theorems show that all of them pass, on every target and, for the test with
    ten threads, in every interleaving. *)

From S2P Require Import Prelude Bytes PageTypes Slotted SlottedHeader SlottedCells IndexPage.
From S2P Require Import RwLock PageFrame Latch LatchFacts PageTable PageTableProps.

(** [.unwrap()] on the result of a call. *)
Definition unwrap {A} (m : W A) : W A := λ p,
  match m p with (Err _, p') => (Panic, p') | r => r end.
(** A call whose [Result] is discarded. *)
Definition discard {A} (m : W A) : W unit := λ p,
  match m p with
  | (Ok _, p') | (Err _, p') => (Ok tt, p')
  | (Panic, p') => (Panic, p')
  | (UB, p') => (UB, p')
  | (Diverge, p') => (Diverge, p')
  end.
(** [match .. { Ok(_) => panic!(..), Err(_) => .. }] *)
Definition expect_err {A} (m : W A) : W unit := λ p,
  match m p with
  | (Err _, p') => (Ok tt, p')
  | (Ok _, p') | (Panic, p') => (Panic, p')
  | (UB, p') => (UB, p')
  | (Diverge, p') => (Diverge, p')
  end.
(** [assert_eq!(a, b)] *)
Definition assert_eq `{EqDecision A} (a b : A) : W unit := lift (assert (bool_decide (a = b))).
(** [for e in page.slot_dir_ref().iter()]: the entries in order. *)
Definition entries_of (t : target) : W (list SlotEntry) :=
  sd ← rd (SlottedPageRef.slot_dir_ref t);
  rd (collect t (S (Z.to_nat (SlotRef.slot_count sd))) (SlotRef.iter sd)).

Section Slotted.
Context (t : target).
Import SlottedPageMut.

Definition getters_and_setters : W unit :=
  _ ← init_new 255;
  c_page_type ← rd get_page_type;
  _ ← assert_eq c_page_type 255;
  let new_page_type := 1 in
  _ ← set_page_type new_page_type;
  v ← rd get_page_type;
  _ ← assert_eq v new_page_type;
  c_free_start ← rd (free_start t);
  _ ← assert_eq c_free_start HEADER_SIZE;
  let new_free_start := 25 in
  _ ← set_free_start t new_free_start;
  v ← rd (free_start t);
  _ ← assert_eq v new_free_start;
  c_free_end ← rd (free_end t);
  _ ← assert_eq c_free_end PAGE_SIZE;
  let new_free_end := PAGE_SIZE - 10 in
  _ ← discard (set_free_end t new_free_end);
  v ← rd (free_end t);
  assert_eq v new_free_end.

Fixpoint assert_entries (assert_vec : list (Z * Z)) (i : nat) (es : list SlotEntry) : W unit :=
  match es with
  | [] => mret tt
  | se :: es =>
      match assert_vec !! i with
      | None => lift Panic
      | Some (len, off) =>
          _ ← assert_eq len (SlotEntry.length se);
          _ ← assert_eq off (SlotEntry.offset se);
          assert_entries assert_vec (S i) es
      end
  end.

Definition slot_dir : W unit :=
  _ ← init_new 255;
  _ ← unwrap (append_slot_entry t 100 12);
  _ ← unwrap (append_slot_entry t 200 21);
  _ ← unwrap (append_slot_entry t 300 22);
  es ← entries_of t;
  assert_entries [(100, 12); (200, 21); (300, 22)] 0 es.

Definition check_undefined_special : W unit :=
  _ ← init_new 255;
  expect_err (get_special_mut t).

Definition check_insert_entry_at_index : W (list SlotEntry * list SlotEntry) :=
  _ ← init_new 255;
  _ ← unwrap (insert_slot_entry_at_index t 0 (SlotEntry.new 20 10));
  _ ← unwrap (append_slot_entry t 12 100);
  _ ← unwrap (append_slot_entry t 15 150);
  _ ← unwrap (append_slot_entry t 40 200);
  printed1 ← entries_of t;
  _ ← unwrap (insert_slot_entry_at_index t 2 (SlotEntry.new 50 30));
  printed2 ← entries_of t;
  mret (printed1, printed2).

(** The bytes of "I am a cell". *)
Definition i_am_a_cell : list Z := [73; 32; 97; 109; 32; 97; 32; 99; 101; 108; 108].

Definition adding_cell_append : W (list Z) :=
  _ ← init_new 255;
  _ ← unwrap (add_cell_append_slot_entry t i_am_a_cell);
  rd (cell_slice_from_id t (MkSlotID 0)).
End Slotted.

Definition test_bits : list PageStates :=
  let state_1 := FastParent in
  let state_2 := HasOverflow in
  let page_flags := PageFlagsImpl.new state_1 in
  let page_flags := PageFlagsImpl.set_flag state_2 page_flags in
  PageFlagsImpl.extract_all_flags page_flags.

(** The test of the page frame: the kind printed before the page enters the
    frame and the one printed from inside it. *)
Definition get_internal_index_page (raw_page : RawPage) :
  res IndexPageError PageKind * res IndexPageError PageKind * PageFrame :=
  let '(r1, p1) := try_w (SlottedPageMut.init_new (PageKindImpl.into_u8 Undefined)) raw_page in
  let '(r2, p2) := IndexPageMut.set_page_type IndexInternal p1 in
  let printed := _ ← r1; _ ← r2; IndexPageMut.kind p2 in
  let frame := PageFrameImpl.new 10 IndexInternal p2 in
  let '(r, frame) := PageFrameImpl.read (λ rp, IndexPageRef.kind (SlottedPageRef.from_bytes rp)) frame in
  (printed, r, frame).

(** The unit tests pass on every target, with the output one would expect. *)
Theorem unit_tests_pass (t : target) :
  (getters_and_setters t zero_page).1 = Ok tt ∧
  (slot_dir t zero_page).1 = Ok tt ∧
  (check_undefined_special t zero_page).1 = Ok tt ∧
  (check_insert_entry_at_index t zero_page).1 =
    Ok ([SlotEntry.new 20 10; SlotEntry.new 100 12; SlotEntry.new 150 15; SlotEntry.new 200 40],
        [SlotEntry.new 20 10; SlotEntry.new 100 12; SlotEntry.new 50 30; SlotEntry.new 150 15;
         SlotEntry.new 200 40]) ∧
  (adding_cell_append t zero_page).1 = Ok i_am_a_cell ∧
  test_bits = [FastParent; HasOverflow] ∧
  (get_internal_index_page zero_page).1 = (Ok IndexInternal, Ok IndexInternal).
Proof. destruct t as [[] []]; split_and!; vm_compute; reflexivity. Qed.

(** ** The test of the mapping table

    Two entries are created and inserted, ten threads look the first one up and
    load it, each with a closure that returns [Memory(1234)]. *)

Definition entry_id_1 : PageID := MkPageID 1234.
Definition entry_id_2 : PageID := MkPageID 5678.

Definition test_naive_map_start : list event :=
  [Create entry_id_1; Create entry_id_2] ++ ((λ i, Load i entry_id_1) <$> seq 0 10).

Definition test_naive_map_work (_ : nat) (_ : PageTableResult) : work_result PageTableResult :=
  WOk (Memory (PageIDImpl.into entry_id_1)).

Definition test_naive_map (t : target) (runs : list (nat * PageTableHandle)) : option (system NaiveMappingTable) :=
  handle_events t test_naive_map_work
    (test_naive_map_start ++ ((λ '(i, h), Run i h) <$> runs)) (System NaiveMappingTableImpl.new ∅ ∅).

(** The start is possible on every target, and in every interleaving of the ten
    threads a thread that gets a result gets [Memory(1234)]. *)
Theorem test_naive_map_passes (t : target) :
  is_Some (test_naive_map t []) ∧
  ∀ runs s h c i v, test_naive_map t runs = Some s → entries s !! h = Some c →
    threads c !! i = Some (Loaded v) → v = Memory 1234.
Proof.
  split; [destruct t as [[] []]; vm_compute; eauto|]. intros runs s h c i v Hs Hh Hi.
  assert (Hc : coherent t test_naive_map_work s).
  { eapply coherent_events, Hs. by apply coherent_new. }
  destruct (coherent_entries _ _ _ Hc _ _ Hh) as (id & off & _ & _ & Hp).
  destruct (phase_agreement _ _ _ _ _ _ Hp Hi) as ((w & Hw & _) & _). by injection Hw as <-.
Qed.
